(** * DipoleMic: tone burst generator (tbg) and analyzer (tba)

    A shallow embedding of [toneBurst.cpp], [tbg.cpp] and [tba.cpp].

    - [long] is the 32 bit signed integer both [main]s assert it to be: a [Z]
      with the wrap-around written out ([long_wrap]).
    - [double] arithmetic is an interface ([DoubleOps], [Libm]) with two
      instances: [IEEE], the binary64 numbers of the machine, and [Ideal],
      the real numbers the doubles approximate.  Every method of the class
      is written once, over the interface.
    - the [while] loop of [calc] and the burst loop of the [main]s run under
      an iteration limit ([LoopLimit]).  The limit of the machine is [2^32],
      the number of values of a [long]: a loop that makes that many tests
      without leaving never leaves.
    - streams are lists of bytes; an input stream has its [eof] flag. *)

From Stdlib Require Import ZArith List Bool Lia.
From Stdlib Require Import Floats.
From Stdlib Require Import Reals Lra.
Import ListNotations.

Local Open Scope Z_scope.

(** ** Machine integers *)

Definition wrap (bits : Z) (z : Z) : Z :=
  (z + 2 ^ (bits - 1)) mod 2 ^ bits - 2 ^ (bits - 1).

Definition long_wrap : Z -> Z := wrap 32.
Definition short_wrap : Z -> Z := wrap 16.

Definition LONG_MIN : Z := - 2 ^ 31.
Definition LONG_MAX : Z := 2 ^ 31 - 1.

Definition in_long (z : Z) : bool := (LONG_MIN <=? z) && (z <=? LONG_MAX).

(** ** Loops *)

(** The result of running a loop for a while: it has left ([Done]), it is
    still going ([More]), or its body never came back ([Stuck]). *)
Inductive run (S : Type) : Type :=
| Done (s : S)
| More (s : S)
| Stuck.
Arguments Done {S} s.
Arguments More {S} s.
Arguments Stuck {S}.

(** [iterate p step s]: at most [p] steps from [s]. *)
Fixpoint iterate {S : Type} (p : positive) (step : S -> run S) (s : S) : run S :=
  match p with
  | xH => step s
  | xO p' =>
      match iterate p' step s with
      | More s' => iterate p' step s'
      | r => r
      end
  | xI p' =>
      match step s with
      | More s1 =>
          match iterate p' step s1 with
          | More s2 => iterate p' step s2
          | r => r
          end
      | r => r
      end
  end.

(** The same, counted in unary: the specification of [iterate]. *)
Fixpoint iterate_nat {S : Type} (n : nat) (step : S -> run S) (s : S) : run S :=
  match n with
  | O => More s
  | Datatypes.S n' =>
      match step s with
      | More s' => iterate_nat n' step s'
      | r => r
      end
  end.

(** The number of steps a loop is given. *)
Class LoopLimit : Type := loop_limit_pos : positive.

Definition loop_limit {limit : LoopLimit} : nat := Pos.to_nat loop_limit_pos.

(** The limit of the machine: [2^32]. *)
Definition LOOP_LIMIT : LoopLimit := 4294967296%positive.

Definition while_step {S : Type} (cond : S -> bool) (body : S -> option S)
  (s : S) : run S :=
  if cond s then
    match body s with
    | Some s' => More s'
    | None => Stuck
    end
  else Done s.

(** [while (cond) body]; [None] when the loop does not end. *)
Definition while {S : Type} {limit : LoopLimit} (cond : S -> bool)
  (body : S -> option S) (s : S) : option S :=
  match iterate loop_limit_pos (while_step cond body) s with
  | Done s' => Some s'
  | _ => None
  end.

(** [for (j = 0; j < n; j++) body], for a body that assigns neither [j]
    nor [n]. *)
Fixpoint for_from {S : Type} (k : nat) (j : Z) (body : Z -> S -> S) (s : S) : S :=
  match k with
  | O => s
  | Datatypes.S k' => for_from k' (j + 1) body (body j s)
  end.

Definition for_long {S : Type} (n : Z) (body : Z -> S -> S) (s : S) : S :=
  for_from (Z.to_nat n) 0 body s.

(** ** Streams *)

Definition ofstream : Type := list Z.

(** [outfile.write((char * )&a, 2)] for a [short a]: low byte first. *)
Definition write_short (a : Z) (o : ofstream) : ofstream :=
  o ++ [a mod 256; (a / 256) mod 256].

Definition le32 (z : Z) : list Z :=
  [z mod 256; (z / 256) mod 256; (z / 65536) mod 256; (z / 16777216) mod 256].

Definition le16 (z : Z) : list Z :=
  [z mod 256; (z / 256) mod 256].

Record ifstream : Type := mkIfstream {
  i_bytes : list Z;
  i_eof : bool
}.

Definition short_of_bytes (b0 b1 : Z) : Z := short_wrap (b0 + 256 * b1).

(** [infile.read((char * )&a, 2)] for a [short a]: a stream that has failed
    reads nothing; a stream that ends early stores the bytes it has and
    fails. *)
Definition read_short (a : Z) (f : ifstream) : Z * ifstream :=
  if i_eof f then (a, f)
  else
    match i_bytes f with
    | b0 :: b1 :: rest => (short_of_bytes b0 b1, mkIfstream rest false)
    | [b0] => (short_of_bytes b0 ((a / 256) mod 256), mkIfstream [] true)
    | [] => (a, mkIfstream [] true)
    end.

(** [infile.read(buf, n)] into a buffer nobody looks at again. *)
Definition read_skip (n : nat) (f : ifstream) : ifstream :=
  if i_eof f then f
  else if (n <=? length (i_bytes f))%nat
       then mkIfstream (skipn n (i_bytes f)) false
       else mkIfstream [] true.

(** ** The arithmetic of [double] *)

Class DoubleOps (D : Type) : Type := {
  d_of_long : Z -> D;           (* double(n), and the integer literals *)
  d_add : D -> D -> D;
  d_sub : D -> D -> D;
  d_mul : D -> D -> D;
  d_div : D -> D -> D;
  d_ltb : D -> D -> bool;
  d_trunc : D -> option Z;      (* the integer part; none for NaN and infinities *)
  d_pi : D                      (* M_PI *)
}.

(** What the program calls of <cmath> and <complex>. *)
Class Libm (D : Type) : Type := {
  d_pow : D -> D -> D;
  d_cos : D -> D;
  d_sin : D -> D;
  d_exp : D -> D;
  d_sqrt : D -> D;
  d_atan2 : D -> D -> D;
  d_log10 : D -> D
}.

Declare Scope dbl_scope.
Delimit Scope dbl_scope with dbl.
Infix "+" := d_add : dbl_scope.
Infix "-" := d_sub : dbl_scope.
Infix "*" := d_mul : dbl_scope.
Infix "/" := d_div : dbl_scope.
Infix "<?" := d_ltb : dbl_scope.

(** Arithmetic of [long]. *)
Definition ladd (a b : Z) : Z := long_wrap (a + b).
Definition lsub (a b : Z) : Z := long_wrap (a - b).
Definition lmul (a b : Z) : Z := long_wrap (a * b).

(** ** toneBurst.h: the constants *)

Definition SAMPLE_RATE : Z := 44100.
Definition INTERVAL : Z := 22050.
Definition BURST_LENGTH : Z := 100.

(** ** toneBurst.h, toneBurst.cpp: class toneBurst *)

Section ToneBurst.

Context {D : Type} {ops : DoubleOps D} {lm : Libm D} {limit : LoopLimit}.

Definition AMPLITUDE : D := d_of_long 12000.

(** [long(x)] and [short(x)] of a [double x].  The language leaves the
    conversion of a value outside the type open; this is what the Intel
    processors the source names do: the conversion to 32 bits gives
    [0x80000000], and a [short] keeps the low 16 bits. *)
Definition to_long (x : D) : Z :=
  match d_trunc x with
  | Some z => if in_long z then z else LONG_MIN
  | None => LONG_MIN
  end.

Definition to_short (x : D) : Z := short_wrap (to_long x).

Record toneBurst : Type := mkToneBurst {
  sampleRate : Z;      (* number of samples per second *)
  duration : Z;        (* number of samples within burst *)
  interval : Z;        (* number of samples per burst *)
  burstMin : Z;        (* minimum number of samples within burst *)
  numBurst : Z;        (* number of bursts *)
  burstCount : Z;      (* index to count bursts *)
  numCycle : Z;        (* number of cycles per burst *)
  nominalFreq : D;     (* nominal tone burst frequency *)
  actualFreq : D;      (* actual tone burst frequency *)
  stopFreq : D;        (* sweep end frequency *)
  freqIncr : D;        (* freq sweep increment *)
  factor : D;          (* frequency in sample-based units *)
  sweep : bool;        (* true if freq sweep, false if polar *)
  startFreq : D;       (* sweep start frequency *)
  delay : Z;           (* offset to start of first burst *)
  numAvg : Z           (* number of bursts to average over *)
}.

Definition set_duration (v : Z) (b : toneBurst) : toneBurst :=
  mkToneBurst (sampleRate b) v (interval b) (burstMin b) (numBurst b)
    (burstCount b) (numCycle b) (nominalFreq b) (actualFreq b) (stopFreq b)
    (freqIncr b) (factor b) (sweep b) (startFreq b) (delay b) (numAvg b).

Definition set_interval (v : Z) (b : toneBurst) : toneBurst :=
  mkToneBurst (sampleRate b) (duration b) v (burstMin b) (numBurst b)
    (burstCount b) (numCycle b) (nominalFreq b) (actualFreq b) (stopFreq b)
    (freqIncr b) (factor b) (sweep b) (startFreq b) (delay b) (numAvg b).

Definition set_numBurst (v : Z) (b : toneBurst) : toneBurst :=
  mkToneBurst (sampleRate b) (duration b) (interval b) (burstMin b) v
    (burstCount b) (numCycle b) (nominalFreq b) (actualFreq b) (stopFreq b)
    (freqIncr b) (factor b) (sweep b) (startFreq b) (delay b) (numAvg b).

Definition set_burstCount (v : Z) (b : toneBurst) : toneBurst :=
  mkToneBurst (sampleRate b) (duration b) (interval b) (burstMin b) (numBurst b)
    v (numCycle b) (nominalFreq b) (actualFreq b) (stopFreq b)
    (freqIncr b) (factor b) (sweep b) (startFreq b) (delay b) (numAvg b).

Definition set_numCycle (v : Z) (b : toneBurst) : toneBurst :=
  mkToneBurst (sampleRate b) (duration b) (interval b) (burstMin b) (numBurst b)
    (burstCount b) v (nominalFreq b) (actualFreq b) (stopFreq b)
    (freqIncr b) (factor b) (sweep b) (startFreq b) (delay b) (numAvg b).

Definition set_nominalFreq (v : D) (b : toneBurst) : toneBurst :=
  mkToneBurst (sampleRate b) (duration b) (interval b) (burstMin b) (numBurst b)
    (burstCount b) (numCycle b) v (actualFreq b) (stopFreq b)
    (freqIncr b) (factor b) (sweep b) (startFreq b) (delay b) (numAvg b).

Definition set_actualFreq (v : D) (b : toneBurst) : toneBurst :=
  mkToneBurst (sampleRate b) (duration b) (interval b) (burstMin b) (numBurst b)
    (burstCount b) (numCycle b) (nominalFreq b) v (stopFreq b)
    (freqIncr b) (factor b) (sweep b) (startFreq b) (delay b) (numAvg b).

Definition set_stopFreq (v : D) (b : toneBurst) : toneBurst :=
  mkToneBurst (sampleRate b) (duration b) (interval b) (burstMin b) (numBurst b)
    (burstCount b) (numCycle b) (nominalFreq b) (actualFreq b) v
    (freqIncr b) (factor b) (sweep b) (startFreq b) (delay b) (numAvg b).

Definition set_freqIncr (v : D) (b : toneBurst) : toneBurst :=
  mkToneBurst (sampleRate b) (duration b) (interval b) (burstMin b) (numBurst b)
    (burstCount b) (numCycle b) (nominalFreq b) (actualFreq b) (stopFreq b)
    v (factor b) (sweep b) (startFreq b) (delay b) (numAvg b).

Definition set_factor (v : D) (b : toneBurst) : toneBurst :=
  mkToneBurst (sampleRate b) (duration b) (interval b) (burstMin b) (numBurst b)
    (burstCount b) (numCycle b) (nominalFreq b) (actualFreq b) (stopFreq b)
    (freqIncr b) v (sweep b) (startFreq b) (delay b) (numAvg b).

Definition set_sweep (v : bool) (b : toneBurst) : toneBurst :=
  mkToneBurst (sampleRate b) (duration b) (interval b) (burstMin b) (numBurst b)
    (burstCount b) (numCycle b) (nominalFreq b) (actualFreq b) (stopFreq b)
    (freqIncr b) (factor b) v (startFreq b) (delay b) (numAvg b).

Definition set_startFreq (v : D) (b : toneBurst) : toneBurst :=
  mkToneBurst (sampleRate b) (duration b) (interval b) (burstMin b) (numBurst b)
    (burstCount b) (numCycle b) (nominalFreq b) (actualFreq b) (stopFreq b)
    (freqIncr b) (factor b) (sweep b) v (delay b) (numAvg b).

Definition set_delay (v : Z) (b : toneBurst) : toneBurst :=
  mkToneBurst (sampleRate b) (duration b) (interval b) (burstMin b) (numBurst b)
    (burstCount b) (numCycle b) (nominalFreq b) (actualFreq b) (stopFreq b)
    (freqIncr b) (factor b) (sweep b) (startFreq b) v (numAvg b).

Definition set_numAvg (v : Z) (b : toneBurst) : toneBurst :=
  mkToneBurst (sampleRate b) (duration b) (interval b) (burstMin b) (numBurst b)
    (burstCount b) (numCycle b) (nominalFreq b) (actualFreq b) (stopFreq b)
    (freqIncr b) (factor b) (sweep b) (startFreq b) (delay b) v.

(** [(sampleRate / nominalFreq) * numCycle] *)
Definition cycles_span (b : toneBurst) : D :=
  (d_of_long (sampleRate b) / nominalFreq b * d_of_long (numCycle b))%dbl.

(** The test of the [while] of [calc]. *)
Definition calc_cond (b : toneBurst) : bool :=
  (cycles_span b <? d_of_long (burstMin b))%dbl.

(** [numCycle++] *)
Definition calc_body (b : toneBurst) : option toneBurst :=
  Some (set_numCycle (ladd (numCycle b) 1) b).

(** [toneBurst::calc]: update data members for a particular frequency. *)
Definition calc (b : toneBurst) : option toneBurst :=
  match while calc_cond calc_body b with
  | None => None
  | Some b1 =>
      let b2 := set_duration (to_long (cycles_span b1)) b1 in
      let b3 :=
        set_actualFreq
          (d_of_long 1 * d_of_long (sampleRate b2) * d_of_long (numCycle b2)
           / d_of_long (duration b2))%dbl b2 in
      Some (set_factor
              (d_of_long 2 * d_pi * actualFreq b3 / d_of_long (sampleRate b3))%dbl
              b3)
  end.

(** [toneBurst::toneBurst]: the members as the constructor sets them
    ([factor] has no value before [calc] gives it one), and then [calc]. *)
Definition toneBurst_members : toneBurst :=
  mkToneBurst SAMPLE_RATE 0 INTERVAL BURST_LENGTH 201 0 1
    (d_of_long 100) (d_of_long 0) (d_of_long 10000) (d_of_long 1)
    (d_of_long 0) true (d_of_long 100) INTERVAL 1.

Definition toneBurst_new : option toneBurst := calc toneBurst_members.

(** [toneBurst::init]: only called if user specifies polar mode. *)
Definition init (theSweep : bool) (b : toneBurst) : toneBurst :=
  let b := set_sweep theSweep b in
  if sweep b then
    set_stopFreq (d_of_long 10000)
      (set_startFreq (d_of_long 100) (set_numBurst 201 b))
  else
    let b := set_startFreq (d_of_long 1000) (set_numBurst 72 b) in
    let b := set_stopFreq (startFreq b) b in
    set_interval (lmul 2 INTERVAL) b.

(** [toneBurst::reset]: always called before analyzing bursts.  The
    members it sets, and then [calc]. *)
Definition reset_members (b : toneBurst) : toneBurst :=
  let b := set_numCycle 1 b in
  let b := set_burstCount (numBurst b) b in
  let b := set_nominalFreq (startFreq b) b in
  if sweep b then
    let b := set_numBurst 201 b in
    let b := set_stopFreq (d_of_long 10000) b in
    set_freqIncr
      (d_pow (stopFreq b / startFreq b)
             (d_of_long 1 / d_of_long (lsub (numBurst b) 1)))%dbl b
  else
    let b := set_numBurst 72 b in
    let b := set_stopFreq (startFreq b) b in
    set_freqIncr (d_of_long 1) b.

Definition reset (b : toneBurst) : option toneBurst := calc (reset_members b).

(** [toneBurst::next]: the iterator; the flag it returns and the object. *)
Definition next (b : toneBurst) : option (bool * toneBurst) :=
  if 0 <? burstCount b then
    match
      (if sweep b
       then calc (set_nominalFreq (nominalFreq b * freqIncr b)%dbl b)
       else Some b)
    with
    | None => None
    | Some b1 => Some (true, set_burstCount (lsub (burstCount b1) 1) b1)
    end
  else Some (false, b).

(** [toneBurst::good] *)
Definition good (b : toneBurst) : bool := 0 <? burstCount b.

(** [toneBurst::getSize]: byte count for sound data in wave file. *)
Definition getSize (b : toneBurst) : Z :=
  lmul (lmul 2 2) (ladd (lmul (lmul (interval b) (numAvg b)) (numBurst b)) (delay b)).

(** [toneBurst::showDetail]: the four columns it prints. *)
Record detail : Type := mkDetail {
  col_numCyc : Z;
  col_duration : Z;
  col_nomFreq : D;
  col_actFreq : D
}.

Definition showDetail (b : toneBurst) : detail :=
  mkDetail (numCycle b) (duration b) (nominalFreq b) (actualFreq b).

(** [toneBurst::showSetup]: the seven lines it prints. *)
Record setup : Type := mkSetup {
  row_mode : bool;     (* "freq sweep" for true, "polar plot" for false *)
  row_startFreq : D;
  row_endFreq : D;
  row_numSteps : Z;
  row_averaging : Z;
  row_delay : Z;
  row_interval : Z
}.

Definition showSetup (b : toneBurst) : setup :=
  mkSetup (sweep b) (startFreq b) (stopFreq b) (numBurst b) (numAvg b)
    (delay b) (interval b).

(** *** toneBurst::write *)

(** The sample at index [j]. *)
Definition burst_sample (b : toneBurst) (j : Z) : Z :=
  if j <? duration b then
    let y := (d_cos (factor b * d_of_long j)
              - d_cos (d_of_long 2 * factor b * d_of_long j))%dbl in
    to_short (y * AMPLITUDE)%dbl
  else 0.

Definition write_body (j : Z) (s : toneBurst * ofstream) : toneBurst * ofstream :=
  let (b, outfile) := s in
  let a := burst_sample b j in
  (b, write_short a (write_short a outfile)).

Definition write (s : toneBurst * ofstream) : toneBurst * ofstream :=
  for_long (numAvg (fst s))
    (fun _ s => for_long (interval (fst s)) write_body s) s.

(** *** toneBurst::read *)

(** [complex<double>] *)
Definition complex : Type := (D * D)%type.

Definition c_zero : complex := (d_of_long 0, d_of_long 0).

(** [z * x], complex by real *)
Definition c_scale (z : complex) (x : D) : complex :=
  (fst z * x, snd z * x)%dbl.

(** [x * z], real by complex *)
Definition c_rscale (x : D) (z : complex) : complex :=
  (x * fst z, x * snd z)%dbl.

Definition c_add (z w : complex) : complex :=
  (fst z + fst w, snd z + snd w)%dbl.

(** [z /= x] *)
Definition c_div (z : complex) (x : D) : complex :=
  (fst z / x, snd z / x)%dbl.

(** [exp(z)] *)
Definition c_exp (z : complex) : complex :=
  (d_exp (fst z) * d_cos (snd z), d_exp (fst z) * d_sin (snd z))%dbl.

(** [abs(z)] *)
Definition c_abs (z : complex) : D :=
  d_sqrt (fst z * fst z + snd z * snd z)%dbl.

(** [arg(z)] *)
Definition c_arg (z : complex) : D := d_atan2 (snd z) (fst z).

(** The locals of [read]. *)
Record read_locals : Type := mkReadLocals {
  a1 : Z;
  a2 : Z;
  sum1 : complex;     (* channel 1 response *)
  sum2 : complex;     (* channel 2 response *)
  sum3 : complex;     (* channel 1 background *)
  sum4 : complex      (* channel 2 background *)
}.

(** [j < duration]: the sample is in the burst. *)
Definition in_signal (b : toneBurst) (j : Z) : bool := j <? duration b.

(** [(j < (interval - duration)) && (j >= (interval - (2 * duration)))]:
    the sample is in the background window. *)
Definition in_background (b : toneBurst) (j : Z) : bool :=
  (j <? lsub (interval b) (duration b))
  && (lsub (interval b) (lmul 2 (duration b)) <=? j).

(** [exp(cfactor * double(j))] with [cfactor(0, factor)] *)
Definition ccoeff (b : toneBurst) (j : Z) : complex :=
  c_exp (c_scale (d_of_long 0, factor b) (d_of_long j)).

(** One turn of the loop of [read], once the two samples are read: what
    it adds to the four sums. *)
Definition accumulate (b : toneBurst) (j v1 v2 : Z) (l : read_locals)
  : read_locals :=
  let s1 := if in_signal b j
            then c_add (sum1 l) (c_rscale (d_of_long v1) (ccoeff b j))
            else sum1 l in
  let s2 := if in_signal b j
            then c_add (sum2 l) (c_rscale (d_of_long v2) (ccoeff b j))
            else sum2 l in
  let s3 := if in_background b j
            then c_add (sum3 l) (c_rscale (d_of_long v1) (ccoeff b j))
            else sum3 l in
  let s4 := if in_background b j
            then c_add (sum4 l) (c_rscale (d_of_long v2) (ccoeff b j))
            else sum4 l in
  mkReadLocals v1 v2 s1 s2 s3 s4.

Definition read_body (j : Z) (s : toneBurst * ifstream * read_locals)
  : toneBurst * ifstream * read_locals :=
  let '(b, infile, l) := s in
  let (v1, infile) := read_short (a1 l) infile in
  let (v2, infile) := read_short (a2 l) infile in
  (b, infile, accumulate b j v1 v2 l).

(** The locals as [read] declares them. *)
Definition read_locals_init : read_locals :=
  mkReadLocals 0 0 c_zero c_zero c_zero c_zero.

(** The ten columns [read] prints. *)
Record report : Type := mkReport {
  abs1 : D;          (* magnitude channel 1 *)
  abs2 : D;          (* magnitude channel 2 *)
  dB1 : D;           (* dB channel 1 *)
  dB2 : D;           (* dB channel 2 *)
  dBdiff : D;        (* dB difference *)
  phase1 : D;        (* phase channel 1 *)
  phase2 : D;        (* phase channel 2 *)
  phasediff : D;     (* phase difference *)
  bkg1 : D;          (* dB background 1 *)
  bkg2 : D           (* dB background 2 *)
}.

Definition dB (x : D) : D := (d_of_long 20 * d_log10 x)%dbl.

(** [(duration * numAvg * AMPLITUDE / 2.0)] *)
Definition norm (b : toneBurst) : D :=
  (d_of_long (lmul (duration b) (numAvg b)) * AMPLITUDE / d_of_long 2)%dbl.

(** The end of [read]: the sums normalized, and the ten columns. *)
Definition report_of (b : toneBurst) (l : read_locals) : report :=
  let s1 := c_div (sum1 l) (norm b) in
  let s2 := c_div (sum2 l) (norm b) in
  let s3 := c_div (sum3 l) (norm b) in
  let s4 := c_div (sum4 l) (norm b) in
  mkReport (c_abs s1) (c_abs s2) (dB (c_abs s1)) (dB (c_abs s2))
    (dB (c_abs s1 / c_abs s2)%dbl)
    (c_arg s1) (c_arg s2) (c_arg s1 - c_arg s2)%dbl
    (dB (c_abs s3)) (dB (c_abs s4)).

Definition read (s : toneBurst * ifstream) : toneBurst * ifstream * report :=
  let '(b, infile, l) :=
    for_long (numAvg (fst s))
      (fun _ s => for_long (interval (fst (fst s))) read_body s)
      (fst s, snd s, read_locals_init) in
  (b, infile, report_of b l).

(** ** tbg.cpp, tba.cpp: the command line *)

(** What the [switch] on [argc] reads of the arguments. *)
Record cmdline : Type := mkCmdline {
  argc : Z;
  argv5_polar : bool;  (* toupper( *argv[5]) == 'P' *)
  argv4 : D;           (* atof(argv[4]) *)
  argv3 : Z;           (* atol(argv[3]) *)
  argv2 : Z            (* atol(argv[2]) *)
}.

(** The [switch], whose cases fall through; [None] is the [default]. *)
Definition parse_args (c : cmdline) (b : toneBurst) : option toneBurst :=
  if (2 <=? argc c) && (argc c <=? 6) then
    let b := if (argc c =? 6) && argv5_polar c then init false b else b in
    let b := if 5 <=? argc c then set_startFreq (argv4 c) b else b in
    let b := if 4 <=? argc c then set_numAvg (argv3 c) b else b in
    let b := if 3 <=? argc c then set_delay (argv2 c) b else b in
    Some b
  else None.

End ToneBurst.

Arguments toneBurst D : clear implicits.
Arguments complex D : clear implicits.
Arguments report D : clear implicits.
Arguments detail D : clear implicits.
Arguments read_locals D : clear implicits.
Arguments cmdline D : clear implicits.
Arguments setup D : clear implicits.

(** ** tbg.cpp: the wave file header *)

(** [memcpy(chunkID, "RIFF", 4)] and the like: four characters. *)
Definition tag_RIFF : list Z := [82; 73; 70; 70].
Definition tag_WAVE : list Z := [87; 65; 86; 69].
Definition tag_fmt : list Z := [102; 109; 116; 32].
Definition tag_data : list Z := [100; 97; 116; 97].

Record riffChunk : Type := mkRiffChunk {
  riff_chunkID : list Z;
  riff_chunkSize : Z;
  riff_format : list Z
}.

Record fmtChunk : Type := mkFmtChunk {
  fmt_chunkID : list Z;
  fmt_chunkSize : Z;
  fmtCode : Z;
  numChan : Z;
  sampRate : Z;
  byteRate : Z;
  blockAlign : Z;
  bitsSamp : Z
}.

Record dataChunk : Type := mkDataChunk {
  data_chunkID : list Z;
  data_chunkSize : Z
}.

(** [riffChunk::setSize] *)
Definition riff_setSize (theSize : Z) : riffChunk :=
  mkRiffChunk tag_RIFF (ladd theSize 36) tag_WAVE.

(** [fmtChunk::setSize] *)
Definition fmt_setSize : fmtChunk :=
  let numChan := 2 in
  let sampRate := SAMPLE_RATE in
  mkFmtChunk tag_fmt 16 1 numChan sampRate
    (lmul (lmul numChan sampRate) 2) (short_wrap (numChan * 2)) 16.

(** [dataChunk::setSize] *)
Definition data_setSize (theSize : Z) : dataChunk :=
  mkDataChunk tag_data theSize.

(** The objects as they lie in memory, which is how they are written. *)
Definition riff_bytes (c : riffChunk) : list Z :=
  riff_chunkID c ++ le32 (riff_chunkSize c) ++ riff_format c.

Definition fmt_bytes (c : fmtChunk) : list Z :=
  fmt_chunkID c ++ le32 (fmt_chunkSize c) ++ le16 (fmtCode c)
  ++ le16 (numChan c) ++ le32 (sampRate c) ++ le32 (byteRate c)
  ++ le16 (blockAlign c) ++ le16 (bitsSamp c).

Definition data_bytes (c : dataChunk) : list Z :=
  data_chunkID c ++ le32 (data_chunkSize c).

(** ** tba.cpp: the wave file header read back *)

(** A [long] and a [short] from the bytes they lie in, low byte first. *)
Definition long_of_bytes (b0 b1 b2 b3 : Z) : Z :=
  long_wrap (b0 + 256 * b1 + 65536 * b2 + 16777216 * b3).

(** [infile.read((char * )&myRiff, sizeof(myRiff))] and the like, when the
    file has the bytes: the object the bytes make. *)
Definition riff_of_bytes (l : list Z) : option riffChunk :=
  match l with
  | [i0; i1; i2; i3; s0; s1; s2; s3; f0; f1; f2; f3] =>
      Some (mkRiffChunk [i0; i1; i2; i3] (long_of_bytes s0 s1 s2 s3)
              [f0; f1; f2; f3])
  | _ => None
  end.

Definition fmt_of_bytes (l : list Z) : option fmtChunk :=
  match l with
  | [i0; i1; i2; i3; s0; s1; s2; s3; c0; c1; n0; n1;
     r0; r1; r2; r3; y0; y1; y2; y3; g0; g1; t0; t1] =>
      Some (mkFmtChunk [i0; i1; i2; i3] (long_of_bytes s0 s1 s2 s3)
              (short_of_bytes c0 c1) (short_of_bytes n0 n1)
              (long_of_bytes r0 r1 r2 r3) (long_of_bytes y0 y1 y2 y3)
              (short_of_bytes g0 g1) (short_of_bytes t0 t1))
  | _ => None
  end.

Definition data_of_bytes (l : list Z) : option dataChunk :=
  match l with
  | [i0; i1; i2; i3; s0; s1; s2; s3] =>
      Some (mkDataChunk [i0; i1; i2; i3] (long_of_bytes s0 s1 s2 s3))
  | _ => None
  end.

(** The three objects [tba] reads off the head of the file; [None] when
    the file ends before the last of them is full, which is when [main]
    returns -3. *)
Definition tba_header (file : list Z)
  : option (riffChunk * fmtChunk * dataChunk) :=
  match riff_of_bytes (firstn 12 file),
        fmt_of_bytes (firstn 24 (skipn 12 file)),
        data_of_bytes (firstn 8 (skipn 36 file)) with
  | Some r, Some f, Some d => Some (r, f, d)
  | _, _, _ => None
  end.

(** [char s[5] = "ABCD"; memcpy(s, chunkID, 4); cout << s]: the four
    characters up to the first that is 0. *)
Fixpoint c_str (l : list Z) : list Z :=
  match l with
  | [] => []
  | c :: l' => if c =? 0 then [] else c :: c_str l'
  end.

(** [chunkHead::dump]: the identifier and the size. *)
Definition chunkHead_dump (chunkID : list Z) (chunkSize : Z) : list Z * Z :=
  (c_str chunkID, chunkSize).

(** [riffChunk::dump] *)
Definition riff_dump (c : riffChunk) : list Z * Z * list Z :=
  (chunkHead_dump (riff_chunkID c) (riff_chunkSize c), c_str (riff_format c)).

(** [fmtChunk::dump] *)
Definition fmt_dump (c : fmtChunk) : list Z * Z * list Z :=
  (chunkHead_dump (fmt_chunkID c) (fmt_chunkSize c),
   [fmtCode c; numChan c; sampRate c; byteRate c; blockAlign c; bitsSamp c]).

(** [dataChunk::dump] *)
Definition data_dump (c : dataChunk) : list Z * Z :=
  chunkHead_dump (data_chunkID c) (data_chunkSize c).

(** ** tbg.cpp: main entry point for waveform generator *)

Section Mains.

Context {D : Type} {ops : DoubleOps D} {lm : Libm D} {limit : LoopLimit}.

(** What the burst loop of [tbg] works on: the object, the output file and
    the lines on the console. *)
Record tbg_state : Type := mkTbgState {
  g_burst : toneBurst D;
  g_outfile : ofstream;
  g_cout : list (detail D)
}.

(** The body of the burst loop and its [myBurst.next()].  The output file
    never goes bad here. *)
Definition tbg_body (s : tbg_state) : option tbg_state :=
  let (b, outfile) := write (g_burst s, g_outfile s) in
  let cout := g_cout s ++ [showDetail b] in
  match next b with
  | None => None
  | Some (_, b') => Some (mkTbgState b' outfile cout)
  end.

(** The header, 44 bytes. *)
Definition wave_header (theSize : Z) : list Z :=
  riff_bytes (riff_setSize theSize) ++ fmt_bytes fmt_setSize
  ++ data_bytes (data_setSize theSize).

(** [main] of tbg: the exit status, the file and the console; [None] when
    it does not return.  The file opens and takes every byte. *)
Definition tbg_main (c : cmdline D)
  : option (Z * ofstream * list (detail D)) :=
  match toneBurst_new with
  | None => None
  | Some myBurst =>
      match parse_args c myBurst with
      | None => Some (-1, [], [])
      | Some myBurst =>
          let theSize := getSize myBurst in
          let outfile := wave_header theSize in
          let outfile :=
            for_long (delay myBurst)
              (fun _ o => write_short 0 (write_short 0 o)) outfile in
          match reset myBurst with
          | None => None
          | Some myBurst =>
              match
                while (fun s => good (g_burst s)) tbg_body
                  (mkTbgState myBurst outfile [])
              with
              | None => None
              | Some s => Some (0, g_outfile s, g_cout s)
              end
          end
      end
  end.

(** ** tba.cpp: main entry point for waveform analyzer *)

Record tba_state : Type := mkTbaState {
  a_burst : toneBurst D;
  a_infile : ifstream;
  a_cout : list (detail D * report D);
  a_return : option Z
}.

Definition tba_cond (s : tba_state) : bool :=
  good (a_burst s) && match a_return s with None => true | Some _ => false end.

Definition tba_body (s : tba_state) : option tba_state :=
  if i_eof (a_infile s) then
    Some (mkTbaState (a_burst s) (a_infile s) (a_cout s) (Some (-4)))
  else
    let d := showDetail (a_burst s) in
    let '(b, infile, r) := read (a_burst s, a_infile s) in
    match next b with
    | None => None
    | Some (_, b') => Some (mkTbaState b' infile (a_cout s ++ [(d, r)]) None)
    end.

(** [main] of tba on the bytes of the input file: the exit status and the
    report lines. *)
Definition tba_main (c : cmdline D) (file : list Z)
  : option (Z * list (detail D * report D)) :=
  match toneBurst_new with
  | None => None
  | Some myBurst =>
      match parse_args c myBurst with
      | None => Some (-1, [])
      | Some myBurst =>
          let infile :=
            read_skip 8 (read_skip 24 (read_skip 12 (mkIfstream file false))) in
          if i_eof infile then Some (-3, [])
          else
            let (_, infile) :=
              for_long (delay myBurst)
                (fun _ (s : Z * ifstream) =>
                   let (a, f) := s in
                   let (a, f) := read_short a f in
                   read_short a f)
                (0, infile) in
            match reset myBurst with
            | None => None
            | Some myBurst =>
                match
                  while tba_cond tba_body (mkTbaState myBurst infile [] None)
                with
                | None => None
                | Some s =>
                    Some (match a_return s with Some r => r | None => 0 end,
                          a_cout s)
                end
            end
      end
  end.

(** [myBurst.showSetup()] in both [main]s: after the [switch], before
    [reset()]. *)
Definition main_setup (c : cmdline D) : option (setup D) :=
  match toneBurst_new with
  | None => None
  | Some myBurst => option_map showSetup (parse_args c myBurst)
  end.

End Mains.

Arguments tbg_state D : clear implicits.
Arguments tba_state D : clear implicits.

(** ** The doubles of the machine as real numbers *)

(** [2^e] *)
Definition bpow (e : Z) : R := powerRZ 2 e.

(** The real number a double stands for; 0 for an infinity and for NaN,
    which [SFfinite] tells apart. *)
Definition SF2R (x : spec_float) : R :=
  match x with
  | S754_finite s m e =>
      if s then (- (IZR (Zpos m) * bpow e))%R else (IZR (Zpos m) * bpow e)%R
  | _ => 0%R
  end.

Definition SFfinite (x : spec_float) : bool :=
  match x with
  | S754_zero _ | S754_finite _ _ _ => true
  | _ => false
  end.

(** The relative error of an operation rounded to 53 bits, and the
    absolute error of one that underflows. *)
Definition u64 : R := bpow (-52).
Definition eta64 : R := bpow (-1074).

(** ** The doubles of the machine *)

Module IEEE.

Definition of_long (z : Z) : float :=
  match z with
  | Z0 => 0%float
  | Zpos _ => PrimFloat.of_uint63 (Uint63.of_Z z)
  | Zneg p => PrimFloat.opp (PrimFloat.of_uint63 (Uint63.of_Z (Zpos p)))
  end.

Definition trunc (x : float) : option Z :=
  match Prim2SF x with
  | S754_zero _ => Some 0
  | S754_finite s m e =>
      let a := if 0 <=? e then Zpos m * 2 ^ e else Zpos m / 2 ^ (- e) in
      Some (if s then - a else a)
  | _ => None
  end.

#[export] Instance double_ops : DoubleOps float := {|
  d_of_long := of_long;
  d_add := PrimFloat.add;
  d_sub := PrimFloat.sub;
  d_mul := PrimFloat.mul;
  d_div := PrimFloat.div;
  d_ltb := PrimFloat.ltb;
  d_trunc := trunc;
  d_pi := 0x1.921fb54442d18p+1%float
|}.

(** The real number of a double, and whether it is one. *)
Definition val (x : float) : R := SF2R (Prim2SF x).
Definition finite (x : float) : bool := SFfinite (Prim2SF x).

(** A [toneBurst] as its constructor sets the members, before [calc], with
    a nominal frequency of one's own. *)
Definition at_frequency (f : float) : toneBurst float :=
  set_nominalFreq f toneBurst_members.

(** The object of the size scenario: the constructed members. *)
Definition size_scenario : toneBurst float := toneBurst_members.

(** The five doubles nearest to the 200th root of 100,
    1.0232929922807541...: the value of [pow(10000.0 / 100.0, 1.0 / 200)]
    to within two units in the last place.  The middle one is the nearest
    double. *)
Definition root_100_doubles : list float :=
  [0x1.05f687901262ap+0; 0x1.05f687901262bp+0; 0x1.05f687901262cp+0;
   0x1.05f687901262dp+0; 0x1.05f687901262ep+0]%float.

(** 10000 less and more a hundred-millionth: [10000 - 1e-8] and
    [10000 + 1e-8], to the nearest double. *)
Definition below_10kHz : float := 0x1.387ffffffea86p+13%float.
Definition above_10kHz : float := 0x1.388000000157ap+13%float.

(** The object of the sweep from 100 Hz as [reset] leaves it when [pow]
    gives the nearest double: one cycle of 441 samples, 201 bursts to
    go. *)
Definition sweep_100Hz : toneBurst float :=
  set_burstCount 201
    (set_freqIncr 0x1.05f687901262cp+0%float
       (set_duration 441 toneBurst_members)).

End IEEE.

(** ** The real numbers the doubles stand for *)

Module Ideal.

Definition ltb (x y : R) : bool := if Rlt_dec x y then true else false.

(** The integer part, towards zero. *)
Definition trunc (x : R) : option Z :=
  Some (if Rle_dec 0 x then Int_part x else - Int_part (- x)).

(** [atan2(y, x)] *)
Definition atan2 (y x : R) : R :=
  if Rlt_dec 0 x then atan (y / x)
  else if Rlt_dec x 0 then
    if Rle_dec 0 y then (atan (y / x) + PI)%R else (atan (y / x) - PI)%R
  else if Rlt_dec 0 y then (PI / 2)%R
  else if Rlt_dec y 0 then (- PI / 2)%R
  else 0%R.

#[export] Instance double_ops : DoubleOps R := {|
  d_of_long := IZR;
  d_add := Rplus;
  d_sub := Rminus;
  d_mul := Rmult;
  d_div := Rdiv;
  d_ltb := ltb;
  d_trunc := trunc;
  d_pi := PI
|}.

(** [pow] is [Rpower] on a positive base, the only one met here. *)
#[export] Instance libm : Libm R := {|
  d_pow := Rpower;
  d_cos := cos;
  d_sin := sin;
  d_exp := exp;
  d_sqrt := sqrt;
  d_atan2 := atan2;
  d_log10 := fun x => (ln x / ln 10)%R
|}.

(** A burst of 441 samples, one cycle of 100 Hz, in an interval of
    22050. *)
Definition burst_100Hz : toneBurst R :=
  set_duration 441 (set_numCycle 1 toneBurst_members).

(** A burst of 14700 samples, one cycle of 3 Hz, in an interval of
    22050. *)
Definition burst_3Hz : toneBurst R :=
  set_duration 14700 (set_numCycle 1 toneBurst_members).

(** [g j + g (j + 1) + ...], [k] terms: what a [for] loop that adds [g j]
    at every index adds up. *)
Fixpoint csum (k : nat) (j : Z) (g : Z -> R) : R :=
  match k with
  | O => 0%R
  | Datatypes.S k' => (g j + csum k' (j + 1) g)%R
  end.

(** The sample of [write] at index [j] before it is cut to a [short]:
    [(cos(factor * j) - cos(2.0 * factor * j)) * AMPLITUDE]. *)
Definition wave (b : toneBurst R) (j : Z) : R :=
  ((cos (factor b * IZR j) - cos (2 * factor b * IZR j)) * 12000)%R.

(** The turn of the loop of [read] at index [j] on the sample pair [write]
    makes for it. *)
Definition read_turn (b : toneBurst R) (j : Z) (l : read_locals R)
  : read_locals R :=
  accumulate b j (burst_sample b j) (burst_sample b j) l.

(** What the turn of [read] at index [j] adds to the real and to the
    imaginary part of a response sum, the sample being the one [write]
    makes. *)
Definition signal_re (b : toneBurst R) (j : Z) : R :=
  if in_signal b j
  then (IZR (burst_sample b j) * cos (factor b * IZR j))%R
  else 0%R.

Definition signal_im (b : toneBurst R) (j : Z) : R :=
  if in_signal b j
  then (IZR (burst_sample b j) * sin (factor b * IZR j))%R
  else 0%R.

(** [tbg outfile.wav 0 1 44100 polar] and [tba] with the same arguments:
    no delay, no averaging, polar mode at the sample rate. *)
Definition cmdline_polar_44100 : cmdline R := mkCmdline 6 true 44100%R 1 0.

(** [tbg outfile.wav 0 4 440 sweep] and [tba] with the same arguments: no
    delay, four passes, the sweep from 440 Hz. *)
Definition cmdline_sweep_440 : cmdline R := mkCmdline 6 false 440%R 4 0.

(** [tbg]: no argument at all. *)
Definition cmdline_no_file : cmdline R := mkCmdline 1 false 0%R 0 0.


(** [tbg outfile.wav 0 1 250 polar]: polar mode at 250 Hz. *)
Definition cmdline_polar_250 : cmdline R := mkCmdline 6 true 250%R 1 0.

(** [tbg outfile.wav]: the file name alone. *)
Definition cmdline_default : cmdline R := mkCmdline 2 false 0%R 0 0.


(** [sampleRate / nominalFreq]: the samples in a cycle. *)
Definition period (b : toneBurst R) : R :=
  (IZR (sampleRate b) / nominalFreq b)%R.

(** [numCycle] is the smallest positive integer [n] such that
    [(sampleRate / nominalFreq) * n >= burstMin]. *)
Definition smallest_cycles (b : toneBurst R) : Prop :=
  1 <= numCycle b
  /\ (IZR (burstMin b) <= period b * IZR (numCycle b))%R
  /\ forall n, 1 <= n -> (IZR (burstMin b) <= period b * IZR n)%R ->
                numCycle b <= n.

End Ideal.

(** ** Vocabulary of the properties *)

(** What is left of an input stream: the number of bytes it still has, or
    nothing once a read has failed. *)
Definition stream_state (f : ifstream) : option nat :=
  if i_eof f then None else Some (length (i_bytes f)).

(** Reading [w] bytes off a stream with so much left. *)
Definition take (w : nat) (st : option nat) : option nat :=
  match st with
  | Some n => if (w <=? n)%nat then Some (n - w)%nat else None
  | None => None
  end.

(** Whether a stream is still good at the start of the last of [k] bursts
    of [w] bytes each, which is the last time [tba] tests it. *)
Definition reaches_last (k w : nat) (st : option nat) : bool :=
  match k with
  | O => true
  | Datatypes.S k' =>
      match take (k' * w) st with
      | Some _ => true
      | None => false
      end
  end.

Section Vocabulary.

Context {D : Type} {ops : DoubleOps D} {lm : Libm D} {limit : LoopLimit}.

(** [(sampleRate / nominalFreq)]: the samples of a cycle. *)
Definition cycle_samples (b : toneBurst D) : D :=
  (d_of_long (sampleRate b) / nominalFreq b)%dbl.

(** [calc] assigns [numCycle], [duration], [actualFreq] and [factor]; two
    objects that differ in nothing else have the same setup. *)
Definition same_setup (b b' : toneBurst D) : Prop :=
  sampleRate b' = sampleRate b /\ interval b' = interval b
  /\ burstMin b' = burstMin b /\ numBurst b' = numBurst b
  /\ burstCount b' = burstCount b /\ nominalFreq b' = nominalFreq b
  /\ stopFreq b' = stopFreq b /\ freqIncr b' = freqIncr b
  /\ sweep b' = sweep b /\ startFreq b' = startFreq b
  /\ delay b' = delay b /\ numAvg b' = numAvg b.

(** What no method but [init] assigns, and [startFreq]. *)
Definition same_run (b b' : toneBurst D) : Prop :=
  sampleRate b' = sampleRate b /\ interval b' = interval b
  /\ burstMin b' = burstMin b /\ sweep b' = sweep b
  /\ startFreq b' = startFreq b /\ delay b' = delay b
  /\ numAvg b' = numAvg b.

(** The same run on the same frequency ladder. *)
Definition same_ladder (b b' : toneBurst D) : Prop :=
  same_run b b' /\ numBurst b' = numBurst b /\ stopFreq b' = stopFreq b
  /\ freqIncr b' = freqIncr b.

(** [k] calls of [next], each of which returns [true]. *)
Fixpoint nexts (k : nat) (b : toneBurst D) : option (toneBurst D) :=
  match k with
  | O => Some b
  | Datatypes.S k' =>
      match next b with
      | Some (true, b') => nexts k' b'
      | _ => None
      end
  end.

(** [nominalFreq *= freqIncr], [k] times over: the frequency [x] after [k]
    steps by the ratio [r]. *)
Fixpoint ladder (x r : D) (k : nat) : D :=
  match k with
  | O => x
  | Datatypes.S k' => ladder (x * r)%dbl r k'
  end.

(** The objects a [main] can hold: the constructed one, and what the
    public methods and the assignments to the public members make of it. *)
Inductive reachable : toneBurst D -> Prop :=
| reach_new b : toneBurst_new = Some b -> reachable b
| reach_init theSweep b : reachable b -> reachable (init theSweep b)
| reach_startFreq v b : reachable b -> reachable (set_startFreq v b)
| reach_numAvg v b : reachable b -> reachable (set_numAvg v b)
| reach_delay v b : reachable b -> reachable (set_delay v b)
| reach_reset b b' : reachable b -> reset b = Some b' -> reachable b'
| reach_next b r b' : reachable b -> next b = Some (r, b') -> reachable b'.

(** [numCycle] is the least number of full cycles that fill the burst
    minimum, by the test of [calc] itself. *)
Definition fewer_fail (b : toneBurst D) : Prop :=
  forall n, 1 <= n < numCycle b -> calc_cond (set_numCycle n b) = true.

Definition least_cycles (b : toneBurst D) : Prop :=
  1 <= numCycle b /\ calc_cond b = false /\ fewer_fail b.

(** The bytes [write] puts out for a burst. *)
Definition burst_bytes (b : toneBurst D) : list Z := snd (write (b, [])).

(** The members as [calc] leaves them. *)
Definition calculated (b : toneBurst D) : Prop :=
  calc_cond b = false
  /\ duration b = to_long (cycles_span b)
  /\ actualFreq b =
       (d_of_long 1 * d_of_long (sampleRate b) * d_of_long (numCycle b)
        / d_of_long (duration b))%dbl
  /\ factor b =
       (d_of_long 2 * d_pi * actualFreq b / d_of_long (sampleRate b))%dbl.

(** The four bytes of a sample pair with the same sample on both channels,
    and the bytes of the [k] sample pairs from index [j] on. *)
Definition frame_bytes (a : Z) : list Z :=
  [a mod 256; (a / 256) mod 256; a mod 256; (a / 256) mod 256].

Fixpoint pass_bytes (b : toneBurst D) (k : nat) (j : Z) : list Z :=
  match k with
  | O => []
  | Datatypes.S k' => frame_bytes (burst_sample b j) ++ pass_bytes b k' (j + 1)
  end.

(** What the sums of [read] come to when every sample pair it reads is the
    one [write] makes for that index, and the report it prints then. *)
Definition roundtrip_locals (b : toneBurst D) : read_locals D :=
  for_long (numAvg b)
    (fun _ l =>
       for_long (interval b)
         (fun j l => accumulate b j (burst_sample b j) (burst_sample b j) l)
         l)
    read_locals_init.

Definition roundtrip_report (b : toneBurst D) : report D :=
  report_of b (roundtrip_locals b).

(** The objects of the bursts of a run: the one [reset] leaves and those
    the calls of [next] make of it, [k] in all. *)
Fixpoint bursts (k : nat) (b : toneBurst D) : option (list (toneBurst D)) :=
  match k with
  | O => Some []
  | Datatypes.S k' =>
      match next b with
      | Some (true, b') => option_map (cons b) (bursts k' b')
      | _ => None
      end
  end.

(** The bytes a burst takes in the file: four for every sample pair of
    every pass. *)
Definition burst_size (b : toneBurst D) : nat :=
  (4 * (Z.to_nat (numAvg b) * Z.to_nat (interval b)))%nat.

(** The values [j] takes in [for (j = 0; j < n; j++)]. *)
Definition indices (n : Z) : list Z := map Z.of_nat (seq 0 (Z.to_nat n)).

(** The samples of one pass over the interval that [read] adds to the
    response sums, and those it adds to the background sums. *)
Definition signal_window (b : toneBurst D) : list Z :=
  filter (in_signal b) (indices (interval b)).

Definition background_window (b : toneBurst D) : list Z :=
  filter (in_background b) (indices (interval b)).

(** The two loops of [read]: the object, the stream and the locals once
    they are through, before the sums are normalized and printed. *)
Definition read_loops (s : toneBurst D * ifstream)
  : toneBurst D * ifstream * read_locals D :=
  for_long (numAvg (fst s))
    (fun _ s => for_long (interval (fst (fst s))) read_body s)
    (fst s, snd s, read_locals_init).

(** The bytes of [k] sample pairs from index [j] on, the samples of the two
    channels at index [i] being [v1 i] and [v2 i]; and the bytes of [n]
    passes of [w] sample pairs each from pass [p] on, the samples being
    [v1 p i] and [v2 p i]. *)
Fixpoint pairs_bytes (v1 v2 : Z -> Z) (k : nat) (j : Z) : list Z :=
  match k with
  | O => []
  | Datatypes.S k' => le16 (v1 j) ++ le16 (v2 j) ++ pairs_bytes v1 v2 k' (j + 1)
  end.

Fixpoint passes_bytes (v1 v2 : Z -> Z -> Z) (w n : nat) (p : Z) : list Z :=
  match n with
  | O => []
  | Datatypes.S n' =>
      pairs_bytes (v1 p) (v2 p) w 0 ++ passes_bytes v1 v2 w n' (p + 1)
  end.

(** [sum += double(a) * ccoeff] at index [j], the sample being [v j]. *)
Definition add_sample (b : toneBurst D) (v : Z -> Z) (s : complex D) (j : Z)
  : complex D :=
  c_add s (c_rscale (d_of_long (v j)) (ccoeff b j)).

(** What a sum comes to that takes, in every one of [n] passes from pass
    [p] on, the samples at the indices of the window [w], in their order,
    and no others. *)
Fixpoint window_sum (b : toneBurst D) (w : list Z) (v : Z -> Z -> Z)
  (n : nat) (p : Z) (s : complex D) : complex D :=
  match n with
  | O => s
  | Datatypes.S n' =>
      window_sum b w v n' (p + 1) (fold_left (add_sample b (v p)) w s)
  end.

End Vocabulary.

(** ** The laws of rounding *)

(** Below this no operation of the programs overflows. *)
Definition dbl_max : R := bpow 1023.

(** How far [M_PI] may be from pi, and a function of the mathematical
    library from the function it computes. *)
Definition pi_err : R := (1 / 1000000000000)%R.
Definition lm_err : R := (1 / 1000000000)%R.

(** The standard model of rounding: [fin x] says that the double [x] is a
    number, [val x] is the real number it stands for.  An operation on
    numbers whose exact result is below [dbl_max] gives a number within
    [u64] of it, in relative terms; a product or a quotient may be off by
    [eta64] more, when it underflows.  [IEEE.double_ops] keeps these laws
    ([ieee_double_laws]); so do the real numbers, where nothing is
    rounded. *)
Record double_laws {D : Type} (ops : DoubleOps D) (fin : D -> Prop)
  (val : D -> R) : Prop := mkDoubleLaws {
  law_of_long : forall z : Z,
    - 2 ^ 53 <= z <= 2 ^ 53 ->
    fin (d_of_long z) /\ val (d_of_long z) = IZR z;
  law_add : forall x y : D,
    fin x -> fin y -> (Rabs (val x + val y) < dbl_max)%R ->
    fin (x + y)%dbl
    /\ (Rabs (val (x + y)%dbl - (val x + val y))
        <= Rabs (val x + val y) * u64)%R;
  law_sub : forall x y : D,
    fin x -> fin y -> (Rabs (val x - val y) < dbl_max)%R ->
    fin (x - y)%dbl
    /\ (Rabs (val (x - y)%dbl - (val x - val y))
        <= Rabs (val x - val y) * u64)%R;
  law_mul : forall x y : D,
    fin x -> fin y -> (Rabs (val x * val y) < dbl_max)%R ->
    fin (x * y)%dbl
    /\ (Rabs (val (x * y)%dbl - val x * val y)
        <= Rabs (val x * val y) * u64 + eta64)%R;
  law_div : forall x y : D,
    fin x -> fin y -> val y <> 0%R -> (Rabs (val x / val y) < dbl_max)%R ->
    fin (x / y)%dbl
    /\ (Rabs (val (x / y)%dbl - val x / val y)
        <= Rabs (val x / val y) * u64 + eta64)%R;
  law_ltb : forall x y : D,
    fin x -> fin y -> ((x <? y)%dbl = true <-> (val x < val y)%R);
  law_trunc : forall x : D,
    fin x ->
    exists z : Z,
      d_trunc x = Some z
      /\ ((0 <= val x)%R -> (IZR z <= val x < IZR z + 1)%R)
      /\ ((val x <= 0)%R -> (IZR z - 1 < val x <= IZR z)%R);
  law_pi : fin d_pi /\ (Rabs (val d_pi - PI) <= pi_err)%R
}.

(** What the programs need of the mathematical library: its functions
    within [lm_err] of the functions they compute, where the programs call
    them. *)
Record libm_laws {D : Type} (lm : Libm D) (fin : D -> Prop) (val : D -> R)
  : Prop := mkLibmLaws {
  law_cos : forall x : D,
    fin x -> (Rabs (val x) <= 1000000)%R ->
    fin (d_cos x) /\ (Rabs (val (d_cos x) - cos (val x)) <= lm_err)%R;
  law_sin : forall x : D,
    fin x -> (Rabs (val x) <= 1000000)%R ->
    fin (d_sin x) /\ (Rabs (val (d_sin x) - sin (val x)) <= lm_err)%R;
  law_exp : forall x : D,
    fin x -> (Rabs (val x) <= 1)%R ->
    fin (d_exp x) /\ (Rabs (val (d_exp x) - exp (val x)) <= lm_err)%R;
  law_sqrt : forall x : D,
    fin x -> (0 <= val x <= 4)%R ->
    fin (d_sqrt x) /\ (Rabs (val (d_sqrt x) - sqrt (val x)) <= lm_err)%R;
  law_log10 : forall x : D,
    fin x -> (1 / 2 <= val x <= 2)%R ->
    fin (d_log10 x)
    /\ (Rabs (val (d_log10 x) - ln (val x) / ln 10) <= lm_err)%R;
  law_atan2 : forall y x : D, fin y -> fin x -> fin (d_atan2 y x)
}.

(** The double [x] is a number within [r], in relative terms, of the
    positive real [a]. *)
Definition near {D : Type} (fin : D -> Prop) (val : D -> R) (x : D)
  (a r : R) : Prop :=
  fin x /\ (Rabs (val x - a) <= r * a)%R.

(** What a sum of [M] terms at most may be off by for each of its terms,
    the terms being below [Bt] and within [et] of their exact values. *)
Definition sum_err (Bt et : R) (M : nat) : R :=
  (et + 2 * u64 * INR M * (Bt + et))%R.

(** The angle from a sample to the next with [numCycle] turns in
    [duration] samples. *)
Definition cycle_angle {D : Type} (b : toneBurst D) : R :=
  (2 * PI * IZR (numCycle b) / IZR (duration b))%R.

(** The wave of the burst at angle step [t], in exact terms. *)
Definition wave_at (t : R) (j : Z) : R :=
  ((cos (t * IZR j) - cos (2 * t * IZR j)) * 12000)%R.

(** A line of the analyzer with both channels at magnitude 1.0 and 0 dB,
    within the tolerance that cutting the samples to integers calls for,
    and no difference between the channels. *)
Definition unit_report {D : Type} (val : D -> R) (r : report D) : Prop :=
  (Rabs (val (abs1 r) - 1) <= 1 / 3000)%R
  /\ (Rabs (val (abs2 r) - 1) <= 1 / 3000)%R
  /\ (Rabs (val (dB1 r)) <= 1 / 50)%R /\ (Rabs (val (dB2 r)) <= 1 / 50)%R
  /\ (Rabs (val (dBdiff r)) <= 1 / 1000000)%R /\ val (phasediff r) = 0%R.

(** A burst [read] can tell the tone of: it fits the interval; its
    samples make a whole number of turns of the tone, [numCycle], but
    [duration] divides none of [numCycle], [2 numCycle] and [3 numCycle],
    so that neither the tone nor its octave comes out as a constant or as
    the tone itself; and the count of its samples over all passes fits a
    [long]. *)
Definition tone_resolved {D : Type} (b : toneBurst D) : Prop :=
  1 <= numCycle b <= 44100
  /\ 1 <= duration b <= interval b
  /\ (forall k, 1 <= k <= 3 -> (k * numCycle b) mod duration b <> 0)
  /\ duration b * numAvg b <= LONG_MAX.

(** * Properties *)

(** ** Machine integers *)

Lemma long_wrap_id (z : Z) :
  LONG_MIN <= z <= LONG_MAX -> long_wrap z = z.
Proof.
  unfold long_wrap, wrap, LONG_MIN, LONG_MAX. intros H.
  rewrite Z.mod_small; lia.
Qed.

Lemma long_wrap_range (z : Z) : LONG_MIN <= long_wrap z <= LONG_MAX.
Proof.
  unfold long_wrap, wrap, LONG_MIN, LONG_MAX.
  pose proof (Z.mod_pos_bound (z + 2 ^ (32 - 1)) (2 ^ 32) ltac:(lia)). lia.
Qed.

Lemma short_wrap_id (z : Z) :
  - 32768 <= z <= 32767 -> short_wrap z = z.
Proof.
  unfold short_wrap, wrap. intros H.
  rewrite Z.mod_small; lia.
Qed.

Lemma in_long_true (z : Z) :
  in_long z = true <-> LONG_MIN <= z <= LONG_MAX.
Proof.
  unfold in_long. rewrite andb_true_iff, !Z.leb_le. tauto.
Qed.

Lemma Rabs_bounds (a b : R) : (Rabs a <= b)%R -> (- b <= a <= b)%R.
Proof. unfold Rabs. destruct (Rcase_abs a); lra. Qed.

(** ** Loops *)

Section LoopFacts.

Context {S : Type}.
Variable step : S -> run S.

Lemma iterate_nat_add (n m : nat) (s : S) :
  iterate_nat (n + m) step s =
  match iterate_nat n step s with
  | More s' => iterate_nat m step s'
  | r => r
  end.
Proof.
  revert s. induction n as [|n IH]; intros s; simpl.
  - reflexivity.
  - destruct (step s); auto.
Qed.

Lemma iterate_unary (p : positive) (s : S) :
  iterate p step s = iterate_nat (Pos.to_nat p) step s.
Proof.
  revert s. induction p as [p IH|p IH|]; intros s.
  - rewrite Pos2Nat.inj_xI. simpl.
    destruct (step s) as [r|s1|]; try reflexivity.
    replace (Pos.to_nat p + (Pos.to_nat p + 0))%nat
      with (Pos.to_nat p + Pos.to_nat p)%nat by lia.
    rewrite iterate_nat_add, <- IH.
    destruct (iterate p step s1); auto.
  - rewrite Pos2Nat.inj_xO. simpl.
    replace (Pos.to_nat p + (Pos.to_nat p + 0))%nat
      with (Pos.to_nat p + Pos.to_nat p)%nat by lia.
    rewrite iterate_nat_add, <- IH.
    destruct (iterate p step s); auto.
  - simpl. destruct (step s); reflexivity.
Qed.

Lemma iterate_nat_S (n : nat) (s : S) :
  iterate_nat (Datatypes.S n) step s =
  match step s with
  | More s' => iterate_nat n step s'
  | r => r
  end.
Proof. reflexivity. Qed.

(** A loop that has left stays left, whatever time remains. *)
Lemma iterate_nat_done_mono (n m : nat) (s r : S) :
  iterate_nat n step s = Done r -> (n <= m)%nat ->
  iterate_nat m step s = Done r.
Proof.
  intros H Hle. replace m with (n + (m - n))%nat by lia.
  rewrite iterate_nat_add, H. reflexivity.
Qed.

Lemma iterate_nat_stuck_mono (n m : nat) (s : S) :
  iterate_nat n step s = Stuck -> (n <= m)%nat ->
  iterate_nat m step s = Stuck.
Proof.
  intros H Hle. replace m with (n + (m - n))%nat by lia.
  rewrite iterate_nat_add, H. reflexivity.
Qed.

End LoopFacts.

Lemma iterate_limit {S : Type} {limit : LoopLimit} (step : S -> run S)
  (s : S) :
  iterate loop_limit_pos step s = iterate_nat loop_limit step s.
Proof. exact (iterate_unary step loop_limit_pos s). Qed.

Lemma loop_limit_val : Z.of_nat (@loop_limit LOOP_LIMIT) = 2 ^ 32.
Proof. unfold loop_limit. rewrite positive_nat_Z. reflexivity. Qed.

Lemma while_done {S : Type} {limit : LoopLimit} (cond : S -> bool) (body : S -> option S)
  (n : nat) (s r : S) :
  iterate_nat n (while_step cond body) s = Done r ->
  (n <= loop_limit)%nat ->
  while cond body s = Some r.
Proof.
  intros H Hle. unfold while. rewrite iterate_limit.
  rewrite (iterate_nat_done_mono _ n _ s r H Hle). reflexivity.
Qed.

Lemma while_some_inv {S : Type} {limit : LoopLimit} (cond : S -> bool) (body : S -> option S)
  (s r : S) :
  while cond body s = Some r ->
  iterate_nat loop_limit (while_step cond body) s = Done r.
Proof.
  unfold while. rewrite iterate_limit.
  destruct (iterate_nat loop_limit (while_step cond body) s);
    congruence.
Qed.

(** Where the loop leaves, its test is false; and what every turn of the
    body keeps, the loop keeps. *)
Lemma iterate_nat_done_inv {S : Type} (cond : S -> bool)
  (body : S -> option S) (I : S -> Prop) (n : nat) (s r : S) :
  (forall x y, I x -> cond x = true -> body x = Some y -> I y) ->
  I s ->
  iterate_nat n (while_step cond body) s = Done r ->
  I r /\ cond r = false.
Proof.
  intros Hstep. revert s. induction n as [|n IH]; intros s Hs; simpl.
  - discriminate.
  - unfold while_step at 1. destruct (cond s) eqn:Hc.
    + destruct (body s) as [s'|] eqn:Hb; [|discriminate].
      apply IH. eapply Hstep; eauto.
    + intros [= <-]. auto.
Qed.

Lemma while_inv {S : Type} {limit : LoopLimit} (cond : S -> bool) (body : S -> option S)
  (I : S -> Prop) (s r : S) :
  (forall x y, I x -> cond x = true -> body x = Some y -> I y) ->
  I s ->
  while cond body s = Some r ->
  I r /\ cond r = false.
Proof.
  intros Hstep Hs H. apply while_some_inv in H.
  eapply iterate_nat_done_inv; eauto.
Qed.

Lemma for_from_inv {S : Type} (body : Z -> S -> S) (I : S -> Prop)
  (k : nat) (j : Z) (s : S) :
  (forall i x, I x -> I (body i x)) -> I s -> I (for_from k j body s).
Proof.
  intros Hstep. revert j s. induction k as [|k IH]; intros j s Hs; simpl; auto.
Qed.

Lemma for_long_inv {S : Type} (body : Z -> S -> S) (I : S -> Prop)
  (n : Z) (s : S) :
  (forall i x, I x -> I (body i x)) -> I s -> I (for_long n body s).
Proof. intros. unfold for_long. apply for_from_inv; auto. Qed.

(** ** The stepping state machine, whatever the arithmetic *)

Section ToneBurstFacts.

Context {D : Type} {ops : DoubleOps D} {lm : Libm D} {limit : LoopLimit}.

Implicit Types b : toneBurst D.

Lemma same_setup_refl b : same_setup b b.
Proof. unfold same_setup. tauto. Qed.

Lemma same_setup_trans b1 b2 b3 :
  same_setup b1 b2 -> same_setup b2 b3 -> same_setup b1 b3.
Proof.
  unfold same_setup. intros H1 H2.
  repeat match goal with H : _ /\ _ |- _ => destruct H end.
  repeat split; congruence.
Qed.

Lemma calc_body_setup b b' : calc_body b = Some b' -> same_setup b b'.
Proof.
  unfold calc_body. intros [= <-]. destruct b. unfold same_setup. simpl. tauto.
Qed.

Lemma calc_loop_setup b b' :
  while calc_cond calc_body b = Some b' -> same_setup b b'.
Proof.
  intros H.
  apply (while_inv calc_cond calc_body (same_setup b)) in H.
  - tauto.
  - intros x y Hx _ Hy. eapply same_setup_trans; eauto using calc_body_setup.
  - apply same_setup_refl.
Qed.

(** [calc] keeps every member it does not compute. *)
Lemma calc_setup b b' : calc b = Some b' -> same_setup b b'.
Proof.
  unfold calc. destruct (while calc_cond calc_body b) as [b1|] eqn:H;
    [|discriminate].
  intros [= <-]. apply calc_loop_setup in H.
  destruct b1. unfold same_setup in *. simpl in *. exact H.
Qed.

(** The loop of [calc] leaves with its test false. *)
Lemma calc_loop_exit b b' :
  while calc_cond calc_body b = Some b' -> calc_cond b' = false.
Proof.
  intros H.
  apply (while_inv calc_cond calc_body (fun _ => True)) in H; tauto.
Qed.

(** What [calc] computes, from the state its loop leaves in. *)
Lemma calc_inv b b' :
  calc b = Some b' ->
  exists b1,
    while calc_cond calc_body b = Some b1
    /\ numCycle b' = numCycle b1
    /\ duration b' = to_long (cycles_span b1)
    /\ actualFreq b' =
         (d_of_long 1 * d_of_long (sampleRate b1) * d_of_long (numCycle b1)
          / d_of_long (duration b'))%dbl
    /\ factor b' =
         (d_of_long 2 * d_pi * actualFreq b' / d_of_long (sampleRate b1))%dbl.
Proof.
  unfold calc. destruct (while calc_cond calc_body b) as [b1|] eqn:H;
    [|discriminate].
  intros [= <-]. exists b1. destruct b1; simpl. auto.
Qed.

(** *** Polar mode *)

Lemma next_polar b :
  sweep b = false -> 0 < burstCount b <= LONG_MAX ->
  next b = Some (true, set_burstCount (burstCount b - 1) b).
Proof.
  intros Hs Hc. unfold next. rewrite Hs.
  destruct (Z.ltb_spec 0 (burstCount b)); [|lia].
  unfold lsub. rewrite long_wrap_id; [reflexivity|].
  unfold LONG_MIN, LONG_MAX in *. lia.
Qed.

Lemma nexts_polar (k : nat) b :
  sweep b = false -> Z.of_nat k <= burstCount b <= LONG_MAX ->
  nexts k b = Some (set_burstCount (burstCount b - Z.of_nat k) b).
Proof.
  revert b. induction k as [|k IH]; intros b Hs Hc.
  - simpl. rewrite Z.sub_0_r. destruct b; reflexivity.
  - cbn [nexts]. rewrite next_polar by (auto; lia).
    rewrite IH.
    + f_equal. destruct b; unfold set_burstCount; simpl. f_equal. lia.
    + destruct b; auto.
    + destruct b; simpl in *. lia.
Qed.

Lemma init_polar b :
  sweep (init false b) = false /\ numBurst (init false b) = 72.
Proof. destruct b; simpl; auto. Qed.

Lemma reset_polar b b' :
  sweep b = false -> reset b = Some b' ->
  sweep b' = false /\ burstCount b' = numBurst b
  /\ nominalFreq b' = startFreq b.
Proof.
  unfold reset, reset_members. intros Hs H. apply calc_setup in H.
  destruct b; unfold same_setup in H; simpl in *. subst.
  simpl in H. tauto.
Qed.

(** C7: in polar mode, [init(false)] then [reset()], the 72 calls of
    [next] all return [true] and change nothing but [burstCount], which
    they count down: the nominal frequency (1000.0), [actualFreq],
    [numCycle] and [duration] stay what [reset] made them; and so does any
    call of [next] on a polar object with bursts left. *)
Theorem polar_frequency_constant b b0 :
  reset (init false b) = Some b0 ->
  sweep b0 = false /\ burstCount b0 = 72
  /\ nominalFreq b0 = d_of_long 1000
  /\ (forall k : nat, (k <= 72)%nat ->
        nexts k b0 = Some (set_burstCount (72 - Z.of_nat k) b0))
  /\ (forall b1, sweep b1 = false -> 0 < burstCount b1 <= LONG_MAX ->
        next b1 = Some (true, set_burstCount (burstCount b1 - 1) b1)).
Proof.
  intros H.
  destruct (init_polar b) as [Hs Hn].
  destruct (reset_polar _ _ Hs H) as (Hs0 & Hc0 & Hf0).
  rewrite Hn in Hc0.
  split; [exact Hs0|]. split; [exact Hc0|]. split; [|split].
  - rewrite Hf0. destruct b; reflexivity.
  - intros k Hk. rewrite <- Hc0. apply nexts_polar; auto.
    rewrite Hc0. unfold LONG_MAX. lia.
  - intros b1 H1 H2. apply next_polar; auto.
Qed.

(** *** The burst counter *)

Lemma toneBurst_new_unfold :
  @toneBurst_new D ops limit = calc toneBurst_members.
Proof. reflexivity. Qed.

Lemma toneBurst_new_counts b :
  toneBurst_new = Some b ->
  sampleRate b = SAMPLE_RATE /\ interval b = INTERVAL
  /\ burstMin b = BURST_LENGTH /\ numBurst b = 201 /\ burstCount b = 0
  /\ sweep b = true /\ delay b = INTERVAL /\ numAvg b = 1.
Proof.
  rewrite toneBurst_new_unfold. intros H. apply calc_setup in H.
  unfold same_setup, toneBurst_members in H.
  cbn [sampleRate interval burstMin numBurst burstCount nominalFreq
       stopFreq freqIncr sweep startFreq delay numAvg] in H.
  tauto.
Qed.

Lemma reachable_counts b :
  reachable b ->
  0 <= burstCount b <= 201 /\ (numBurst b = 201 \/ numBurst b = 72).
Proof.
  induction 1 as [b Hnew|s b Hb IH|v b Hb IH|v b Hb IH|v b Hb IH
                 |b b' Hb IH Hr|b r b' Hb IH Hn].
  - apply toneBurst_new_counts in Hnew. unfold SAMPLE_RATE in *. lia.
  - destruct b, s; simpl in *; lia.
  - destruct b; simpl in *; lia.
  - destruct b; simpl in *; lia.
  - destruct b; simpl in *; lia.
  - unfold reset, reset_members in Hr. apply calc_setup in Hr.
    unfold same_setup in Hr. destruct b; simpl in *.
    destruct sweep0; simpl in Hr;
      destruct Hr as (_ & _ & _ & -> & -> & _); lia.
  - unfold next in Hn. destruct (Z.ltb_spec 0 (burstCount b)).
    + destruct (sweep b).
      * destruct (calc _) as [b1|] eqn:Hc; [|discriminate].
        injection Hn as <- <-. apply calc_setup in Hc.
        unfold same_setup in Hc.
        destruct Hc as (_ & _ & _ & Hnb & Hbc & _).
        destruct b, b1; simpl in *. subst.
        unfold lsub. rewrite long_wrap_id; unfold LONG_MIN, LONG_MAX; lia.
      * injection Hn as <- <-. destruct b; simpl in *.
        unfold lsub. rewrite long_wrap_id; unfold LONG_MIN, LONG_MAX; lia.
    + injection Hn as <- <-. lia.
Qed.

(** C8: on every object a [main] can hold, [good()] is false exactly when
    [burstCount] is 0, and there [next()] returns [false] and hands the
    object back as it was, every member with its prior value. *)
Theorem exhausted_next_is_noop b :
  reachable b ->
  (good b = false <-> burstCount b = 0)
  /\ (burstCount b = 0 -> next b = Some (false, b)).
Proof.
  intros Hr. destruct (reachable_counts b Hr) as [Hc _]. split.
  - unfold good. destruct (Z.ltb_spec 0 (burstCount b)); split;
      intros; try lia; try discriminate; auto.
  - intros H0. unfold next. rewrite H0. reflexivity.
Qed.

(** *** [write] and [read] *)

Lemma write_body_frame (j : Z) (s : toneBurst D * ofstream) :
  fst (write_body j s) = fst s.
Proof. destruct s. reflexivity. Qed.

Lemma write_frame b (outfile : ofstream) : fst (write (b, outfile)) = b.
Proof.
  unfold write. simpl fst.
  apply (for_long_inv _ (fun s => fst s = b)); [|reflexivity].
  intros _ x Hx.
  apply (for_long_inv _ (fun s => fst s = b)); [|exact Hx].
  intros j y Hy. rewrite write_body_frame. exact Hy.
Qed.

Lemma read_body_frame (j : Z) (s : toneBurst D * ifstream * read_locals D) :
  fst (fst (read_body j s)) = fst (fst s).
Proof.
  destruct s as [[b f] l]. unfold read_body.
  destruct (read_short (a1 l) f) as [v1 f1].
  destruct (read_short (a2 l) f1) as [v2 f2]. reflexivity.
Qed.

Lemma read_frame b (infile : ifstream) : fst (fst (read (b, infile))) = b.
Proof.
  unfold read. simpl fst. simpl snd.
  match goal with
  | |- context [for_long ?n ?f ?s0] =>
      assert (H : fst (fst (for_long n f s0)) = b);
      [|destruct (for_long n f s0) as [[b' f'] l']; simpl in *; exact H]
  end.
  apply (for_long_inv _ (fun s => fst (fst s) = b)); [|reflexivity].
  intros _ x Hx.
  apply (for_long_inv _ (fun s => fst (fst s) = b)); [|exact Hx].
  intros j y Hy. rewrite read_body_frame. exact Hy.
Qed.

(** C9: [write] and [read] hand the object back as they got it: every one
    of its sixteen members has its prior value, whatever the object and
    the stream. *)
Theorem write_read_frame b (outfile : ofstream) (infile : ifstream) :
  fst (write (b, outfile)) = b /\ fst (fst (read (b, infile))) = b.
Proof. split; [apply write_frame | apply read_frame]. Qed.

(** *** The size of the sound data *)

Lemma getSize_exact b :
  LONG_MIN <= interval b * numAvg b <= LONG_MAX ->
  LONG_MIN <= interval b * numAvg b * numBurst b <= LONG_MAX ->
  LONG_MIN <= interval b * numAvg b * numBurst b + delay b <= LONG_MAX ->
  LONG_MIN <= 4 * (interval b * numAvg b * numBurst b + delay b) <= LONG_MAX ->
  getSize b = 2 * 2 * (interval b * numAvg b * numBurst b + delay b).
Proof.
  intros H1 H2 H3 H4. unfold getSize, lmul, ladd.
  change (long_wrap (2 * 2)) with 4.
  rewrite (long_wrap_id (interval b * numAvg b)) by exact H1.
  rewrite (long_wrap_id (interval b * numAvg b * numBurst b)) by exact H2.
  rewrite (long_wrap_id (interval b * numAvg b * numBurst b + delay b))
    by exact H3.
  rewrite long_wrap_id by exact H4. lia.
Qed.

(** C2, as the code has it: with [interval = 22050], [numAvg = 1],
    [numBurst = 201] and [delay = 22050], [getSize()] returns
    [2 * 2 * (22050 * 1 * 201 + 22050) = 17816400] bytes, and the size
    member of the RIFF chunk is that count plus 36. *)
Theorem getSize_scenario b :
  interval b = 22050 -> numAvg b = 1 -> numBurst b = 201 ->
  delay b = 22050 ->
  getSize b = 2 * 2 * (22050 * 1 * 201 + 22050)
  /\ getSize b = 17816400
  /\ riff_chunkSize (riff_setSize (getSize b)) = getSize b + 36.
Proof.
  intros Hi Ha Hn Hd.
  assert (H : getSize b = 17816400).
  { rewrite getSize_exact; rewrite ?Hi, ?Ha, ?Hn, ?Hd;
      unfold LONG_MIN, LONG_MAX; lia. }
  rewrite H. split; [reflexivity|]. split; [reflexivity|].
  unfold riff_setSize, ladd. cbn [riff_chunkSize].
  apply long_wrap_id. unfold LONG_MIN, LONG_MAX. lia.
Qed.

(** *** The windows of [read] *)

Lemma filter_all {A : Type} (f : A -> bool) (l : list A) :
  (forall x, In x l -> f x = true) -> filter f l = l.
Proof.
  induction l as [|a l IH]; intros H; simpl; auto.
  rewrite (H a) by (left; reflexivity). f_equal.
  apply IH. intros x Hx. apply H. right. exact Hx.
Qed.

Lemma filter_none {A : Type} (f : A -> bool) (l : list A) :
  (forall x, In x l -> f x = false) -> filter f l = [].
Proof.
  induction l as [|a l IH]; intros H; simpl; auto.
  rewrite (H a) by (left; reflexivity).
  apply IH. intros x Hx. apply H. right. exact Hx.
Qed.

Lemma in_map_seq (x : Z) (lo len : nat) :
  In x (map Z.of_nat (seq lo len)) <->
  Z.of_nat lo <= x < Z.of_nat lo + Z.of_nat len.
Proof.
  rewrite in_map_iff. split.
  - intros (k & <- & Hk). apply in_seq in Hk. lia.
  - intros H. exists (Z.to_nat x). split; [lia|]. apply in_seq. lia.
Qed.

Lemma in_indices (n x : Z) : In x (indices n) <-> 0 <= x < n.
Proof.
  unfold indices. rewrite in_map_seq. lia.
Qed.

(** The indices between [lo] and [hi], counted. *)
Lemma filter_range_length (f : Z -> bool) (lo hi n : Z) :
  0 <= lo <= hi -> hi <= n ->
  (forall j, 0 <= j < n -> (f j = true <-> lo <= j < hi)) ->
  length (filter f (indices n)) = Z.to_nat (hi - lo).
Proof.
  intros Hlo Hhi Hf. unfold indices.
  replace (Z.to_nat n)
    with (Z.to_nat lo + (Z.to_nat (hi - lo) + Z.to_nat (n - hi)))%nat by lia.
  rewrite !seq_app, !map_app, !filter_app.
  rewrite (filter_none f (map Z.of_nat (seq 0 (Z.to_nat lo)))).
  2:{ intros x Hx. apply in_map_seq in Hx.
      destruct (f x) eqn:E; auto. apply Hf in E; lia. }
  rewrite (filter_all f (map Z.of_nat (seq (0 + Z.to_nat lo) _))).
  2:{ intros x Hx. apply in_map_seq in Hx. apply Hf; lia. }
  rewrite (filter_none f).
  2:{ intros x Hx. apply in_map_seq in Hx.
      destruct (f x) eqn:E; auto. apply Hf in E; lia. }
  simpl. rewrite app_nil_r, length_map, length_seq. reflexivity.
Qed.

Lemma in_background_spec b (j : Z) :
  0 <= duration b -> 2 * duration b <= interval b <= LONG_MAX ->
  (in_background b j = true <->
   interval b - 2 * duration b <= j < interval b - duration b).
Proof.
  intros Hd Hi. unfold in_background, lsub, lmul.
  unfold LONG_MAX in Hi.
  rewrite (long_wrap_id (2 * duration b))
    by (unfold LONG_MIN, LONG_MAX; lia).
  rewrite !long_wrap_id by (unfold LONG_MIN, LONG_MAX; lia).
  rewrite andb_true_iff, Z.ltb_lt, Z.leb_le. lia.
Qed.

(** When the burst takes at most a third of the interval
    ([3 * duration <= interval]), the test of the background window holds
    at exactly the indices [j] of
    [interval - 2 * duration <= j < interval - duration]; there are
    [duration] of them, as many as in the signal window, and none of them is
    in the burst. *)
Lemma background_window_range b :
  0 <= duration b -> 3 * duration b <= interval b -> interval b <= LONG_MAX ->
  (forall j, in_background b j = true <->
             interval b - 2 * duration b <= j < interval b - duration b)
  /\ (forall j, In j (background_window b) <->
                interval b - 2 * duration b <= j < interval b - duration b)
  /\ length (background_window b) = Z.to_nat (duration b)
  /\ length (signal_window b) = Z.to_nat (duration b)
  /\ (forall j, in_background b j = true -> in_signal b j = false).
Proof.
  intros Hd H3 Hi.
  assert (Hspec : forall j, in_background b j = true <->
             interval b - 2 * duration b <= j < interval b - duration b).
  { intros j. apply in_background_spec; lia. }
  split; [exact Hspec|]. split; [|split; [|split]].
  - intros j. unfold background_window. rewrite filter_In, in_indices, Hspec.
    lia.
  - unfold background_window.
    rewrite (filter_range_length _ (interval b - 2 * duration b)
               (interval b - duration b)); try lia.
    intros j _. apply Hspec.
  - unfold signal_window.
    rewrite (filter_range_length _ 0 (duration b)); try lia.
    intros j Hj. unfold in_signal. rewrite Z.ltb_lt. lia.
  - intros j Hj. apply Hspec in Hj. unfold in_signal.
    apply Z.ltb_ge. lia.
Qed.

(** The windows are a matter of [interval] and [duration] alone. *)
Lemma windows_ext b b' :
  interval b' = interval b -> duration b' = duration b ->
  (forall j, in_background b' j = in_background b j)
  /\ (forall j, in_signal b' j = in_signal b j)
  /\ background_window b' = background_window b
  /\ signal_window b' = signal_window b.
Proof.
  intros Hi Hd.
  assert (Hb : forall j, in_background b' j = in_background b j)
    by (intros j; unfold in_background; rewrite Hi, Hd; reflexivity).
  assert (Hs : forall j, in_signal b' j = in_signal b j)
    by (intros j; unfold in_signal; rewrite Hd; reflexivity).
  repeat split; auto.
  - unfold background_window. rewrite Hi. apply filter_ext. exact Hb.
  - unfold signal_window. rewrite Hi. apply filter_ext. exact Hs.
Qed.

End ToneBurstFacts.

(** ** The cycle count, whatever the arithmetic *)

Section LeastCycles.

Context {D : Type} {ops : DoubleOps D} {limit : LoopLimit}.

Implicit Types b : toneBurst D.

(** The test of [calc] looks at four members. *)
Lemma calc_cond_ext b b' :
  sampleRate b' = sampleRate b -> nominalFreq b' = nominalFreq b ->
  numCycle b' = numCycle b -> burstMin b' = burstMin b ->
  calc_cond b' = calc_cond b.
Proof.
  intros H1 H2 H3 H4. unfold calc_cond, cycles_span.
  rewrite H1, H2, H3, H4. reflexivity.
Qed.

Lemma fewer_fail_ext b b' :
  sampleRate b' = sampleRate b -> nominalFreq b' = nominalFreq b ->
  numCycle b' = numCycle b -> burstMin b' = burstMin b ->
  fewer_fail b -> fewer_fail b'.
Proof.
  intros H1 H2 H3 H4 H n Hn. rewrite H3 in Hn.
  rewrite <- (H n Hn). apply calc_cond_ext; destruct b, b'; simpl in *; auto.
Qed.

Lemma calc_body_fewer_fail b b' :
  LONG_MIN <= numCycle b <= LONG_MAX -> fewer_fail b ->
  calc_cond b = true -> calc_body b = Some b' ->
  LONG_MIN <= numCycle b' <= LONG_MAX /\ fewer_fail b'.
Proof.
  intros Hr Hp Hc [= <-]. split.
  - destruct b; simpl. apply long_wrap_range.
  - intros n Hn.
    replace (set_numCycle n (set_numCycle (ladd (numCycle b) 1) b))
      with (set_numCycle n b) by (destruct b; reflexivity).
    assert (Hw : numCycle (set_numCycle (ladd (numCycle b) 1) b)
                 <= numCycle b + 1).
    { destruct b; simpl in *. unfold ladd.
      destruct (Z.eq_dec numCycle0 LONG_MAX) as [->|Hne].
      - vm_compute. discriminate.
      - rewrite long_wrap_id; unfold LONG_MIN, LONG_MAX in *; lia. }
    destruct (Z.eq_dec n (numCycle b)) as [->|Hne].
    + replace (set_numCycle (numCycle b) b) with b by (destruct b; reflexivity).
      exact Hc.
    + apply Hp. lia.
Qed.

(** The loop of [calc] never steps over a cycle count that fills the
    minimum. *)
Lemma calc_loop_fewer_fail b b1 :
  LONG_MIN <= numCycle b <= LONG_MAX -> fewer_fail b ->
  while calc_cond calc_body b = Some b1 ->
  fewer_fail b1 /\ calc_cond b1 = false.
Proof.
  intros Hr Hp H.
  apply (while_inv calc_cond calc_body
           (fun x => LONG_MIN <= numCycle x <= LONG_MAX /\ fewer_fail x))
    in H.
  - tauto.
  - intros x y [Hx1 Hx2] Hc Hb. eapply calc_body_fewer_fail; eauto.
  - auto.
Qed.

Lemma calc_fewer_fail b b' :
  LONG_MIN <= numCycle b <= LONG_MAX -> fewer_fail b ->
  calc b = Some b' ->
  fewer_fail b' /\ calc_cond b' = false.
Proof.
  intros Hr Hp H. destruct (calc_inv _ _ H) as (b1 & Hl & Hn & _).
  pose proof (calc_setup _ _ H) as Hs.
  pose proof (calc_loop_setup _ _ Hl) as Hs1.
  destruct (calc_loop_fewer_fail _ _ Hr Hp Hl) as [Hp1 Hc1].
  unfold same_setup in Hs, Hs1.
  assert (E1 : sampleRate b' = sampleRate b1) by (intuition congruence).
  assert (E2 : nominalFreq b' = nominalFreq b1) by (intuition congruence).
  assert (E4 : burstMin b' = burstMin b1) by (intuition congruence).
  split.
  - apply (fewer_fail_ext b1 b'); auto.
  - rewrite (calc_cond_ext b1 b'); auto.
Qed.

(** After [reset], whatever the arithmetic, no smaller cycle count fills
    the minimum. *)
Lemma reset_fewer_fail {lm : Libm D} b b0 :
  reset b = Some b0 -> fewer_fail b0 /\ calc_cond b0 = false.
Proof.
  unfold reset, reset_members. intros H. apply calc_fewer_fail in H; auto.
  - destruct b; simpl. destruct sweep0; simpl;
      unfold LONG_MIN, LONG_MAX; lia.
  - intros n Hn. exfalso. destruct b; simpl in Hn.
    destruct sweep0; simpl in Hn; lia.
Qed.

(** X1: [calc] entered with [numCycle] at 1, as the constructor and
    [reset()] enter it, leaves the least cycle count that fills the burst
    minimum by its own test, whatever the arithmetic: the test
    [(sampleRate / nominalFreq) * numCycle < burstMin] is false at the
    count it leaves, and true at every count from 1 up to it. *)
Theorem calc_least_cycles b b' :
  numCycle b = 1 -> calc b = Some b' ->
  calc_cond b' = false
  /\ forall n, 1 <= n < numCycle b' -> calc_cond (set_numCycle n b') = true.
Proof.
  intros Hn H. apply calc_fewer_fail in H.
  - destruct H as [Hf Hc]. split; [exact Hc|exact Hf].
  - rewrite Hn. unfold LONG_MIN, LONG_MAX. lia.
  - intros n Hlt. lia.
Qed.

End LeastCycles.

(** ** When [calc] returns, whatever the arithmetic *)

Section CalcLoop.

Context {D : Type} {ops : DoubleOps D} {limit : LoopLimit}.

Implicit Types b : toneBurst D.

Lemma calc_loop_count (k : nat) : forall b (n : Z),
  n = numCycle b + Z.of_nat k ->
  LONG_MIN <= numCycle b -> n <= LONG_MAX ->
  calc_cond (set_numCycle n b) = false ->
  (forall i, numCycle b <= i < n -> calc_cond (set_numCycle i b) = true) ->
  iterate_nat (Datatypes.S k) (while_step calc_cond calc_body) b
  = Done (set_numCycle n b).
Proof.
  induction k as [|k IH]; intros b n Hn Hlo Hhi Hf Ht.
  - replace n with (numCycle b) in * by lia.
    replace (set_numCycle (numCycle b) b) with b in * by (destruct b; reflexivity).
    cbn [iterate_nat]. unfold while_step. rewrite Hf. reflexivity.
  - assert (E : calc_cond b = true).
    { specialize (Ht (numCycle b) ltac:(lia)).
      replace (set_numCycle (numCycle b) b) with b in Ht
        by (destruct b; reflexivity).
      exact Ht. }
    assert (Hstep : while_step calc_cond calc_body b
                    = More (set_numCycle (numCycle b + 1) b)).
    { unfold while_step. rewrite E. unfold calc_body, ladd.
      rewrite long_wrap_id by (unfold LONG_MAX, LONG_MIN in *; lia).
      reflexivity. }
    rewrite iterate_nat_S, Hstep.
    rewrite (IH (set_numCycle (numCycle b + 1) b) n).
    + destruct b; reflexivity.
    + destruct b; simpl in *; lia.
    + destruct b; simpl in *; lia.
    + exact Hhi.
    + replace (set_numCycle n (set_numCycle (numCycle b + 1) b))
        with (set_numCycle n b) by (destruct b; reflexivity).
      exact Hf.
    + intros i Hi.
      replace (set_numCycle i (set_numCycle (numCycle b + 1) b))
        with (set_numCycle i b) by (destruct b; reflexivity).
      apply Ht. destruct b; simpl in *; lia.
Qed.

Lemma first_false (f : Z -> bool) (k : nat) : forall n0 N : Z,
  N = n0 + Z.of_nat k -> f N = false ->
  exists n, n0 <= n <= N /\ f n = false
            /\ forall i, n0 <= i < n -> f i = true.
Proof.
  induction k as [|k IH]; intros n0 N HN Hf.
  - exists n0. replace N with n0 in * by lia.
    split; [lia|]. split; [exact Hf|]. intros i Hi. lia.
  - destruct (f n0) eqn:E.
    + destruct (IH (n0 + 1) N ltac:(lia) Hf) as (n & Hn & Hfn & Hb).
      exists n. split; [lia|]. split; [exact Hfn|].
      intros i Hi. destruct (Z.eq_dec i n0) as [->|Hne]; [exact E|].
      apply Hb. lia.
    + exists n0. split; [lia|]. split; [exact E|]. intros i Hi. lia.
Qed.

(** [calc] returns when its test fails at some cycle count within reach:
    it leaves the first such count. *)
Lemma calc_returns b (N : Z) :
  LONG_MIN <= numCycle b <= N -> N <= LONG_MAX ->
  calc_cond (set_numCycle N b) = false ->
  (Z.to_nat (N - numCycle b) < loop_limit)%nat ->
  exists b',
    calc b = Some b'
    /\ same_setup b b'
    /\ numCycle b <= numCycle b' <= N
    /\ calc_cond (set_numCycle (numCycle b') b) = false
    /\ (forall i, numCycle b <= i < numCycle b' ->
                  calc_cond (set_numCycle i b) = true)
    /\ duration b' = to_long (cycles_span (set_numCycle (numCycle b') b)).
Proof.
  intros Hlo Hhi Hf Hlim.
  destruct (first_false (fun n => calc_cond (set_numCycle n b))
              (Z.to_nat (N - numCycle b)) (numCycle b) N ltac:(lia) Hf)
    as (n & Hn & Hfn & Hb).
  assert (Hw : while calc_cond calc_body b = Some (set_numCycle n b)).
  { apply (while_done _ _ (Datatypes.S (Z.to_nat (n - numCycle b)))); [|lia].
    apply calc_loop_count; auto; lia. }
  unfold calc. rewrite Hw. eexists. split; [reflexivity|].
  destruct b; unfold same_setup; cbn in *.
  repeat split; auto; lia.
Qed.

End CalcLoop.

Section ResetMembers.

Context {D : Type} {ops : DoubleOps D} {lm : Libm D}.

(** The members [reset] sets before it calls [calc]. *)
Lemma reset_members_fields (b : toneBurst D) :
  let b' := reset_members b in
  same_run b b'
  /\ numCycle b' = 1 /\ burstCount b' = numBurst b
  /\ nominalFreq b' = startFreq b
  /\ numBurst b' = (if sweep b then 201 else 72)
  /\ stopFreq b' = (if sweep b then d_of_long 10000 else startFreq b)
  /\ freqIncr b' =
       (if sweep b
        then d_pow (d_of_long 10000 / startFreq b)%dbl
                   (d_of_long 1 / d_of_long 200)%dbl
        else d_of_long 1).
Proof.
  destruct b; unfold same_run, reset_members; simpl.
  destruct sweep0; simpl; repeat split; reflexivity.
Qed.

End ResetMembers.

(** ** The generator: how many bytes it writes *)

Lemma for_from_measure {S : Type} (body : Z -> S -> S) (P : S -> Prop)
  (mu : S -> nat) (c : nat) (k : nat) : forall (j : Z) (s : S),
  (forall i x, P x -> P (body i x) /\ mu (body i x) = (mu x + c)%nat) ->
  P s ->
  P (for_from k j body s) /\ mu (for_from k j body s) = (mu s + k * c)%nat.
Proof.
  induction k as [|k IH]; intros j s Hstep Hs; simpl.
  - split; [exact Hs|lia].
  - destruct (Hstep j s Hs) as [Hp Hm].
    destruct (IH (j + 1) (body j s) Hstep Hp) as [Hp' Hm'].
    split; [exact Hp'|]. rewrite Hm', Hm. lia.
Qed.

Lemma wave_header_length (theSize : Z) : length (wave_header theSize) = 44%nat.
Proof. reflexivity. Qed.

Lemma write_short_length (a : Z) (o : ofstream) :
  length (write_short a o) = (length o + 2)%nat.
Proof. unfold write_short. rewrite length_app. reflexivity. Qed.

Section Generator.

Context {D : Type} {ops : DoubleOps D} {lm : Libm D} {limit : LoopLimit}.

Implicit Types b : toneBurst D.

(** [write] puts out four bytes for every sample of every pass. *)
Lemma write_length b (outfile : ofstream) :
  length (snd (write (b, outfile)))
  = (length outfile + Z.to_nat (numAvg b) * (Z.to_nat (interval b) * 4))%nat.
Proof.
  unfold write, for_long. cbn [fst].
  refine (proj2 (for_from_measure _ (fun s => fst s = b)
                   (fun s => length (snd s)) _ _ _ (b, outfile) _ eq_refl)).
  intros i [b' o] Hx. cbn in Hx. subst b'. cbn [fst].
  refine (for_from_measure write_body (fun s => fst s = b)
            (fun s => length (snd s)) 4 _ 0 (b, o) _ eq_refl).
  intros j [b' o'] Hb. cbn in Hb. subst b'. cbn.
  split; [reflexivity|]. rewrite !write_short_length. lia.
Qed.


(** What a call of [next] with bursts left does to the counter and to the
    setup. *)
Lemma next_inv b (r : bool) b' :
  next b = Some (r, b') -> 0 < burstCount b <= LONG_MAX ->
  r = true /\ burstCount b' = burstCount b - 1 /\ same_run b b'.
Proof.
  unfold next. intros H Hc.
  destruct (Z.ltb_spec 0 (burstCount b)); [|lia].
  assert (Hsub : forall x : toneBurst D, burstCount x = burstCount b ->
                           lsub (burstCount x) 1 = burstCount b - 1).
  { intros x ->. unfold lsub. apply long_wrap_id.
    unfold LONG_MIN, LONG_MAX in *. lia. }
  destruct (sweep b).
  - destruct (calc _) as [b1|] eqn:Hcalc; [|discriminate].
    injection H as <- <-. apply calc_setup in Hcalc.
    unfold same_setup in Hcalc.
    assert (Hbc : burstCount b1 = burstCount b).
    { destruct Hcalc as (_ & _ & _ & _ & -> & _). destruct b; reflexivity. }
    split; [reflexivity|]. split.
    + rewrite Hsub by exact Hbc. destruct b1; reflexivity.
    + unfold same_run. destruct b, b1; cbn in *. tauto.
  - injection H as <- <-. split; [reflexivity|]. split.
    + rewrite Hsub by reflexivity. destruct b; reflexivity.
    + unfold same_run. destruct b; cbn. tauto.
Qed.


Lemma reset_inv b b1 :
  reset b = Some b1 -> burstCount b1 = numBurst b /\ same_run b b1.
Proof.
  unfold reset. intros H. apply calc_setup in H.
  destruct (reset_members_fields b) as (Hrun & _ & Hbc & _).
  unfold same_setup in H. unfold same_run in *.
  repeat match goal with H : _ /\ _ |- _ => destruct H end.
  repeat split; congruence.
Qed.

(** What the [switch] leaves of the constructed object. *)
Lemma parse_args_inv (c : cmdline D) b0 b :
  toneBurst_new = Some b0 -> parse_args c b0 = Some b ->
  (interval b = 22050 \/ interval b = 44100)
  /\ (numBurst b = 201 \/ numBurst b = 72)
  /\ sampleRate b = SAMPLE_RATE /\ burstMin b = BURST_LENGTH
  /\ (sweep b = true -> numBurst b = 201)
  /\ (argc c < 5 -> sweep b = true /\ startFreq b = d_of_long 100)
  /\ (5 <= argc c -> startFreq b = argv4 c)
  /\ (argc c < 3 -> delay b = INTERVAL)
  /\ (3 <= argc c -> delay b = argv2 c)
  /\ (argc c < 4 -> numAvg b = 1)
  /\ (4 <= argc c -> numAvg b = argv3 c).
Proof.
  intros Hnew Hp. pose proof (calc_setup _ _ Hnew) as Hs.
  unfold same_setup, toneBurst_members in Hs. cbn in Hs.
  destruct Hs as (Hsr & Hi & Hm & Hnb & _ & _ & _ & _ & Hsw & Hsf & Hd & Ha).
  unfold parse_args in Hp.
  destruct ((2 <=? argc c) && (argc c <=? 6)) eqn:Hrange; [|discriminate].
  injection Hp as <-.
  destruct b0; cbn in *. subst.
  destruct (Z.eqb_spec (argc c) 6) as [E6|E6];
    destruct (argv5_polar c);
    destruct (Z.leb_spec 5 (argc c));
    destruct (Z.leb_spec 4 (argc c));
    destruct (Z.leb_spec 3 (argc c));
    cbn; unfold INTERVAL, SAMPLE_RATE, BURST_LENGTH;
    repeat split; auto; intros; try lia; try discriminate.
Qed.

(** The [switch] takes the command lines of two to six arguments, and
    the mode is polar when the sixth says so. *)
Lemma parse_args_returns (c : cmdline D) b0 :
  2 <= argc c <= 6 -> exists b, parse_args c b0 = Some b.
Proof.
  intros Hargc. unfold parse_args.
  assert (E : (2 <=? argc c) && (argc c <=? 6) = true)
    by (apply andb_true_iff; rewrite !Z.leb_le; lia).
  rewrite E. eexists. reflexivity.
Qed.

Lemma parse_args_mode (c : cmdline D) b0 b :
  toneBurst_new = Some b0 -> parse_args c b0 = Some b ->
  numBurst b = (if (argc c =? 6) && argv5_polar c then 72 else 201).
Proof.
  intros Hnew Hp.
  pose proof (toneBurst_new_counts _ Hnew) as (_ & _ & _ & Hnb & _).
  unfold parse_args in Hp.
  destruct ((2 <=? argc c) && (argc c <=? 6)); [|discriminate].
  injection Hp as <-.
  destruct ((argc c =? 6) && argv5_polar c), (5 <=? argc c), (4 <=? argc c),
    (3 <=? argc c); destruct b0; cbn in *; auto.
Qed.









End Generator.

(** ** The analyzer on what the generator wrote *)

Lemma short_wrap_range (z : Z) : -32768 <= short_wrap z <= 32767.
Proof.
  unfold short_wrap, wrap.
  pose proof (Z.mod_pos_bound (z + 2 ^ (16 - 1)) (2 ^ 16) ltac:(lia)).
  change (2 ^ (16 - 1)) with 32768 in *. change (2 ^ 16) with 65536 in *.
  lia.
Qed.

(** Two bytes written low byte first read back as the [short] they were. *)
Lemma short_of_bytes_split (a : Z) :
  -32768 <= a <= 32767 ->
  short_of_bytes (a mod 256) ((a / 256) mod 256) = a.
Proof.
  intros Ha. unfold short_of_bytes, short_wrap, wrap.
  change (2 ^ (16 - 1)) with 32768. change (2 ^ 16) with 65536.
  pose proof (Z.div_mod a 256 ltac:(lia)) as E1.
  pose proof (Z.div_mod (a / 256) 256 ltac:(lia)) as E2.
  replace (a mod 256 + 256 * ((a / 256) mod 256) + 32768)
    with (a + 32768 + (- (a / 256 / 256)) * 65536) by lia.
  rewrite Z_mod_plus_full, Z.mod_small; lia.
Qed.

Lemma read_short_frame (a0 a : Z) (rest : list Z) :
  -32768 <= a <= 32767 ->
  read_short a0 (mkIfstream (a mod 256 :: (a / 256) mod 256 :: rest) false)
  = (a, mkIfstream rest false).
Proof.
  intros Ha. unfold read_short. cbn [i_eof i_bytes].
  rewrite short_of_bytes_split by exact Ha. reflexivity.
Qed.

Section RoundTrip.

Context {D : Type} {ops : DoubleOps D} {lm : Libm D} {limit : LoopLimit}.

Implicit Types b : toneBurst D.

Lemma burst_sample_range b (j : Z) : -32768 <= burst_sample b j <= 32767.
Proof.
  unfold burst_sample. destruct (j <? duration b); [|lia].
  unfold to_short. apply short_wrap_range.
Qed.

(** One pass of [write]. *)
Lemma write_pass b (k : nat) : forall (j : Z) (o : ofstream),
  for_from k j write_body (b, o) = (b, o ++ pass_bytes b k j).
Proof.
  induction k as [|k IH]; intros j o; cbn [for_from pass_bytes].
  - rewrite app_nil_r. reflexivity.
  - unfold write_body at 2. rewrite IH. unfold write_short, frame_bytes.
    rewrite <- !app_assoc. reflexivity.
Qed.

(** One pass of [read] over the bytes of a pass of [write]. *)
Lemma read_pass b (k : nat) : forall (j : Z) (rest : list Z)
  (l : read_locals D),
  for_from k j read_body (b, mkIfstream (pass_bytes b k j ++ rest) false, l)
  = (b, mkIfstream rest false,
     for_from k j
       (fun j l => accumulate b j (burst_sample b j) (burst_sample b j) l) l).
Proof.
  induction k as [|k IH]; intros j rest l; cbn [for_from pass_bytes].
  - reflexivity.
  - unfold read_body at 2. unfold frame_bytes. cbn [app].
    rewrite read_short_frame by apply burst_sample_range.
    rewrite read_short_frame by apply burst_sample_range.
    apply IH.
Qed.

(** The passes, [n] of them. *)
Lemma write_passes b (n : nat) : forall (j : Z) (o : ofstream),
  for_from n j (fun _ s => for_long (interval (fst s)) write_body s) (b, o)
  = (b, o ++ concat (repeat (pass_bytes b (Z.to_nat (interval b)) 0) n)).
Proof.
  induction n as [|n IH]; intros j o; cbn [for_from repeat concat].
  - rewrite app_nil_r. reflexivity.
  - cbn [fst]. unfold for_long at 2. rewrite write_pass, IH.
    rewrite <- app_assoc. reflexivity.
Qed.

Lemma read_passes b (n : nat) : forall (j : Z) (rest : list Z)
  (l : read_locals D),
  for_from n j (fun _ s => for_long (interval (fst (fst s))) read_body s)
    (b,
     mkIfstream
       (concat (repeat (pass_bytes b (Z.to_nat (interval b)) 0) n) ++ rest)
       false,
     l)
  = (b, mkIfstream rest false,
     for_from n j
       (fun _ l =>
          for_long (interval b)
            (fun j l =>
               accumulate b j (burst_sample b j) (burst_sample b j) l) l)
       l).
Proof.
  induction n as [|n IH]; intros j rest l; cbn [for_from repeat concat].
  - reflexivity.
  - cbn [fst]. unfold for_long at 2. rewrite <- app_assoc, read_pass, IH.
    reflexivity.
Qed.

Lemma burst_bytes_passes b :
  burst_bytes b
  = concat (repeat (pass_bytes b (Z.to_nat (interval b)) 0)
              (Z.to_nat (numAvg b))).
Proof.
  unfold burst_bytes, write, for_long. cbn [fst].
  rewrite write_passes. reflexivity.
Qed.

(** [write] adds the bytes of the burst to the file. *)
Lemma write_burst b (o : ofstream) : write (b, o) = (b, o ++ burst_bytes b).
Proof.
  rewrite burst_bytes_passes. unfold write, for_long. cbn [fst].
  apply write_passes.
Qed.

(** [read] takes the bytes of the burst off the file and reports on the
    samples [write] made. *)
Lemma read_burst b (rest : list Z) :
  read (b, mkIfstream (burst_bytes b ++ rest) false)
  = (b, mkIfstream rest false, roundtrip_report b).
Proof.
  rewrite burst_bytes_passes. unfold read, for_long. cbn [fst snd].
  rewrite read_passes. reflexivity.
Qed.

(** *** The burst loops of the two programs *)

Lemma calc_calculated b b' : calc b = Some b' -> calculated b'.
Proof.
  intros H. destruct (calc_inv _ _ H) as (b1 & Hl & Hn & Hd & Ha & Hf).
  pose proof (calc_loop_exit _ _ Hl) as Hc.
  pose proof (calc_loop_setup _ _ Hl) as Hs1.
  pose proof (calc_setup _ _ H) as Hs.
  unfold same_setup in Hs, Hs1.
  assert (E1 : sampleRate b' = sampleRate b1) by (intuition congruence).
  assert (E2 : nominalFreq b' = nominalFreq b1) by (intuition congruence).
  assert (E4 : burstMin b' = burstMin b1) by (intuition congruence).
  unfold calculated. split; [|split; [|split]].
  - rewrite (calc_cond_ext b1 b'); auto.
  - rewrite Hd. unfold cycles_span. rewrite E1, E2, Hn. reflexivity.
  - rewrite Ha, E1, Hn. reflexivity.
  - rewrite Hf, E1. reflexivity.
Qed.

Lemma calculated_set_burstCount (v : Z) b :
  calculated b -> calculated (set_burstCount v b).
Proof. destruct b. exact (fun H => H). Qed.

Lemma reset_calculated b b1 : reset b = Some b1 -> calculated b1.
Proof. unfold reset. apply calc_calculated. Qed.

Lemma next_calculated b (r : bool) b' :
  next b = Some (r, b') -> calculated b -> calculated b'.
Proof.
  unfold next. intros H Hc. destruct (0 <? burstCount b).
  - destruct (sweep b).
    + destruct (calc _) as [b1|] eqn:Hcalc; [|discriminate].
      injection H as <- <-. apply calculated_set_burstCount.
      eapply calc_calculated. exact Hcalc.
    + injection H as <- <-. apply calculated_set_burstCount. exact Hc.
  - injection H as <- <-. exact Hc.
Qed.

(** The objects of the bursts, from the calls of [next]. *)
Lemma nexts_bursts (k : nat) : forall b bk,
  nexts k b = Some bk ->
  exists bs,
    bursts k b = Some bs /\ length bs = k
    /\ forall x, In x bs ->
         exists i bi, (i < k)%nat /\ nexts i b = Some bi /\ x = bi.
Proof.
  induction k as [|k IH]; intros b bk H.
  - exists []. split; [reflexivity|]. split; [reflexivity|].
    intros x [].
  - cbn [nexts] in H. cbn [bursts].
    destruct (next b) as [[[|] b']|] eqn:Hn; try discriminate.
    destruct (IH b' bk H) as (bs & Hbs & Hlen & Hin).
    exists (b :: bs). rewrite Hbs. split; [reflexivity|].
    split; [cbn; lia|].
    intros x [<-|Hx].
    + exists 0%nat, b. split; [lia|]. split; reflexivity.
    + destruct (Hin x Hx) as (i & bi & Hi & Hni & ->).
      exists (Datatypes.S i), bi. split; [lia|]. split; [|reflexivity].
      cbn [nexts]. rewrite Hn. exact Hni.
Qed.

Lemma next_same_run b (r : bool) b' :
  next b = Some (r, b') -> same_run b b'.
Proof.
  unfold next. intros H. destruct (0 <? burstCount b).
  - destruct (sweep b).
    + destruct (calc _) as [b1|] eqn:Hcalc; [|discriminate].
      injection H as <- <-. apply calc_setup in Hcalc.
      unfold same_setup in Hcalc. unfold same_run.
      destruct b, b1; cbn in *. tauto.
    + injection H as <- <-. unfold same_run. destruct b; cbn. tauto.
  - injection H as <- <-. unfold same_run. tauto.
Qed.

Lemma nexts_same_run (k : nat) : forall b bk,
  nexts k b = Some bk -> same_run b bk.
Proof.
  induction k as [|k IH]; intros b bk H; cbn [nexts] in H.
  - injection H as <-. unfold same_run. tauto.
  - destruct (next b) as [[[|] b']|] eqn:Hn; try discriminate.
    pose proof (next_same_run _ _ _ Hn) as H1.
    pose proof (IH _ _ H) as H2.
    unfold same_run in *.
    repeat match goal with H : _ /\ _ |- _ => destruct H end.
    repeat split; congruence.
Qed.

Lemma nexts_calculated (k : nat) : forall b bk,
  nexts k b = Some bk -> calculated b -> calculated bk.
Proof.
  induction k as [|k IH]; intros b bk H Hc; cbn [nexts] in H.
  - injection H as <-. exact Hc.
  - destruct (next b) as [[[|] b']|] eqn:Hn; try discriminate.
    apply (IH b' bk H). eapply next_calculated; eauto.
Qed.

(** The burst loop of [tbg]: the bytes of the bursts, one after the
    other. *)
Lemma tbg_loop_result (k : nat) : forall b1 bs (out0 : ofstream)
  (cout0 : list (detail D)),
  bursts k b1 = Some bs -> burstCount b1 = Z.of_nat k ->
  burstCount b1 <= LONG_MAX ->
  exists bend,
    iterate_nat (Datatypes.S k)
      (while_step (fun s => good (g_burst s)) tbg_body)
      (mkTbgState b1 out0 cout0)
    = Done (mkTbgState bend (out0 ++ concat (map burst_bytes bs))
              (cout0 ++ map showDetail bs)).
Proof.
  induction k as [|k IH]; intros b1 bs out0 cout0 Hk Hbc Hmax.
  - injection Hk as <-. exists b1. rewrite iterate_nat_S.
    unfold while_step. cbn [g_burst]. unfold good. rewrite Hbc.
    cbn. rewrite !app_nil_r. reflexivity.
  - cbn [bursts] in Hk.
    destruct (next b1) as [[[|] b2]|] eqn:Hn; try discriminate.
    destruct (bursts k b2) as [bs'|] eqn:Hbs; [|discriminate].
    injection Hk as <-.
    destruct (next_inv _ _ _ Hn ltac:(lia)) as (_ & Hbc2 & _).
    destruct (IH b2 bs' (out0 ++ burst_bytes b1) (cout0 ++ [showDetail b1])
                Hbs ltac:(lia) ltac:(lia)) as [bend Hend].
    exists bend. rewrite iterate_nat_S.
    assert (Hstep : while_step (fun s => good (g_burst s)) tbg_body
                      (mkTbgState b1 out0 cout0)
                    = More (mkTbgState b2 (out0 ++ burst_bytes b1)
                              (cout0 ++ [showDetail b1]))).
    { unfold while_step. cbn [g_burst]. unfold good.
      destruct (Z.ltb_spec 0 (burstCount b1)); [|lia].
      unfold tbg_body. cbn [g_burst g_outfile g_cout].
      rewrite write_burst, Hn. reflexivity. }
    rewrite Hstep, Hend. cbn [map concat].
    rewrite <- !app_assoc. reflexivity.
Qed.

(** The burst loop of [tba] on those bytes: a report on every burst. *)
Lemma tba_loop_result (k : nat) : forall b1 bs (rest : list Z)
  (cout0 : list (detail D * report D)),
  bursts k b1 = Some bs -> burstCount b1 = Z.of_nat k ->
  burstCount b1 <= LONG_MAX ->
  exists bend,
    iterate_nat (Datatypes.S k) (while_step tba_cond tba_body)
      (mkTbaState b1 (mkIfstream (concat (map burst_bytes bs) ++ rest) false)
         cout0 None)
    = Done (mkTbaState bend (mkIfstream rest false)
              (cout0 ++ map (fun b => (showDetail b, roundtrip_report b)) bs)
              None).
Proof.
  induction k as [|k IH]; intros b1 bs rest cout0 Hk Hbc Hmax.
  - injection Hk as <-. exists b1. rewrite iterate_nat_S.
    unfold while_step, tba_cond. cbn [a_burst a_return]. unfold good.
    rewrite Hbc. cbn. rewrite !app_nil_r. reflexivity.
  - cbn [bursts] in Hk.
    destruct (next b1) as [[[|] b2]|] eqn:Hn; try discriminate.
    destruct (bursts k b2) as [bs'|] eqn:Hbs; [|discriminate].
    injection Hk as <-.
    destruct (next_inv _ _ _ Hn ltac:(lia)) as (_ & Hbc2 & _).
    destruct (IH b2 bs' rest
                (cout0 ++ [(showDetail b1, roundtrip_report b1)])
                Hbs ltac:(lia) ltac:(lia)) as [bend Hend].
    exists bend. rewrite iterate_nat_S.
    assert (Hstep :
      while_step tba_cond tba_body
        (mkTbaState b1
           (mkIfstream (concat (map burst_bytes (b1 :: bs')) ++ rest) false)
           cout0 None)
      = More (mkTbaState b2
                (mkIfstream (concat (map burst_bytes bs') ++ rest) false)
                (cout0 ++ [(showDetail b1, roundtrip_report b1)]) None)).
    { unfold while_step, tba_cond. cbn [a_burst a_return]. unfold good.
      destruct (Z.ltb_spec 0 (burstCount b1)); [|lia].
      cbn [andb]. unfold tba_body. cbn [a_burst a_infile a_cout i_eof].
      cbn [map concat]. rewrite <- app_assoc, read_burst, Hn.
      reflexivity. }
    rewrite Hstep, Hend. cbn [map]. rewrite <- !app_assoc. reflexivity.
Qed.

Lemma read_header (theSize : Z) (data : list Z) :
  read_skip 8
    (read_skip 24 (read_skip 12 (mkIfstream (wave_header theSize ++ data) false)))
  = mkIfstream data false.
Proof. reflexivity. Qed.

(** The two programs on the same command line, with no delay: [tba] on the
    file [tbg] writes prints, for every burst, the report on the samples
    [write] makes for it. *)
Lemma roundtrip_main (c : cmdline D) b0 b b1 bs (k : nat) :
  toneBurst_new = Some b0 -> parse_args c b0 = Some b -> delay b = 0 ->
  reset b = Some b1 -> bursts k b1 = Some bs ->
  burstCount b1 = Z.of_nat k -> burstCount b1 <= LONG_MAX ->
  (Datatypes.S k <= loop_limit)%nat ->
  exists file,
    tbg_main c = Some (0, file, map showDetail bs)
    /\ tba_main c file
       = Some (0, map (fun b => (showDetail b, roundtrip_report b)) bs).
Proof.
  intros Hnew Hparse Hdelay Hr Hk Hbc Hmax Hlim.
  exists (wave_header (getSize b) ++ concat (map burst_bytes bs)).
  split.
  - unfold tbg_main. rewrite Hnew, Hparse, Hr, Hdelay.
    change (for_long 0 (fun _ o => write_short 0 (write_short 0 o))
              (wave_header (getSize b)))
      with (wave_header (getSize b)).
    destruct (tbg_loop_result k b1 bs (wave_header (getSize b)) [] Hk Hbc Hmax)
      as [bend Hend].
    rewrite (while_done _ _ _ _ _ Hend Hlim). reflexivity.
  - unfold tba_main. rewrite Hnew, Hparse, read_header, Hr, Hdelay.
    cbn [i_eof for_long Z.to_nat for_from].
    destruct (tba_loop_result k b1 bs [] [] Hk Hbc Hmax) as [bend Hend].
    rewrite app_nil_r in Hend.
    rewrite (while_done _ _ _ _ _ Hend Hlim). reflexivity.
Qed.

End RoundTrip.

(** ** What the sums of [read] take *)

Section Windows.

Context {D : Type} {ops : DoubleOps D} {lm : Libm D}.

Implicit Types b : toneBurst D.

(** One pass of [read] over the bytes of any sample pairs. *)
Lemma read_pairs b (v1 v2 : Z -> Z) (k : nat) :
  forall (j : Z) (rest : list Z) (l : read_locals D),
  (forall i, j <= i < j + Z.of_nat k ->
             -32768 <= v1 i <= 32767 /\ -32768 <= v2 i <= 32767) ->
  for_from k j read_body
    (b, mkIfstream (pairs_bytes v1 v2 k j ++ rest) false, l)
  = (b, mkIfstream rest false,
     for_from k j (fun j l => accumulate b j (v1 j) (v2 j) l) l).
Proof.
  induction k as [|k IH]; intros j rest l Hv;
    cbn [for_from pairs_bytes].
  - reflexivity.
  - unfold read_body at 2. unfold le16. cbn [app].
    rewrite read_short_frame by (apply Hv; lia).
    rewrite read_short_frame by (apply Hv; lia).
    apply IH. intros i Hi. apply Hv. lia.
Qed.

(** The turns of a pass add a sample to a sum at the indices of its window,
    one after the other, and at no other index. *)
Lemma pass_sums b (v1 v2 : Z -> Z) (k : nat) :
  forall (j : nat) (l : read_locals D),
  let l' := for_from k (Z.of_nat j)
              (fun j l => accumulate b j (v1 j) (v2 j) l) l in
  let w := map Z.of_nat (seq j k) in
  sum1 l' = fold_left (add_sample b v1) (filter (in_signal b) w) (sum1 l)
  /\ sum2 l' = fold_left (add_sample b v2) (filter (in_signal b) w) (sum2 l)
  /\ sum3 l'
     = fold_left (add_sample b v1) (filter (in_background b) w) (sum3 l)
  /\ sum4 l'
     = fold_left (add_sample b v2) (filter (in_background b) w) (sum4 l).
Proof.
  induction k as [|k IH]; intros j l; cbn [for_from seq map filter].
  - cbn. repeat split; reflexivity.
  - replace (Z.of_nat j + 1) with (Z.of_nat (Datatypes.S j)) by lia.
    destruct (IH (Datatypes.S j)
                (accumulate b (Z.of_nat j) (v1 (Z.of_nat j))
                   (v2 (Z.of_nat j)) l)) as (H1 & H2 & H3 & H4).
    cbv zeta in *. rewrite H1, H2, H3, H4.
    unfold accumulate. cbn [sum1 sum2 sum3 sum4].
    destruct (in_signal b (Z.of_nat j)), (in_background b (Z.of_nat j));
      cbn [fold_left]; repeat split; reflexivity.
Qed.

(** The passes of [read] over the bytes of any sample pairs. *)
Lemma read_loops_passes b (v1 v2 : Z -> Z -> Z) (n : nat) :
  forall (p : Z) (rest : list Z) (l : read_locals D),
  (forall q i, p <= q < p + Z.of_nat n -> 0 <= i < interval b ->
               -32768 <= v1 q i <= 32767 /\ -32768 <= v2 q i <= 32767) ->
  exists l' : read_locals D,
    for_from n p (fun _ s => for_long (interval (fst (fst s))) read_body s)
      (b,
       mkIfstream
         (passes_bytes v1 v2 (Z.to_nat (interval b)) n p ++ rest) false,
       l)
    = (b, mkIfstream rest false, l')
    /\ sum1 l' = window_sum b (signal_window b) v1 n p (sum1 l)
    /\ sum2 l' = window_sum b (signal_window b) v2 n p (sum2 l)
    /\ sum3 l' = window_sum b (background_window b) v1 n p (sum3 l)
    /\ sum4 l' = window_sum b (background_window b) v2 n p (sum4 l).
Proof.
  induction n as [|n IH]; intros p rest l Hv;
    cbn [for_from passes_bytes window_sum].
  - exists l. repeat split; reflexivity.
  - cbn [fst]. unfold for_long at 2. rewrite <- app_assoc.
    rewrite (read_pairs b (v1 p) (v2 p)) by (intros i Hi; apply Hv; lia).
    destruct (pass_sums b (v1 p) (v2 p) (Z.to_nat (interval b)) 0 l)
      as (H1 & H2 & H3 & H4).
    cbv zeta in H1, H2, H3, H4. change (Z.of_nat 0) with 0 in *.
    destruct (IH (p + 1) rest
                (for_from (Z.to_nat (interval b)) 0
                   (fun j l => accumulate b j (v1 p j) (v2 p j) l) l))
      as (l' & Hl' & S1 & S2 & S3 & S4).
    { intros q i Hq Hi. apply Hv; lia. }
    exists l'. split; [exact Hl'|].
    rewrite S1, S2, S3, S4, H1, H2, H3, H4.
    repeat split; reflexivity.
Qed.

(** C4, as the code has it: [read], on the bytes of any samples whatever,
    [numAvg] passes of [interval] sample pairs, takes every byte of them
    and reports on sums of which [sum3] and [sum4] have taken, in every
    pass, [double(a) * exp(cfactor * double(j))] for the sample [a] of
    their channel at every index [j] of the background window, in the
    order of the indices, and nothing else.  When the burst takes at most
    a third of the interval ([3 * duration <= interval]), the background
    window is [interval - 2 * duration <= j < interval - duration]: it has
    [duration] indices, as many as the signal window, which is
    [0 <= j < duration], and none of them is in the burst. *)
Theorem background_window_spec b (v1 v2 : Z -> Z -> Z) (rest : list Z) :
  0 <= duration b -> 3 * duration b <= interval b -> interval b <= LONG_MAX ->
  (forall p i, 0 <= p < numAvg b -> 0 <= i < interval b ->
               -32768 <= v1 p i <= 32767 /\ -32768 <= v2 p i <= 32767) ->
  let s := (b,
            mkIfstream
              (passes_bytes v1 v2 (Z.to_nat (interval b))
                 (Z.to_nat (numAvg b)) 0 ++ rest) false) in
  let l := snd (read_loops s) in
  read s = (b, mkIfstream rest false, report_of b l)
  /\ sum3 l
     = window_sum b (background_window b) v1 (Z.to_nat (numAvg b)) 0 c_zero
  /\ sum4 l
     = window_sum b (background_window b) v2 (Z.to_nat (numAvg b)) 0 c_zero
  /\ sum1 l
     = window_sum b (signal_window b) v1 (Z.to_nat (numAvg b)) 0 c_zero
  /\ sum2 l
     = window_sum b (signal_window b) v2 (Z.to_nat (numAvg b)) 0 c_zero
  /\ (forall j, In j (background_window b) <->
                interval b - 2 * duration b <= j < interval b - duration b)
  /\ (forall j, In j (signal_window b) <-> 0 <= j < duration b)
  /\ (forall j, in_background b j = true <->
                interval b - 2 * duration b <= j < interval b - duration b)
  /\ length (background_window b) = Z.to_nat (duration b)
  /\ length (signal_window b) = Z.to_nat (duration b)
  /\ (forall j, In j (background_window b) -> ~ In j (signal_window b)).
Proof.
  intros Hd H3 Hi Hv s l.
  destruct (read_loops_passes b v1 v2 (Z.to_nat (numAvg b)) 0 rest
              read_locals_init) as (l' & Hl' & S1 & S2 & S3 & S4).
  { intros q i Hq Hi'. apply Hv; lia. }
  assert (Hloops : read_loops s = (b, mkIfstream rest false, l')).
  { unfold read_loops, s, for_long. cbn [fst snd]. exact Hl'. }
  assert (El : l = l') by (unfold l; rewrite Hloops; reflexivity).
  assert (Hread : read s = (b, mkIfstream rest false, report_of b l)).
  { change (read s)
      with (let '(b, infile, l) := read_loops s in (b, infile, report_of b l)).
    rewrite Hloops, El. reflexivity. }
  destruct (background_window_range b Hd H3 Hi)
    as (Hspec & Hin & Hlen & Hsig & Hdis).
  assert (Hsw : forall j, In j (signal_window b) <-> 0 <= j < duration b).
  { intros j. unfold signal_window, in_signal.
    rewrite filter_In, in_indices, Z.ltb_lt. lia. }
  cbn [read_locals_init sum1 sum2 sum3 sum4] in S1, S2, S3, S4.
  split; [exact Hread|]. rewrite El.
  split; [exact S3|]. split; [exact S4|]. split; [exact S1|].
  split; [exact S2|]. split; [exact Hin|]. split; [exact Hsw|].
  split; [exact Hspec|]. split; [exact Hlen|]. split; [exact Hsig|].
  intros j Hj Hs. apply Hin in Hj. apply Hsw in Hs. lia.
Qed.

End Windows.

(** ** The doubles of the machine: rounding *)

(** What [SpecFloat] says of the operations of [PrimFloat], in terms of
    the real numbers the doubles stand for. *)

(* ---------- Z level ---------- *)

Lemma fexp_eq (e : Z) : fexp prec emax e = Z.max (e - 53) (-1074).
Proof. reflexivity. Qed.

Lemma digits2_pos_bounds (m : positive) :
  2 ^ (Zpos (digits2_pos m) - 1) <= Zpos m < 2 ^ Zpos (digits2_pos m).
Proof.
  induction m as [m IH|m IH|]; cbn [digits2_pos].
  - rewrite Pos2Z.inj_succ.
    replace (Z.succ (Zpos (digits2_pos m)) - 1) with (Zpos (digits2_pos m)) by lia.
    rewrite Z.pow_succ_r by lia.
    assert (H : 2 ^ Zpos (digits2_pos m) = 2 * 2 ^ (Zpos (digits2_pos m) - 1)).
    { rewrite <- Z.pow_succ_r by lia. f_equal. lia. }
    lia.
  - rewrite Pos2Z.inj_succ.
    replace (Z.succ (Zpos (digits2_pos m)) - 1) with (Zpos (digits2_pos m)) by lia.
    rewrite Z.pow_succ_r by lia.
    assert (H : 2 ^ Zpos (digits2_pos m) = 2 * 2 ^ (Zpos (digits2_pos m) - 1)).
    { rewrite <- Z.pow_succ_r by lia. f_equal. lia. }
    lia.
  - cbn. lia.
Qed.

Lemma Zdigits2_nonneg (m : Z) : 0 <= m -> 0 <= Zdigits2 m.
Proof. destruct m; cbn; lia. Qed.

Lemma Zdigits2_bounds (m : Z) :
  0 < m -> 2 ^ (Zdigits2 m - 1) <= m < 2 ^ Zdigits2 m.
Proof.
  destruct m as [|p|p]; try lia. intros _. apply digits2_pos_bounds.
Qed.

(* digits of a nonnegative number below a power of two *)
Lemma Zdigits2_le (m n : Z) : 0 <= m -> 0 <= n -> m < 2 ^ n -> Zdigits2 m <= n.
Proof.
  intros Hm Hn H. destruct (Z.eq_dec m 0) as [->|Hne]; [cbn; lia|].
  destruct (Zdigits2_bounds m ltac:(lia)) as [Hlo _].
  destruct (Z_lt_le_dec n (Zdigits2 m)) as [Hlt|]; [|lia].
  exfalso. assert (2 ^ n <= 2 ^ (Zdigits2 m - 1)) by (apply Z.pow_le_mono_r; lia).
  lia.
Qed.

Lemma Zdigits2_ge (m n : Z) : 0 <= n -> 2 ^ n <= m -> n + 1 <= Zdigits2 m.
Proof.
  intros Hn H. assert (Hp : 0 < 2 ^ n) by (apply Z.pow_pos_nonneg; lia).
  destruct (Zdigits2_bounds m ltac:(lia)) as [_ Hhi].
  destruct (Z_lt_le_dec (Zdigits2 m) (n + 1)) as [Hlt|]; [|lia].
  exfalso.
  assert (0 <= Zdigits2 m) by (apply Zdigits2_nonneg; lia).
  assert (2 ^ Zdigits2 m <= 2 ^ n) by (apply Z.pow_le_mono_r; lia).
  lia.
Qed.

(* shifting right *)
Lemma shr_1_m (mrs : shr_record) :
  0 <= shr_m mrs -> shr_m (shr_1 mrs) = shr_m mrs / 2.
Proof.
  destruct mrs as [m r s]. cbn [shr_m]. intros Hm.
  destruct m as [|[p|p|]|p]; cbn [shr_1 shr_m]; try lia.
  - reflexivity.
  - rewrite Pos2Z.inj_xI. apply Z.div_unique with 1; lia.
  - rewrite Pos2Z.inj_xO. apply Z.div_unique with 0; lia.
  - reflexivity.
Qed.

Lemma shr_iter_m (p : positive) : forall mrs : shr_record,
  0 <= shr_m mrs ->
  shr_m (SpecFloat.iter_pos shr_1 p mrs) = shr_m mrs / 2 ^ Zpos p.
Proof.
  induction p as [p IH|p IH|]; intros mrs Hm; cbn [SpecFloat.iter_pos].
  - assert (H1 : 0 <= shr_m (shr_1 mrs)).
    { rewrite shr_1_m by exact Hm. apply Z.div_pos; lia. }
    assert (H2 : 0 <= shr_m (SpecFloat.iter_pos shr_1 p (shr_1 mrs))).
    { rewrite IH by exact H1. apply Z.div_pos; [exact H1|]. apply Z.pow_pos_nonneg; lia. }
    rewrite IH by exact H2. rewrite IH by exact H1. rewrite shr_1_m by exact Hm.
    rewrite !Z.div_div by (try apply Z.pow_pos_nonneg; lia).
    f_equal.
    assert (E : 2 ^ Zpos p~1 = 2 * 2 ^ Zpos p * 2 ^ Zpos p).
    { replace (Zpos p~1) with (1 + Zpos p + Zpos p) by lia.
      rewrite !Z.pow_add_r by lia. lia. }
    rewrite E. ring.
  - assert (H2 : 0 <= shr_m (SpecFloat.iter_pos shr_1 p mrs)).
    { rewrite IH by exact Hm. apply Z.div_pos; [exact Hm|]. apply Z.pow_pos_nonneg; lia. }
    rewrite IH by exact H2. rewrite IH by exact Hm.
    rewrite !Z.div_div by (try apply Z.pow_pos_nonneg; lia).
    f_equal.
    assert (E : 2 ^ Zpos p~0 = 2 ^ Zpos p * 2 ^ Zpos p).
    { replace (Zpos p~0) with (Zpos p + Zpos p) by lia.
      rewrite !Z.pow_add_r by lia. lia. }
    rewrite E. ring.
  - rewrite shr_1_m by exact Hm. reflexivity.
Qed.

Lemma shr_record_of_loc_m (m : Z) (l : location) :
  shr_m (shr_record_of_loc m l) = m.
Proof. destruct l as [|[| |]]; reflexivity. Qed.

Lemma loc_of_shr_record_of_loc (m : Z) (l : location) :
  loc_of_shr_record (shr_record_of_loc m l) = l.
Proof. destruct l as [|[| |]]; reflexivity. Qed.

(* what shr_fexp gives *)
Lemma shr_fexp_spec (m e : Z) (l : location) :
  0 <= m -> e <= fexp prec emax (Zdigits2 m + e) ->
  let e1 := fexp prec emax (Zdigits2 m + e) in
  snd (shr_fexp prec emax m e l) = e1
  /\ shr_m (fst (shr_fexp prec emax m e l)) = m / 2 ^ (e1 - e)
  /\ (e1 = e -> fst (shr_fexp prec emax m e l) = shr_record_of_loc m l).
Proof.
  intros Hm He e1. unfold shr_fexp, shr. fold e1.
  destruct (e1 - e) as [|p|p] eqn:E.
  - cbn [fst snd]. rewrite shr_record_of_loc_m, Z.pow_0_r, Z.div_1_r.
    split; [lia|]. split; reflexivity.
  - cbn [fst snd]. rewrite shr_iter_m by (rewrite shr_record_of_loc_m; exact Hm).
    rewrite shr_record_of_loc_m. split; [lia|]. split; [reflexivity|]. lia.
  - lia.
Qed.

Lemma round_nearest_even_cases (m : Z) (l : location) :
  round_nearest_even m l = m \/ round_nearest_even m l = m + 1.
Proof.
  destruct l as [|[| |]]; cbn; auto. destruct (Z.even m); auto.
Qed.

Lemma div_pow2_lt (m d k : Z) :
  0 <= m -> 0 <= k -> 0 <= d -> m < 2 ^ (d + k) -> m / 2 ^ k < 2 ^ d.
Proof.
  intros Hm Hk Hd H. apply Z.div_lt_upper_bound.
  - apply Z.pow_pos_nonneg; lia.
  - rewrite <- Z.pow_add_r by lia. replace (k + d) with (d + k) by lia. exact H.
Qed.

(* the shape of what binary_round_aux returns *)
Lemma binary_round_aux_cases (sx : bool) (mx ex : Z) (lx : location) :
  0 <= mx -> ex <= fexp prec emax (Zdigits2 mx + ex) ->
  let e1 := fexp prec emax (Zdigits2 mx + ex) in
  let m1 := mx / 2 ^ (e1 - ex) in
  exists r : Z,
    (r = m1 \/ r = m1 + 1)
    /\ (e1 = ex -> lx = loc_Exact -> r = mx)
    /\ 0 <= m1 < 2 ^ 53
    /\ binary_round_aux prec emax sx mx ex lx
       = if r =? 0 then S754_zero sx
         else if r =? 2 ^ 53
              then (if e1 + 1 <=? 971
                    then S754_finite sx (Z.to_pos (2 ^ 52)) (e1 + 1)
                    else S754_infinity sx)
              else (if e1 <=? 971
                    then S754_finite sx (Z.to_pos r) e1
                    else S754_infinity sx).
Proof.
  intros Hm He e1 m1.
  destruct (shr_fexp_spec mx ex lx Hm He) as (H1 & H2 & H3).
  fold e1 in H1, H2, H3. fold m1 in H2.
  assert (Hd : 0 <= Zdigits2 mx) by (apply Zdigits2_nonneg; exact Hm).
  assert (He1 : -1074 <= e1 /\ Zdigits2 mx + ex - 53 <= e1).
  { unfold e1. rewrite fexp_eq. lia. }
  assert (Hm1 : 0 <= m1 < 2 ^ 53).
  { split.
    - apply Z.div_pos; [exact Hm|]. apply Z.pow_pos_nonneg; lia.
    - apply div_pow2_lt; try lia.
      destruct (Z.eq_dec mx 0) as [->|Hne].
      + apply Z.pow_pos_nonneg; lia.
      + destruct (Zdigits2_bounds mx ltac:(lia)) as [_ Hhi].
        apply Z.lt_le_trans with (2 ^ Zdigits2 mx); [exact Hhi|].
        apply Z.pow_le_mono_r; lia. }
  unfold binary_round_aux.
  destruct (shr_fexp prec emax mx ex lx) as [mrs' e'] eqn:E1.
  cbn [fst snd] in H1, H2, H3. subst e'.
  set (r := round_nearest_even (shr_m mrs') (loc_of_shr_record mrs')).
  exists r.
  assert (Hr : r = m1 \/ r = m1 + 1).
  { unfold r. rewrite H2. apply round_nearest_even_cases. }
  split; [exact Hr|].
  split.
  { intros E Hl. unfold r. rewrite (H3 E), loc_of_shr_record_of_loc, Hl.
    rewrite shr_record_of_loc_m. reflexivity. }
  split; [exact Hm1|].
  assert (Hr0 : 0 <= r <= 2 ^ 53) by lia.
  destruct (Z.eqb_spec r (2 ^ 53)) as [E53|N53].
  - (* the mantissa has one digit too many *)
    assert (Hn0 : (r =? 0) = false) by (apply Z.eqb_neq; rewrite E53; lia).
    rewrite Hn0. unfold shr_fexp, shr. rewrite E53.
    change (Zdigits2 (2 ^ 53)) with 54. rewrite fexp_eq.
    replace (Z.max (54 + e1 - 53) (-1074) - e1) with 1 by lia.
    cbn [SpecFloat.iter_pos shr_record_of_loc shr_1 shr_m].
    change (emax - prec) with 971. reflexivity.
  - (* the mantissa fits *)
    assert (Hlt : r < 2 ^ 53) by lia.
    assert (Hdr : Zdigits2 r <= 53) by (apply Zdigits2_le; lia).
    assert (Hdr0 : 0 <= Zdigits2 r) by (apply Zdigits2_nonneg; lia).
    unfold shr_fexp, shr. rewrite fexp_eq.
    destruct (Z.max (Zdigits2 r + e1 - 53) (-1074) - e1) as [|p|p] eqn:En;
      try lia; cbn [shr_record_of_loc shr_m]; change (emax - prec) with 971.
    + destruct r as [|p|p]; [reflexivity| |lia].
      rewrite Pos2Z.id. reflexivity.
    + destruct r as [|q|q]; [reflexivity| |lia].
      rewrite Pos2Z.id. reflexivity.
Qed.

Lemma bpow_pos (e : Z) : (0 < bpow e)%R.
Proof. apply powerRZ_lt. lra. Qed.

Lemma bpow_add (a b : Z) : bpow (a + b) = (bpow a * bpow b)%R.
Proof. apply powerRZ_add. lra. Qed.

Lemma bpow_IZR (k : Z) : 0 <= k -> bpow k = IZR (2 ^ k).
Proof.
  intros Hk. unfold bpow. rewrite <- (Z2Nat.id k) by exact Hk.
  rewrite <- pow_powerRZ, pow_IZR. reflexivity.
Qed.

Lemma bpow_ge_1 (k : Z) : 0 <= k -> (1 <= bpow k)%R.
Proof.
  intros Hk. rewrite bpow_IZR by exact Hk. apply IZR_le.
  assert (0 < 2 ^ k) by (apply Z.pow_pos_nonneg; lia). lia.
Qed.

Lemma bpow_le (a b : Z) : a <= b -> (bpow a <= bpow b)%R.
Proof.
  intros H. replace b with (a + (b - a)) by lia. rewrite bpow_add.
  pose proof (bpow_pos a). pose proof (bpow_ge_1 (b - a) ltac:(lia)). nra.
Qed.

Lemma bpow_lt (a b : Z) : a < b -> (bpow a < bpow b)%R.
Proof.
  intros H. replace b with (a + 1 + (b - a - 1)) by lia. rewrite !bpow_add.
  pose proof (bpow_pos a). pose proof (bpow_ge_1 (b - a - 1) ltac:(lia)).
  change (bpow 1) with (2 * 1)%R. nra.
Qed.

Lemma bpow_1 : bpow 1 = 2%R.
Proof. exact (powerRZ_1 2). Qed.

Lemma bpow_0 : bpow 0 = 1%R.
Proof. reflexivity. Qed.

Lemma bpow_opp (a : Z) : bpow (- a) = (/ bpow a)%R.
Proof. apply powerRZ_neg'. Qed.

(* the floor of a division by a power of two, in the reals *)
Lemma div_pow2_bounds (m k : Z) (x : R) (e : Z) :
  0 <= m -> 0 <= k ->
  (IZR m * bpow e <= x < (IZR m + 1) * bpow e)%R ->
  (IZR (m / 2 ^ k) * bpow (e + k) <= x < (IZR (m / 2 ^ k) + 1) * bpow (e + k))%R.
Proof.
  intros Hm Hk [Hlo Hhi].
  assert (Hp : 0 < 2 ^ k) by (apply Z.pow_pos_nonneg; lia).
  pose proof (Z.div_mod m (2 ^ k) ltac:(lia)) as Hdm.
  pose proof (Z.mod_pos_bound m (2 ^ k) Hp) as Hmod.
  set (q := m / 2 ^ k) in *.
  rewrite bpow_add, (bpow_IZR k Hk).
  pose proof (bpow_pos e) as He.
  assert (H1 : (IZR q * IZR (2 ^ k) <= IZR m)%R).
  { rewrite <- mult_IZR. apply IZR_le. lia. }
  assert (H2 : (IZR m + 1 <= (IZR q + 1) * IZR (2 ^ k))%R).
  { rewrite <- (plus_IZR m 1), <- (plus_IZR q 1), <- mult_IZR. apply IZR_le. lia. }
  split.
  - apply Rle_trans with (IZR m * bpow e)%R; [|exact Hlo]. nra.
  - apply Rlt_le_trans with ((IZR m + 1) * bpow e)%R; [exact Hhi|]. nra.
Qed.

(* a mantissa in the normal range keeps 53 digits when it is shifted *)
Lemma normal_mantissa (mx ex : Z) :
  0 < mx -> -1074 <= Zdigits2 mx + ex - 53 -> ex <= Zdigits2 mx + ex - 53 ->
  2 ^ 52 <= mx / 2 ^ (Zdigits2 mx + ex - 53 - ex).
Proof.
  intros Hm Hn He. destruct (Zdigits2_bounds mx Hm) as [Hlo _].
  replace (Zdigits2 mx + ex - 53 - ex) with (Zdigits2 mx - 53) by lia.
  apply Z.div_le_lower_bound; [apply Z.pow_pos_nonneg; lia|].
  rewrite <- Z.pow_add_r by lia.
  replace (Zdigits2 mx - 53 + 52) with (Zdigits2 mx - 1) by lia. exact Hlo.
Qed.

Lemma binary_round_aux_value (sx : bool) (mx ex : Z) (lx : location) (x : R) :
  0 <= mx -> ex <= fexp prec emax (Zdigits2 mx + ex) ->
  (IZR mx * bpow ex <= x < (IZR mx + 1) * bpow ex)%R ->
  (lx = loc_Exact -> x = (IZR mx * bpow ex)%R) ->
  (x < bpow 1023)%R ->
  let z := binary_round_aux prec emax sx mx ex lx in
  let e1 := fexp prec emax (Zdigits2 mx + ex) in
  exists y : R,
    SFfinite z = true
    /\ SF2R z = (if sx then - y else y)%R
    /\ (0 <= y)%R
    /\ (Rabs (y - x) <= bpow e1)%R
    /\ (e1 = ex -> lx = loc_Exact -> y = x).
Proof.
  intros Hm He Hx Hex Hbig z e1.
  destruct (binary_round_aux_cases sx mx ex lx Hm He)
    as (r & Hr & Hrex & Hm1 & Hz).
  fold e1 in Hr, Hrex, Hm1, Hz. fold z in Hz.
  set (m1 := mx / 2 ^ (e1 - ex)) in *.
  assert (He1 : -1074 <= e1 /\ Zdigits2 mx + ex - 53 <= e1
                /\ (e1 = -1074 \/ e1 = Zdigits2 mx + ex - 53)).
  { unfold e1. rewrite fexp_eq. lia. }
  (* the floor *)
  pose proof (div_pow2_bounds mx (e1 - ex) x ex Hm ltac:(fold e1 in He; lia) Hx)
    as Hfl.
  replace (ex + (e1 - ex)) with e1 in Hfl by lia. fold m1 in Hfl.
  pose proof (bpow_pos e1) as Hpe.
  exists (IZR r * bpow e1)%R.
  assert (Hr0 : (0 <= IZR r)%R) by (apply IZR_le; lia).
  assert (Hy : (Rabs (IZR r * bpow e1 - x) <= bpow e1)%R).
  { apply Rabs_le. destruct Hr as [-> | ->].
    - lra.
    - rewrite plus_IZR. lra. }
  assert (Hexact : e1 = ex -> lx = loc_Exact -> (IZR r * bpow e1)%R = x).
  { intros E Hl. rewrite (Hrex E Hl), (Hex Hl), E. reflexivity. }
  (* no overflow *)
  assert (Hfin : r <> 0 -> (if r =? 2 ^ 53 then e1 + 1 <=? 971 else e1 <=? 971) = true).
  { intros Hne. 
    destruct (Z_le_gt_dec e1 970) as [Hsmall|Hlarge].
    - destruct (r =? 2 ^ 53); apply Z.leb_le; lia.
    - (* e1 >= 971: the datum is normal, its mantissa has 53 digits *)
      exfalso.
      assert (E : e1 = Zdigits2 mx + ex - 53) by lia.
      assert (Hmx : 0 < mx).
      { destruct (Z.eq_dec mx 0) as [->|]; [|lia]. 
        unfold m1 in Hr. rewrite Z.div_0_l in Hr
          by (apply Z.pow_nonzero; lia). 
        cbn in E. unfold e1 in He. cbn [Zdigits2] in He. rewrite fexp_eq in He. 
        lia. }
      assert (Hn : 2 ^ 52 <= m1).
      { unfold m1. rewrite E. apply normal_mantissa; lia. }
      assert (Hv : (IZR (2 ^ 52) * bpow e1 <= x)%R).
      { apply Rle_trans with (IZR m1 * bpow e1)%R; [|lra].
        apply Rmult_le_compat_r; [lra|]. apply IZR_le. exact Hn. }
      rewrite <- (bpow_IZR 52), <- bpow_add in Hv by lia.
      destruct (Z_le_gt_dec 972 e1) as [H972|H971].
      + pose proof (bpow_le 1023 (52 + e1) ltac:(lia)). lra.
      + assert (E971 : e1 = 971) by lia.
        pose proof (bpow_le 1023 (52 + e1) ltac:(lia)). lra. }
  split.
  { rewrite Hz. destruct (Z.eqb_spec r 0) as [|Hne]; [reflexivity|].
    specialize (Hfin Hne).
    destruct (r =? 2 ^ 53); rewrite Hfin; reflexivity. }
  split.
  { rewrite Hz. destruct (Z.eqb_spec r 0) as [->|Hne].
    - cbn. destruct sx; lra.
    - specialize (Hfin Hne).
      destruct (Z.eqb_spec r (2 ^ 53)) as [E53|N53]; rewrite Hfin; cbn [SF2R].
      + rewrite Z2Pos.id by lia. rewrite E53, bpow_add.
        rewrite bpow_1.
        replace (IZR (2 ^ 53)) with (IZR (2 ^ 52) * 2)%R
          by (rewrite <- mult_IZR; reflexivity).
        destruct sx; ring.
      + rewrite Z2Pos.id by lia. destruct sx; reflexivity. }
  split; [apply Rmult_le_pos; lra|].
  split; [exact Hy|exact Hexact].
Qed.

(* the size of the rounding step, by the value *)
Lemma round_step (mx ex : Z) (x : R) :
  0 <= mx -> ex <= fexp prec emax (Zdigits2 mx + ex) ->
  (IZR mx * bpow ex <= x)%R ->
  let e1 := fexp prec emax (Zdigits2 mx + ex) in
  e1 = -1074 \/ (bpow e1 <= x * u64)%R.
Proof.
  intros Hm He Hx e1.
  assert (He1 : e1 = Z.max (Zdigits2 mx + ex - 53) (-1074))
    by (unfold e1; apply fexp_eq).
  destruct (Z.eq_dec e1 (-1074)) as [E|N]; [left; exact E|right].
  assert (E : e1 = Zdigits2 mx + ex - 53) by lia.
  assert (Hmx : 0 < mx).
  { destruct (Z.eq_dec mx 0) as [->|]; [|lia].
    cbn [Zdigits2] in E. fold e1 in He. lia. }
  destruct (Zdigits2_bounds mx Hmx) as [Hlo _].
  apply IZR_le in Hlo.
  assert (Hd : 0 <= Zdigits2 mx - 1).
  { assert (0 < Zdigits2 mx); [|lia].
    destruct mx; cbn; lia. }
  rewrite <- bpow_IZR in Hlo by exact Hd.
  unfold u64.
  replace e1 with ((Zdigits2 mx - 1) + ex + (-52)) by lia.
  rewrite !bpow_add.
  pose proof (bpow_pos ex). pose proof (bpow_pos (-52)).
  pose proof (bpow_pos (Zdigits2 mx - 1)).
  apply Rmult_le_compat_r; [lra|].
  apply Rle_trans with (IZR mx * bpow ex)%R; [|exact Hx].
  apply Rmult_le_compat_r; lra.
Qed.

(* shifting left *)
Lemma iter_xO_value (m d : positive) :
  Zpos (Pos.iter xO m d) = Zpos m * 2 ^ Zpos d.
Proof.
  induction d as [|d IH] using Pos.peano_ind.
  - cbn. lia.
  - rewrite Pos.iter_succ, Pos2Z.inj_xO, IH, Pos2Z.inj_succ, Z.pow_succ_r by lia.
    lia.
Qed.

Lemma iter_xO_digits (m d : positive) :
  Zpos (digits2_pos (Pos.iter xO m d)) = Zpos (digits2_pos m) + Zpos d.
Proof.
  induction d as [|d IH] using Pos.peano_ind.
  - cbn [Pos.iter digits2_pos]. lia.
  - rewrite Pos.iter_succ. cbn [digits2_pos]. rewrite Pos2Z.inj_succ, IH. lia.
Qed.

Lemma shl_align_value (m : positive) (e e' : Z) :
  let '(mz, ez) := shl_align m e e' in
  (IZR (Zpos mz) * bpow ez = IZR (Zpos m) * bpow e)%R
  /\ ez = Z.min e e'
  /\ Zpos (digits2_pos mz) + ez = Zpos (digits2_pos m) + e
  /\ Zpos mz = Zpos m * 2 ^ (e - ez).
Proof.
  unfold shl_align. destruct (e' - e) as [|p|p] eqn:E.
  - split; [reflexivity|]. split; [lia|]. split; [reflexivity|].
    rewrite Z.sub_diag, Z.pow_0_r. lia.
  - split; [reflexivity|]. split; [lia|]. split; [reflexivity|].
    rewrite Z.sub_diag, Z.pow_0_r. lia.
  - rewrite iter_xO_value, iter_xO_digits.
    split.
    + rewrite mult_IZR, <- bpow_IZR by lia. rewrite Rmult_assoc, <- bpow_add.
      do 2 f_equal. lia.
    + split; [lia|]. split; [lia|]. f_equal. f_equal. lia.
Qed.

(* binary_round: the datum nearest to m * 2^e, a neighbour at least *)
Lemma binary_round_value (sx : bool) (m : positive) (e : Z) :
  (IZR (Zpos m) * bpow e < bpow 1023)%R ->
  let x := (IZR (Zpos m) * bpow e)%R in
  let z := binary_round prec emax sx m e in
  let e1 := fexp prec emax (Zpos (digits2_pos m) + e) in
  exists y : R,
    SFfinite z = true
    /\ SF2R z = (if sx then - y else y)%R
    /\ (0 <= y)%R
    /\ (Rabs (y - x) <= bpow e1)%R
    /\ (e1 <= e -> y = x)
    /\ (e1 = -1074 \/ (bpow e1 <= x * u64)%R).
Proof.
  intros Hbig x z e1. unfold z, binary_round.
  pose proof (shl_align_value m e e1) as Hs. fold e1.
  destruct (shl_align m e e1) as [mz ez].
  destruct Hs as (Hv & Hez & Hd & Hmz).
  assert (Hpre : ez <= fexp prec emax (Zdigits2 (Zpos mz) + ez)).
  { cbn [Zdigits2]. rewrite Hd. fold e1. rewrite Hez. apply Z.le_min_r. }
  assert (He1' : fexp prec emax (Zdigits2 (Zpos mz) + ez) = e1).
  { cbn [Zdigits2]. rewrite Hd. reflexivity. }
  destruct (binary_round_aux_value sx (Zpos mz) ez loc_Exact x)
    as (y & Hf & Hy & Hy0 & Herr & Hex).
  - lia.
  - exact Hpre.
  - unfold x. rewrite <- Hv. pose proof (bpow_pos ez). nra.
  - intros _. rewrite Hv. reflexivity.
  - exact Hbig.
  - exists y. rewrite He1' in Herr, Hex.
    split; [exact Hf|]. split; [exact Hy|]. split; [exact Hy0|].
    split; [exact Herr|]. split.
    + intros Hle. apply Hex; [|reflexivity].
      rewrite Hez. symmetry. apply Z.min_r. exact Hle.
    + pose proof (round_step (Zpos mz) ez x ltac:(lia) Hpre) as Hst.
      rewrite He1' in Hst. apply Hst. rewrite Hv. fold x. lra.
Qed.

Lemma valid_finite (s : bool) (m : positive) (e : Z) :
  valid_binary (S754_finite s m e) = true ->
  e = Z.max (Zpos (digits2_pos m) + e - 53) (-1074) /\ e <= 971.
Proof.
  intros H. unfold SpecFloat.valid_binary, bounded, canonical_mantissa in H.
  apply andb_true_iff in H. destruct H as [H1 H2].
  apply Z.eqb_eq in H1. apply Z.leb_le in H2. rewrite fexp_eq in H1.
  change (emax - prec) with 971 in H2. lia.
Qed.

Lemma digits2_pos_pos (m : positive) : 1 <= Zpos (digits2_pos m).
Proof. lia. Qed.

Lemma digits2_pos_mul (m1 m2 : positive) :
  Zpos (digits2_pos m1) + Zpos (digits2_pos m2) - 1
  <= Zpos (digits2_pos (m1 * m2)).
Proof.
  destruct (digits2_pos_bounds m1) as [H1 _].
  destruct (digits2_pos_bounds m2) as [H2 _].
  pose proof (digits2_pos_pos m1). pose proof (digits2_pos_pos m2).
  change (Zpos (digits2_pos (m1 * m2))) with (Zdigits2 (Zpos (m1 * m2))).
  replace (Zpos (digits2_pos m1) + Zpos (digits2_pos m2) - 1)
    with ((Zpos (digits2_pos m1) - 1) + (Zpos (digits2_pos m2) - 1) + 1) by lia.
  apply Zdigits2_ge; [lia|].
  rewrite Z.pow_add_r by lia. rewrite Pos2Z.inj_mul.
  apply Z.mul_le_mono_nonneg; try lia;
    apply Z.pow_nonneg; lia.
Qed.

Lemma u64_pos : (0 < u64)%R.
Proof. apply bpow_pos. Qed.

Lemma eta64_pos : (0 < eta64)%R.
Proof. apply bpow_pos. Qed.

Lemma SFmul_value (x y : spec_float) :
  valid_binary x = true -> valid_binary y = true ->
  SFfinite x = true -> SFfinite y = true ->
  (Rabs (SF2R x * SF2R y) < bpow 1023)%R ->
  SFfinite (SFmul prec emax x y) = true
  /\ (Rabs (SF2R (SFmul prec emax x y) - SF2R x * SF2R y)
      <= Rabs (SF2R x * SF2R y) * u64 + eta64)%R.
Proof.
  intros Vx Vy Fx Fy Hbig.
  pose proof u64_pos as Hu. pose proof eta64_pos as Heta.
  destruct x as [sx|sx| |sx mx ex]; try discriminate;
    destruct y as [sy|sy| |sy my ey]; try discriminate;
    cbn [SFmul SF2R SFfinite].
  - split; [reflexivity|]. rewrite Rmult_0_l, Rminus_0_r, Rabs_R0. lra.
  - split; [reflexivity|]. rewrite Rmult_0_l, Rminus_0_r, Rabs_R0. lra.
  - split; [reflexivity|]. rewrite Rmult_0_r, Rminus_0_r, Rabs_R0. lra.
  - destruct (valid_finite _ _ _ Vx) as [Cx _].
    destruct (valid_finite _ _ _ Vy) as [Cy _].
    pose proof (digits2_pos_mul mx my) as Hd.
    pose proof (digits2_pos_pos mx). pose proof (digits2_pos_pos my).
    set (X := (IZR (Zpos (mx * my)) * bpow (ex + ey))%R).
    assert (HX : X = (IZR (Zpos mx) * bpow ex * (IZR (Zpos my) * bpow ey))%R).
    { unfold X. rewrite Pos2Z.inj_mul, mult_IZR, bpow_add. ring. }
    assert (HX0 : (0 < X)%R).
    { unfold X. apply Rmult_lt_0_compat; [apply IZR_lt; lia|apply bpow_pos]. }
    assert (Hprod : (SF2R (S754_finite sx mx ex) * SF2R (S754_finite sy my ey)
                     = if xorb sx sy then - X else X)%R).
    { cbn [SF2R]. rewrite HX. destruct sx, sy; cbn [xorb]; ring. }
    cbn [SF2R] in Hprod, Hbig. rewrite Hprod in *.
    assert (HbigX : (X < bpow 1023)%R).
    { destruct (xorb sx sy); [rewrite Rabs_Ropp in Hbig|];
        rewrite Rabs_pos_eq in Hbig; lra. }
    assert (Hpre : ex + ey
                   <= fexp prec emax (Zdigits2 (Zpos (mx * my)) + (ex + ey))).
    { rewrite fexp_eq. cbn [Zdigits2]. lia. }
    destruct (binary_round_aux_value (xorb sx sy) (Zpos (mx * my)) (ex + ey)
                loc_Exact X (Pos2Z.is_nonneg _) Hpre)
      as (Y & Hf & HY & HY0 & Herr & _).
    { unfold X. pose proof (bpow_pos (ex + ey)). nra. }
    { intros _. reflexivity. }
    { exact HbigX. }
    split; [exact Hf|].
    rewrite HY.
    destruct (round_step (Zpos (mx * my)) (ex + ey) X (Pos2Z.is_nonneg _) Hpre
                ltac:(fold X; lra)) as [E|Hrel].
    + rewrite E in Herr. fold eta64 in Herr.
      assert (Hgoal : (Rabs (Y - X) <= Rabs X * u64 + eta64)%R).
      { pose proof (Rabs_pos X). nra. }
      destruct (xorb sx sy).
      * replace (- Y - - X)%R with (- (Y - X))%R by ring.
        rewrite !Rabs_Ropp. exact Hgoal.
      * exact Hgoal.
    + assert (Hgoal : (Rabs (Y - X) <= Rabs X * u64 + eta64)%R).
      { rewrite (Rabs_pos_eq X) by lra. lra. }
      destruct (xorb sx sy).
      * replace (- Y - - X)%R with (- (Y - X))%R by ring.
        rewrite !Rabs_Ropp. exact Hgoal.
      * exact Hgoal.
Qed.

Lemma binary_normalize_value (S ez : Z) :
  -1074 <= ez -> (Rabs (IZR S * bpow ez) < bpow 1023)%R ->
  let z := binary_normalize prec emax S ez false in
  SFfinite z = true
  /\ (Rabs (SF2R z - IZR S * bpow ez) <= Rabs (IZR S * bpow ez) * u64)%R
  /\ (fexp prec emax (Zdigits2 S + ez) <= ez ->
      SF2R z = (IZR S * bpow ez)%R).
Proof.
  intros Hez Hbig z. pose proof u64_pos as Hu.
  destruct S as [|m|m]; unfold z; cbn [binary_normalize].
  - cbn [SFfinite SF2R]. rewrite Rmult_0_l, Rminus_0_r, Rabs_R0.
    split; [reflexivity|]. split; [lra|reflexivity].
  - assert (Hpos : (0 < IZR (Zpos m) * bpow ez)%R).
    { apply Rmult_lt_0_compat; [apply IZR_lt; lia|apply bpow_pos]. }
    rewrite Rabs_pos_eq in Hbig by lra.
    destruct (binary_round_value false m ez Hbig)
      as (y & Hf & Hy & Hy0 & Herr & Hex & Hst).
    cbn [Zdigits2]. rewrite Hy. split; [exact Hf|].
    split.
    + rewrite (Rabs_pos_eq (IZR (Zpos m) * bpow ez)) by lra.
      destruct Hst as [E|Hrel].
      * rewrite Hex by lia. rewrite Rminus_diag, Rabs_R0.
        apply Rmult_le_pos; lra.
      * lra.
    + exact Hex.
  - assert (Hpos : (0 < IZR (Zpos m) * bpow ez)%R).
    { apply Rmult_lt_0_compat; [apply IZR_lt; lia|apply bpow_pos]. }
    assert (Hneg : (IZR (Zneg m) * bpow ez = - (IZR (Zpos m) * bpow ez))%R).
    { change (Zneg m) with (- Zpos m). rewrite opp_IZR. ring. }
    rewrite Hneg in *. rewrite Rabs_Ropp in *.
    rewrite Rabs_pos_eq in Hbig by lra.
    destruct (binary_round_value true m ez Hbig)
      as (y & Hf & Hy & Hy0 & Herr & Hex & Hst).
    cbn [Zdigits2]. rewrite Hy. split; [exact Hf|].
    split.
    + rewrite (Rabs_pos_eq (IZR (Zpos m) * bpow ez)) by lra.
      replace (- y - - (IZR (Zpos m) * bpow ez))%R
        with (- (y - IZR (Zpos m) * bpow ez))%R by ring.
      rewrite Rabs_Ropp.
      destruct Hst as [E|Hrel].
      * rewrite Hex by lia. rewrite Rminus_diag, Rabs_R0.
        apply Rmult_le_pos; lra.
      * lra.
    + intros H. rewrite (Hex H). reflexivity.
Qed.

(* the aligned mantissas of an addition *)
Lemma shl_align_fst (m : positive) (e ez : Z) :
  ez <= e ->
  (IZR (Zpos (fst (shl_align m e ez))) * bpow ez = IZR (Zpos m) * bpow e)%R.
Proof.
  intros H. pose proof (shl_align_value m e ez) as Hs.
  destruct (shl_align m e ez) as [mz ez']. cbn [fst].
  destruct Hs as (Hv & Hez & _). rewrite <- Hv. do 2 f_equal. lia.
Qed.

Lemma cond_Zopp_value (s : bool) (m : positive) (e ez : Z) :
  ez <= e ->
  (IZR (cond_Zopp s (Zpos (fst (shl_align m e ez)))) * bpow ez
   = SF2R (S754_finite s m e))%R.
Proof.
  intros H. cbn [SF2R]. pose proof (shl_align_fst m e ez H) as Hv.
  destruct s; cbn [cond_Zopp].
  - rewrite opp_IZR. lra.
  - exact Hv.
Qed.

Lemma SFadd_value (x y : spec_float) :
  valid_binary x = true -> valid_binary y = true ->
  SFfinite x = true -> SFfinite y = true ->
  (Rabs (SF2R x + SF2R y) < bpow 1023)%R ->
  SFfinite (SFadd prec emax x y) = true
  /\ (Rabs (SF2R (SFadd prec emax x y) - (SF2R x + SF2R y))
      <= Rabs (SF2R x + SF2R y) * u64)%R.
Proof.
  intros Vx Vy Fx Fy Hbig. pose proof u64_pos as Hu.
  assert (Hexact : forall z : spec_float, SFfinite z = true -> 
            SF2R z = (SF2R x + SF2R y)%R ->
            SFfinite z = true
            /\ (Rabs (SF2R z - (SF2R x + SF2R y))
                <= Rabs (SF2R x + SF2R y) * u64)%R).
  { intros z Hz E. split; [exact Hz|]. rewrite E, Rminus_diag, Rabs_R0.
    apply Rmult_le_pos; [apply Rabs_pos|lra]. }
  destruct x as [sx|sx| |sx mx ex]; try discriminate;
    destruct y as [sy|sy| |sy my ey]; try discriminate;
    cbn [SFadd].
  - apply Hexact; [destruct sx, sy; reflexivity|].
    destruct sx, sy; cbn; lra.
  - apply Hexact; [reflexivity|]. cbn [SF2R]. lra.
  - apply Hexact; [reflexivity|]. cbn [SF2R]. lra.
  - destruct (valid_finite _ _ _ Vx) as [Cx _].
    destruct (valid_finite _ _ _ Vy) as [Cy _].
    set (ez := Z.min ex ey).
    set (S := cond_Zopp sx (Zpos (fst (shl_align mx ex ez)))
              + cond_Zopp sy (Zpos (fst (shl_align my ey ez)))).
    assert (HS : (IZR S * bpow ez
                  = SF2R (S754_finite sx mx ex) + SF2R (S754_finite sy my ey))%R).
    { unfold S. rewrite plus_IZR, Rmult_plus_distr_r.
      rewrite !cond_Zopp_value by (unfold ez; lia). reflexivity. }
    rewrite <- HS in *.
    destruct (binary_normalize_value S ez ltac:(unfold ez; lia) Hbig)
      as (Hf & Herr & _).
    split; [exact Hf|exact Herr].
Qed.

Lemma SFsub_value (x y : spec_float) :
  valid_binary x = true -> valid_binary y = true ->
  SFfinite x = true -> SFfinite y = true ->
  (Rabs (SF2R x - SF2R y) < bpow 1023)%R ->
  SFfinite (SFsub prec emax x y) = true
  /\ (Rabs (SF2R (SFsub prec emax x y) - (SF2R x - SF2R y))
      <= Rabs (SF2R x - SF2R y) * u64)%R.
Proof.
  intros Vx Vy Fx Fy Hbig. pose proof u64_pos as Hu.
  assert (Hexact : forall z : spec_float, SFfinite z = true -> 
            SF2R z = (SF2R x - SF2R y)%R ->
            SFfinite z = true
            /\ (Rabs (SF2R z - (SF2R x - SF2R y))
                <= Rabs (SF2R x - SF2R y) * u64)%R).
  { intros z Hz E. split; [exact Hz|]. rewrite E, Rminus_diag, Rabs_R0.
    apply Rmult_le_pos; [apply Rabs_pos|lra]. }
  destruct x as [sx|sx| |sx mx ex]; try discriminate;
    destruct y as [sy|sy| |sy my ey]; try discriminate;
    cbn [SFsub].
  - apply Hexact; [destruct sx, sy; reflexivity|].
    destruct sx, sy; cbn; lra.
  - apply Hexact; [reflexivity|]. cbn [SF2R]. destruct sy; cbn [negb]; lra.
  - apply Hexact; [reflexivity|]. cbn [SF2R]. lra.
  - destruct (valid_finite _ _ _ Vx) as [Cx _].
    destruct (valid_finite _ _ _ Vy) as [Cy _].
    set (ez := Z.min ex ey).
    set (S := cond_Zopp sx (Zpos (fst (shl_align mx ex ez)))
              - cond_Zopp sy (Zpos (fst (shl_align my ey ez)))).
    assert (HS : (IZR S * bpow ez
                  = SF2R (S754_finite sx mx ex) - SF2R (S754_finite sy my ey))%R).
    { unfold S. rewrite minus_IZR, Rmult_minus_distr_r.
      rewrite !cond_Zopp_value by (unfold ez; lia). reflexivity. }
    rewrite <- HS in *.
    destruct (binary_normalize_value S ez ltac:(unfold ez; lia) Hbig)
      as (Hf & Herr & _).
    split; [exact Hf|exact Herr].
Qed.

(* ---------- division ---------- *)

Lemma new_location_exact (n k : Z) :
  new_location n k = loc_Exact -> k = 0.
Proof.
  unfold new_location, new_location_even, new_location_odd.
  destruct (Z.even n); destruct (Z.eqb_spec k 0); auto; discriminate.
Qed.

Lemma fexp_mono (a b : Z) : a <= b -> fexp prec emax a <= fexp prec emax b.
Proof. rewrite !fexp_eq. lia. Qed.

Lemma SFdiv_core_spec (m1 m2 : positive) (e1 e2 : Z) :
  let '(q, e', l) := SFdiv_core_binary prec emax (Zpos m1) e1 (Zpos m2) e2 in
  let X := (IZR (Zpos m1) * bpow e1 / (IZR (Zpos m2) * bpow e2))%R in
  0 <= q
  /\ e' <= fexp prec emax (Zdigits2 q + e')
  /\ (IZR q * bpow e' <= X < (IZR q + 1) * bpow e')%R
  /\ (l = loc_Exact -> X = (IZR q * bpow e')%R).
Proof.
  unfold SFdiv_core_binary.
  set (d1 := Zdigits2 (Zpos m1)). set (d2 := Zdigits2 (Zpos m2)).
  set (F := fexp prec emax (d1 + e1 - (d2 + e2))).
  set (e' := Z.min F (e1 - e2)).
  set (s := e1 - e2 - e').
  assert (Hs : 0 <= s) by (unfold s, e'; lia).
  set (m' := match s with
             | 0 => Zpos m1
             | Zpos _ => Z.shiftl (Zpos m1) s
             | Zneg _ => 0
             end).
  assert (Hm' : m' = Zpos m1 * 2 ^ s).
  { unfold m'. destruct s as [|p|p] eqn:Es.
    - rewrite Z.pow_0_r. lia.
    - rewrite Z.shiftl_mul_pow2 by lia. reflexivity.
    - lia. }
  pose proof (Z_div_mod m' (Zpos m2) ltac:(lia)) as Hdm.
  unfold Z.div_eucl in Hdm |- *. fold (Z.div_eucl m' (Zpos m2)) in Hdm |- *.
  destruct (Z.div_eucl m' (Zpos m2)) as [q r].
  destruct Hdm as [Hq Hr].
  assert (Hp2 : 0 < 2 ^ s) by (apply Z.pow_pos_nonneg; lia).
  assert (Hq0 : 0 <= q) by nia.
  cbv zeta.
  pose proof (bpow_pos e1) as B1. pose proof (bpow_pos e2) as B2.
  pose proof (bpow_pos e') as B'.
  assert (Hm2 : (0 < IZR (Zpos m2))%R) by (apply IZR_lt; lia).
  (* the quotient *)
  assert (HX : (IZR (Zpos m1) * bpow e1 / (IZR (Zpos m2) * bpow e2)
                = (IZR q + IZR r / IZR (Zpos m2)) * bpow e')%R).
  { assert (E : (IZR (Zpos m1) * bpow s = IZR (Zpos m2) * IZR q + IZR r)%R).
    { rewrite (bpow_IZR s Hs), <- mult_IZR, <- Hm', Hq, plus_IZR, mult_IZR.
      reflexivity. }
    replace e1 with (e2 + e' + s) by (unfold s; lia).
    rewrite !bpow_add. field_simplify_eq; [|lra].
    nra. }
  assert (Hfrac : (0 <= IZR r / IZR (Zpos m2) < 1)%R).
  { split.
    - apply Rmult_le_pos; [apply IZR_le; lia|].
      apply Rlt_le, Rinv_0_lt_compat. exact Hm2.
    - apply Rmult_lt_reg_r with (IZR (Zpos m2)); [exact Hm2|].
      unfold Rdiv. rewrite Rmult_assoc, Rinv_l, Rmult_1_r, Rmult_1_l by lra.
      apply IZR_lt. lia. }
  split; [exact Hq0|].
  split.
  { (* enough digits *)
    assert (Hdq : d1 + s - d2 <= Zdigits2 q).
    { destruct (Z_le_gt_dec (d1 + s - d2) 0) as [Hle|Hgt].
      - pose proof (Zdigits2_nonneg q Hq0). lia.
      - destruct (digits2_pos_bounds m1) as [L1 _].
        destruct (digits2_pos_bounds m2) as [_ U2].
        fold (Zdigits2 (Zpos m1)) in L1. fold (Zdigits2 (Zpos m2)) in U2.
        fold d1 in L1. fold d2 in U2.
        replace (d1 + s - d2) with ((d1 + s - d2 - 1) + 1) by lia.
        apply Zdigits2_ge; [lia|].
        (* 2^(d1-1) * 2^s <= m' = m2 * q + r < m2 * (q + 1) <= 2^d2 * (q+1) *)
        assert (Hd2 : 1 <= d2) by (unfold d2; cbn; lia).
        assert (Hd1 : 1 <= d1) by (unfold d1; cbn; lia).
        assert (E1 : 2 ^ (d1 - 1) * 2 ^ s = 2 ^ (d1 + s - d2 - 1) * 2 ^ d2).
        { rewrite <- !Z.pow_add_r by lia. f_equal. lia. }
        assert (Hlow : 2 ^ (d1 + s - d2 - 1) * 2 ^ d2 <= m') by nia.
        assert (Hp : 0 < 2 ^ (d1 + s - d2 - 1))
          by (apply Z.pow_pos_nonneg; lia).
        assert (Hlt : 2 ^ (d1 + s - d2 - 1) * 2 ^ d2 < 2 ^ d2 * (q + 1)) by nia.
        assert (Hp3 : 0 < 2 ^ d2) by (apply Z.pow_pos_nonneg; lia).
        nia. }
    apply Z.le_trans with F; [unfold e'; lia|].
    unfold F. apply fexp_mono. unfold s in Hdq. lia. }
  split.
  { rewrite HX. split; nra. }
  intros Hl. apply new_location_exact in Hl. subst r.
  rewrite HX. unfold Rdiv. rewrite Rmult_0_l, Rplus_0_r. reflexivity.
Qed.

Lemma SFdiv_value (x y : spec_float) :
  valid_binary x = true -> valid_binary y = true ->
  SFfinite x = true -> SFfinite y = true ->
  SF2R y <> 0%R ->
  (Rabs (SF2R x / SF2R y) < bpow 1023)%R ->
  SFfinite (SFdiv prec emax x y) = true
  /\ (Rabs (SF2R (SFdiv prec emax x y) - SF2R x / SF2R y)
      <= Rabs (SF2R x / SF2R y) * u64 + eta64)%R.
Proof.
  intros Vx Vy Fx Fy Hy0 Hbig.
  pose proof u64_pos as Hu. pose proof eta64_pos as Heta.
  destruct x as [sx|sx| |sx mx ex]; try discriminate;
    destruct y as [sy|sy| |sy my ey]; try discriminate;
    cbn [SFdiv SF2R SFfinite].
  - exfalso. apply Hy0. reflexivity.
  - split; [reflexivity|]. unfold Rdiv. rewrite Rmult_0_l, Rminus_0_r, Rabs_R0. lra.
  - exfalso. apply Hy0. reflexivity.
  - pose proof (SFdiv_core_spec mx my ex ey) as Hc.
    destruct (SFdiv_core_binary prec emax (Zpos mx) ex (Zpos my) ey)
      as [[q e'] l].
    cbv zeta in Hc. destruct Hc as (Hq & Hpre & Hloc & Hex).
    set (X := (IZR (Zpos mx) * bpow ex / (IZR (Zpos my) * bpow ey))%R) in *.
    assert (HX0 : (0 < X)%R).
    { unfold X. apply Rdiv_lt_0_compat;
        (apply Rmult_lt_0_compat; [apply IZR_lt; lia|apply bpow_pos]). }
    assert (Hquo : (SF2R (S754_finite sx mx ex) / SF2R (S754_finite sy my ey)
                    = if xorb sx sy then - X else X)%R).
    { cbn [SF2R]. unfold X.
      assert (IZR (Zpos my) <> 0)%R
        by (apply Rgt_not_eq, Rlt_gt, IZR_lt; lia).
      assert (bpow ey <> 0)%R by (apply Rgt_not_eq, Rlt_gt, bpow_pos).
      destruct sx, sy; cbn [xorb]; field; repeat split; assumption. }
    cbn [SF2R] in Hquo, Hbig. rewrite Hquo in *.
    assert (HbigX : (X < bpow 1023)%R).
    { destruct (xorb sx sy); [rewrite Rabs_Ropp in Hbig|];
        rewrite Rabs_pos_eq in Hbig; lra. }
    destruct (binary_round_aux_value (xorb sx sy) q e' l X Hq Hpre Hloc Hex
                HbigX)
      as (Y & Hf & HY & HY0 & Herr & _).
    split; [exact Hf|].
    rewrite HY.
    assert (Hgoal : (Rabs (Y - X) <= Rabs X * u64 + eta64)%R).
    { rewrite (Rabs_pos_eq X) by lra.
      destruct (round_step q e' X Hq Hpre ltac:(lra)) as [E|Hrel].
      - rewrite E in Herr. fold eta64 in Herr. nra.
      - lra. }
    destruct (xorb sx sy).
    + replace (- Y - - X)%R with (- (Y - X))%R by ring.
      rewrite !Rabs_Ropp. exact Hgoal.
    + exact Hgoal.
Qed.

(* ---------- comparison ---------- *)

Lemma canonical_lt (m1 m2 : positive) (e1 e2 : Z) :
  e1 = Z.max (Zpos (digits2_pos m1) + e1 - 53) (-1074) ->
  e2 = Z.max (Zpos (digits2_pos m2) + e2 - 53) (-1074) ->
  e1 < e2 ->
  (IZR (Zpos m1) * bpow e1 < IZR (Zpos m2) * bpow e2)%R.
Proof.
  intros C1 C2 Hlt.
  destruct (digits2_pos_bounds m1) as [_ U1].
  destruct (digits2_pos_bounds m2) as [L2 _].
  assert (D2 : Zpos (digits2_pos m2) = 53) by lia.
  assert (D1 : Zpos (digits2_pos m1) <= 53) by lia.
  rewrite D2 in L2. change (53 - 1) with 52 in L2.
  assert (U1' : Zpos m1 < 2 ^ 53).
  { apply Z.lt_le_trans with (2 ^ Zpos (digits2_pos m1)); [exact U1|].
    apply Z.pow_le_mono_r; lia. }
  apply IZR_lt in U1'. apply IZR_le in L2.
  rewrite <- bpow_IZR in U1', L2 by lia.
  pose proof (bpow_pos e1) as B1. pose proof (bpow_pos e2) as B2.
  pose proof (bpow_le (e1 + 1) e2 ltac:(lia)) as Hle.
  rewrite bpow_add, bpow_1 in Hle.
  assert (H53 : bpow 53 = (2 * bpow 52)%R).
  { replace 53 with (1 + 52) by lia. rewrite bpow_add, bpow_1. reflexivity. }
  pose proof (bpow_pos 52).
  apply Rlt_le_trans with (bpow 53 * bpow e1)%R.
  - apply Rmult_lt_compat_r; lra.
  - apply Rle_trans with (bpow 52 * bpow e2)%R.
    + rewrite H53. nra.
    + apply Rmult_le_compat_r; lra.
Qed.

Lemma SFltb_value (x y : spec_float) :
  valid_binary x = true -> valid_binary y = true ->
  SFfinite x = true -> SFfinite y = true ->
  (SFltb x y = true <-> (SF2R x < SF2R y)%R).
Proof.
  intros Vx Vy Fx Fy.
  assert (Hpos : forall (m : positive) e, (0 < IZR (Zpos m) * bpow e)%R).
  { intros. apply Rmult_lt_0_compat; [apply IZR_lt; lia|apply bpow_pos]. }
  destruct x as [sx|sx| |sx mx ex]; try discriminate;
    destruct y as [sy|sy| |sy my ey]; try discriminate;
    unfold SFltb; cbn [SFcompare SF2R].
  - split; intro; [discriminate|lra].
  - pose proof (Hpos my ey).
    destruct sy; split; intro; try discriminate; try reflexivity; lra.
  - pose proof (Hpos mx ex).
    destruct sx; split; intro; try discriminate; try reflexivity; lra.
  - destruct (valid_finite _ _ _ Vx) as [Cx _].
    destruct (valid_finite _ _ _ Vy) as [Cy _].
    pose proof (Hpos mx ex) as Hpx. pose proof (Hpos my ey) as Hpy.
    assert (Hcmp : forall m1 m2 : positive,
              Pos.compare_cont Eq m1 m2 = (Zpos m1 ?= Zpos m2)).
    { intros. reflexivity. }
    pose proof (bpow_pos ex) as Bx.
    destruct sx, sy.
    + destruct (Z.compare_spec ex ey) as [E|L|G].
      * subst ey. rewrite Hcmp.
        destruct (Z.compare_spec (Zpos mx) (Zpos my)) as [E'|L'|G'];
          cbn [CompOpp].
        -- rewrite E'. split; intro; [discriminate|lra].
        -- apply IZR_lt in L'. split; intro; [discriminate|nra].
        -- apply IZR_lt in G'. split; intro; [nra|reflexivity].
      * pose proof (canonical_lt mx my ex ey Cx Cy L).
        split; intro; [discriminate|lra].
      * pose proof (canonical_lt my mx ey ex Cy Cx ltac:(lia)).
        split; intro; [lra|reflexivity].
    + split; intro; [lra|reflexivity].
    + split; intro; [discriminate|lra].
    + destruct (Z.compare_spec ex ey) as [E|L|G].
      * subst ey. rewrite Hcmp.
        destruct (Z.compare_spec (Zpos mx) (Zpos my)) as [E'|L'|G'].
        -- rewrite E'. split; intro; [discriminate|lra].
        -- apply IZR_lt in L'. split; intro; [nra|reflexivity].
        -- apply IZR_lt in G'. split; intro; [discriminate|nra].
      * pose proof (canonical_lt mx my ex ey Cx Cy L).
        split; intro; [lra|reflexivity].
      * pose proof (canonical_lt my mx ey ex Cy Cx ltac:(lia)).
        split; intro; [discriminate|lra].
Qed.

(** *** The operations of [PrimFloat] *)

Lemma ieee_mul (x y : float) :
  IEEE.finite x = true -> IEEE.finite y = true ->
  (Rabs (IEEE.val x * IEEE.val y) < bpow 1023)%R ->
  IEEE.finite (x * y)%float = true
  /\ (Rabs (IEEE.val (x * y)%float - IEEE.val x * IEEE.val y)
      <= Rabs (IEEE.val x * IEEE.val y) * u64 + eta64)%R.
Proof.
  unfold IEEE.finite, IEEE.val. rewrite FloatAxioms.mul_spec.
  apply SFmul_value; apply Prim2SF_valid.
Qed.

Lemma ieee_div (x y : float) :
  IEEE.finite x = true -> IEEE.finite y = true -> IEEE.val y <> 0%R ->
  (Rabs (IEEE.val x / IEEE.val y) < bpow 1023)%R ->
  IEEE.finite (x / y)%float = true
  /\ (Rabs (IEEE.val (x / y)%float - IEEE.val x / IEEE.val y)
      <= Rabs (IEEE.val x / IEEE.val y) * u64 + eta64)%R.
Proof.
  unfold IEEE.finite, IEEE.val. rewrite FloatAxioms.div_spec.
  apply SFdiv_value; apply Prim2SF_valid.
Qed.

Lemma ieee_add (x y : float) :
  IEEE.finite x = true -> IEEE.finite y = true ->
  (Rabs (IEEE.val x + IEEE.val y) < bpow 1023)%R ->
  IEEE.finite (x + y)%float = true
  /\ (Rabs (IEEE.val (x + y)%float - (IEEE.val x + IEEE.val y))
      <= Rabs (IEEE.val x + IEEE.val y) * u64)%R.
Proof.
  unfold IEEE.finite, IEEE.val. rewrite FloatAxioms.add_spec.
  apply SFadd_value; apply Prim2SF_valid.
Qed.

Lemma ieee_sub (x y : float) :
  IEEE.finite x = true -> IEEE.finite y = true ->
  (Rabs (IEEE.val x - IEEE.val y) < bpow 1023)%R ->
  IEEE.finite (x - y)%float = true
  /\ (Rabs (IEEE.val (x - y)%float - (IEEE.val x - IEEE.val y))
      <= Rabs (IEEE.val x - IEEE.val y) * u64)%R.
Proof.
  unfold IEEE.finite, IEEE.val. rewrite FloatAxioms.sub_spec.
  apply SFsub_value; apply Prim2SF_valid.
Qed.

Lemma ieee_ltb (x y : float) :
  IEEE.finite x = true -> IEEE.finite y = true ->
  ((x <? y)%float = true <-> (IEEE.val x < IEEE.val y)%R).
Proof.
  unfold IEEE.finite, IEEE.val. rewrite FloatAxioms.ltb_spec.
  apply SFltb_value; apply Prim2SF_valid.
Qed.

Lemma of_pos_value (p : positive) :
  Zpos p <= 2 ^ 53 ->
  let z := Prim2SF (of_uint63 (Uint63.of_Z (Zpos p))) in
  SFfinite z = true /\ SF2R z = IZR (Zpos p).
Proof.
  intros Hp z. unfold z.
  rewrite of_uint63_spec, Uint63.of_Z_spec.
  assert (HwB : Uint63.wB = 9223372036854775808) by reflexivity.
  rewrite Z.mod_small
    by (rewrite HwB; change (2 ^ 53) with 9007199254740992 in Hp; lia).
  clear HwB.
  assert (Hb : (Rabs (IZR (Zpos p) * bpow 0) < bpow 1023)%R).
  { rewrite bpow_0, Rmult_1_r, Rabs_pos_eq by (apply IZR_le; lia).
    apply Rle_lt_trans with (bpow 53).
    - rewrite bpow_IZR by lia. apply IZR_le. exact Hp.
    - apply bpow_lt. lia. }
  destruct (binary_normalize_value (Zpos p) 0 ltac:(lia) Hb) as (Hf & Herr & Hex).
  split; [exact Hf|].
  destruct (Z.eq_dec (Zpos p) (2 ^ 53)) as [E|N].
  - (* 2^53 itself: one digit more, and still exact *)
    rewrite E. vm_compute binary_normalize. cbn [SF2R].
    rewrite bpow_1. change (2 ^ 53) with 9007199254740992. lra.
  - rewrite Hex; [rewrite bpow_0; ring|].
    rewrite fexp_eq.
    assert (Zdigits2 (Zpos p) <= 53) by (apply Zdigits2_le; lia).
    lia.
Qed.

Lemma ieee_of_long (z : Z) :
  - 2 ^ 53 <= z <= 2 ^ 53 ->
  IEEE.finite (IEEE.of_long z) = true /\ IEEE.val (IEEE.of_long z) = IZR z.
Proof.
  intros Hz. unfold IEEE.finite, IEEE.val. destruct z as [|p|p]; cbn [IEEE.of_long].
  - split; reflexivity.
  - apply of_pos_value. lia.
  - rewrite FloatAxioms.opp_spec.
    destruct (of_pos_value p ltac:(lia)) as [Hf Hv]. cbv zeta in Hf, Hv.
    destruct (Prim2SF (of_uint63 (Uint63.of_Z (Z.pos p)))) as [s|s| |s m e];
      try discriminate; cbn [SFopp SFfinite SF2R] in *.
    + split; [reflexivity|].
      change (IZR (Z.neg p)) with (- IZR (Z.pos p))%R. lra.
    + split; [reflexivity|].
      change (IZR (Z.neg p)) with (- IZR (Z.pos p))%R.
      destruct s; cbn [negb]; lra.
Qed.

(* the integer part *)
Lemma ieee_trunc (x : float) :
  IEEE.finite x = true ->
  exists z, IEEE.trunc x = Some z
    /\ ((0 <= IEEE.val x)%R -> (IZR z <= IEEE.val x < IZR z + 1)%R)
    /\ ((IEEE.val x <= 0)%R -> (IZR z - 1 < IEEE.val x <= IZR z)%R).
Proof.
  unfold IEEE.finite, IEEE.val, IEEE.trunc.
  destruct (Prim2SF x) as [s|s| |s m e]; try discriminate; intros _.
  - exists 0. cbn [SF2R]. split; [reflexivity|]. split; intros; lra.
  - assert (Hpos : (0 < IZR (Zpos m) * bpow e)%R).
    { apply Rmult_lt_0_compat; [apply IZR_lt; lia|apply bpow_pos]. }
    set (a := if 0 <=? e then Zpos m * 2 ^ e else Zpos m / 2 ^ (- e)).
    assert (Ha : (IZR a <= IZR (Zpos m) * bpow e < IZR a + 1)%R).
    { unfold a. destruct (Z.leb_spec 0 e) as [He|He].
      - rewrite mult_IZR, <- bpow_IZR by lia. lra.
      - pose proof (div_pow2_bounds (Zpos m) (- e) (IZR (Zpos m) * bpow e) e
                      ltac:(lia) ltac:(lia)) as H.
        replace (e + - e) with 0 in H by lia. rewrite bpow_0 in H.
        rewrite !Rmult_1_r in H. apply H.
        pose proof (bpow_pos e). split; [lra|nra]. }
    eexists. split; [reflexivity|]. cbn [SF2R]. fold a.
    destruct s.
    + rewrite opp_IZR. split; intros; lra.
    + split; intros; lra.
Qed.

Lemma u64_le : (u64 <= 1 / 4000000000000000)%R.
Proof.
  unfold u64. change (bpow (-52)) with (bpow (- (52))).
  rewrite bpow_opp, bpow_IZR by lia.
  change (2 ^ 52) with 4503599627370496.
  apply Rmult_le_reg_r with 4503599627370496%R; [lra|].
  rewrite Rinv_l by lra. lra.
Qed.

Lemma eta64_le : (eta64 <= u64 / 1000000000000000000000000000000)%R.
Proof.
  unfold eta64, u64.
  replace (-1074) with (-52 + -1022) by lia. rewrite bpow_add.
  pose proof (bpow_pos (-52)) as Hu.
  assert (H : (bpow (-1022) <= / 1000000000000000000000000000000)%R).
  { apply Rle_trans with (bpow (-100)); [apply bpow_le; lia|].
    change (bpow (-100)) with (bpow (- (100))).
    rewrite bpow_opp, bpow_IZR by lia.
    change (2 ^ 100) with 1267650600228229401496703205376.
    apply Rinv_le_contravar; lra. }
  unfold Rdiv. apply Rmult_le_compat_l; lra.
Qed.

Lemma dbl_max_big : (1000000000000000000000000000000 <= dbl_max)%R.
Proof.
  unfold dbl_max. apply Rle_trans with (bpow 100); [|apply bpow_le; lia].
  rewrite bpow_IZR by lia.
  change (2 ^ 100) with 1267650600228229401496703205376. lra.
Qed.

Lemma u64_small : (u64 <= 1 / 2)%R.
Proof.
  unfold u64. apply Rle_trans with (bpow (-1)); [apply bpow_le; lia|].
  change (bpow (-1)) with (bpow (- (1))). rewrite (bpow_opp 1), bpow_1. lra.
Qed.

Lemma eta64_small : (eta64 <= 1 / 2)%R.
Proof.
  unfold eta64. apply Rle_trans with (bpow (-1)); [apply bpow_le; lia|].
  change (bpow (-1)) with (bpow (- (1))). rewrite (bpow_opp 1), bpow_1. lra.
Qed.

(** A double above 0 and below a IEEE.finite one is IEEE.finite. *)
Lemma ieee_between (p c : float) :
  (0 <? p)%float = true -> (p <? c)%float = true -> IEEE.finite c = true ->
  IEEE.finite p = true /\ (0 < IEEE.val p < IEEE.val c)%R.
Proof.
  intros H0 Hc Fc.
  assert (Fp : IEEE.finite p = true).
  { rewrite FloatAxioms.ltb_spec in H0, Hc. unfold IEEE.finite in *.
    change (Prim2SF 0) with (S754_zero false) in H0.
    destruct (Prim2SF p) as [s|s| |s m e]; try reflexivity.
    - destruct s; [discriminate H0|].
      destruct (Prim2SF c) as [s'|s'| |s' m' e']; discriminate.
    - discriminate H0. }
  split; [exact Fp|]. split.
  - apply (ieee_ltb 0 p); [reflexivity|exact Fp|exact H0].
  - apply (ieee_ltb p c); assumption.
Qed.

(** The doubles of the machine keep the laws. *)
Lemma PI_12_digits :
  (3141592653589 / 1000000000000 <= PI <= 3141592653590 / 1000000000000)%R.
Proof.
  pose proof (PI_2_3_7_ineq 6) as [Hlo Hhi].
  unfold sum_f_R0, tg_alt, PI_2_3_7_tg, Ratan_seq in Hlo, Hhi.
  simpl in Hlo, Hhi. lra.
Qed.

Lemma ieee_double_laws :
  double_laws IEEE.double_ops (fun x => IEEE.finite x = true) IEEE.val.
Proof.
  constructor; cbn [d_of_long d_add d_sub d_mul d_div d_ltb d_trunc d_pi
                    IEEE.double_ops].
  - apply ieee_of_long.
  - apply ieee_add.
  - apply ieee_sub.
  - apply ieee_mul.
  - apply ieee_div.
  - apply ieee_ltb.
  - apply ieee_trunc.
  - split; [reflexivity|].
    assert (E : IEEE.val 0x1.921fb54442d18p+1%float
                = (IZR 7074237752028440 * bpow (-51))%R) by reflexivity.
    rewrite E. clear E.
    change (bpow (-51)) with (bpow (- (51))). rewrite bpow_opp, bpow_IZR by lia.
    change (2 ^ 51) with 2251799813685248.
    pose proof PI_12_digits. unfold pi_err. apply Rabs_le. lra.
Qed.

(** ** The doubles of the machine: [calc] at any frequency *)

Module CalcFacts.

Import IEEE.

Section Span.

Variable b : toneBurst float.

Hypothesis Fp : finite (cycle_samples b) = true.
Hypothesis Hp : (0 < val (cycle_samples b) < 2147483648)%R.

(** The span of [n] cycles, as the machine computes it. *)
Lemma cycles_span_value (n : Z) :
  1 <= n <= LONG_MAX ->
  let t := cycles_span (set_numCycle n b) in
  finite t = true
  /\ (Rabs (val t - val (cycle_samples b) * IZR n)
      <= val (cycle_samples b) * IZR n * u64 + eta64)%R.
Proof.
  intros Hn t.
  assert (Et : t = (cycle_samples b * of_long n)%float)
    by (destruct b; reflexivity).
  destruct (ieee_of_long n ltac:(unfold LONG_MAX in Hn; lia)) as [Fn Vn].
  assert (Hn1 : (1 <= IZR n <= 2147483647)%R).
  { split; apply IZR_le; unfold LONG_MAX in Hn; lia. }
  assert (Hprod : (0 < val (cycle_samples b) * IZR n)%R) by nra.
  assert (Hb : (Rabs (val (cycle_samples b) * val (of_long n))
                < bpow 1023)%R).
  { rewrite Vn, Rabs_pos_eq by lra.
    apply Rlt_le_trans with (bpow 62).
    - rewrite bpow_IZR by lia. change (2 ^ 62) with 4611686018427387904. nra.
    - apply bpow_le. lia. }
  destruct (ieee_mul (cycle_samples b) (of_long n) Fp Fn Hb) as [Ft Herr].
  rewrite Vn, (Rabs_pos_eq (val (cycle_samples b) * IZR n)) in Herr by lra.
  rewrite Et. split; assumption.
Qed.

(** The test of [calc] at [n] cycles. *)
Lemma calc_cond_value (n : Z) :
  1 <= n <= LONG_MAX -> burstMin b = BURST_LENGTH ->
  (calc_cond (set_numCycle n b) = true
   <-> (val (cycles_span (set_numCycle n b)) < 100)%R).
Proof.
  intros Hn Hm. destruct (cycles_span_value n Hn) as [Ft _].
  unfold calc_cond.
  replace (burstMin (set_numCycle n b)) with (burstMin b)
    by (destruct b; reflexivity).
  rewrite Hm.
  destruct (ieee_of_long BURST_LENGTH ltac:(unfold BURST_LENGTH; lia)) as [F V].
  change 100%R with (IZR BURST_LENGTH). rewrite <- V.
  apply ieee_ltb; assumption.
Qed.

End Span.

(** [calc] ends within the range of a [long] when three tests of the
    machine come out at entry, and its duration fills the minimum. *)
Lemma calc_ends_in_long (b : toneBurst float) :
  burstMin b = BURST_LENGTH -> 1 <= numCycle b <= LONG_MAX ->
  (0 <? cycle_samples b)%float = true ->
  (cycle_samples b <? 2147483648)%float = true ->
  (cycles_span b <? 2147483648)%float = true ->
  calc_cond (set_numCycle LONG_MAX b) = false ->
  exists b',
    calc (limit := LOOP_LIMIT) b = Some b'
    /\ numCycle b <= numCycle b' <= LONG_MAX
    /\ burstMin b <= duration b' <= LONG_MAX
    /\ calc_cond b' = false.
Proof.
  intros Hm Hn H0 H1 H2 H3.
  change 2147483648%float with (of_long 2147483648) in H1, H2.
  destruct (ieee_of_long 2147483648 ltac:(lia)) as [F31 V31].
  destruct (ieee_between (cycle_samples b) _ H0 H1 F31) as [Fp Hp].
  rewrite V31 in Hp.
  destruct (calc_returns (limit := LOOP_LIMIT) b LONG_MAX) as
    (b' & Hc & Hs & Hn' & Hf & Ht & Hd).
  { unfold LONG_MIN, LONG_MAX in *. lia. }
  { lia. }
  { exact H3. }
  { pose proof loop_limit_val. unfold LONG_MAX in *. lia. }
  exists b'. split; [exact Hc|]. split; [exact Hn'|].
  set (n := numCycle b') in *.
  assert (Hn1 : 1 <= n <= LONG_MAX) by lia.
  destruct (cycles_span_value b Fp Hp n Hn1) as [Ft Herr].
  set (t := cycles_span (set_numCycle n b)) in *.
  (* the span fills the minimum *)
  assert (Hge : (100 <= val t)%R).
  { apply Rnot_lt_le. intros Hlt.
    apply (calc_cond_value b Fp Hp n Hn1 Hm) in Hlt. congruence. }
  (* and fits a long *)
  assert (Hlt : (val t < 2147483648)%R).
  { destruct (Z.eq_dec n (numCycle b)) as [E|Hne].
    - assert (Eb : t = cycles_span b).
      { unfold t. rewrite E. destruct b; reflexivity. }
      rewrite Eb. rewrite <- V31.
      apply ieee_ltb; [rewrite <- Eb; exact Ft|exact F31|exact H2].
    - assert (Hprev : 1 <= n - 1 <= LONG_MAX) by lia.
      pose proof (Ht (n - 1) ltac:(lia)) as Hc1.
      apply (calc_cond_value b Fp Hp (n - 1) Hprev Hm) in Hc1.
      destruct (cycles_span_value b Fp Hp (n - 1) Hprev) as [_ Herr1].
      cbv zeta in Herr1.
      set (t1 := val (cycles_span (set_numCycle (n - 1) b))) in *.
      pose proof u64_small as Hu. pose proof u64_pos as Hu0.
      pose proof eta64_small as He. pose proof eta64_pos as He0.
      assert (Hn2 : (2 <= IZR n)%R) by (apply IZR_le; lia).
      rewrite minus_IZR in Herr1.
      apply Rabs_bounds in Herr1. apply Rabs_bounds in Herr.
      set (P := val (cycle_samples b)) in *. set (x := IZR n) in *.
      assert (HA0 : (0 <= P * (x - 1))%R) by nra.
      assert (HAu : (P * (x - 1) * u64 <= P * (x - 1) * (1 / 2))%R)
        by (apply Rmult_le_compat_l; lra).
      assert (HA : (P * (x - 1) <= 202)%R) by lra.
      assert (HB : (P * x <= 404)%R) by nra.
      assert (HBu : (P * x * u64 <= P * x * (1 / 2))%R)
        by (apply Rmult_le_compat_l; nra).
      lra. }
  assert (Ht0 : (0 <= val t)%R) by lra.
  destruct (ieee_trunc t Ft) as (z & Hz & Hzpos & _).
  specialize (Hzpos Ht0).
  assert (Hzr : 100 <= z <= LONG_MAX).
  { split.
    - assert (99 < z); [|lia]. apply lt_IZR. lra.
    - assert (z < 2147483648); [|unfold LONG_MAX; lia]. apply lt_IZR. lra. }
  assert (Hdur : duration b' = z).
  { rewrite Hd. fold t. unfold to_long. cbn [d_trunc double_ops].
    rewrite Hz.
    assert (E : in_long z = true)
      by (apply in_long_true; unfold LONG_MIN, LONG_MAX in *; lia).
    rewrite E. reflexivity. }
  split.
  - rewrite Hdur, Hm. unfold BURST_LENGTH. lia.
  - rewrite <- Hf.
    apply calc_cond_ext; destruct Hs as (? & ? & ? & ? & ? & ? & _);
      destruct b; cbn in *; auto.
Qed.

(** C5, as the code has it (the doubles of the machine, the loop limit of
    the machine): [calc()] entered with a cycle count from 1 on returns,
    with the cycle count it entered with or a larger one and with
    [duration >= burstMin], for every nominal frequency at which three
    tests of the machine come out: the samples of a cycle,
    [sampleRate / nominalFreq], are more than 0 and less than [2^31]; so
    is the span [(sampleRate / nominalFreq) * numCycle] of the cycle count
    it enters with; and [(sampleRate / nominalFreq) * LONG_MAX] is not
    below [burstMin], so that the loop ends before [numCycle++] wraps.
    [burstMin] is [BURST_LENGTH], as the constructor sets it. *)
Theorem calc_positive_frequency (b : toneBurst float) :
  burstMin b = BURST_LENGTH -> 1 <= numCycle b <= LONG_MAX ->
  (0 <? cycle_samples b)%float = true ->
  (cycle_samples b <? 2147483648)%float = true ->
  (cycles_span b <? 2147483648)%float = true ->
  calc_cond (set_numCycle LONG_MAX b) = false ->
  exists b',
    calc (limit := LOOP_LIMIT) b = Some b'
    /\ numCycle b <= numCycle b' <= LONG_MAX
    /\ burstMin b <= duration b' <= LONG_MAX
    /\ calc_cond b' = false.
Proof. exact (calc_ends_in_long b). Qed.

(** C5 at 3969.0000000000005 Hz, the double next above 3969, where the
    machine ends at 9 cycles of 100 samples. *)
Lemma calc_positive_frequency_witness :
  let b := at_frequency 0x1.f020000000001p+11%float in
  exists b',
    calc (limit := LOOP_LIMIT) b = Some b'
    /\ numCycle b <= numCycle b' <= LONG_MAX
    /\ burstMin b <= duration b' <= LONG_MAX
    /\ calc_cond b' = false.
Proof.
  apply (calc_positive_frequency
           (at_frequency 0x1.f020000000001p+11%float)).
  - reflexivity.
  - cbn. unfold LONG_MAX. lia.
  - reflexivity.
  - reflexivity.
  - reflexivity.
  - reflexivity.
Defined.

(** The tests come out at every frequency of the audible range and far
    beyond: for every double above [2^-15] Hz and below [2^38] Hz, from
    one cycle. *)
Lemma calc_tests_pass (b : toneBurst float) :
  sampleRate b = SAMPLE_RATE -> burstMin b = BURST_LENGTH ->
  numCycle b = 1 ->
  (0x1p-15 <? nominalFreq b)%float = true ->
  (nominalFreq b <? 0x1p+38)%float = true ->
  (0 <? cycle_samples b)%float = true
  /\ (cycle_samples b <? 2147483648)%float = true
  /\ (cycles_span b <? 2147483648)%float = true
  /\ calc_cond (set_numCycle LONG_MAX b) = false.
Proof.
  intros Hsr Hm Hn Hlo Hhi.
  pose proof u64_le as Hu. pose proof u64_pos as Hu0.
  pose proof eta64_le as He. pose proof eta64_pos as He0.
  assert (Flo : finite 0x1p-15%float = true) by reflexivity.
  assert (Fhi : finite 0x1p+38%float = true) by reflexivity.
  assert (Vlo : val 0x1p-15%float = (/ 32768)%R).
  { assert (E : val 0x1p-15%float
                = (IZR 4503599627370496 * bpow (-67))%R) by reflexivity.
    rewrite E. change (bpow (-67)) with (bpow (- (67))).
    rewrite bpow_opp, bpow_IZR by lia.
    change (2 ^ 67) with 147573952589676412928. field. }
  assert (Vhi : val 0x1p+38%float = 274877906944%R).
  { assert (E : val 0x1p+38%float
                = (IZR 4503599627370496 * bpow (-14))%R) by reflexivity.
    rewrite E. change (bpow (-14)) with (bpow (- (14))).
    rewrite bpow_opp, bpow_IZR by lia.
    change (2 ^ 14) with 16384. field. }
  destruct (ieee_between (nominalFreq b) 0x1p+38%float) as [Ff Hf];
    auto.
  { rewrite FloatAxioms.ltb_spec in Hlo |- *.
    change (Prim2SF 0) with (S754_zero false).
    change (Prim2SF 0x1p-15)
      with (S754_finite false 4503599627370496 (-67)) in Hlo.
    destruct (Prim2SF (nominalFreq b)) as [s|s| |s m e];
      try discriminate Hlo; try reflexivity.
    - destruct s; [discriminate Hlo|reflexivity].
    - destruct s; [discriminate Hlo|reflexivity]. }
  assert (Hf1 : (/ 32768 < val (nominalFreq b))%R).
  { rewrite <- Vlo. apply ieee_ltb; assumption. }
  rewrite Vhi in Hf.
  set (F := val (nominalFreq b)) in *.
  destruct (ieee_of_long (sampleRate b)) as [Fs Vs].
  { rewrite Hsr. unfold SAMPLE_RATE. lia. }
  replace (IZR (sampleRate b)) with 44100%R in Vs
    by (rewrite Hsr; reflexivity).
  (* the samples of a cycle, in exact terms *)
  assert (HF0 : (0 < F)%R) by lra.
  assert (Hq : (44100 / 274877906944 <= 44100 / F <= 44100 * 32768)%R).
  { split.
    - apply Rmult_le_reg_r with F; [exact HF0|].
      unfold Rdiv at 2. rewrite Rmult_assoc, Rinv_l by lra. lra.
    - apply Rmult_le_reg_r with F; [exact HF0|].
      unfold Rdiv. rewrite Rmult_assoc, Rinv_l by lra. nra. }
  set (Q := (44100 / F)%R) in *.
  destruct (ieee_div (of_long (sampleRate b)) (nominalFreq b) Fs Ff)
    as [Fp Hp].
  { fold F. lra. }
  { rewrite Vs. fold F. fold Q. rewrite Rabs_pos_eq by lra.
    apply Rle_lt_trans with (bpow 62); [|apply bpow_lt; lia].
    rewrite bpow_IZR by lia. change (2 ^ 62) with 4611686018427387904. lra. }
  rewrite Vs in Hp. fold F in Hp. fold Q in Hp.
  rewrite (Rabs_pos_eq Q) in Hp by lra.
  apply Rabs_bounds in Hp.
  change (of_long (sampleRate b) / nominalFreq b)%float
    with (cycle_samples b) in Fp, Hp.
  set (P := val (cycle_samples b)) in *.
  assert (HQu : (Q * u64 <= Q * (1 / 4000000000000000))%R)
    by (apply Rmult_le_compat_l; lra).
  assert (HP : (1 / 10000000 <= P <= 1500000000)%R) by lra.
  assert (HP' : (0 < P < 2147483648)%R) by lra.
  destruct (ieee_of_long 2147483648 ltac:(lia)) as [F31 V31].
  assert (T1 : (0 <? cycle_samples b)%float = true).
  { apply (ieee_ltb 0 (cycle_samples b)); [reflexivity|exact Fp|].
    change (val 0) with 0%R. fold P. lra. }
  assert (T2 : (cycle_samples b <? 2147483648)%float = true).
  { change 2147483648%float with (of_long 2147483648).
    apply ieee_ltb; [exact Fp|exact F31|]. rewrite V31. fold P. lra. }
  split; [exact T1|]. split; [exact T2|].
  split.
  - destruct (cycles_span_value b Fp HP' 1 ltac:(unfold LONG_MAX; lia))
      as [Ft Ht].
    cbv zeta in Ft, Ht.
    replace (set_numCycle 1 b) with b in Ft, Ht
      by (destruct b; cbn in Hn; subst; reflexivity).
    fold P in Ht. apply Rabs_bounds in Ht.
    assert (HPu : (P * 1 * u64 <= 1500000000 * (1 / 4000000000000000))%R)
      by (apply Rmult_le_compat; lra).
    change 2147483648%float with (of_long 2147483648).
    apply ieee_ltb; [exact Ft|exact F31|]. rewrite V31. lra.
  - destruct (cycles_span_value b Fp HP' LONG_MAX
                ltac:(unfold LONG_MAX; lia)) as [Ft Ht].
    cbv zeta in Ft, Ht. fold P in Ht. apply Rabs_bounds in Ht.
    change (IZR LONG_MAX) with 2147483647%R in Ht.
    assert (HPu : (P * 2147483647 * u64
                   <= P * 2147483647 * (1 / 4000000000000000))%R)
      by (apply Rmult_le_compat_l; lra).
    destruct (calc_cond (set_numCycle LONG_MAX b)) eqn:E; [|reflexivity].
    apply (calc_cond_value b Fp HP' LONG_MAX
             ltac:(unfold LONG_MAX; lia) Hm) in E.
    lra.
Qed.

(** Over the audible range and far beyond it, on the doubles of the
    machine: at every nominal frequency above [2^-15] Hz and below [2^38]
    Hz, [calc()] entered as the constructor enters it (44100 samples a
    second, a minimum of 100 samples, one cycle) returns, with a cycle
    count from 1 on and a duration that is not below the minimum and fits
    a [long]. *)
Theorem calc_frequency_range (b : toneBurst float) :
  sampleRate b = SAMPLE_RATE -> burstMin b = BURST_LENGTH ->
  numCycle b = 1 ->
  (0x1p-15 <? nominalFreq b)%float = true ->
  (nominalFreq b <? 0x1p+38)%float = true ->
  exists b',
    calc (limit := LOOP_LIMIT) b = Some b'
    /\ 1 <= numCycle b' <= LONG_MAX
    /\ BURST_LENGTH <= duration b' <= LONG_MAX
    /\ calc_cond b' = false.
Proof.
  intros Hsr Hm Hn Hlo Hhi.
  destruct (calc_tests_pass b Hsr Hm Hn Hlo Hhi) as (T1 & T2 & T3 & T4).
  destruct (calc_ends_in_long b Hm ltac:(unfold LONG_MAX; lia) T1 T2 T3 T4)
    as (b' & Hc & Hn' & Hd & Hf).
  exists b'. rewrite Hn in Hn'. rewrite Hm in Hd. auto.
Qed.

(** At 440 Hz: 1 cycle of 100 samples. *)
Lemma calc_frequency_range_witness :
  exists b',
    calc (limit := LOOP_LIMIT) (at_frequency 440) = Some b'
    /\ 1 <= numCycle b' <= LONG_MAX
    /\ BURST_LENGTH <= duration b' <= LONG_MAX
    /\ calc_cond b' = false.
Proof.
  apply (calc_frequency_range (at_frequency 440)); reflexivity.
Defined.

End CalcFacts.

(** ** The doubles of the machine: [calc] evaluated *)

Module IEEEFacts.

Import IEEE.

(** The scenario of the specification: 44100 samples per second, 100 Hz,
    a minimum of 100 samples. *)
Example calc_100Hz :
  let r := calc (limit := LOOP_LIMIT) (at_frequency 100) in
  option_map numCycle r = Some 1
  /\ option_map duration r = Some 441
  /\ option_map actualFreq r = Some 100%float.
Proof. vm_compute. auto. Qed.

Example calc_10kHz :
  let r := calc (limit := LOOP_LIMIT) (at_frequency 10000) in
  option_map numCycle r = Some 23 /\ option_map duration r = Some 101.
Proof. vm_compute. auto. Qed.

(** [calc] does not take [numCycle] back: coming to 10 kHz with the 46
    cycles of 20 kHz, it keeps them. *)
Example calc_10kHz_from_46 :
  let r := calc (limit := LOOP_LIMIT) (set_numCycle 46 (at_frequency 10000)) in
  option_map numCycle r = Some 46 /\ option_map duration r = Some 202.
Proof. vm_compute. auto. Qed.

(** X1 at 10 kHz: 23 cycles, and no fewer. *)
Lemma calc_least_cycles_witness :
  exists b' : toneBurst float,
    calc (limit := LOOP_LIMIT) (at_frequency 10000) = Some b'
    /\ numCycle b' = 23
    /\ calc_cond b' = false
    /\ forall n, 1 <= n < 23 -> calc_cond (set_numCycle n b') = true.
Proof.
  destruct (calc (limit := LOOP_LIMIT) (at_frequency 10000)) as [b'|] eqn:E;
    [|vm_compute in E; discriminate].
  exists b'. split; [reflexivity|].
  assert (Hn : numCycle b' = 23).
  { vm_compute in E. injection E as <-. reflexivity. }
  split; [exact Hn|].
  rewrite <- Hn.
  exact (calc_least_cycles (at_frequency 10000) b' eq_refl E).
Defined.

End IEEEFacts.

(** ** The sweep *)

Section Sweep.

Context {D : Type} {ops : DoubleOps D} {lm : Libm D} {limit : LoopLimit}.

Implicit Types b : toneBurst D.

(** A call of [next] in sweep mode multiplies the frequency by the ratio
    and keeps the ratio. *)
Lemma next_sweep_step b b' :
  sweep b = true -> next b = Some (true, b') ->
  sweep b' = true /\ freqIncr b' = freqIncr b
  /\ nominalFreq b' = (nominalFreq b * freqIncr b)%dbl.
Proof.
  intros Hs H. unfold next in H.
  destruct (0 <? burstCount b); [|discriminate].
  rewrite Hs in H.
  destruct (calc _) as [b1|] eqn:Hc; [|discriminate].
  injection H as <-. apply calc_setup in Hc.
  destruct Hc as (_ & _ & _ & _ & _ & Hnf & _ & Hfi & Hsw & _).
  destruct b, b1; cbn in *. subst. auto.
Qed.

Lemma nexts_sweep_ladder (k : nat) : forall b bk,
  sweep b = true -> nexts k b = Some bk ->
  sweep bk = true /\ freqIncr bk = freqIncr b
  /\ nominalFreq bk = ladder (nominalFreq b) (freqIncr b) k.
Proof.
  induction k as [|k IH]; intros b bk Hs H; cbn [nexts ladder] in *.
  - injection H as <-. auto.
  - destruct (next b) as [[[|] b']|] eqn:Hn; try discriminate.
    destruct (next_sweep_step _ _ Hs Hn) as (Hs' & Hf & Hnf).
    destruct (IH _ _ Hs' H) as (H1 & H2 & H3).
    rewrite H2, H3, Hf, Hnf. auto.
Qed.

(** [reset] in sweep mode: the start frequency and the ratio. *)
Lemma reset_sweep b b1 :
  sweep b = true -> reset b = Some b1 ->
  sweep b1 = true /\ nominalFreq b1 = startFreq b
  /\ freqIncr b1
     = d_pow (d_of_long 10000 / startFreq b)%dbl
             (d_of_long 1 / d_of_long 200)%dbl.
Proof.
  intros Hs H. unfold reset in H. apply calc_setup in H.
  destruct (reset_members_fields b) as (Hrun & _ & _ & Hnf & _ & _ & Hfi).
  rewrite Hs in Hfi.
  destruct H as (_ & _ & _ & _ & _ & Hnf' & _ & Hfi' & Hsw' & _).
  destruct Hrun as (_ & _ & _ & Hsw & _).
  split; [congruence|]. split; congruence.
Qed.

End Sweep.

Module SweepFacts.

Import IEEE.

(** C6: in sweep mode, whatever the arithmetic, [reset()] sets the
    frequency to the start frequency and the ratio to
    [pow(10000 / startFreq, 1.0 / 200)], and every call of [next()] that
    returns multiplies the frequency by that ratio: after [k] calls it is
    the start frequency times the ratio, [k] times over, in the arithmetic
    of the machine, and the ratio is what it was.  On the doubles of the
    machine, from the start frequency 100.0: [reset()] returns with one
    cycle, the ratio [pow(100.0, 1.0 / 200)]; and when that is one of the
    five doubles nearest to the 200th root of 100, the 200 calls of
    [next()] return and leave a frequency within 1e-8 of 10000.0. *)
Theorem sweep_is_geometric :
  (forall (D : Type) (ops : DoubleOps D) (lm : Libm D) (limit : LoopLimit)
          (b b1 : toneBurst D),
     sweep b = true -> reset b = Some b1 ->
     nominalFreq b1 = startFreq b
     /\ freqIncr b1
        = d_pow (d_of_long 10000 / startFreq b)%dbl
                (d_of_long 1 / d_of_long 200)%dbl
     /\ forall (k : nat) (bk : toneBurst D),
          nexts k b1 = Some bk ->
          freqIncr bk = freqIncr b1
          /\ nominalFreq bk = ladder (nominalFreq b1) (freqIncr b1) k)
  /\ (forall (lm : Libm float) (b : toneBurst float),
        sweep b = true -> startFreq b = 100%float ->
        sampleRate b = 44100 -> burstMin b = 100 ->
        exists b1 : toneBurst float,
          reset (limit := LOOP_LIMIT) b = Some b1
          /\ sampleRate b1 = 44100 /\ burstMin b1 = 100 /\ sweep b1 = true
          /\ nominalFreq b1 = 100%float /\ numCycle b1 = 1
          /\ burstCount b1 = numBurst b
          /\ freqIncr b1 = d_pow 100%float 0x1.47ae147ae147bp-8%float)
  /\ (forall b1 : toneBurst float,
        sampleRate b1 = 44100 -> burstMin b1 = 100 -> sweep b1 = true ->
        nominalFreq b1 = 100%float -> numCycle b1 = 1 ->
        burstCount b1 = 201 ->
        In (freqIncr b1) root_100_doubles ->
        exists b200 : toneBurst float,
          nexts (limit := LOOP_LIMIT) 200 b1 = Some b200
          /\ PrimFloat.ltb below_10kHz (nominalFreq b200) = true
          /\ PrimFloat.ltb (nominalFreq b200) above_10kHz = true).
Proof.
  split; [|split].
  - intros D ops lm limit b b1 Hs Hr.
    destruct (reset_sweep _ _ Hs Hr) as (Hs1 & Hnf & Hfi).
    split; [exact Hnf|]. split; [exact Hfi|].
    intros k bk Hk.
    destruct (nexts_sweep_ladder k _ _ Hs1 Hk) as (_ & H2 & H3). auto.
  - intros lm b Hs Hsf Hsr Hm.
    destruct b; cbn in Hs, Hsf, Hsr, Hm. subst.
    vm_compute. eexists. split; [reflexivity|]. repeat split.
  - intros b1 Hsr Hm Hs Hnf Hn Hbc Hin.
    destruct b1; cbn in Hsr, Hm, Hs, Hnf, Hn, Hbc, Hin. subst.
    unfold root_100_doubles in Hin. cbn [In] in Hin.
    destruct Hin as [<-|[<-|[<-|[<-|[<-|[]]]]]];
      vm_compute; eexists; (split; [reflexivity|split; reflexivity]).
Qed.

(** C6 on the sweep from 100 Hz with the nearest double for the ratio: the
    frequency after 200 calls is 9999.9999999999345. *)
Lemma sweep_is_geometric_witness :
  exists b200 : toneBurst float,
    nexts (limit := LOOP_LIMIT) 200 sweep_100Hz = Some b200
    /\ PrimFloat.ltb below_10kHz (nominalFreq b200) = true
    /\ PrimFloat.ltb (nominalFreq b200) above_10kHz = true.
Proof.
  apply (proj2 (proj2 sweep_is_geometric) sweep_100Hz);
    try reflexivity.
  cbn. auto.
Defined.

End SweepFacts.

(** ** Real arithmetic: [calc] *)

Module IdealFacts.

Import Ideal.

Lemma ltb_true (x y : R) : ltb x y = true <-> (x < y)%R.
Proof.
  unfold ltb. destruct (Rlt_dec x y); split; intros; auto; try discriminate;
    try contradiction.
Qed.

Lemma ltb_false (x y : R) : ltb x y = false <-> (y <= x)%R.
Proof.
  unfold ltb. destruct (Rlt_dec x y); split; intros; auto; try discriminate;
    lra.
Qed.

Lemma Int_part_floor (x : R) (z : Z) :
  (IZR z <= x < IZR z + 1)%R -> Int_part x = z.
Proof.
  intros [H1 H2]. unfold Int_part.
  assert (H : (z + 1)%Z = up x).
  { apply tech_up; rewrite plus_IZR; lra. }
  lia.
Qed.

(** [long(x)] of a real [x >= 0] below [2^31] is its floor. *)
Lemma to_long_floor (x : R) (z : Z) :
  (IZR z <= x < IZR z + 1)%R -> 0 <= z <= LONG_MAX -> to_long x = z.
Proof.
  intros Hx Hz. unfold to_long. cbn [d_trunc double_ops trunc].
  destruct (Rle_dec 0 x) as [H0|H0].
  - rewrite (Int_part_floor x z Hx).
    assert (E : in_long z = true)
      by (apply in_long_true; unfold LONG_MIN, LONG_MAX in *; lia).
    rewrite E. reflexivity.
  - exfalso. apply H0. apply Rle_trans with (IZR z); [|tauto].
    apply IZR_le. lia.
Qed.

(** [long(x)] of a real [x >= 2^31] is [0x80000000]. *)
Lemma to_long_overflow (x : R) :
  (IZR (LONG_MAX + 1) <= x)%R -> to_long x = LONG_MIN.
Proof.
  intros Hx. unfold to_long. cbn [d_trunc double_ops trunc].
  assert (H0 : (0 <= x)%R).
  { apply Rle_trans with (IZR (LONG_MAX + 1)); [|exact Hx].
    apply IZR_le. unfold LONG_MAX. lia. }
  destruct (Rle_dec 0 x) as [_|N]; [|contradiction].
  destruct (in_long (Int_part x)) eqn:E; [|reflexivity].
  exfalso. apply in_long_true in E.
  destruct (base_Int_part x) as [_ Hb].
  assert (Hc : (IZR (Int_part x) <= IZR LONG_MAX)%R) by (apply IZR_le; lia).
  rewrite plus_IZR in Hx. lra.
Qed.

Section Calc.

Context {limit : LoopLimit}.

Implicit Types b : toneBurst R.

Lemma calc_cond_true b :
  calc_cond b = true <->
  (period b * IZR (numCycle b) < IZR (burstMin b))%R.
Proof. unfold calc_cond, cycles_span. apply ltb_true. Qed.

Lemma calc_cond_false b :
  calc_cond b = false <->
  (IZR (burstMin b) <= period b * IZR (numCycle b))%R.
Proof. unfold calc_cond, cycles_span. apply ltb_false. Qed.

Lemma set_numCycle_same b : set_numCycle (numCycle b) b = b.
Proof. destruct b; reflexivity. Qed.

Lemma set_numCycle_twice (n m : Z) b :
  set_numCycle n (set_numCycle m b) = set_numCycle n b.
Proof. destruct b; reflexivity. Qed.

Lemma period_set_numCycle (n : Z) b : period (set_numCycle n b) = period b.
Proof. destruct b; reflexivity. Qed.

(** The loop of [calc] counts [numCycle] up to the first [n] that fills
    the burst minimum. *)
Lemma calc_loop_steps (k : nat) : forall b (n : Z),
  n = numCycle b + Z.of_nat k ->
  LONG_MIN <= numCycle b -> n <= LONG_MAX ->
  (IZR (burstMin b) <= period b * IZR n)%R ->
  (forall i, numCycle b <= i < n ->
             (period b * IZR i < IZR (burstMin b))%R) ->
  iterate_nat (Datatypes.S k) (while_step calc_cond calc_body) b
  = Done (set_numCycle n b).
Proof.
  induction k as [|k IH]; intros b n Hn Hlo Hhi Hge Hlt.
  - replace n with (numCycle b) in * by lia.
    cbn [iterate_nat]. unfold while_step.
    assert (E : calc_cond b = false) by (apply calc_cond_false; exact Hge).
    rewrite E, set_numCycle_same. reflexivity.
  - assert (E : calc_cond b = true).
    { apply calc_cond_true. apply Hlt. lia. }
    assert (Hstep : while_step calc_cond calc_body b
                    = More (set_numCycle (numCycle b + 1) b)).
    { unfold while_step. rewrite E. unfold calc_body, ladd.
      rewrite long_wrap_id by (unfold LONG_MAX, LONG_MIN in *; lia).
      reflexivity. }
    rewrite iterate_nat_S, Hstep.
    rewrite (IH (set_numCycle (numCycle b + 1) b) n).
    + rewrite set_numCycle_twice. reflexivity.
    + destruct b; simpl in *. lia.
    + destruct b; simpl in *. lia.
    + exact Hhi.
    + rewrite period_set_numCycle.
      replace (burstMin (set_numCycle (numCycle b + 1) b)) with (burstMin b)
        by (destruct b; reflexivity).
      exact Hge.
    + intros i Hi. rewrite period_set_numCycle.
      replace (burstMin (set_numCycle (numCycle b + 1) b)) with (burstMin b)
        by (destruct b; reflexivity).
      apply Hlt. destruct b; simpl in *. lia.
Qed.

Lemma calc_loop b (n : Z) :
  LONG_MIN <= numCycle b <= n -> n <= LONG_MAX ->
  (IZR (burstMin b) <= period b * IZR n)%R ->
  (forall i, numCycle b <= i < n ->
             (period b * IZR i < IZR (burstMin b))%R) ->
  (Z.to_nat (n - numCycle b) < loop_limit)%nat ->
  while calc_cond calc_body b = Some (set_numCycle n b).
Proof.
  intros Hlo Hhi Hge Hlt Hlim.
  apply (while_done _ _ (Datatypes.S (Z.to_nat (n - numCycle b)))); [|lia].
  apply calc_loop_steps; auto; lia.
Qed.

(** With a positive period the loop ends, at the latest at any [N] that
    fills the minimum. *)
Lemma first_filling (p m : R) (k : nat) : forall n0 N : Z,
  N = n0 + Z.of_nat k ->
  (m <= p * IZR N)%R ->
  exists n, n0 <= n <= N /\ (m <= p * IZR n)%R
            /\ forall i, n0 <= i < n -> (p * IZR i < m)%R.
Proof.
  induction k as [|k IH]; intros n0 N HN Hm.
  - exists n0. replace N with n0 in * by lia. repeat split; auto; lia.
  - destruct (Rlt_le_dec (p * IZR n0) m) as [Hlt|Hge].
    + destruct (IH (n0 + 1) N ltac:(lia) Hm) as (n & Hn & Hf & Hb).
      exists n. split; [lia|]. split; [exact Hf|].
      intros i Hi. destruct (Z.eq_dec i n0) as [->|Hne]; auto.
      apply Hb. lia.
    + exists n0. split; [lia|]. split; [exact Hge|]. intros i Hi. lia.
Qed.

Lemma calc_loop_ends b (N : Z) :
  (0 < period b)%R ->
  LONG_MIN <= numCycle b <= LONG_MAX -> N <= LONG_MAX ->
  (IZR (burstMin b) <= period b * IZR N)%R ->
  (2 ^ 32 <= Z.of_nat loop_limit) ->
  exists n,
    numCycle b <= n <= Z.max (numCycle b) N
    /\ (IZR (burstMin b) <= period b * IZR n)%R
    /\ (forall i, numCycle b <= i < n ->
                  (period b * IZR i < IZR (burstMin b))%R)
    /\ while calc_cond calc_body b = Some (set_numCycle n b).
Proof.
  intros Hp Hr HN Hm Hlim.
  destruct (Z_le_gt_dec N (numCycle b)) as [Hle|Hgt].
  - exists (numCycle b). split; [lia|].
    assert (Hge : (IZR (burstMin b) <= period b * IZR (numCycle b))%R).
    { apply IZR_le in Hle.
      apply Rle_trans with (period b * IZR N)%R; [exact Hm|].
      apply Rmult_le_compat_l; lra. }
    split; [exact Hge|]. split; [intros i Hi; lia|].
    apply calc_loop; auto; unfold LONG_MIN, LONG_MAX in *; try lia.
  - destruct (first_filling (period b) (IZR (burstMin b))
                (Z.to_nat (N - numCycle b)) (numCycle b) N ltac:(lia) Hm)
      as (n & Hn & Hf & Hb).
    exists n. split; [lia|]. split; [exact Hf|]. split; [exact Hb|].
    apply calc_loop; auto; unfold LONG_MIN, LONG_MAX in *; try lia.
Qed.

Lemma to_long_Int_part (x : R) :
  (0 <= x)%R -> (x < IZR (LONG_MAX + 1))%R ->
  to_long x = Int_part x /\ 0 <= Int_part x <= LONG_MAX.
Proof.
  intros H0 H1. destruct (base_Int_part x) as [Ha Hb].
  assert (Hz : 0 <= Int_part x <= LONG_MAX).
  { split.
    - assert (-1 < Int_part x); [|lia]. apply lt_IZR. lra.
    - assert (Int_part x < LONG_MAX + 1); [|lia]. apply lt_IZR. lra. }
  split; [|exact Hz]. apply to_long_floor; [lra|exact Hz].
Qed.

(** [calc], when its loop ends: the members it computes. *)
Lemma calc_ends b (N : Z) :
  (0 < period b)%R ->
  LONG_MIN <= numCycle b <= LONG_MAX -> N <= LONG_MAX ->
  (IZR (burstMin b) <= period b * IZR N)%R ->
  (2 ^ 32 <= Z.of_nat loop_limit) ->
  exists b',
    calc b = Some b'
    /\ same_setup b b'
    /\ numCycle b <= numCycle b' <= Z.max (numCycle b) N
    /\ (IZR (burstMin b) <= period b * IZR (numCycle b'))%R
    /\ (forall i, numCycle b <= i < numCycle b' ->
                  (period b * IZR i < IZR (burstMin b))%R)
    /\ duration b' = to_long (period b * IZR (numCycle b'))%R
    /\ actualFreq b' =
         (1 * IZR (sampleRate b) * IZR (numCycle b') / IZR (duration b'))%R
    /\ factor b' = (2 * PI * actualFreq b' / IZR (sampleRate b))%R.
Proof.
  intros Hp Hr HN Hm Hlim.
  destruct (calc_loop_ends b N Hp Hr HN Hm Hlim) as (n & Hn & Hf & Hb & Hw).
  unfold calc. rewrite Hw. eexists. split; [reflexivity|].
  destruct b; unfold same_setup, period in *; cbn in *.
  repeat split; auto; lia.
Qed.

End Calc.

(** *** The step ratio [pow(x, 1.0 / 200)] *)

Lemma INR_200 : INR 200 = 200%R.
Proof. rewrite INR_IZR_INZ. reflexivity. Qed.

Lemma root_pos (x : R) : (0 < Rpower x (1 / 200))%R.
Proof. apply exp_pos. Qed.

(** Two hundred steps by the ratio make the whole span. *)
Lemma root_pow (x : R) : (0 < x)%R -> (Rpower x (1 / 200) ^ 200 = x)%R.
Proof.
  intros Hx. rewrite <- Rpower_pow by apply root_pos.
  rewrite Rpower_mult, INR_200.
  replace (1 / 200 * 200)%R with 1%R by lra.
  apply Rpower_1. exact Hx.
Qed.

Lemma root_ge_1 (x : R) : (1 <= x)%R -> (1 <= Rpower x (1 / 200))%R.
Proof.
  intros Hx. apply Rle_trans with (Rpower x 0).
  - rewrite Rpower_O; lra.
  - apply Rle_Rpower; lra.
Qed.

Lemma Rpower_base_1 (y : R) : Rpower 1 y = 1%R.
Proof. unfold Rpower. rewrite ln_1, Rmult_0_r. apply exp_0. Qed.

Lemma root_le_1 (x : R) : (0 < x <= 1)%R -> (Rpower x (1 / 200) <= 1)%R.
Proof.
  intros Hx. apply Rle_trans with (Rpower 1 (1 / 200)).
  - apply Rle_Rpower_l; lra.
  - rewrite Rpower_base_1. lra.
Qed.

Lemma root_le_64 (x : R) :
  (0 < x <= 64 ^ 200)%R -> (Rpower x (1 / 200) <= 64)%R.
Proof.
  intros Hx.
  apply Rle_trans with (Rpower (64 ^ 200) (1 / 200)).
  - apply Rle_Rpower_l; lra.
  - rewrite <- Rpower_pow by lra. rewrite Rpower_mult, INR_200.
    replace (200 * (1 / 200))%R with 1%R by lra.
    rewrite Rpower_1; lra.
Qed.

(** From the least positive double up, the span of the sweep stays below
    [64^200]. *)
Lemma span_bound (f : R) :
  (/ 2 ^ 1074 <= f)%R -> (0 < f)%R /\ (10000 / f <= 64 ^ 200)%R.
Proof.
  intros Hf.
  assert (H2 : (0 < 2 ^ 1074)%R) by (apply pow_lt; lra).
  assert (Hpos : (0 < f)%R).
  { apply Rlt_le_trans with (/ 2 ^ 1074)%R; [|exact Hf].
    apply Rinv_0_lt_compat. exact H2. }
  split; [exact Hpos|].
  assert (Hinv : (/ f <= 2 ^ 1074)%R).
  { rewrite <- (Rinv_inv (2 ^ 1074)). apply Rinv_le_contravar; [|exact Hf].
    apply Rinv_0_lt_compat. exact H2. }
  assert (E64 : (64 ^ 200 = 2 ^ 126 * 2 ^ 1074)%R).
  { replace 64%R with (2 ^ 6)%R by (simpl; lra).
    rewrite <- pow_mult, <- pow_add. reflexivity. }
  assert (H126 : (10000 <= 2 ^ 126)%R).
  { change 126%nat with (14 + 112)%nat. rewrite pow_add.
    assert (H14 : (2 ^ 14 = 16384)%R) by (simpl; lra).
    assert (H112 : (1 <= 2 ^ 112)%R) by (apply pow_R1_Rle; lra).
    rewrite H14. nra. }
  rewrite E64. unfold Rdiv.
  apply Rmult_le_compat; try lra.
  apply Rlt_le. apply Rinv_0_lt_compat. exact Hpos.
Qed.

Lemma pow_le_1 (r : R) (k : nat) : (0 < r <= 1)%R -> (r ^ k <= 1)%R.
Proof.
  intros Hr. induction k as [|k IH]; simpl; [lra|].
  assert (0 < r ^ k)%R by (apply pow_lt; lra). nra.
Qed.

(** *** The smallest cycle count *)

Section Smallest.

Implicit Types b : toneBurst R.

Lemma smallest_cycles_alt b :
  smallest_cycles b <->
  1 <= numCycle b
  /\ (IZR (burstMin b) <= period b * IZR (numCycle b))%R
  /\ forall i, 1 <= i < numCycle b ->
                (period b * IZR i < IZR (burstMin b))%R.
Proof.
  unfold smallest_cycles. split; intros (H1 & H2 & H3).
  - split; [exact H1|]. split; [exact H2|]. intros i Hi.
    destruct (Rlt_le_dec (period b * IZR i) (IZR (burstMin b))) as [H|H];
      [exact H|].
    specialize (H3 i ltac:(lia) H). lia.
  - split; [exact H1|]. split; [exact H2|]. intros n Hn Hm.
    destruct (Z_le_gt_dec (numCycle b) n) as [H|H]; [exact H|].
    specialize (H3 n ltac:(lia)). lra.
Qed.

(** In real arithmetic the test of [calc] is the inequality of the
    specification. *)
Lemma least_cycles_smallest b : least_cycles b <-> smallest_cycles b.
Proof.
  rewrite smallest_cycles_alt. unfold least_cycles, fewer_fail.
  rewrite calc_cond_false.
  assert (E : forall n, calc_cond (set_numCycle n b) = true <->
                        (period b * IZR n < IZR (burstMin b))%R).
  { intros n. rewrite calc_cond_true, period_set_numCycle.
    destruct b; reflexivity. }
  split; intros (H1 & H2 & H3); (split; [exact H1|]); (split; [exact H2|]);
    intros n Hn; apply E; apply H3; exact Hn.
Qed.

Lemma same_ladder_trans b1 b2 b3 :
  same_ladder b1 b2 -> same_ladder b2 b3 -> same_ladder b1 b3.
Proof.
  unfold same_ladder, same_run. intros H1 H2.
  repeat match goal with H : _ /\ _ |- _ => destruct H end.
  repeat split; congruence.
Qed.

(** One step up the ladder keeps [numCycle] the smallest. *)
Lemma next_sweep_smallest b b' :
  0 < sampleRate b -> (0 < nominalFreq b)%R -> (1 <= freqIncr b)%R ->
  smallest_cycles b ->
  nominalFreq b' = (nominalFreq b * freqIncr b)%R ->
  same_ladder b b' ->
  numCycle b <= numCycle b' ->
  (IZR (burstMin b') <= period b' * IZR (numCycle b'))%R ->
  (forall i, numCycle b <= i < numCycle b' ->
             (period b' * IZR i < IZR (burstMin b'))%R) ->
  smallest_cycles b'.
Proof.
  intros Hsr Hf Hr Hsm Hnf Hl Hn Hge Hlt.
  apply smallest_cycles_alt in Hsm. destruct Hsm as (H1 & H2 & H3).
  apply smallest_cycles_alt. split; [lia|]. split; [exact Hge|].
  intros i Hi.
  destruct (Z_lt_ge_dec i (numCycle b)) as [Hlo|Hhi]; [|apply Hlt; lia].
  specialize (H3 i ltac:(lia)).
  destruct Hl as ((Esr & _ & Em & _) & _).
  unfold period in *. rewrite Em, Esr, Hnf.
  apply Rle_lt_trans with (IZR (sampleRate b) / nominalFreq b * IZR i)%R;
    [|exact H3].
  apply Rmult_le_compat_r; [apply IZR_le; lia|].
  assert (Hs : (0 < IZR (sampleRate b))%R) by (apply IZR_lt; lia).
  unfold Rdiv. apply Rmult_le_compat_l; [lra|].
  apply Rinv_le_contravar; [exact Hf|]. nra.
Qed.

Lemma div_times_ge (a d n m : R) :
  (0 < d)%R -> (m * d <= a * n)%R -> (m <= a / d * n)%R.
Proof.
  intros Hd H. replace (a / d * n)%R with (a * n / d)%R by (field; lra).
  apply Rmult_le_reg_r with d; [exact Hd|].
  unfold Rdiv. rewrite Rmult_assoc, Rinv_l by lra. lra.
Qed.

End Smallest.

(** *** The constructor and [reset] *)

Section Machine.

Context {limit : LoopLimit}.
Hypothesis Hlimit : 2 ^ 32 <= Z.of_nat loop_limit.

Implicit Types b : toneBurst R.

(** The constructed object: one cycle of 441 samples at 100 Hz. *)
Lemma new_ends :
  exists b0,
    toneBurst_new = Some b0
    /\ same_setup toneBurst_members b0
    /\ numCycle b0 = 1 /\ duration b0 = 441.
Proof.
  destruct (calc_ends (toneBurst_members (D := R)) 1) as
    (b0 & Hc & Hs & Hn & _ & _ & Hd & _); auto.
  - unfold period. cbn. unfold SAMPLE_RATE. lra.
  - cbn. unfold LONG_MIN, LONG_MAX. lia.
  - unfold LONG_MAX. lia.
  - unfold period. cbn. unfold SAMPLE_RATE, BURST_LENGTH. lra.
  - exists b0. split; [exact Hc|]. split; [exact Hs|].
    cbn in Hn. assert (Hn1 : numCycle b0 = 1) by lia.
    split; [exact Hn1|]. rewrite Hd, Hn1.
    apply to_long_floor; [|unfold LONG_MAX; lia].
    unfold period. cbn. unfold SAMPLE_RATE. lra.
Qed.

(** [reset] at a start frequency of which [N] cycles fill the minimum. *)
Lemma reset_ends b (N : Z) :
  0 < sampleRate b -> (0 < startFreq b)%R -> 1 <= N <= LONG_MAX ->
  (IZR (burstMin b) <= IZR (sampleRate b) / startFreq b * IZR N)%R ->
  exists b',
    reset b = Some b'
    /\ same_setup (reset_members b) b'
    /\ 1 <= numCycle b' <= N
    /\ (IZR (burstMin b)
        <= IZR (sampleRate b) / startFreq b * IZR (numCycle b'))%R
    /\ (forall i, 1 <= i < numCycle b' ->
           (IZR (sampleRate b) / startFreq b * IZR i < IZR (burstMin b))%R)
    /\ duration b'
       = to_long (IZR (sampleRate b) / startFreq b * IZR (numCycle b'))%R.
Proof.
  intros Hsr Hf HN Hm.
  destruct (reset_members_fields b) as (Hrun & Hnc & _ & Hnf & _).
  destruct Hrun as (Esr & _ & Em & _).
  assert (Ep : period (reset_members b)
               = (IZR (sampleRate b) / startFreq b)%R).
  { unfold period. rewrite Esr, Hnf. reflexivity. }
  destruct (calc_ends (reset_members b) N) as
    (b' & Hc & Hs & Hn & Hge & Hlt & Hd & _); auto.
  - rewrite Ep. apply Rdiv_lt_0_compat; [apply IZR_lt; lia|exact Hf].
  - rewrite Hnc. unfold LONG_MIN, LONG_MAX. lia.
  - lia.
  - rewrite Ep, Em. exact Hm.
  - rewrite Ep, Em, Hnc in *.
    exists b'. split; [exact Hc|]. split; [exact Hs|].
    split; [lia|]. split; [exact Hge|]. split; [exact Hlt|]. exact Hd.
Qed.

(** *** The sweep *)

(** One call of [next] in sweep mode, at a frequency of which [N] cycles
    fill the minimum. *)
Lemma next_sweep_ends b (N : Z) :
  sweep b = true -> 0 < burstCount b <= LONG_MAX -> 0 < sampleRate b ->
  (0 < nominalFreq b * freqIncr b)%R ->
  LONG_MIN <= numCycle b <= LONG_MAX -> N <= LONG_MAX ->
  (IZR (burstMin b)
   <= IZR (sampleRate b) / (nominalFreq b * freqIncr b) * IZR N)%R ->
  exists b',
    next b = Some (true, b')
    /\ nominalFreq b' = (nominalFreq b * freqIncr b)%R
    /\ burstCount b' = burstCount b - 1
    /\ same_ladder b b'
    /\ numCycle b <= numCycle b' <= Z.max (numCycle b) N
    /\ (IZR (burstMin b') <= period b' * IZR (numCycle b'))%R
    /\ (forall i, numCycle b <= i < numCycle b' ->
                  (period b' * IZR i < IZR (burstMin b'))%R)
    /\ duration b' = to_long (period b' * IZR (numCycle b'))%R.
Proof.
  intros Hs Hc Hsr Hf Hn HN Hm.
  set (b1 := set_nominalFreq (nominalFreq b * freqIncr b)%dbl b).
  assert (Ep : period b1
               = (IZR (sampleRate b) / (nominalFreq b * freqIncr b))%R)
    by (destruct b; reflexivity).
  assert (En : numCycle b1 = numCycle b) by (destruct b; reflexivity).
  assert (Em : burstMin b1 = burstMin b) by (destruct b; reflexivity).
  destruct (calc_ends b1 N) as (b2 & Hcalc & Hset & Hn2 & Hge & Hlt & Hd & _).
  - rewrite Ep. apply Rdiv_lt_0_compat; [apply IZR_lt; lia|exact Hf].
  - rewrite En. exact Hn.
  - exact HN.
  - rewrite Ep, Em. exact Hm.
  - exact Hlimit.
  - exists (set_burstCount (burstCount b2 - 1) b2).
    assert (Ec : burstCount b2 = burstCount b).
    { destruct Hset as (_ & _ & _ & _ & -> & _). destruct b; reflexivity. }
    split.
    { unfold next. destruct (Z.ltb_spec 0 (burstCount b)); [|lia].
      rewrite Hs. fold b1. rewrite Hcalc. unfold lsub.
      rewrite long_wrap_id; [reflexivity|].
      unfold LONG_MIN, LONG_MAX in *. lia. }
    unfold same_ladder, same_run, same_setup, period in *.
    destruct b, b2; cbn in *.
    repeat match goal with H : _ /\ _ |- _ => destruct H end. subst.
    repeat split; auto; lia.
Qed.

(** [k] calls of [next] in sweep mode, at frequencies of which [N] cycles
    fill the minimum. *)
Lemma nexts_sweep_ends (k : nat) : forall b (N : Z),
  sweep b = true -> 0 < sampleRate b ->
  (0 < nominalFreq b)%R -> (0 < freqIncr b)%R ->
  Z.of_nat k <= burstCount b <= LONG_MAX ->
  LONG_MIN <= numCycle b <= LONG_MAX -> N <= LONG_MAX ->
  (forall j : nat, (1 <= j <= k)%nat ->
     (IZR (burstMin b)
      <= IZR (sampleRate b) / (nominalFreq b * freqIncr b ^ j) * IZR N)%R) ->
  exists bk,
    nexts k b = Some bk
    /\ nominalFreq bk = (nominalFreq b * freqIncr b ^ k)%R
    /\ burstCount bk = burstCount b - Z.of_nat k
    /\ same_ladder b bk
    /\ numCycle b <= numCycle bk <= Z.max (numCycle b) N
    /\ ((1 <= freqIncr b)%R -> smallest_cycles b -> smallest_cycles bk).
Proof.
  induction k as [|k IH]; intros b N Hs Hsr Hf Hr Hc Hn HN Hm.
  - exists b. split; [reflexivity|]. split; [simpl; ring|].
    split; [simpl; lia|].
    split; [unfold same_ladder, same_run; tauto|].
    split; [lia|]. auto.
  - destruct (next_sweep_ends b N) as
      (b1 & Hnext & Hnf & Hbc & Hl & Hn1 & Hge & Hlt & _); auto; try lia.
    { apply Rmult_lt_0_compat; assumption. }
    { specialize (Hm 1%nat ltac:(lia)). rewrite pow_1 in Hm. exact Hm. }
    pose proof Hl as ((Esr & _ & Em & Esw & _) & _ & _ & Er).
    destruct (IH b1 N) as (bk & Hk & Hnfk & Hbck & Hlk & Hnk & Hsmk).
    + congruence.
    + lia.
    + rewrite Hnf. apply Rmult_lt_0_compat; assumption.
    + rewrite Er. exact Hr.
    + lia.
    + unfold LONG_MIN, LONG_MAX in *. lia.
    + exact HN.
    + intros j Hj. rewrite Em, Esr, Hnf, Er.
      replace (nominalFreq b * freqIncr b * freqIncr b ^ j)%R
        with (nominalFreq b * freqIncr b ^ Datatypes.S j)%R
        by (simpl; ring).
      apply Hm. lia.
    + exists bk. split; [cbn [nexts]; rewrite Hnext; exact Hk|].
      split; [rewrite Hnfk, Hnf, Er; simpl; ring|].
      split; [lia|].
      split; [eapply same_ladder_trans; eauto|].
      split; [lia|].
      intros Hr1 Hsm. apply Hsmk; [rewrite Er; exact Hr1|].
      eapply (next_sweep_smallest b b1); eauto. lia.
Qed.

(** [reset] on a start frequency of at most 10 kHz: at most 23 cycles. *)
Lemma reset_below_10kHz b :
  sampleRate b = SAMPLE_RATE -> burstMin b = BURST_LENGTH ->
  (0 < startFreq b <= 10000)%R ->
  exists b0,
    reset b = Some b0
    /\ same_setup (reset_members b) b0
    /\ LONG_MIN <= numCycle b0 <= LONG_MAX
    /\ smallest_cycles b0.
Proof.
  intros Hsr Hm Hf.
  destruct (reset_ends b 23) as (b0 & Hr & Hs & Hn & Hge & Hlt & _).
  - rewrite Hsr. unfold SAMPLE_RATE. lia.
  - lra.
  - unfold LONG_MAX. lia.
  - rewrite Hsr, Hm. unfold SAMPLE_RATE, BURST_LENGTH.
    apply div_times_ge; lra.
  - exists b0. split; [exact Hr|]. split; [exact Hs|].
    split; [unfold LONG_MIN, LONG_MAX; lia|].
    destruct (reset_members_fields b) as ((Esr & _ & Em & _) & _ & _ & Hnf & _).
    pose proof Hs as (Esr' & _ & Em' & _ & _ & Hnf' & _).
    apply smallest_cycles_alt. unfold period.
    rewrite Em', Em, Esr', Esr, Hnf', Hnf.
    split; [lia|]. split; [exact Hge|exact Hlt].
Qed.

(** The sweep from a start frequency between the least positive double
    and 10 kHz: [reset] and every call of [next] end, the nominal
    frequency goes up by the step ratio each time, and [numCycle] is the
    smallest at every step. *)
Lemma sweep_ladder b :
  sampleRate b = SAMPLE_RATE -> burstMin b = BURST_LENGTH ->
  sweep b = true -> 0 <= numBurst b <= 201 ->
  (/ 2 ^ 1074 <= startFreq b <= 10000)%R ->
  exists b0,
    reset b = Some b0
    /\ nominalFreq b0 = startFreq b
    /\ freqIncr b0 = Rpower (10000 / startFreq b) (1 / 200)
    /\ burstCount b0 = numBurst b
    /\ smallest_cycles b0
    /\ forall k : nat, Z.of_nat k <= numBurst b ->
         exists bk,
           nexts k b0 = Some bk
           /\ nominalFreq bk = (startFreq b * freqIncr b0 ^ k)%R
           /\ freqIncr bk = freqIncr b0
           /\ smallest_cycles bk.
Proof.
  intros Hsr Hm Hsw Hnb [Hlo Hhi].
  destruct (span_bound _ Hlo) as [Hpos Hspan].
  destruct (reset_below_10kHz b Hsr Hm ltac:(lra))
    as (b0 & Hr & Hs & Hn0 & Hsm0).
  destruct (reset_members_fields b)
    as ((Esr & _ & Em & Esw & _) & _ & Hbc & Hnf & _ & _ & Hfi).
  rewrite Hsw in Hfi.
  pose proof Hs as (Esr' & _ & Em' & _ & Hbc' & Hnf' & _ & Hfi' & Esw' & _).
  set (r := Rpower (10000 / startFreq b) (1 / 200)).
  assert (Er : freqIncr b0 = r) by (rewrite Hfi', Hfi; reflexivity).
  assert (Hx1 : (1 <= 10000 / startFreq b)%R).
  { replace (10000 / startFreq b)%R with (10000 / startFreq b * 1)%R
      by ring.
    apply div_times_ge; lra. }
  assert (Hr1 : (1 <= r)%R) by (apply root_ge_1; exact Hx1).
  assert (Hr64 : (r <= 64)%R) by (apply root_le_64; lra).
  assert (Hr200 : (r ^ 200 = 10000 / startFreq b)%R)
    by (apply root_pow; lra).
  exists b0. split; [exact Hr|]. split; [congruence|].
  split; [exact Er|]. split; [congruence|]. split; [exact Hsm0|].
  intros k Hk.
  destruct (nexts_sweep_ends k b0 1452)
    as (bk & Hk1 & Hk2 & _ & Hk4 & _ & Hk6).
  - congruence.
  - rewrite Esr', Esr, Hsr. unfold SAMPLE_RATE. lia.
  - rewrite Hnf', Hnf. exact Hpos.
  - rewrite Er. apply root_pos.
  - rewrite Hbc', Hbc. unfold LONG_MAX. lia.
  - exact Hn0.
  - unfold LONG_MAX. lia.
  - intros j Hj.
    rewrite Em', Em, Hm, Esr', Esr, Hsr, Hnf', Hnf, Er.
    unfold SAMPLE_RATE, BURST_LENGTH.
    assert (Hj201 : (r ^ j <= r ^ 201)%R) by (apply Rle_pow; [exact Hr1|lia]).
    assert (E201 : (r ^ 201 = r ^ 200 * r)%R).
    { change 201%nat with (200 + 1)%nat. rewrite pow_add, pow_1.
      reflexivity. }
    assert (Hrj : (0 < r ^ j)%R) by (apply pow_lt; lra).
    assert (Htop : (startFreq b * r ^ j <= 640000)%R).
    { apply Rle_trans with (startFreq b * r ^ 201)%R.
      - apply Rmult_le_compat_l; lra.
      - rewrite E201, Hr200.
        replace (startFreq b * (10000 / startFreq b * r))%R
          with (10000 * r)%R by (field; lra).
        lra. }
    apply div_times_ge; [|lra].
    apply Rmult_lt_0_compat; assumption.
  - exists bk. split; [exact Hk1|].
    split; [rewrite Hk2, Hnf', Hnf; reflexivity|].
    split; [apply Hk4|].
    apply Hk6; [rewrite Er; exact Hr1|exact Hsm0].
Qed.

End Machine.

Lemma machine_limit : 2 ^ 32 <= Z.of_nat (@loop_limit LOOP_LIMIT).
Proof. rewrite loop_limit_val. lia. Qed.

Lemma least_double_le_1 : (/ 2 ^ 1074 <= 1)%R.
Proof.
  rewrite <- Rinv_1. apply Rinv_le_contravar; [lra|].
  apply pow_R1_Rle. lra.
Qed.

Lemma smallest_cycles_set_burstCount (v : Z) (b : toneBurst R) :
  smallest_cycles b -> smallest_cycles (set_burstCount v b).
Proof. destruct b. exact (fun H => H). Qed.

(** *** The cycle count along the ladder *)

(** On a ladder that does not come down, [reset] and the calls of [next]
    end and keep [numCycle] the smallest. *)
Lemma ladder_smallest (b : toneBurst R) :
  sampleRate b = SAMPLE_RATE -> burstMin b = BURST_LENGTH ->
  0 <= numBurst b <= 201 ->
  (/ 2 ^ 1074 <= startFreq b <= 10000)%R ->
  exists b0,
    reset (limit := LOOP_LIMIT) b = Some b0
    /\ smallest_cycles b0
    /\ forall k : nat, Z.of_nat k <= numBurst b ->
         exists bk,
           nexts (limit := LOOP_LIMIT) k b0 = Some bk
           /\ smallest_cycles bk.
Proof.
  intros Hsr Hm Hnb Hf.
  destruct (sweep b) eqn:Hsw.
  - destruct (sweep_ladder machine_limit b Hsr Hm Hsw Hnb Hf)
      as (b0 & Hr & _ & _ & _ & Hsm & Hk).
    exists b0. split; [exact Hr|]. split; [exact Hsm|].
    intros k Hle. destruct (Hk k Hle) as (bk & H1 & _ & _ & H4).
    exists bk. split; assumption.
  - destruct (span_bound _ (proj1 Hf)) as [Hpos _].
    destruct (reset_below_10kHz machine_limit b Hsr Hm ltac:(lra))
      as (b0 & Hr & Hs & _ & Hsm).
    exists b0. split; [exact Hr|]. split; [exact Hsm|].
    intros k Hle.
    destruct (reset_polar _ _ Hsw Hr) as (Hsw0 & Hbc0 & _).
    exists (set_burstCount (burstCount b0 - Z.of_nat k) b0).
    split.
    + apply nexts_polar; [exact Hsw0|].
      rewrite Hbc0. unfold LONG_MAX. lia.
    + apply smallest_cycles_set_burstCount. exact Hsm.
Qed.

(** What holds of C3 in real arithmetic, with the loop limit of the
    machine: on a ladder that does not come down -- a start frequency
    between the least positive double and 10 kHz, the stop frequency of
    the sweep -- [reset()] and every [next()] that returns [true] end, and
    after each of them [numCycle] is the smallest positive integer [n]
    with [(sampleRate / nominalFreq) * n >= burstMin]. *)
Lemma numCycle_smallest_on_ladder (b : toneBurst R) :
  sampleRate b = SAMPLE_RATE -> burstMin b = BURST_LENGTH ->
  0 <= numBurst b <= 201 ->
  (/ 2 ^ 1074 <= startFreq b <= 10000)%R ->
  exists b0,
    reset (limit := LOOP_LIMIT) b = Some b0
    /\ smallest_cycles b0
    /\ forall k : nat, Z.of_nat k <= numBurst b ->
         exists bk,
           nexts (limit := LOOP_LIMIT) k b0 = Some bk
           /\ smallest_cycles bk.
Proof. exact (ladder_smallest b). Qed.

(** C3 fails on a ladder that comes down.
    From a start frequency of 20 kHz the sweep goes down to 10 kHz;
    [reset] finds the 46 cycles of 20 kHz, [calc] never takes [numCycle]
    back, and after 200 calls of [next], at 10 kHz, it is still 46 where 23
    cycles fill the minimum. *)
Lemma numCycle_not_smallest_descending :
  exists b0 b1 b2 : toneBurst R,
    toneBurst_new (limit := LOOP_LIMIT) = Some b0
    /\ reset (limit := LOOP_LIMIT) (set_startFreq 20000%R b0) = Some b1
    /\ numCycle b1 = 46
    /\ nexts (limit := LOOP_LIMIT) 200 b1 = Some b2
    /\ nominalFreq b2 = 10000%R
    /\ numCycle b2 = 46
    /\ (IZR (burstMin b2) <= period b2 * 23)%R
    /\ ~ smallest_cycles b2
    /\ ~ least_cycles b2.
Proof.
  destruct (new_ends machine_limit) as (b0 & Hnew & Hs0 & _).
  exists b0.
  pose proof Hs0 as (Hsr & _ & Hm & Hnb & _ & _ & _ & _ & Hsw & _).
  cbn in Hsr, Hm, Hnb, Hsw.
  set (b := set_startFreq 20000%R b0).
  assert (Hsrb : sampleRate b = 44100) by (destruct b0; exact Hsr).
  assert (Hmb : burstMin b = 100) by (destruct b0; exact Hm).
  assert (Hswb : sweep b = true) by (destruct b0; exact Hsw).
  assert (Hnbb : numBurst b = 201) by (destruct b0; exact Hnb).
  assert (Hfb : startFreq b = 20000%R) by (destruct b0; reflexivity).
  destruct (reset_ends machine_limit b 46)
    as (b1 & Hr & Hs & Hn1 & Hge & _ & _).
  { lia. } { lra. } { unfold LONG_MAX. lia. }
  { rewrite Hsrb, Hmb, Hfb. lra. }
  rewrite Hsrb, Hmb, Hfb in Hge.
  assert (Hn46 : numCycle b1 = 46).
  { destruct (Z_le_gt_dec (numCycle b1) 45) as [H45|H45]; [|lia].
    apply IZR_le in H45. lra. }
  destruct (reset_members_fields b)
    as ((Esr & _ & Em & Esw & _) & _ & Hbc & Hnf & _ & _ & Hfi).
  rewrite Hswb, Hfb in Hfi.
  pose proof Hs as (Esr' & _ & Em' & _ & Hbc' & Hnf' & _ & Hfi' & Esw' & _).
  set (r := Rpower (10000 / 20000) (1 / 200)).
  assert (Er : freqIncr b1 = r) by (rewrite Hfi', Hfi; reflexivity).
  assert (Hr0 : (0 < r)%R) by apply root_pos.
  assert (Hr1 : (r <= 1)%R) by (apply root_le_1; lra).
  assert (Hr200 : (r ^ 200 = 10000 / 20000)%R) by (apply root_pow; lra).
  assert (Hf1 : nominalFreq b1 = 20000%R) by congruence.
  assert (Hsr1 : sampleRate b1 = 44100) by congruence.
  assert (Hm1 : burstMin b1 = 100) by congruence.
  destruct (nexts_sweep_ends machine_limit 200 b1 46)
    as (b2 & Hk1 & Hk2 & _ & Hk4 & Hk5 & _).
  { congruence. } { lia. } { lra. } { rewrite Er. exact Hr0. }
  { rewrite Hbc', Hbc, Hnbb. unfold LONG_MAX. lia. }
  { unfold LONG_MIN, LONG_MAX. lia. } { unfold LONG_MAX. lia. }
  { intros j Hj. rewrite Hm1, Hsr1, Hf1, Er.
    assert (Hj1 : (r ^ j <= 1)%R) by (apply pow_le_1; lra).
    assert (Hj0 : (0 < r ^ j)%R) by (apply pow_lt; lra).
    apply div_times_ge; nra. }
  exists b1, b2. split; [exact Hnew|]. split; [exact Hr|].
  split; [exact Hn46|]. split; [exact Hk1|].
  assert (Hf2 : nominalFreq b2 = 10000%R).
  { rewrite Hk2, Hf1, Er, Hr200. lra. }
  assert (Hn2 : numCycle b2 = 46) by lia.
  destruct Hk4 as ((Esr2 & _ & Em2 & _) & _).
  assert (H23 : (IZR (burstMin b2) <= period b2 * 23)%R).
  { unfold period. rewrite Em2, Hm1, Esr2, Hsr1, Hf2. lra. }
  split; [exact Hf2|]. split; [exact Hn2|]. split; [exact H23|].
  assert (Hno : ~ smallest_cycles b2).
  { intros (_ & _ & H). specialize (H 23 ltac:(lia) H23). lia. }
  split; [exact Hno|].
  intros H. apply Hno. exact (proj1 (least_cycles_smallest b2) H).
Qed.

(** *** The frequencies of the sweep *)

(** C5 as the specification has it fails below the range of a [long].  At
    [11025 / 2^30] Hz a cycle has [2^32] samples: one cycle fills the
    minimum, and its duration does not fit; [long(4294967296.0)] is
    [0x80000000] on the processors the source names (and nothing the
    language defines).  On the doubles of the machine [calc] is evaluated;
    in real arithmetic the same comes out of the constructor and [reset]
    with that start frequency. *)
Lemma calc_below_range :
  (let r := calc (ops := IEEE.double_ops) (limit := LOOP_LIMIT)
              (IEEE.at_frequency 0x1.5888p-17%float) in
   option_map numCycle r = Some 1
   /\ option_map duration r = Some LONG_MIN
   /\ option_map burstMin r = Some 100)
  /\ exists b0 b' : toneBurst R,
       toneBurst_new (limit := LOOP_LIMIT) = Some b0
       /\ reset (limit := LOOP_LIMIT)
            (set_startFreq (11025 / 1073741824)%R b0) = Some b'
       /\ (0 < nominalFreq b')%R
       /\ duration b' = LONG_MIN /\ burstMin b' = 100
       /\ ~ burstMin b' <= duration b'.
Proof.
  split; [vm_compute; auto|].
  destruct (new_ends machine_limit) as (b0 & Hnew & Hs0 & _).
  exists b0.
  assert (Hsr : sampleRate b0 = 44100) by (apply Hs0).
  assert (Hm : burstMin b0 = 100) by (apply Hs0).
  destruct (reset_ends machine_limit
              (set_startFreq (11025 / 1073741824)%R b0) 1)
    as (b' & Hr & Hs & Hn & _ & _ & Hd).
  - destruct b0; cbn in *. lia.
  - destruct b0; cbn. lra.
  - unfold LONG_MAX. lia.
  - destruct b0; cbn in *. subst. lra.
  - exists b'. split; [exact Hnew|]. split; [exact Hr|].
    destruct (reset_members_fields
                (set_startFreq (11025 / 1073741824)%R b0))
      as ((_ & _ & Em & _) & _ & _ & Hnf & _).
    destruct Hs as (_ & _ & Em' & _ & _ & Hnf' & _).
    assert (Hd' : duration b' = LONG_MIN).
    { rewrite Hd. apply to_long_overflow.
      replace (numCycle b') with 1 by lia.
      destruct b0; cbn in *. subst.
      change (LONG_MAX + 1) with 2147483648. lra. }
    assert (Hm' : burstMin b' = 100).
    { rewrite Em', Em. destruct b0; cbn in *. exact Hm. }
    split.
    + rewrite Hnf', Hnf. destruct b0; cbn. lra.
    + split; [exact Hd'|]. split; [exact Hm'|].
      rewrite Hd', Hm'. unfold LONG_MIN. lia.
Qed.

(** C7 on the constructed members: polar mode at 1000 Hz. *)
Lemma polar_frequency_constant_witness :
  exists b0 : toneBurst R,
    reset (limit := LOOP_LIMIT) (init false toneBurst_members) = Some b0
    /\ sweep b0 = false /\ burstCount b0 = 72
    /\ nominalFreq b0 = 1000%R
    /\ nexts (limit := LOOP_LIMIT) 72 b0 = Some (set_burstCount 0 b0).
Proof.
  destruct (reset_ends machine_limit (init false toneBurst_members) 3)
    as (b0 & Hr & _).
  - cbn. unfold SAMPLE_RATE. lia.
  - cbn. lra.
  - unfold LONG_MAX. lia.
  - cbn. unfold SAMPLE_RATE, BURST_LENGTH. lra.
  - exists b0. split; [exact Hr|].
    destruct (polar_frequency_constant _ _ Hr) as (H1 & H2 & H3 & H4 & _).
    split; [exact H1|]. split; [exact H2|]. split; [exact H3|].
    exact (H4 72%nat (le_n 72)).
Defined.

(** C8 on the constructed object, which has no bursts left until [reset]. *)
Lemma exhausted_next_is_noop_witness :
  exists b0 : toneBurst R,
    toneBurst_new (limit := LOOP_LIMIT) = Some b0
    /\ (good b0 = false <-> burstCount b0 = 0)
    /\ (burstCount b0 = 0 -> next (limit := LOOP_LIMIT) b0 = Some (false, b0)).
Proof.
  destruct (new_ends machine_limit) as (b0 & Hnew & _).
  exists b0. split; [exact Hnew|].
  exact (exhausted_next_is_noop b0 (reach_new b0 Hnew)).
Defined.

(** C4 as the specification has it fails for a long burst.  With a start
    frequency of 3 Hz, [reset] makes the burst one cycle of 14700 samples
    in the interval of 22050: the window
    [interval - 2 * duration, interval - duration) is [-7350, 7350), of
    which the passes of [read] see [0, 7350), half as many samples as the
    signal window has, and every one of them in the burst.  On the doubles
    of the machine [calc] makes the same burst of 3 Hz, [44100 / 3] being
    exact: the indices 0 and 7349 are in both windows. *)
Lemma background_window_in_burst :
  (let r := calc (ops := IEEE.double_ops) (limit := LOOP_LIMIT)
              (IEEE.at_frequency 3) in
   option_map duration r = Some 14700
   /\ option_map interval r = Some 22050
   /\ option_map (fun b => in_background b 0 && in_signal b 0) r = Some true
   /\ option_map (fun b => in_background b 7349 && in_signal b 7349) r
      = Some true
   /\ option_map (fun b => in_background b 7350) r = Some false)
  /\ exists b0 b : toneBurst R,
    toneBurst_new (limit := LOOP_LIMIT) = Some b0
    /\ reset (limit := LOOP_LIMIT) (set_startFreq 3%R b0) = Some b
    /\ duration b = 14700 /\ interval b = 22050
    /\ in_background b 0 = true /\ in_signal b 0 = true
    /\ length (background_window b) = Z.to_nat 7350
    /\ length (signal_window b) = Z.to_nat 14700
    /\ (forall j, In j (background_window b) -> in_signal b j = true).
Proof.
  split; [vm_compute; auto 6|].
  destruct (new_ends machine_limit) as (b0 & Hnew & Hs0 & _).
  exists b0.
  assert (Hsr : sampleRate b0 = 44100) by (apply Hs0).
  assert (Hm : burstMin b0 = 100) by (apply Hs0).
  assert (Hi : interval b0 = 22050) by (apply Hs0).
  destruct (reset_ends machine_limit (set_startFreq 3%R b0) 1)
    as (b & Hr & Hs & Hn & _ & _ & Hd).
  - destruct b0; cbn in *. lia.
  - destruct b0; cbn. lra.
  - unfold LONG_MAX. lia.
  - destruct b0; cbn in *. subst. lra.
  - exists b. split; [exact Hnew|]. split; [exact Hr|].
    destruct (reset_members_fields (set_startFreq 3%R b0))
      as ((_ & Ei & _) & _).
    destruct Hs as (_ & Ei' & _).
    assert (Hd' : duration b = 14700).
    { rewrite Hd. replace (numCycle b) with 1 by lia.
      apply to_long_floor; [|unfold LONG_MAX; lia].
      destruct b0; cbn in *. subst. lra. }
    assert (Hi' : interval b = 22050).
    { rewrite Ei', Ei. destruct b0; cbn in *. exact Hi. }
    destruct (windows_ext burst_3Hz b) as (Hb & Hg & Hbw & Hsw).
    { rewrite Hi'. reflexivity. }
    { rewrite Hd'. reflexivity. }
    split; [exact Hd'|]. split; [exact Hi'|].
    rewrite Hb, Hg, Hbw, Hsw.
    assert (Hbg : forall j, in_background burst_3Hz j = true
                            <-> -7350 <= j < 7350).
    { intros j. unfold in_background, burst_3Hz, lsub, lmul.
      cbn [interval duration set_duration set_numCycle toneBurst_members].
      change (long_wrap (INTERVAL - 14700)) with 7350.
      change (long_wrap (INTERVAL - long_wrap (2 * 14700))) with (-7350).
      rewrite andb_true_iff, Z.ltb_lt, Z.leb_le. lia. }
    assert (Hsg : forall j, in_signal burst_3Hz j = true <-> j < 14700).
    { intros j. unfold in_signal, burst_3Hz.
      cbn [duration set_duration]. apply Z.ltb_lt. }
    split; [apply Hbg; lia|]. split; [apply Hsg; lia|].
    split.
    { unfold background_window.
      rewrite (filter_range_length _ 0 7350);
        [reflexivity|lia|cbn; unfold INTERVAL; lia|].
      intros j Hj. rewrite Hbg. lia. }
    split.
    { unfold signal_window.
      rewrite (filter_range_length _ 0 14700);
        [reflexivity|lia|cbn; unfold INTERVAL; lia|].
      intros j Hj. rewrite Hsg. lia. }
    intros j Hj. rewrite Hg. unfold background_window in Hj.
    apply filter_In in Hj. destruct Hj as [_ Hj].
    apply Hsg. apply Hbg in Hj. lia.
Qed.

(** *** The generator *)




End IdealFacts.

(** ** The scenarios of the specification, on the doubles of the machine *)

Module Scenarios.

Import IEEE.

(** C2 as the specification has it fails: the sum it writes down is
    17816400, not 1776600. *)
Lemma getSize_is_not_1776600 :
  interval size_scenario = 22050 /\ numAvg size_scenario = 1
  /\ numBurst size_scenario = 201 /\ delay size_scenario = 22050
  /\ getSize size_scenario = 17816400
  /\ getSize size_scenario <> 1776600
  /\ 2 * 2 * (22050 * 1 * 201 + 22050) <> 1776600.
Proof. vm_compute. repeat split; discriminate. Qed.

(** C2 on the constructed members. *)
Lemma getSize_scenario_witness :
  getSize size_scenario = 2 * 2 * (22050 * 1 * 201 + 22050)
  /\ getSize size_scenario = 17816400
  /\ riff_chunkSize (riff_setSize (getSize size_scenario))
     = getSize size_scenario + 36.
Proof. apply getSize_scenario; reflexivity. Defined.

End Scenarios.

(** ** The windows of a burst of 100 Hz *)

Module WindowFacts.

Import Ideal.

(** C4 at 100 Hz, on a file that has the index of every sample pair on
    channel 1 and its opposite on channel 2: the background sums take the
    samples of the indices from 21168 to 21608, 441 of them. *)
Lemma background_window_spec_witness :
  let b := burst_100Hz in
  let v1 := fun _ j : Z => j in
  let v2 := fun _ j : Z => - j in
  let s := (b,
            mkIfstream
              (passes_bytes v1 v2 (Z.to_nat (interval b))
                 (Z.to_nat (numAvg b)) 0 ++ []) false) in
  read s = (b, mkIfstream [] false, report_of b (snd (read_loops s)))
  /\ sum3 (snd (read_loops s))
     = window_sum b (background_window b) v1 (Z.to_nat (numAvg b)) 0 c_zero
  /\ sum4 (snd (read_loops s))
     = window_sum b (background_window b) v2 (Z.to_nat (numAvg b)) 0 c_zero
  /\ (forall j, In j (background_window b) <-> 21168 <= j < 21609)
  /\ length (background_window b) = 441%nat
  /\ length (signal_window b) = 441%nat.
Proof.
  intros b v1 v2 s.
  assert (H1 : 0 <= duration b) by (cbn; lia).
  assert (H2 : 3 * duration b <= interval b) by (cbn; unfold INTERVAL; lia).
  assert (H3 : interval b <= LONG_MAX)
    by (cbn; unfold INTERVAL, LONG_MAX; lia).
  assert (H4 : forall p i : Z, 0 <= p < numAvg b -> 0 <= i < interval b ->
             -32768 <= v1 p i <= 32767 /\ -32768 <= v2 p i <= 32767).
  { intros p i _ Hi. cbn in Hi. unfold INTERVAL in Hi. unfold v1, v2. lia. }
  destruct (background_window_spec b v1 v2 [] H1 H2 H3 H4)
    as (Hr & S3 & S4 & _ & _ & Hin & _ & _ & Hlen & Hsig & _).
  split; [exact Hr|]. split; [exact S3|]. split; [exact S4|].
  split; [exact Hin|]. split; [exact Hlen|exact Hsig].
Defined.

End WindowFacts.

(** ** The two channels *)

Section Channels.

Context {D : Type} {ops : DoubleOps D} {lm : Libm D}.

(** [write] puts the same sample on both channels, so the sums of the two
    channels are the same, whatever the arithmetic. *)
Lemma roundtrip_channels (b : toneBurst D) :
  sum1 (roundtrip_locals b) = sum2 (roundtrip_locals b)
  /\ sum3 (roundtrip_locals b) = sum4 (roundtrip_locals b).
Proof.
  unfold roundtrip_locals.
  apply (for_long_inv _ (fun l => sum1 l = sum2 l /\ sum3 l = sum4 l)).
  - intros _ x Hx.
    apply (for_long_inv _ (fun l => sum1 l = sum2 l /\ sum3 l = sum4 l));
      [|exact Hx].
    intros j l [H1 H3]. unfold accumulate. cbn [sum1 sum2 sum3 sum4].
    rewrite H1, H3. split; reflexivity.
  - split; reflexivity.
Qed.

(** So the report has the same magnitude, the same level and the same
    phase on both channels. *)
Lemma roundtrip_report_channels (b : toneBurst D) :
  let r := roundtrip_report b in
  abs2 r = abs1 r /\ dB2 r = dB1 r /\ phase2 r = phase1 r
  /\ bkg2 r = bkg1 r
  /\ phasediff r = (phase1 r - phase1 r)%dbl.
Proof.
  destruct (roundtrip_channels b) as [H1 H3].
  unfold roundtrip_report, report_of. cbn. rewrite <- H1, <- H3.
  repeat split; reflexivity.
Qed.

End Channels.

(** ** Real arithmetic: the correlation of [read] *)

Module Correlation.

Import Ideal.

Local Open Scope R_scope.

(** *** Sums *)

Lemma csum_ext (k : nat) : forall (j : Z) (g h : Z -> R),
  (forall i, (j <= i < j + Z.of_nat k)%Z -> g i = h i) ->
  csum k j g = csum k j h.
Proof.
  induction k as [|k IH]; intros j g h H; cbn [csum]; [reflexivity|].
  rewrite (H j) by lia. f_equal. apply IH. intros i Hi. apply H. lia.
Qed.

Lemma csum_scal (c : R) (k : nat) : forall (j : Z) (g : Z -> R),
  csum k j (fun i => c * g i) = c * csum k j g.
Proof.
  induction k as [|k IH]; intros j g; cbn [csum]; [ring|].
  rewrite IH. ring.
Qed.

Lemma csum_const (c : R) (k : nat) : forall j : Z,
  csum k j (fun _ => c) = INR k * c.
Proof.
  induction k as [|k IH]; intros j; [cbn; ring|].
  cbn [csum]. rewrite IH, S_INR. ring.
Qed.

Lemma csum_zero (k : nat) (j : Z) (g : Z -> R) :
  (forall i, (j <= i < j + Z.of_nat k)%Z -> g i = 0) -> csum k j g = 0.
Proof.
  intros H. rewrite (csum_ext k j g (fun _ => 0) H), csum_const. ring.
Qed.

Lemma csum_app (k1 k2 : nat) : forall (j : Z) (g : Z -> R),
  csum (k1 + k2) j g = csum k1 j g + csum k2 (j + Z.of_nat k1) g.
Proof.
  induction k1 as [|k1 IH]; intros j g.
  - cbn [csum Nat.add]. rewrite Z.add_0_r. ring.
  - cbn [csum Nat.add]. rewrite IH.
    replace (j + 1 + Z.of_nat k1)%Z with (j + Z.of_nat (Datatypes.S k1))%Z
      by lia.
    ring.
Qed.

(** *** The sums of a sine and of a cosine over whole periods *)

Lemma sin_diff (a h : R) : sin (a + h) - sin (a - h) = 2 * cos a * sin h.
Proof. rewrite sin_plus, sin_minus. ring. Qed.

Lemma cos_diff (a h : R) : cos (a - h) - cos (a + h) = 2 * sin a * sin h.
Proof. rewrite cos_plus, cos_minus. ring. Qed.

Lemma csum_cos_telescope (phi : R) (k : nat) : forall j : Z,
  2 * sin (phi / 2) * csum k j (fun i => cos (IZR i * phi))
  = sin ((IZR j + INR k - 1 / 2) * phi) - sin ((IZR j - 1 / 2) * phi).
Proof.
  induction k as [|k IH]; intros j.
  - cbn [csum INR]. replace (IZR j + 0 - 1 / 2) with (IZR j - 1 / 2) by ring.
    ring.
  - cbn [csum]. rewrite Rmult_plus_distr_l, IH, S_INR, plus_IZR.
    replace ((IZR j + 1 + INR k - 1 / 2) * phi)
      with ((IZR j + (INR k + 1) - 1 / 2) * phi) by ring.
    replace ((IZR j + 1 - 1 / 2) * phi) with (IZR j * phi + phi / 2) by field.
    replace ((IZR j - 1 / 2) * phi) with (IZR j * phi - phi / 2) by field.
    pose proof (sin_diff (IZR j * phi) (phi / 2)). lra.
Qed.

Lemma csum_sin_telescope (phi : R) (k : nat) : forall j : Z,
  2 * sin (phi / 2) * csum k j (fun i => sin (IZR i * phi))
  = cos ((IZR j - 1 / 2) * phi) - cos ((IZR j + INR k - 1 / 2) * phi).
Proof.
  induction k as [|k IH]; intros j.
  - cbn [csum INR]. replace (IZR j + 0 - 1 / 2) with (IZR j - 1 / 2) by ring.
    ring.
  - cbn [csum]. rewrite Rmult_plus_distr_l, IH, S_INR, plus_IZR.
    replace ((IZR j + 1 + INR k - 1 / 2) * phi)
      with ((IZR j + (INR k + 1) - 1 / 2) * phi) by ring.
    replace ((IZR j + 1 - 1 / 2) * phi) with (IZR j * phi + phi / 2) by field.
    replace ((IZR j - 1 / 2) * phi) with (IZR j * phi - phi / 2) by field.
    pose proof (cos_diff (IZR j * phi) (phi / 2)). lra.
Qed.

(** [q] whole periods in [N] samples, [0 < q < N]: the samples of the
    cosine and of the sine add up to nothing. *)
Lemma csum_whole_periods (N q : nat) :
  (0 < q < N)%nat ->
  let phi := 2 * PI * INR q / INR N in
  csum N 0 (fun i => cos (IZR i * phi)) = 0
  /\ csum N 0 (fun i => sin (IZR i * phi)) = 0.
Proof.
  intros Hq phi.
  assert (HN : 0 < INR N) by (apply lt_0_INR; lia).
  assert (Hq0 : 0 < INR q) by (apply lt_0_INR; lia).
  assert (HqN : INR q < INR N) by (apply lt_INR; lia).
  assert (Hwhole : (0 + INR N - 1 / 2) * phi = - (phi / 2) + 2 * INR q * PI).
  { unfold phi. field. lra. }
  assert (Hstart : (0 - 1 / 2) * phi = - (phi / 2)) by field.
  assert (Hhalf : 0 < sin (phi / 2)).
  { apply sin_gt_0.
    - unfold phi. pose proof PI_RGT_0.
      replace (2 * PI * INR q / INR N / 2) with (PI * (INR q / INR N))
        by (field; lra).
      apply Rmult_lt_0_compat; [lra|]. apply Rdiv_lt_0_compat; lra.
    - unfold phi. pose proof PI_RGT_0.
      replace (2 * PI * INR q / INR N / 2) with (PI * (INR q / INR N))
        by (field; lra).
      rewrite <- (Rmult_1_r PI) at 2.
      apply Rmult_lt_compat_l; [lra|].
      apply Rmult_lt_reg_r with (INR N); [lra|].
      unfold Rdiv. rewrite Rmult_assoc, Rinv_l by lra. lra. }
  pose proof (csum_cos_telescope phi N 0) as Hc.
  pose proof (csum_sin_telescope phi N 0) as Hs.
  change (IZR 0) with 0 in Hc, Hs.
  rewrite Hwhole, Hstart in Hc, Hs.
  rewrite sin_period in Hc. rewrite cos_period in Hs.
  split; nra.
Qed.

(** *** The burst against its own frequency *)

Lemma wave_cos_product (a : R) :
  (cos a - cos (2 * a)) * cos a
  = 1 / 2 + 1 / 2 * cos (2 * a) - 1 / 2 * cos (3 * a) - 1 / 2 * cos a.
Proof.
  replace (3 * a) with (2 * a + a) by ring.
  rewrite cos_plus. replace (2 * a) with (a + a) by ring.
  rewrite cos_plus, sin_plus.
  set (c := cos a). set (s := sin a).
  assert (H : s * s = 1 - c * c).
  { unfold c, s. pose proof (sin2_cos2 a) as H. unfold Rsqr in H. lra. }
  assert (Hc : s * s * c = (1 - c * c) * c) by (rewrite H; ring).
  nra.
Qed.

Lemma wave_sin_product (a : R) :
  (cos a - cos (2 * a)) * sin a
  = 1 / 2 * sin (2 * a) - 1 / 2 * sin (3 * a) + 1 / 2 * sin a.
Proof.
  replace (3 * a) with (2 * a + a) by ring.
  rewrite sin_plus. replace (2 * a) with (a + a) by ring.
  rewrite cos_plus, sin_plus.
  set (c := cos a). set (s := sin a).
  assert (H : s * s = 1 - c * c).
  { unfold c, s. pose proof (sin2_cos2 a) as H. unfold Rsqr in H. lra. }
  assert (Hc : s * s * s = (1 - c * c) * s) by (rewrite H; ring).
  nra.
Qed.

Lemma csum_combination (c0 c1 c2 c3 : R) (g1 g2 g3 : Z -> R) (k : nat) :
  forall j : Z,
  csum k j (fun i => c0 + c1 * g1 i + c2 * g2 i + c3 * g3 i)
  = INR k * c0 + c1 * csum k j g1 + c2 * csum k j g2 + c3 * csum k j g3.
Proof.
  induction k as [|k IH]; intros j; [cbn; ring|].
  cbn [csum]. rewrite IH, S_INR. ring.
Qed.

(** *** The samples *)

Lemma burst_sample_wave (b : toneBurst R) (j : Z) :
  (j < duration b)%Z -> burst_sample b j = to_short (wave b j).
Proof.
  intros Hj. unfold burst_sample.
  destruct (Z.ltb_spec j (duration b)); [reflexivity|lia].
Qed.

(** *** The sums of [read] *)

Section Sums.

Variable b : toneBurst R.

Lemma turn_sum1 (j : Z) (l : read_locals R) :
  fst (sum1 (read_turn b j l)) = fst (sum1 l) + signal_re b j
  /\ snd (sum1 (read_turn b j l)) = snd (sum1 l) + signal_im b j.
Proof.
  unfold read_turn, accumulate, signal_re, signal_im. cbn [sum1].
  destruct (in_signal b j).
  - unfold c_add, c_rscale, ccoeff, c_exp, c_scale.
    cbn [fst snd d_add d_mul d_of_long d_exp d_cos d_sin double_ops libm].
    rewrite Rmult_0_l, exp_0. split; ring.
  - split; ring.
Qed.

Lemma pass_sum1 (k : nat) : forall (j : Z) (l : read_locals R),
  fst (sum1 (for_from k j (read_turn b) l))
  = fst (sum1 l) + csum k j (signal_re b)
  /\ snd (sum1 (for_from k j (read_turn b) l))
     = snd (sum1 l) + csum k j (signal_im b).
Proof.
  induction k as [|k IH]; intros j l; cbn [for_from csum].
  - split; ring.
  - destruct (IH (j + 1)%Z (read_turn b j l)) as [H1 H2].
    destruct (turn_sum1 j l) as [T1 T2].
    rewrite H1, H2, T1, T2. split; ring.
Qed.

Lemma passes_sum1 (n : nat) : forall (i : Z) (l : read_locals R),
  let l' :=
    for_from n i (fun _ l => for_long (interval b) (read_turn b) l) l in
  fst (sum1 l')
  = fst (sum1 l) + INR n * csum (Z.to_nat (interval b)) 0 (signal_re b)
  /\ snd (sum1 l')
     = snd (sum1 l) + INR n * csum (Z.to_nat (interval b)) 0 (signal_im b).
Proof.
  induction n as [|n IH]; intros i l; cbn [for_from].
  - cbn. split; ring.
  - destruct (IH (i + 1)%Z (for_long (interval b) (read_turn b) l))
      as [H1 H2].
    cbv zeta. rewrite H1, H2. unfold for_long.
    destruct (pass_sum1 (Z.to_nat (interval b)) 0 l) as [P1 P2].
    rewrite P1, P2, S_INR. split; ring.
Qed.

(** The response sum of a burst read back: so many passes over the
    samples of the burst against the cosine and the sine. *)
Lemma roundtrip_sum1 :
  (0 <= duration b <= interval b)%Z ->
  fst (sum1 (roundtrip_locals b))
  = INR (Z.to_nat (numAvg b))
    * csum (Z.to_nat (duration b)) 0
        (fun j => IZR (to_short (wave b j)) * cos (factor b * IZR j))
  /\ snd (sum1 (roundtrip_locals b))
     = INR (Z.to_nat (numAvg b))
       * csum (Z.to_nat (duration b)) 0
           (fun j => IZR (to_short (wave b j)) * sin (factor b * IZR j)).
Proof.
  intros Hd. unfold roundtrip_locals, for_long.
  destruct (passes_sum1 (Z.to_nat (numAvg b)) 0 read_locals_init) as [H1 H2].
  cbv zeta in H1, H2. unfold for_long, read_turn in H1, H2. rewrite H1, H2.
  cbn [read_locals_init sum1 c_zero fst snd d_of_long double_ops].
  replace (Z.to_nat (interval b))
    with (Z.to_nat (duration b) + Z.to_nat (interval b - duration b))%nat
    by lia.
  rewrite !csum_app.
  rewrite (csum_zero (Z.to_nat (interval b - duration b))
             (0 + Z.of_nat (Z.to_nat (duration b))) (signal_re b)),
    (csum_zero (Z.to_nat (interval b - duration b))
       (0 + Z.of_nat (Z.to_nat (duration b))) (signal_im b)).
  - rewrite (csum_ext _ 0 (signal_re b)
               (fun j => IZR (to_short (wave b j)) * cos (factor b * IZR j))).
    + rewrite (csum_ext _ 0 (signal_im b)
                 (fun j => IZR (to_short (wave b j))
                           * sin (factor b * IZR j))).
      * split; ring.
      * intros i Hi. unfold signal_im, in_signal.
        destruct (Z.ltb_spec i (duration b)); [|lia].
        rewrite burst_sample_wave by lia. reflexivity.
    + intros i Hi. unfold signal_re, in_signal.
      destruct (Z.ltb_spec i (duration b)); [|lia].
      rewrite burst_sample_wave by lia. reflexivity.
  - intros i Hi. unfold signal_im, in_signal.
    destruct (Z.ltb_spec i (duration b)); [lia|reflexivity].
  - intros i Hi. unfold signal_re, in_signal.
    destruct (Z.ltb_spec i (duration b)); [lia|reflexivity].
Qed.

End Sums.

(** *** The logarithm near 1 *)

(** The natural logarithm near 1. *)
Lemma ln_near_1 (x d : R) :
  0 <= d <= 1 / 2 -> Rabs (x - 1) <= d -> Rabs (ln x) <= 2 * d.
Proof.
  intros Hd Hx. apply Rabs_bounds in Hx.
  assert (Hpos : 0 < x) by lra.
  assert (Hup : ln x <= x - 1).
  { pose proof (exp_ineq1_le (ln x)) as H. rewrite exp_ln in H by exact Hpos.
    lra. }
  assert (Hlo : - ln x <= / x - 1).
  { pose proof (exp_ineq1_le (ln (/ x))) as H.
    rewrite exp_ln in H by (apply Rinv_0_lt_compat; exact Hpos).
    rewrite ln_Rinv in H by exact Hpos. lra. }
  assert (Hinv : / x <= 1 + 2 * d).
  { apply Rmult_le_reg_r with x; [exact Hpos|].
    rewrite Rinv_l by lra. nra. }
  apply Rabs_le. lra.
Qed.

Lemma ln_10_ge_1 : 1 <= ln 10.
Proof.
  rewrite <- (ln_exp 1). 
  destruct (Rle_lt_or_eq_dec _ _ (Rle_trans _ _ 10 exp_le_3 ltac:(lra)))
    as [H|H].
  - apply Rlt_le. apply ln_increasing; [apply exp_pos|exact H].
  - rewrite H. lra.
Qed.

End Correlation.

(** ** The two programs, one after the other *)

Module RoundTripFacts.

Import Ideal IdealFacts Correlation.

(** A burst on a nominal frequency from 2 Hz to 10 kHz, with the smallest
    cycle count: more than three samples to a cycle, and no longer than
    half a second. *)
Lemma burst_shape (b : toneBurst R) :
  smallest_cycles b -> calculated b ->
  sampleRate b = SAMPLE_RATE -> burstMin b = BURST_LENGTH ->
  (2 <= nominalFreq b <= 10000)%R ->
  1 <= numCycle b /\ 3 * numCycle b < duration b <= INTERVAL.
Proof.
  intros Hsm (_ & Hd & _) Hsr Hm Hf.
  apply smallest_cycles_alt in Hsm. destruct Hsm as (H1 & H2 & H3).
  unfold cycles_span in Hd. cbn [d_of_long d_div d_mul double_ops] in Hd.
  unfold period in *. rewrite Hsr, Hm in *.
  unfold SAMPLE_RATE, BURST_LENGTH, INTERVAL in *.
  set (p := (44100 / nominalFreq b)%R) in *.
  assert (Hp : (441 / 100 <= p <= 22050)%R).
  { assert (Hi : (/ 10000 <= / nominalFreq b <= / 2)%R).
    { split; apply Rinv_le_contravar; lra. }
    unfold p, Rdiv. lra. }
  assert (Hn23 : numCycle b <= 23).
  { destruct (Z_le_gt_dec (numCycle b) 23) as [H|H]; [exact H|].
    specialize (H3 23 ltac:(lia)). lra. }
  assert (Hx : (1 <= IZR (numCycle b) <= 23)%R)
    by (split; apply IZR_le; lia).
  assert (Hspan : (p * IZR (numCycle b) < 22051)%R).
  { destruct (Z.eq_dec (numCycle b) 1) as [E|E].
    - rewrite E. lra.
    - specialize (H3 (numCycle b - 1) ltac:(lia)).
      rewrite minus_IZR in H3.
      assert (Hx2 : (2 <= IZR (numCycle b))%R) by (apply IZR_le; lia).
      nra. }
  destruct (to_long_Int_part (p * IZR (numCycle b))%R) as [E _].
  { nra. }
  { change (LONG_MAX + 1) with 2147483648. lra. }
  rewrite Hd, E.
  destruct (base_Int_part (p * IZR (numCycle b))%R) as [Ha Hb].
  split; [lia|]. split.
  - apply lt_IZR. rewrite mult_IZR. nra.
  - assert (Int_part (p * IZR (numCycle b)) < 22051); [|lia].
    apply lt_IZR. lra.
Qed.

(** The bursts of a run from a start frequency between 2 Hz and 10 kHz:
    [reset] and the calls of [next] end, and every burst is on a nominal
    frequency in that range, with the smallest cycle count. *)
Lemma run_bursts (b : toneBurst R) :
  sampleRate b = SAMPLE_RATE -> burstMin b = BURST_LENGTH ->
  0 <= numBurst b <= 201 ->
  (2 <= startFreq b <= 10000)%R ->
  exists b1 bk,
    reset (limit := LOOP_LIMIT) b = Some b1
    /\ nexts (limit := LOOP_LIMIT) (Z.to_nat (numBurst b)) b1 = Some bk
    /\ forall (i : nat) bi,
         Z.of_nat i < numBurst b ->
         nexts (limit := LOOP_LIMIT) i b1 = Some bi ->
         smallest_cycles bi /\ (2 <= nominalFreq bi <= 10000)%R.
Proof.
  intros Hsr Hm Hnb Hf.
  assert (Hlo : (/ 2 ^ 1074 <= startFreq b <= 10000)%R)
    by (pose proof least_double_le_1; lra).
  destruct (sweep b) eqn:Hsw.
  - destruct (sweep_ladder machine_limit b Hsr Hm Hsw Hnb Hlo)
      as (b1 & Hr & _ & Hfi & _ & _ & Hk).
    destruct (Hk (Z.to_nat (numBurst b)) ltac:(lia)) as (bk & Hbk & _).
    exists b1, bk. split; [exact Hr|]. split; [exact Hbk|].
    intros i bi Hi Hni.
    destruct (Hk i ltac:(lia)) as (bi' & Hni' & Hnf & _ & Hsm).
    rewrite Hni in Hni'. injection Hni' as <-.
    split; [exact Hsm|]. rewrite Hnf, Hfi.
    set (r := Rpower (10000 / startFreq b) (1 / 200)).
    assert (Hx1 : (1 <= 10000 / startFreq b)%R).
    { replace (10000 / startFreq b)%R with (10000 / startFreq b * 1)%R
        by ring.
      apply div_times_ge; lra. }
    assert (Hr1 : (1 <= r)%R) by (apply root_ge_1; exact Hx1).
    assert (Hr200 : (r ^ 200 = 10000 / startFreq b)%R)
      by (apply root_pow; lra).
    assert (Hi1 : (1 <= r ^ i)%R) by (apply pow_R1_Rle; exact Hr1).
    assert (Hi200 : (r ^ i <= r ^ 200)%R) by (apply Rle_pow; [exact Hr1|lia]).
    split; [nra|].
    apply Rle_trans with (startFreq b * r ^ 200)%R.
    + apply Rmult_le_compat_l; lra.
    + rewrite Hr200. right. field. lra.
  - destruct (reset_below_10kHz machine_limit b Hsr Hm ltac:(lra))
      as (b1 & Hr & _ & _ & Hsm).
    destruct (reset_polar _ _ Hsw Hr) as (Hsw1 & Hbc1 & Hnf1).
    exists b1. eexists. split; [exact Hr|]. split.
    + apply nexts_polar; [exact Hsw1|].
      rewrite Hbc1. unfold LONG_MAX. lia.
    + intros i bi Hi Hni.
      rewrite (nexts_polar i b1 Hsw1) in Hni
        by (rewrite Hbc1; unfold LONG_MAX; lia).
      injection Hni as <-. split.
      * apply smallest_cycles_set_burstCount. exact Hsm.
      * replace (nominalFreq (set_burstCount (burstCount b1 - Z.of_nat i) b1))
          with (nominalFreq b1) by (destruct b1; reflexivity).
        rewrite Hnf1. exact Hf.
Qed.

(** What the [switch] leaves of the burst count. *)
Lemma parse_args_numBurst (c : cmdline R) b0 b :
  toneBurst_new (limit := LOOP_LIMIT) = Some b0 -> parse_args c b0 = Some b ->
  numBurst b = (if (argc c =? 6) && argv5_polar c then 72 else 201).
Proof.
  intros Hnew Hp.
  pose proof (toneBurst_new_counts _ Hnew) as (_ & _ & _ & Hnb & _).
  unfold parse_args in Hp.
  destruct ((2 <=? argc c) && (argc c <=? 6)); [|discriminate].
  injection Hp as <-.
  destruct ((argc c =? 6) && argv5_polar c), (5 <=? argc c), (4 <=? argc c),
    (3 <=? argc c); destruct b0; cbn in *; auto.
Qed.

(** *** A burst at the sample rate *)

Lemma cos_whole_turns (i : Z) : 0 <= i -> cos (2 * PI * IZR i) = 1%R.
Proof.
  intros Hi. rewrite <- (Z2Nat.id i Hi), <- INR_IZR_INZ.
  replace (2 * PI * INR (Z.to_nat i))%R
    with (0 + 2 * INR (Z.to_nat i) * PI)%R by ring.
  rewrite cos_period. apply cos_0.
Qed.

(** With a whole turn from a sample to the next, every sample of [write]
    is 0, and so is the magnitude [read] finds. *)
Lemma silent_burst (b : toneBurst R) :
  factor b = (2 * PI)%R -> 0 <= duration b <= interval b ->
  (forall j, 0 <= j < duration b -> burst_sample b j = 0)
  /\ abs1 (roundtrip_report b) = 0%R /\ abs2 (roundtrip_report b) = 0%R.
Proof.
  intros Hf Hd.
  assert (Hw : forall j, 0 <= j -> to_short (wave b j) = 0).
  { intros j Hj. unfold wave. rewrite Hf.
    replace (2 * (2 * PI) * IZR j)%R with (2 * PI * IZR (2 * j))%R
      by (rewrite mult_IZR; ring).
    rewrite !cos_whole_turns by lia.
    replace ((1 - 1) * 12000)%R with 0%R by ring.
    unfold to_short. rewrite (to_long_floor 0 0); [reflexivity|lra|].
    unfold LONG_MAX. lia. }
  split.
  { intros j Hj. rewrite burst_sample_wave by lia. apply Hw. lia. }
  destruct (roundtrip_report_channels b) as (E2 & _). cbv zeta in E2.
  rewrite E2.
  destruct (roundtrip_sum1 b Hd) as [Hre Him].
  assert (H0 : abs1 (roundtrip_report b) = 0%R).
  { unfold roundtrip_report, report_of. cbn [abs1]. unfold c_abs, c_div.
    cbn [fst snd d_sqrt d_add d_mul d_div libm double_ops].
    rewrite Hre, Him.
    rewrite !csum_zero.
    - replace (INR (Z.to_nat (numAvg b)) * 0 / norm b)%R with 0%R
        by (unfold Rdiv; ring).
      replace (0 * 0 + 0 * 0)%R with 0%R by ring. apply sqrt_0.
    - intros i Hi. rewrite Hw by lia. ring.
    - intros i Hi. rewrite Hw by lia. ring. }
  split; exact H0.
Qed.

(** C1 as the specification has it fails at the sample rate.
    [tbg outfile.wav 0 1 44100 polar]: a cycle is one sample, and [calc]
    makes the burst 100 cycles of 100 samples, on the doubles of the
    machine as on the real numbers: [duration] divides [numCycle].  In
    real arithmetic [factor] is a whole turn,
    [cos(factor * j) - cos(2.0 * factor * j)] is 0 at every [j], and
    [write] puts out zeros; [tba] with the same arguments returns 0 and
    prints 72 lines, every one with magnitude 0 on both channels. *)
Lemma roundtrip_at_sample_rate :
  (exists b' : toneBurst float,
     calc (ops := IEEE.double_ops) (limit := LOOP_LIMIT)
       (IEEE.at_frequency 44100)
     = Some b'
     /\ numCycle b' = 100 /\ duration b' = 100)
  /\ exists (file : ofstream) (cout : list (detail R))
            (lines : list (detail R * report R)),
       tbg_main (limit := LOOP_LIMIT) cmdline_polar_44100
       = Some (0, file, cout)
       /\ tba_main (limit := LOOP_LIMIT) cmdline_polar_44100 file
          = Some (0, lines)
       /\ length lines = 72%nat
       /\ Forall (fun line =>
                    col_numCyc (fst line) = 100
                    /\ col_duration (fst line) = 100
                    /\ abs1 (snd line) = 0%R /\ abs2 (snd line) = 0%R
                    /\ ~ unit_report (fun x : R => x) (snd line)) lines.
Proof.
  split.
  { eexists. split; [vm_compute; reflexivity|]. split; reflexivity. }
  destruct (new_ends machine_limit) as (b0 & Hnew & Hs0 & _).
  set (c := cmdline_polar_44100).
  set (b := set_delay 0 (set_numAvg 1 (set_startFreq 44100%R (init false b0)))).
  assert (Hp : parse_args c b0 = Some b) by reflexivity.
  assert (Hsr : sampleRate b = 44100) by (destruct b0; apply Hs0).
  assert (Hm : burstMin b = 100) by (destruct b0; apply Hs0).
  assert (Hsw : sweep b = false) by (destruct b0; reflexivity).
  assert (Hnb : numBurst b = 72) by (destruct b0; reflexivity).
  assert (Hst : startFreq b = 44100%R) by (destruct b0; reflexivity).
  assert (Hav : numAvg b = 1) by (destruct b0; reflexivity).
  assert (Hde : delay b = 0) by (destruct b0; reflexivity).
  assert (Hin : interval b = 44100) by (destruct b0; reflexivity).
  destruct (reset_ends machine_limit b 100)
    as (b1 & Hr & Hs & Hn & Hge & _ & Hd).
  { lia. } { lra. } { unfold LONG_MAX. lia. }
  { rewrite Hsr, Hm, Hst. lra. }
  rewrite Hsr, Hm, Hst in Hge. rewrite Hsr, Hst in Hd.
  assert (Hn100 : numCycle b1 = 100).
  { destruct (Z_le_gt_dec (numCycle b1) 99) as [H99|H99]; [|lia].
    apply IZR_le in H99. lra. }
  assert (Hd100 : duration b1 = 100).
  { rewrite Hd, Hn100. apply to_long_floor; [lra|unfold LONG_MAX; lia]. }
  destruct (reset_inv _ _ Hr) as [Hbc Hrun].
  pose proof (reset_calculated _ _ Hr) as (_ & _ & Hact & Hfac).
  assert (Esr : sampleRate b1 = 44100) by (destruct Hrun as (E & _); congruence).
  assert (Hf1 : factor b1 = (2 * PI)%R).
  { rewrite Hfac, Hact, Esr, Hn100, Hd100.
    cbn [d_of_long d_mul d_div d_pi double_ops]. field. }
  assert (Hi1 : interval b1 = 44100)
    by (destruct Hrun as (_ & E & _); congruence).
  destruct (reset_polar _ _ Hsw Hr) as (Hsw1 & _ & _).
  assert (Hk : forall i : nat, Z.of_nat i <= 72 ->
             nexts (limit := LOOP_LIMIT) i b1
             = Some (set_burstCount (burstCount b1 - Z.of_nat i) b1)).
  { intros i Hi. apply nexts_polar; [exact Hsw1|].
    rewrite Hbc, Hnb. unfold LONG_MAX. lia. }
  pose proof (Hk 72%nat ltac:(lia)) as H72.
  destruct (nexts_bursts _ _ _ H72) as (bs & Hbs & Hlen & Hall).
  destruct (roundtrip_main (limit := LOOP_LIMIT) c b0 b b1 bs 72
              Hnew Hp Hde Hr Hbs)
    as (file & Hg & Ha).
  { rewrite Hbc, Hnb. reflexivity. }
  { rewrite Hbc, Hnb. unfold LONG_MAX. lia. }
  { pose proof machine_limit. lia. }
  exists file, (map showDetail bs),
    (map (fun x => (showDetail x, roundtrip_report x)) bs).
  split; [exact Hg|]. split; [exact Ha|].
  split; [rewrite length_map; exact Hlen|].
  apply Forall_forall. intros line Hline.
  apply in_map_iff in Hline. destruct Hline as (x & <- & Hx).
  destruct (Hall x Hx) as (i & bi & Hi & Hni & ->).
  rewrite (Hk i ltac:(lia)) in Hni. injection Hni as <-.
  set (x := set_burstCount (burstCount b1 - Z.of_nat i) b1).
  assert (Ex : factor x = (2 * PI)%R) by (destruct b1; exact Hf1).
  assert (Dx : duration x = 100) by (destruct b1; exact Hd100).
  assert (Nx : numCycle x = 100) by (destruct b1; exact Hn100).
  assert (Ix : interval x = 44100) by (destruct b1; exact Hi1).
  destruct (silent_burst x Ex ltac:(lia)) as (_ & A1 & A2).
  cbn [fst snd showDetail col_numCyc col_duration].
  split; [exact Nx|]. split; [exact Dx|].
  split; [exact A1|]. split; [exact A2|].
  intros (U & _). rewrite A1 in U. apply Rabs_bounds in U. lra.
Qed.

End RoundTripFacts.

(** ** Bytes and integers *)


Lemma long_wrap_congr (a b : Z) :
  a mod 2 ^ 32 = b mod 2 ^ 32 -> long_wrap a = long_wrap b.
Proof.
  intros H. unfold long_wrap, wrap.
  rewrite (Z.add_mod a), (Z.add_mod b), H by lia. reflexivity.
Qed.

Lemma long_wrap_idem (z : Z) : long_wrap (long_wrap z) = long_wrap z.
Proof. apply long_wrap_id. apply long_wrap_range. Qed.

Lemma short_wrap_mod (z : Z) : short_wrap z mod 2 ^ 16 = z mod 2 ^ 16.
Proof.
  unfold short_wrap, wrap. rewrite Zminus_mod_idemp_l.
  f_equal. lia.
Qed.

Lemma short_wrap_congr (a b : Z) :
  a mod 2 ^ 16 = b mod 2 ^ 16 -> short_wrap a = short_wrap b.
Proof.
  intros H. unfold short_wrap, wrap.
  rewrite (Z.add_mod a), (Z.add_mod b), H by lia. reflexivity.
Qed.

(** The four bytes of a [long], low byte first, make the [long] again. *)
Lemma long_of_bytes_split (z : Z) :
  long_of_bytes (z mod 256) ((z / 256) mod 256) ((z / 65536) mod 256)
    ((z / 16777216) mod 256)
  = long_wrap z.
Proof.
  unfold long_of_bytes. apply long_wrap_congr.
  pose proof (Z.div_mod z 256 ltac:(lia)) as E0.
  pose proof (Z.div_mod (z / 256) 256 ltac:(lia)) as E1.
  pose proof (Z.div_mod (z / 65536) 256 ltac:(lia)) as E2.
  pose proof (Z.div_mod (z / 16777216) 256 ltac:(lia)) as E3.
  assert (D1 : z / 65536 = z / 256 / 256)
    by (rewrite Z.div_div by lia; reflexivity).
  assert (D2 : z / 16777216 = z / 65536 / 256)
    by (rewrite Z.div_div by lia; reflexivity).
  replace (z mod 256 + 256 * ((z / 256) mod 256)
           + 65536 * ((z / 65536) mod 256)
           + 16777216 * ((z / 16777216) mod 256))
    with (z + (- (z / 16777216 / 256)) * 2 ^ 32) by lia.
  apply Z_mod_plus_full.
Qed.

(** And the two bytes of a [short]: whatever the number written, what is
    read is the [short] it wraps to. *)
Lemma short_of_bytes_wrap (a : Z) :
  short_of_bytes (a mod 256) ((a / 256) mod 256) = short_wrap a.
Proof.
  unfold short_of_bytes. apply short_wrap_congr.
  pose proof (Z.div_mod a 256 ltac:(lia)) as E1.
  pose proof (Z.div_mod (a / 256) 256 ltac:(lia)) as E2.
  replace (a mod 256 + 256 * ((a / 256) mod 256))
    with (a + (- (a / 256 / 256)) * 2 ^ 16) by lia.
  apply Z_mod_plus_full.
Qed.

(** X15: [outfile.write((char * )&a, 2)] and then [infile.read((char * )&a, 2)]:
    the sample read is the sample written, a [short], whatever was in the
    variable before, and the stream has the bytes that followed. *)
Theorem write_short_read_short (a a0 : Z) (rest : list Z) :
  -32768 <= a <= 32767 ->
  read_short a0 (mkIfstream (write_short a [] ++ rest) false)
  = (a, mkIfstream rest false).
Proof.
  intros Ha. unfold write_short, read_short. cbn [app i_eof i_bytes].
  rewrite short_of_bytes_wrap, short_wrap_id by exact Ha. reflexivity.
Qed.

Lemma write_short_read_short_witness :
  read_short 0 (mkIfstream (write_short (-24000) [] ++ [1; 2]) false)
  = (-24000, mkIfstream [1; 2] false).
Proof. apply (write_short_read_short (-24000) 0 [1; 2]). lia. Defined.

(** ** The header, written and read back *)

Lemma tba_header_written (theSize : Z) (data : list Z) :
  LONG_MIN <= theSize <= LONG_MAX ->
  tba_header (wave_header theSize ++ data)
  = Some (riff_setSize theSize, fmt_setSize, data_setSize theSize).
Proof.
  intros Hsize.
  assert (Hr : firstn 12 (wave_header theSize ++ data)
               = riff_bytes (riff_setSize theSize)) by reflexivity.
  assert (Hf : firstn 24 (skipn 12 (wave_header theSize ++ data))
               = fmt_bytes fmt_setSize) by reflexivity.
  assert (Hd : firstn 8 (skipn 36 (wave_header theSize ++ data))
               = data_bytes (data_setSize theSize)) by reflexivity.
  unfold tba_header. rewrite Hr, Hf, Hd.
  assert (Er : riff_of_bytes (riff_bytes (riff_setSize theSize))
               = Some (riff_setSize theSize)).
  { unfold riff_bytes, riff_setSize.
    cbn [riff_chunkID riff_chunkSize riff_format tag_RIFF tag_WAVE le32 app
         riff_of_bytes].
    rewrite long_of_bytes_split. unfold ladd. rewrite long_wrap_idem.
    reflexivity. }
  assert (Ef : fmt_of_bytes (fmt_bytes fmt_setSize) = Some fmt_setSize)
    by reflexivity.
  assert (Ed : data_of_bytes (data_bytes (data_setSize theSize))
               = Some (data_setSize theSize)).
  { unfold data_bytes, data_setSize.
    cbn [data_chunkID data_chunkSize tag_data le32 app data_of_bytes].
    rewrite long_of_bytes_split, long_wrap_id by exact Hsize.
    reflexivity. }
  rewrite Er, Ef, Ed. reflexivity.
Qed.

(** X11: the header [tbg] writes for a data size that is a [long], read by
    [tba]: the three objects are the ones [setSize] made, and [dump] shows
    "RIFF", the size plus 36 and "WAVE"; "fmt ", 16, and format 1, 2
    channels, 44100 samples and 176400 bytes a second, 4 bytes a sample
    pair, 16 bits a sample; "data" and the size. *)
Theorem header_read_back (theSize : Z) (data : list Z) :
  LONG_MIN <= theSize <= LONG_MAX ->
  tba_header (wave_header theSize ++ data)
  = Some (riff_setSize theSize, fmt_setSize, data_setSize theSize)
  /\ riff_dump (riff_setSize theSize) = (tag_RIFF, ladd theSize 36, tag_WAVE)
  /\ fmt_dump fmt_setSize = (tag_fmt, 16, [1; 2; 44100; 176400; 4; 16])
  /\ data_dump (data_setSize theSize) = (tag_data, theSize).
Proof.
  intros Hsize. split; [apply tba_header_written; exact Hsize|].
  split; [reflexivity|]. split; reflexivity.
Qed.

Lemma header_read_back_witness :
  tba_header (wave_header 17816400)
  = Some (riff_setSize 17816400, fmt_setSize, data_setSize 17816400)
  /\ riff_dump (riff_setSize 17816400) = (tag_RIFF, 17816436, tag_WAVE).
Proof.
  destruct (header_read_back 17816400 []) as (H1 & H2 & _).
  - unfold LONG_MIN, LONG_MAX. lia.
  - rewrite app_nil_r in H1. split; [exact H1|exact H2].
Defined.

(** ** The size of the sound data, modulo [2^32] *)



Section SizeModulo.

Context {D : Type} {ops : DoubleOps D} {lm : Libm D} {limit : LoopLimit}.



End SizeModulo.

(** ** Input streams *)

Lemma take_take (a b : nat) (st : option nat) :
  take a (take b st) = take (b + a) st.
Proof.
  destruct st as [n|]; [|reflexivity]. cbn [take].
  destruct (Nat.leb_spec b n) as [Hb|Hb]; cbn [take].
  - destruct (Nat.leb_spec a (n - b)), (Nat.leb_spec (b + a) n);
      try lia; try reflexivity.
    f_equal. lia.
  - destruct (Nat.leb_spec (b + a) n); [lia|reflexivity].
Qed.

Lemma take_0 (st : option nat) : take 0 st = st.
Proof.
  destruct st as [n|]; [|reflexivity]. cbn. rewrite Nat.sub_0_r. reflexivity.
Qed.

Lemma take_some (w n : nat) :
  take w (Some n) <> None <-> (w <= n)%nat.
Proof.
  cbn [take]. destruct (Nat.leb_spec w n); split; intros; try lia;
    try discriminate; congruence.
Qed.

Lemma stream_state_eof (f : ifstream) :
  stream_state f = None <-> i_eof f = true.
Proof.
  unfold stream_state. destruct (i_eof f); split; intros; congruence.
Qed.

(** A read of two bytes. *)
Lemma read_short_state (a : Z) (f : ifstream) :
  stream_state (snd (read_short a f)) = take 2 (stream_state f).
Proof.
  unfold read_short, stream_state. destruct f as [l e]. cbn [i_eof i_bytes].
  destruct e; [reflexivity|].
  destruct l as [|b0 [|b1 rest]]; cbn; try reflexivity.
  rewrite Nat.sub_0_r. reflexivity.
Qed.

(** A read of [n] bytes into a buffer. *)
Lemma read_skip_state (n : nat) (f : ifstream) :
  stream_state (read_skip n f) = take n (stream_state f).
Proof.
  unfold read_skip, stream_state. destruct f as [l e]. cbn [i_eof i_bytes].
  destruct e; [reflexivity|]. cbn [take].
  destruct (n <=? length l)%nat; cbn [i_eof i_bytes]; [|reflexivity].
  rewrite length_skipn. reflexivity.
Qed.

(** The delay loop of [tba]: four bytes a turn. *)
Lemma skip_delay_state (k : nat) : forall (j : Z) (s : Z * ifstream),
  stream_state
    (snd (for_from k j
            (fun _ (s : Z * ifstream) =>
               let (a, f) := s in
               let (a, f) := read_short a f in
               read_short a f) s))
  = take (4 * k) (stream_state (snd s)).
Proof.
  induction k as [|k IH]; intros j [a f]; cbn [for_from snd].
  - rewrite take_0. reflexivity.
  - rewrite IH.
    pose proof (read_short_state a f) as H1.
    destruct (read_short a f) as [a' f']. cbn [snd] in H1.
    pose proof (read_short_state a' f') as H2.
    rewrite H2, H1, !take_take. f_equal. lia.
Qed.

Section ExitStatus.

Context {D : Type} {ops : DoubleOps D} {lm : Libm D} {limit : LoopLimit}.

Implicit Types b : toneBurst D.

Lemma read_body_state (j : Z) (s : toneBurst D * ifstream * read_locals D) :
  stream_state (snd (fst (read_body j s)))
  = take 4 (stream_state (snd (fst s))).
Proof.
  destruct s as [[b f] l]. unfold read_body. cbn [fst snd].
  pose proof (read_short_state (a1 l) f) as H1.
  destruct (read_short (a1 l) f) as [v1 f1]. cbn [snd] in H1.
  pose proof (read_short_state (a2 l) f1) as H2.
  destruct (read_short (a2 l) f1) as [v2 f2]. cbn [snd fst] in *.
  rewrite H2, H1, take_take. reflexivity.
Qed.

Lemma read_pass_state (k : nat) : forall (j : Z)
  (s : toneBurst D * ifstream * read_locals D),
  fst (fst (for_from k j read_body s)) = fst (fst s)
  /\ stream_state (snd (fst (for_from k j read_body s)))
     = take (4 * k) (stream_state (snd (fst s))).
Proof.
  induction k as [|k IH]; intros j s; cbn [for_from].
  - rewrite take_0. split; reflexivity.
  - destruct (IH (j + 1) (read_body j s)) as [H1 H2].
    rewrite H1, H2, read_body_frame, read_body_state, take_take.
    split; [reflexivity|]. f_equal. lia.
Qed.

Lemma read_passes_state (n : nat) : forall (j : Z)
  (s : toneBurst D * ifstream * read_locals D),
  let s' :=
    for_from n j
      (fun _ s => for_long (interval (fst (fst s))) read_body s) s in
  fst (fst s') = fst (fst s)
  /\ stream_state (snd (fst s'))
     = take (4 * (n * Z.to_nat (interval (fst (fst s)))))
         (stream_state (snd (fst s))).
Proof.
  induction n as [|n IH]; intros j s; cbn [for_from]; cbv zeta.
  - cbn. rewrite take_0. split; reflexivity.
  - destruct (read_pass_state (Z.to_nat (interval (fst (fst s)))) 0 s)
      as [P1 P2].
    specialize (IH (j + 1) (for_long (interval (fst (fst s))) read_body s)).
    cbv zeta in IH. destruct IH as [H1 H2].
    unfold for_long in *. rewrite H1, H2, P1, P2, take_take.
    split; [reflexivity|]. f_equal. lia.
Qed.

(** [read] takes the bytes of a burst off the stream, or fails for want
    of them. *)
Lemma read_state b (f : ifstream) :
  stream_state (snd (fst (read (b, f))))
  = take (burst_size b) (stream_state f).
Proof.
  unfold read. cbn [fst snd].
  pose proof (read_passes_state (Z.to_nat (numAvg b)) 0
                (b, f, read_locals_init)) as H.
  cbv zeta in H. cbn [fst snd] in H. unfold for_long at 1.
  destruct H as [_ H].
  destruct (for_from _ _ _ _) as [[b' f'] l']. cbn [fst snd] in *.
  rewrite H. reflexivity.
Qed.

Lemma burst_size_same_run b b' :
  same_run b b' -> burst_size b' = burst_size b.
Proof.
  intros (_ & Hi & _ & _ & _ & _ & Ha). unfold burst_size.
  rewrite Hi, Ha. reflexivity.
Qed.

Lemma reaches_last_step (k w : nat) (n : nat) :
  reaches_last (Datatypes.S k) w (Some n)
  = reaches_last k w (take w (Some n)).
Proof.
  destruct k as [|k].
  - cbn [reaches_last Nat.mul]. rewrite take_0. reflexivity.
  - cbn [reaches_last]. rewrite take_take.
    replace (w + k * w)%nat with (Datatypes.S k * w)%nat by lia.
    reflexivity.
Qed.

(** The burst loop of [tba] on any stream: it ends, with no status set
    when the stream is good at every test and with -4 set otherwise; a line
    for every burst in the first case, fewer in the second. *)
Lemma tba_loop_status (k : nat) : forall b1 bk (f : ifstream)
  (cout0 : list (detail D * report D)),
  nexts k b1 = Some bk -> burstCount b1 = Z.of_nat k ->
  burstCount b1 <= LONG_MAX ->
  exists s,
    iterate_nat (Datatypes.S k) (while_step tba_cond tba_body)
      (mkTbaState b1 f cout0 None)
    = Done s
    /\ (if reaches_last k (burst_size b1) (stream_state f)
        then a_return s = None /\ length (a_cout s) = (length cout0 + k)%nat
        else a_return s = Some (-4)
             /\ (length (a_cout s) < length cout0 + k)%nat).
Proof.
  induction k as [|k IH]; intros b1 bk f cout0 Hk Hbc Hmax.
  - eexists. rewrite iterate_nat_S. unfold while_step, tba_cond.
    cbn [a_burst a_return]. unfold good. rewrite Hbc.
    cbn. split; [reflexivity|]. split; [reflexivity|cbn [a_cout]; lia].
  - cbn [nexts] in Hk.
    destruct (next b1) as [[[|] b2]|] eqn:Hn; try discriminate.
    destruct (next_inv _ _ _ Hn ltac:(lia)) as (_ & Hbc2 & Hrun).
    assert (Hgood : good b1 = true)
      by (unfold good; apply Z.ltb_lt; lia).
    destruct (i_eof f) eqn:He.
    + (* the stream has failed: -4 *)
      eexists. rewrite iterate_nat_S.
      unfold while_step at 1, tba_cond at 1. cbn [a_burst a_return].
      rewrite Hgood. cbn [andb]. unfold tba_body at 1.
      cbn [a_burst a_infile a_cout]. rewrite He.
      rewrite iterate_nat_S. unfold while_step, tba_cond.
      cbn [a_burst a_return]. rewrite andb_false_r.
      split; [reflexivity|].
      assert (Hst : stream_state f = None)
        by (apply stream_state_eof; exact He).
      rewrite Hst. cbn [reaches_last take a_return a_cout].
      split; [reflexivity|lia].
    + (* the stream is good: a line, and the rest *)
      pose proof (read_frame b1 f) as Hf.
      pose proof (read_state b1 f) as Hs.
      destruct (read (b1, f)) as [[b' f'] r] eqn:Hread.
      cbn [fst snd] in Hf, Hs. subst b'.
      destruct (IH b2 bk f' (cout0 ++ [(showDetail b1, r)]) Hk ltac:(lia)
                  ltac:(lia)) as (s & Hrun' & Hres).
      exists s. rewrite iterate_nat_S.
      assert (Hstep :
        while_step tba_cond tba_body (mkTbaState b1 f cout0 None)
        = More (mkTbaState b2 f' (cout0 ++ [(showDetail b1, r)]) None)).
      { unfold while_step, tba_cond. cbn [a_burst a_return].
        rewrite Hgood. cbn [andb]. unfold tba_body.
        cbn [a_burst a_infile a_cout]. rewrite He, Hread, Hn. reflexivity. }
      rewrite Hstep. split; [exact Hrun'|].
      assert (Hst : stream_state f = Some (length (i_bytes f)))
        by (unfold stream_state; rewrite He; reflexivity).
      rewrite Hst, reaches_last_step, <- Hst, <- Hs.
      rewrite (burst_size_same_run _ _ Hrun) in Hres.
      rewrite length_app in Hres. cbn [length] in Hres.
      destruct (reaches_last k (burst_size b1) (stream_state f')).
      * destruct Hres as [R1 R2]. split; [exact R1|lia].
      * destruct Hres as [R1 R2]. split; [exact R1|lia].
Qed.

(** X4: the run of [tba] on any file whatever, whatever the arithmetic,
    when [reset()] and the calls of [next()] return.  It returns -3 exactly
    when the file has fewer than the 44 bytes of the header; 0 exactly when
    the file has the header, the delay and all the bursts but the last; -4
    otherwise.  When it returns 0 it has printed a line for every burst,
    otherwise fewer. *)
Theorem tba_exit_status (c : cmdline D) (file : list Z) b0 b b1 bk :
  toneBurst_new = Some b0 -> parse_args c b0 = Some b ->
  reset b = Some b1 -> nexts (Z.to_nat (numBurst b)) b1 = Some bk ->
  (Datatypes.S (Z.to_nat (numBurst b)) <= loop_limit)%nat ->
  exists (code : Z) (lines : list (detail D * report D)),
    tba_main c file = Some (code, lines)
    /\ (code = 0 \/ code = -3 \/ code = -4)
    /\ (code = -3 <-> (length file < 44)%nat)
    /\ (code = 0 <->
        (44 + 4 * Z.to_nat (delay b)
         + (Z.to_nat (numBurst b) - 1) * burst_size b <= length file)%nat)
    /\ (code = 0 -> length lines = Z.to_nat (numBurst b))
    /\ (code <> 0 -> (length lines < Z.to_nat (numBurst b))%nat).
Proof.
  intros Hnew Hp Hr Hnexts Hlim.
  destruct (parse_args_inv c b0 b Hnew Hp) as (_ & Hnb & _).
  destruct (reset_inv _ _ Hr) as [Hbc Hrun].
  unfold tba_main. rewrite Hnew, Hp.
  set (f0 := read_skip 8
               (read_skip 24 (read_skip 12 (mkIfstream file false)))).
  assert (S0 : stream_state f0 = take 44 (Some (length file))).
  { unfold f0. rewrite !read_skip_state, !take_take. reflexivity. }
  destruct (i_eof f0) eqn:He.
  - (* no header *)
    apply stream_state_eof in He. rewrite He in S0.
    assert (Hshort : (length file < 44)%nat).
    { destruct (Nat.le_gt_cases 44 (length file)) as [H|H]; [|exact H].
      exfalso. apply (proj2 (take_some 44 (length file)) H). congruence. }
    exists (-3), []. split; [reflexivity|].
    split; [auto|].
    split; [tauto|]. split; [split; intros; lia|].
    split; [intros; lia|].
    intros _. cbn [length]. destruct Hnb as [->| ->]; lia.
  - (* the header is there *)
    assert (Hlong : (44 <= length file)%nat).
    { apply take_some. rewrite <- S0. unfold stream_state. rewrite He.
      discriminate. }
    pose proof (skip_delay_state (Z.to_nat (delay b)) 0 (0, f0)) as Hdl.
    unfold for_long at 1.
    destruct (for_from (Z.to_nat (delay b)) 0 _ (0, f0)) as [a f1].
    cbn [snd] in Hdl. rewrite S0, take_take in Hdl.
    rewrite Hr.
    destruct (tba_loop_status (Z.to_nat (numBurst b))
                b1 bk f1 [] Hnexts ltac:(lia)
                ltac:(unfold LONG_MAX; destruct Hnb as [E|E]; rewrite Hbc, E; lia))
      as (s & Hloop & Hres).
    rewrite (while_done _ _ _ _ _ Hloop) by exact Hlim.
    rewrite (burst_size_same_run _ _ Hrun), Hdl in Hres.
    destruct (Z.to_nat (numBurst b)) as [|k] eqn:EB;
      [destruct Hnb as [E|E]; rewrite E in EB; discriminate|].
    cbn [reaches_last] in Hres. rewrite take_take in Hres.
    replace (Datatypes.S k - 1)%nat with k by lia.
    cbn [length] in Hres.
    set (T := take (44 + 4 * Z.to_nat (delay b) + k * burst_size b)
                (Some (length file))) in *.
    assert (HT : T <> None <->
                 (44 + 4 * Z.to_nat (delay b) + k * burst_size b
                  <= length file)%nat) by apply take_some.
    destruct T as [n|].
    + (* good at every test *)
      assert (Hle : (44 + 4 * Z.to_nat (delay b) + k * burst_size b
                     <= length file)%nat) by (apply HT; discriminate).
      destruct Hres as [R1 R2]. rewrite R1.
      exists 0, (a_cout s). split; [reflexivity|].
      split; [auto|].
      split; [split; intros; lia|]. split; [tauto|].
      split; [intros _; exact R2|]. intros H. congruence.
    + (* the stream fails before the last burst *)
      assert (Hgt : ~ (44 + 4 * Z.to_nat (delay b) + k * burst_size b
                       <= length file)%nat)
        by (intros H; apply HT in H; congruence).
      destruct Hres as [R1 R2]. rewrite R1.
      exists (-4), (a_cout s). split; [reflexivity|].
      split; [auto|].
      split; [split; intros; lia|].
      split; [split; intros; [lia|contradiction]|].
      split; [intros; lia|]. intros _. exact R2.
Qed.

End ExitStatus.

(** ** What the programs return *)

Module StatusFacts.

Import Ideal IdealFacts.

(** [tba] on nothing but a header, with the delay of the constructor:
    -4. *)
Lemma tba_exit_status_witness :
  exists (code : Z) (lines : list (detail R * report R)),
    tba_main (limit := LOOP_LIMIT) cmdline_default (wave_header 17816400)
    = Some (code, lines)
    /\ code = -4.
Proof.
  destruct (new_ends machine_limit) as (b0 & Hnew & _).
  destruct (parse_args_returns cmdline_default b0) as [b Hp];
    [cbn; lia|].
  destruct (parse_args_inv _ _ _ Hnew Hp)
    as (_ & Hnb & Hsr & Hm & Hsw & Hlt5 & _ & Hd & _).
  cbn in Hlt5, Hd.
  destruct (Hlt5 ltac:(lia)) as [Hsweep Hsf].
  destruct (ladder_smallest b Hsr Hm ltac:(lia)) as (b1 & Hr & _ & Hk).
  { rewrite Hsf. cbn. pose proof least_double_le_1. lra. }
  destruct (Hk (Z.to_nat (numBurst b)) ltac:(lia)) as (bk & Hnexts & _).
  destruct (tba_exit_status (limit := LOOP_LIMIT) cmdline_default
              (wave_header 17816400) b0 b b1 bk Hnew Hp Hr Hnexts)
    as (code & lines & Hrun & Hcode & H3 & H0 & _).
  { pose proof machine_limit. destruct Hnb as [E|E]; rewrite E; lia. }
  exists code, lines. split; [exact Hrun|].
  specialize (Hsw Hsweep). specialize (Hd ltac:(lia)).
  rewrite wave_header_length in H3, H0. rewrite Hd, Hsw in H0.
  unfold INTERVAL in H0.
  destruct Hcode as [E|[E|E]]; [|apply H3 in E; lia|exact E].
  apply H0 in E. lia.
Defined.

End StatusFacts.

(** ** The delay *)

(** The delay loop of [tbg] writes zeros, four bytes a turn. *)
Lemma delay_zeros (k : nat) : forall (j : Z) (o : ofstream),
  for_from k j (fun _ o => write_short 0 (write_short 0 o)) o
  = o ++ repeat 0 (4 * k).
Proof.
  induction k as [|k IH]; intros j o; cbn [for_from].
  - cbn. rewrite app_nil_r. reflexivity.
  - rewrite IH. unfold write_short.
    replace (4 * Datatypes.S k)%nat with (4 + 4 * k)%nat by lia.
    cbn [repeat Nat.add]. rewrite <- !app_assoc. reflexivity.
Qed.

(** And the delay loop of [tba] reads them off. *)
Lemma skip_zeros (k : nat) : forall (j : Z) (a : Z) (rest : list Z),
  snd (for_from k j
         (fun _ (s : Z * ifstream) =>
            let (a, f) := s in
            let (a, f) := read_short a f in
            read_short a f)
         (a, mkIfstream (repeat 0 (4 * k) ++ rest) false))
  = mkIfstream rest false.
Proof.
  induction k as [|k IH]; intros j a rest; cbn [for_from].
  - reflexivity.
  - replace (4 * Datatypes.S k)%nat with (4 + 4 * k)%nat by lia.
    cbn [repeat Nat.add app]. unfold read_short at 2 3.
    cbn [i_eof i_bytes]. apply IH.
Qed.

Lemma length_concat_const {A : Type} (w : nat) (l : list (list A)) :
  (forall x, In x l -> length x = w) ->
  length (concat l) = (length l * w)%nat.
Proof.
  induction l as [|x l IH]; intros H; cbn [concat length].
  - reflexivity.
  - rewrite length_app, (H x) by (left; reflexivity).
    rewrite IH by (intros y Hy; apply H; right; exact Hy). lia.
Qed.

Section Delay.

Context {D : Type} {ops : DoubleOps D} {lm : Libm D} {limit : LoopLimit}.

Implicit Types b : toneBurst D.

(** The file [tbg] writes: the header, the silence of the delay, the
    bursts; and [tba] on that file with the same command line. *)
Lemma roundtrip_main_delay (c : cmdline D) b0 b b1 bs (k : nat) :
  toneBurst_new = Some b0 -> parse_args c b0 = Some b ->
  reset b = Some b1 -> bursts k b1 = Some bs ->
  burstCount b1 = Z.of_nat k -> burstCount b1 <= LONG_MAX ->
  (Datatypes.S k <= loop_limit)%nat ->
  let file := wave_header (getSize b)
              ++ repeat 0 (4 * Z.to_nat (delay b))
              ++ concat (map burst_bytes bs) in
  tbg_main c = Some (0, file, map showDetail bs)
  /\ tba_main c file
     = Some (0, map (fun b => (showDetail b, roundtrip_report b)) bs).
Proof.
  intros Hnew Hparse Hr Hk Hbc Hmax Hlim file. split.
  - unfold tbg_main. rewrite Hnew, Hparse, Hr.
    unfold for_long. rewrite delay_zeros.
    destruct (tbg_loop_result k b1 bs
                (wave_header (getSize b) ++ repeat 0 (4 * Z.to_nat (delay b)))
                [] Hk Hbc Hmax) as [bend Hend].
    rewrite (while_done _ _ _ _ _ Hend Hlim).
    cbn [g_outfile g_cout app]. unfold file. rewrite <- app_assoc.
    reflexivity.
  - unfold tba_main, file. rewrite Hnew, Hparse, read_header.
    cbn [i_eof]. unfold for_long.
    pose proof (skip_zeros (Z.to_nat (delay b)) 0 0
                  (concat (map burst_bytes bs))) as Hskip.
    destruct (for_from (Z.to_nat (delay b)) 0 _ _) as [a f1].
    cbn [snd] in Hskip. subst f1. rewrite Hr.
    destruct (tba_loop_result k b1 bs [] [] Hk Hbc Hmax) as [bend Hend].
    rewrite app_nil_r in Hend.
    rewrite (while_done _ _ _ _ _ Hend Hlim). reflexivity.
Qed.

Lemma burst_bytes_size b : length (burst_bytes b) = burst_size b.
Proof.
  unfold burst_bytes, burst_size. rewrite write_length. cbn [length]. lia.
Qed.

(** X6: the run of [tbg], whatever the arithmetic, for a command line the
    [switch] takes, when [reset()] and the calls of [next()] return and the
    output file opens and takes every byte: [tbg] returns 0.  The file is
    the header, four zero bytes for every sample of the delay, and then the
    bytes of the bursts, as many of them as [numBurst] says, 201 or 72,
    each of four bytes for every sample pair of every pass; and there is a
    line on the console for every burst. *)
Theorem tbg_returns (c : cmdline D) b0 b b1 bk :
  toneBurst_new = Some b0 -> parse_args c b0 = Some b ->
  reset b = Some b1 -> nexts (Z.to_nat (numBurst b)) b1 = Some bk ->
  (Datatypes.S (Z.to_nat (numBurst b)) <= loop_limit)%nat ->
  exists (data : list Z) (cout : list (detail D)),
    tbg_main c
    = Some (0,
            wave_header (getSize b)
            ++ repeat 0 (4 * Z.to_nat (delay b)) ++ data,
            cout)
    /\ length data = (Z.to_nat (numBurst b) * burst_size b)%nat
    /\ length cout = Z.to_nat (numBurst b)
    /\ (numBurst b = if (argc c =? 6) && argv5_polar c then 72 else 201).
Proof.
  intros Hnew Hp Hr Hnexts Hlim.
  destruct (parse_args_inv c b0 b Hnew Hp) as (_ & Hnb & _).
  destruct (reset_inv _ _ Hr) as [Hbc Hrun].
  destruct (nexts_bursts _ _ _ Hnexts) as (bs & Hbs & Hlen & Hin).
  destruct (roundtrip_main_delay c b0 b b1 bs
              (Z.to_nat (numBurst b)) Hnew Hp Hr Hbs)
    as [Hg _].
  { lia. }
  { unfold LONG_MAX. destruct Hnb as [E|E]; rewrite Hbc, E; lia. }
  { exact Hlim. }
  exists (concat (map burst_bytes bs)), (map showDetail bs).
  split; [exact Hg|].
  split.
  { rewrite (length_concat_const (burst_size b)), length_map, Hlen;
      [reflexivity|].
    intros x Hx. apply in_map_iff in Hx. destruct Hx as (y & <- & Hy).
    destruct (Hin y Hy) as (i & bi & _ & Hni & ->).
    rewrite burst_bytes_size.
    rewrite (burst_size_same_run _ _ (nexts_same_run _ _ _ Hni)).
    apply (burst_size_same_run _ _ Hrun). }
  split; [rewrite length_map; exact Hlen|].
  apply (parse_args_mode c b0 b Hnew Hp).
Qed.

(** X3: whatever the arithmetic, [write] puts the same sample on both
    channels, and [tba] on the file [tbg] wrote, with the same command
    line, finds no difference between them: on every line the magnitudes,
    the levels, the phases and the backgrounds of the two channels are the
    same. *)
Theorem roundtrip_channels_agree (c : cmdline D) b0 b b1 bs (k : nat) :
  toneBurst_new = Some b0 -> parse_args c b0 = Some b ->
  reset b = Some b1 -> bursts k b1 = Some bs ->
  burstCount b1 = Z.of_nat k -> burstCount b1 <= LONG_MAX ->
  (Datatypes.S k <= loop_limit)%nat ->
  exists (file : ofstream) (cout : list (detail D))
         (lines : list (detail D * report D)),
    tbg_main c = Some (0, file, cout)
    /\ tba_main c file = Some (0, lines)
    /\ map fst lines = cout /\ length lines = k
    /\ Forall (fun line =>
                 abs2 (snd line) = abs1 (snd line)
                 /\ dB2 (snd line) = dB1 (snd line)
                 /\ phase2 (snd line) = phase1 (snd line)
                 /\ bkg2 (snd line) = bkg1 (snd line)) lines.
Proof.
  intros Hnew Hparse Hr Hk Hbc Hmax Hlim.
  destruct (roundtrip_main_delay c b0 b b1 bs k Hnew Hparse Hr Hk Hbc Hmax
              Hlim) as [Hg Ha].
  eexists. eexists. eexists.
  split; [exact Hg|]. split; [exact Ha|].
  split; [rewrite map_map; reflexivity|].
  split.
  { rewrite length_map. clear - Hk. revert b1 bs Hk.
    induction k as [|k IH]; intros b1 bs Hk; cbn [bursts] in Hk.
    - injection Hk as <-. reflexivity.
    - destruct (next b1) as [[[|] b2]|]; try discriminate.
      destruct (bursts k b2) as [bs'|] eqn:E; [|discriminate].
      injection Hk as <-. cbn [length]. f_equal. eapply IH. exact E. }
  apply Forall_forall. intros line Hline.
  apply in_map_iff in Hline. destruct Hline as (x & <- & _).
  cbn [snd].
  destruct (roundtrip_report_channels x) as (E1 & E2 & E3 & E4 & _).
  cbv zeta in *. tauto.
Qed.

End Delay.

(** ** The round trip, whatever the arithmetic that keeps the laws *)

Module Rounding.

Import Ideal.

Local Open Scope R_scope.

Lemma Rabs_mul_le (x y X Y : R) :
  Rabs x <= X -> Rabs y <= Y -> Rabs (x * y) <= X * Y.
Proof.
  intros Hx Hy. rewrite Rabs_mult.
  pose proof (Rabs_pos x). pose proof (Rabs_pos y).
  apply Rmult_le_compat; assumption.
Qed.

Lemma Rabs_le_add (x y X Y : R) :
  Rabs x <= X -> Rabs y <= Y -> Rabs (x + y) <= X + Y.
Proof.
  intros Hx Hy. apply Rle_trans with (Rabs x + Rabs y); [apply Rabs_triang|lra].
Qed.

Lemma Rabs_near (x a e A : R) :
  Rabs (x - a) <= e -> Rabs a <= A -> Rabs x <= A + e.
Proof.
  intros H1 H2. replace x with (a + (x - a)) by ring.
  apply Rabs_le_add; assumption.
Qed.

Section Rounded.

Context {D : Type} {ops : DoubleOps D}.
Variable fin : D -> Prop.
Variable val : D -> R.
Hypothesis dl : double_laws ops fin val.

(** *** Errors in absolute terms *)

Lemma mul_abs (x y : D) (a b ea eb A B e : R) :
  fin x -> fin y ->
  Rabs (val x - a) <= ea -> Rabs (val y - b) <= eb ->
  Rabs a <= A -> Rabs b <= B ->
  (A + ea) * (B + eb) <= 1000000000000000000000000000 ->
  ea * (B + eb) + A * eb + (A + ea) * (B + eb) * u64 + eta64 <= e ->
  fin (x * y)%dbl /\ Rabs (val (x * y)%dbl - a * b) <= e.
Proof.
  intros Fx Fy Hx Hy Ha Hb Hbig He.
  pose proof (Rabs_near _ _ _ _ Hx Ha) as Hvx.
  pose proof (Rabs_near _ _ _ _ Hy Hb) as Hvy.
  pose proof (Rabs_mul_le _ _ _ _ Hvx Hvy) as Hprod.
  pose proof dbl_max_big as Hmax.
  destruct (law_mul _ _ _ dl x y Fx Fy ltac:(lra)) as [F Herr].
  split; [exact F|].
  replace (val (x * y)%dbl - a * b)
    with ((val (x * y)%dbl - val x * val y)
          + ((val x - a) * val y + a * (val y - b))) by ring.
  pose proof (Rabs_mul_le _ _ _ _ Hx Hvy) as H1.
  pose proof (Rabs_mul_le _ _ _ _ Ha Hy) as H2.
  pose proof (Rabs_le_add _ _ _ _ H1 H2) as H3.
  pose proof u64_pos as Hu.
  assert (H4 : Rabs (val x * val y) * u64 <= (A + ea) * (B + eb) * u64)
    by (apply Rmult_le_compat_r; lra).
  eapply Rle_trans; [apply Rabs_triang|]. lra.
Qed.

Lemma add_abs (x y : D) (a b ea eb A e : R) :
  fin x -> fin y ->
  Rabs (val x - a) <= ea -> Rabs (val y - b) <= eb ->
  Rabs (a + b) <= A ->
  A + ea + eb <= 1000000000000000000000000000 ->
  ea + eb + (A + ea + eb) * u64 <= e ->
  fin (x + y)%dbl /\ Rabs (val (x + y)%dbl - (a + b)) <= e.
Proof.
  intros Fx Fy Hx Hy Hab Hbig He.
  assert (Hs : Rabs (val x + val y - (a + b)) <= ea + eb).
  { replace (val x + val y - (a + b)) with ((val x - a) + (val y - b)) by ring.
    apply Rabs_le_add; assumption. }
  pose proof (Rabs_near _ _ _ _ Hs Hab) as Hv.
  pose proof dbl_max_big as Hmax.
  destruct (law_add _ _ _ dl x y Fx Fy ltac:(lra)) as [F Herr].
  split; [exact F|].
  replace (val (x + y)%dbl - (a + b))
    with ((val (x + y)%dbl - (val x + val y)) + (val x + val y - (a + b)))
    by ring.
  pose proof u64_pos as Hu.
  assert (H4 : Rabs (val x + val y) * u64 <= (A + (ea + eb)) * u64)
    by (apply Rmult_le_compat_r; lra).
  eapply Rle_trans; [apply Rabs_triang|]. lra.
Qed.

Lemma sub_abs (x y : D) (a b ea eb A e : R) :
  fin x -> fin y ->
  Rabs (val x - a) <= ea -> Rabs (val y - b) <= eb ->
  Rabs (a - b) <= A ->
  A + ea + eb <= 1000000000000000000000000000 ->
  ea + eb + (A + ea + eb) * u64 <= e ->
  fin (x - y)%dbl /\ Rabs (val (x - y)%dbl - (a - b)) <= e.
Proof.
  intros Fx Fy Hx Hy Hab Hbig He.
  assert (Hs : Rabs (val x - val y - (a - b)) <= ea + eb).
  { replace (val x - val y - (a - b)) with ((val x - a) + - (val y - b))
      by ring.
    apply Rabs_le_add; [assumption|]. rewrite Rabs_Ropp. assumption. }
  pose proof (Rabs_near _ _ _ _ Hs Hab) as Hv.
  pose proof dbl_max_big as Hmax.
  destruct (law_sub _ _ _ dl x y Fx Fy ltac:(lra)) as [F Herr].
  split; [exact F|].
  replace (val (x - y)%dbl - (a - b))
    with ((val (x - y)%dbl - (val x - val y)) + (val x - val y - (a - b)))
    by ring.
  pose proof u64_pos as Hu.
  assert (H4 : Rabs (val x - val y) * u64 <= (A + (ea + eb)) * u64)
    by (apply Rmult_le_compat_r; lra).
  eapply Rle_trans; [apply Rabs_triang|]. lra.
Qed.

Lemma near_of_long (z : Z) :
  (- 2 ^ 53 <= z <= 2 ^ 53)%Z -> 0 <= IZR z -> near fin val (d_of_long z) (IZR z) 0.
Proof.
  intros Hz H0. destruct (law_of_long _ _ _ dl z Hz) as [F V].
  split; [exact F|]. rewrite V. unfold Rminus. rewrite Rplus_opp_r, Rabs_R0.
  lra.
Qed.

Lemma near_mul (x y : D) (a b r1 r2 r : R) :
  near fin val x a r1 -> near fin val y b r2 -> 0 < a -> 0 < b ->
  0 <= r1 <= 1 / 10 -> 0 <= r2 <= 1 / 10 ->
  1 / 1000000000000 <= a * b <= 10000000000000000000000000 ->
  r1 + r2 + r1 * r2 + 2 * u64 <= r ->
  near fin val (x * y)%dbl (a * b) r.
Proof.
  intros [Fx Hx] [Fy Hy] Ha Hb Hr1 Hr2 Hab Hr.
  pose proof u64_pos as Hu. pose proof u64_le as Hu'.
  pose proof eta64_le as Heta. pose proof eta64_pos as Heta0.
  assert (Hab0 : 0 < a * b) by (apply Rmult_lt_0_compat; assumption).
  destruct (mul_abs x y a b (r1 * a) (r2 * b) a b (r * (a * b)) Fx Fy Hx Hy)
    as [F H].
  - rewrite Rabs_pos_eq; lra.
  - rewrite Rabs_pos_eq; lra.
  - replace ((a + r1 * a) * (b + r2 * b))
      with (a * b * ((1 + r1) * (1 + r2))) by ring.
    assert ((1 + r1) * (1 + r2) <= 2) by nra. nra.
  - replace (r1 * a * (b + r2 * b) + a * (r2 * b)
             + (a + r1 * a) * (b + r2 * b) * u64)
      with (a * b * (r1 + r2 + r1 * r2 + (1 + r1) * (1 + r2) * u64)) by ring.
    assert (H1 : (1 + r1) * (1 + r2) <= 3 / 2) by nra.
    assert (H2 : (1 + r1) * (1 + r2) * u64 <= 3 / 2 * u64)
      by (apply Rmult_le_compat_r; lra).
    assert (H3 : eta64 <= a * b * (u64 / 2)).
    { apply Rle_trans with (u64 / 1000000000000000000000000000000);
        [exact Heta|].
      apply Rle_trans with (1 / 1000000000000 * (u64 / 2)); [lra|].
      apply Rmult_le_compat_r; lra. }
    apply Rle_trans with (a * b * (r1 + r2 + r1 * r2 + 2 * u64)).
    + replace (a * b * (r1 + r2 + r1 * r2 + 2 * u64))
        with (a * b * (r1 + r2 + r1 * r2 + 3 / 2 * u64) + a * b * (u64 / 2))
        by field.
      apply Rplus_le_compat; [|exact H3].
      apply Rmult_le_compat_l; lra.
    + rewrite (Rmult_comm r). apply Rmult_le_compat_l; lra.
  - split; assumption.
Qed.

Lemma div_abs (x y : D) (a b ea r2 A e : R) :
  fin x -> near fin val y b r2 ->
  Rabs (val x - a) <= ea -> Rabs a <= A ->
  0 < b -> 0 <= r2 <= 1 / 10 ->
  (A + ea) / b <= 10000000000000000000000000 ->
  (ea + A * r2) * (10 / 9) / b * (1 + u64) + A / b * u64 + eta64 <= e ->
  fin (x / y)%dbl /\ Rabs (val (x / y)%dbl - a / b) <= e.
Proof.
  intros Fx [Fy Hy] Hx Ha Hb Hr2 Hbig He.
  pose proof u64_pos as Hu. pose proof u64_le as Hu'.
  pose proof dbl_max_big as Hmax.
  assert (Hea : 0 <= ea) by (pose proof (Rabs_pos (val x - a)); lra).
  assert (HA : 0 <= A) by (pose proof (Rabs_pos a); lra).
  apply Rabs_bounds in Hy.
  assert (Hvy : 9 / 10 * b <= val y) by nra.
  assert (Hvy0 : 0 < val y) by nra.
  set (t := / val y).
  assert (Ht0 : 0 < t) by (apply Rinv_0_lt_compat; exact Hvy0).
  assert (Hib : 0 < / b) by (apply Rinv_0_lt_compat; exact Hb).
  assert (Ht : t <= 10 / 9 * / b).
  { unfold t. replace (10 / 9 * / b) with (/ (9 / 10 * b)) by (field; lra).
    apply Rinv_le_contravar; lra. }
  assert (Hdt : Rabs (t - / b) <= r2 * (10 / 9 * / b)).
  { replace (t - / b) with ((b - val y) * / b * t) by (unfold t; field; lra).
    assert (H1 : Rabs (b - val y) <= r2 * b) by (apply Rabs_le; lra).
    rewrite !Rabs_mult, (Rabs_pos_eq (/ b)), (Rabs_pos_eq t) by lra.
    apply Rle_trans with (r2 * b * / b * t).
    - apply Rmult_le_compat_r; [lra|]. apply Rmult_le_compat_r; lra.
    - replace (r2 * b * / b * t) with (r2 * t) by (field; lra).
      apply Rmult_le_compat_l; lra. }
  assert (Hq : Rabs (val x / val y - a / b) <= (ea + A * r2) * (10 / 9) / b).
  { replace (val x / val y - a / b)
      with ((val x - a) * t + a * (t - / b)) by (unfold t; field; lra).
    replace ((ea + A * r2) * (10 / 9) / b)
      with (ea * (10 / 9 * / b) + A * (r2 * (10 / 9 * / b))) by (field; lra).
    apply Rabs_le_add.
    - apply Rabs_mul_le; [exact Hx|]. rewrite Rabs_pos_eq; lra.
    - apply Rabs_mul_le; assumption. }
  assert (Hab : Rabs (a / b) <= A / b).
  { unfold Rdiv. rewrite Rabs_mult, (Rabs_pos_eq (/ b)) by lra.
    apply Rmult_le_compat_r; lra. }
  pose proof (Rabs_near _ _ _ _ Hq Hab) as Hv.
  assert (Hr2' : (ea + A * r2) * (10 / 9) / b <= (A + ea) / b * (10 / 9)).
  { replace ((ea + A * r2) * (10 / 9) / b)
      with ((ea + A * r2) * (10 / 9) * / b) by (field; lra).
    replace ((A + ea) / b * (10 / 9))
      with ((A + ea) * (10 / 9) * / b) by (field; lra).
    apply Rmult_le_compat_r; [lra|]. nra. }
  assert (HAb : 0 <= A / b) by (unfold Rdiv; apply Rmult_le_pos; lra).
  assert (HAb' : A / b <= (A + ea) / b).
  { unfold Rdiv. apply Rmult_le_compat_r; lra. }
  destruct (law_div _ _ _ dl x y Fx Fy ltac:(lra) ltac:(lra)) as [F Herr].
  split; [exact F|].
  replace (val (x / y)%dbl - a / b)
    with ((val (x / y)%dbl - val x / val y) + (val x / val y - a / b))
    by ring.
  assert (H4 : Rabs (val x / val y) * u64
               <= (A / b + (ea + A * r2) * (10 / 9) / b) * u64)
    by (apply Rmult_le_compat_r; lra).
  eapply Rle_trans; [apply Rabs_triang|]. lra.
Qed.

Lemma near_div (x y : D) (a b r1 r2 r : R) :
  near fin val x a r1 -> near fin val y b r2 -> 0 < a -> 0 < b ->
  0 <= r1 <= 1 / 10 -> 0 <= r2 <= 1 / 10 ->
  1 / 1000000000000 <= a / b <= 1000000000000000000000000 ->
  (r1 + r2) * (10 / 9) + 2 * u64 <= r ->
  near fin val (x / y)%dbl (a / b) r.
Proof.
  intros [Fx Hx] Hy Ha Hb Hr1 Hr2 Hab Hr.
  pose proof u64_pos as Hu. pose proof u64_le as Hu'.
  pose proof eta64_le as Heta. pose proof eta64_pos as Heta0.
  assert (Hib : 0 < / b) by (apply Rinv_0_lt_compat; exact Hb).
  set (q := a / b) in *.
  assert (Hq0 : 0 < q) by lra.
  destruct (div_abs x y a b (r1 * a) r2 a (r * q) Fx Hy Hx) as [F H].
  - rewrite Rabs_pos_eq; lra.
  - exact Hb.
  - exact Hr2.
  - replace ((a + r1 * a) / b) with (q * (1 + r1)) by (unfold q; field; lra).
    nra.
  - replace ((r1 * a + a * r2) * (10 / 9) / b)
      with (q * ((r1 + r2) * (10 / 9))) by (unfold q; field; lra).
    fold q.
    assert (H3 : eta64 <= q * (u64 / 2)).
    { apply Rle_trans with (u64 / 1000000000000000000000000000000);
        [exact Heta|].
      apply Rle_trans with (1 / 1000000000000 * (u64 / 2)); [lra|].
      apply Rmult_le_compat_r; lra. }
    assert (H4 : (r1 + r2) * (10 / 9) * u64 <= 1 / 4 * u64)
      by (apply Rmult_le_compat_r; lra).
    apply Rle_trans
      with (q * ((r1 + r2) * (10 / 9) + 3 / 2 * u64) + q * (u64 / 2)).
    + apply Rplus_le_compat; [|exact H3].
      replace (q * ((r1 + r2) * (10 / 9)) * (1 + u64) + q * u64)
        with (q * ((r1 + r2) * (10 / 9) + (r1 + r2) * (10 / 9) * u64 + u64))
        by ring.
      apply Rmult_le_compat_l; lra.
    + replace (q * ((r1 + r2) * (10 / 9) + 3 / 2 * u64) + q * (u64 / 2))
        with (q * ((r1 + r2) * (10 / 9) + 2 * u64)) by field.
      rewrite (Rmult_comm r). apply Rmult_le_compat_l; lra.
  - split; assumption.
Qed.

End Rounded.

(** *** Sums in floating point *)

Lemma sum_step_bound (mu Mr Bt et u : R) :
  0 <= mu -> mu + 1 <= Mr -> 0 <= et <= Bt -> 0 <= u -> 4 * u * Mr <= 1 ->
  let c := et + 2 * u * Mr * (Bt + et) in
  mu * c + et + ((mu + 1) * Bt + mu * c + et) * u <= (mu + 1) * c
  /\ (mu + 1) * Bt + mu * c + et <= 2 * (Mr * (Bt + et)).
Proof.
  intros Hmu HMr Het Hu HuM c.
  assert (Hc0 : 0 <= c).
  { unfold c. assert (0 <= 2 * u * Mr * (Bt + et)); [|lra].
    apply Rmult_le_pos; [|lra]. apply Rmult_le_pos; lra. }
  assert (Hc : c <= Bt + et).
  { unfold c.
    assert (2 * u * Mr * (Bt + et) <= 1 / 2 * (Bt + et)); [|lra].
    apply Rmult_le_compat_r; lra. }
  assert (H1 : mu * c <= Mr * (Bt + et)).
  { apply Rmult_le_compat; lra. }
  assert (H2 : (mu + 1) * Bt + et <= Mr * (Bt + et)).
  { assert ((mu + 1) * Bt <= Mr * Bt) by (apply Rmult_le_compat_r; lra).
    assert (et <= Mr * et) by nra. lra. }
  assert (H3 : (mu + 1) * Bt + mu * c + et <= 2 * (Mr * (Bt + et))) by lra.
  split; [|exact H3].
  assert (H4 : ((mu + 1) * Bt + mu * c + et) * u
               <= 2 * (Mr * (Bt + et)) * u)
    by (apply Rmult_le_compat_r; lra).
  replace ((mu + 1) * c) with (mu * c + et + 2 * u * Mr * (Bt + et))
    by (unfold c; ring).
  lra.
Qed.

Section FoldSum.

Context {D : Type} {ops : DoubleOps D}.
Variable fin : D -> Prop.
Variable val : D -> R.
Hypothesis dl : double_laws ops fin val.

Variable g : Z -> D.
Variable x : Z -> R.
Variables Bt et : R.
Variable M : nat.

Hypothesis Het : 0 <= et <= Bt.
Hypothesis HM : 4 * u64 * INR M <= 1.
Hypothesis Hbig : INR M * (Bt + et) <= 10000000000000000000000000.

Lemma fold_seq_near (k : nat) : forall (j0 : nat) (a : D) (S : R) (m : nat),
  (forall j, (j0 <= j < j0 + k)%nat ->
     fin (g (Z.of_nat j))
     /\ Rabs (val (g (Z.of_nat j)) - x (Z.of_nat j)) <= et
     /\ Rabs (x (Z.of_nat j)) <= Bt) ->
  fin a -> Rabs (val a - S) <= INR m * sum_err Bt et M ->
  Rabs S <= INR m * Bt -> (m + k <= M)%nat ->
  let a' := fold_left (fun a j => (a + g j)%dbl) (map Z.of_nat (seq j0 k)) a in
  fin a'
  /\ Rabs (val a' - (S + csum k (Z.of_nat j0) x)) <= INR (m + k) * sum_err Bt et M
  /\ Rabs (S + csum k (Z.of_nat j0) x) <= INR (m + k) * Bt.
Proof.
  induction k as [|k IH]; intros j0 a S m Hg Fa Ha HS Hm;
    cbn [seq map fold_left csum].
  - rewrite Nat.add_0_r, Rplus_0_r. auto.
  - destruct (Hg j0 ltac:(lia)) as (Fg & Hgx & Hx).
    pose proof u64_pos as Hu.
    assert (Hmu : 0 <= INR m) by apply pos_INR.
    assert (HMr : INR m + 1 <= INR M).
    { rewrite <- S_INR. apply le_INR. lia. }
    destruct (sum_step_bound (INR m) (INR M) Bt et u64 Hmu HMr Het
                ltac:(lra) HM) as [Hstep Hsize].
    fold (sum_err Bt et M) in Hstep, Hsize.
    assert (HS1 : Rabs (S + x (Z.of_nat j0)) <= (INR m + 1) * Bt).
    { replace ((INR m + 1) * Bt) with (INR m * Bt + Bt) by ring.
      apply Rabs_le_add; assumption. }
    destruct (add_abs fin val dl a (g (Z.of_nat j0)) S (x (Z.of_nat j0))
                (INR m * sum_err Bt et M) et ((INR m + 1) * Bt)
                ((INR m + 1) * sum_err Bt et M) Fa Fg Ha Hgx HS1)
      as [F1 H1]; [lra|lra|].
    rewrite <- S_INR in H1, HS1.
    destruct (IH (Datatypes.S j0) (a + g (Z.of_nat j0))%dbl
                (S + x (Z.of_nat j0)) (Datatypes.S m)) as (F2 & H2 & H3);
      auto; try lia.
    { intros j Hj. apply Hg. lia. }
    replace (Z.of_nat j0 + 1)%Z with (Z.of_nat (Datatypes.S j0)) by lia.
    replace (m + Datatypes.S k)%nat with (Datatypes.S m + k)%nat by lia.
    rewrite <- Rplus_assoc. auto.
Qed.

End FoldSum.

(** [q] turns in [N] samples, [q] not a multiple of [N]: the samples of
    the cosine and of the sine add up to nothing. *)
Lemma csum_turns (N q : nat) :
  (0 < N)%nat -> (q mod N <> 0)%nat ->
  let phi := 2 * PI * INR q / INR N in
  csum N 0 (fun i => cos (IZR i * phi)) = 0
  /\ csum N 0 (fun i => sin (IZR i * phi)) = 0.
Proof.
  intros HN Hq phi.
  set (r := (q mod N)%nat). set (k := (q / N)%nat).
  assert (Hr : (0 < r < N)%nat).
  { unfold r. pose proof (Nat.mod_upper_bound q N ltac:(lia)). lia. }
  assert (Eq : q = (N * k + r)%nat) by (apply Nat.div_mod_eq).
  destruct (Correlation.csum_whole_periods N r Hr) as [C S].
  cbv zeta in C, S.
  assert (HNr : 0 < INR N) by (apply lt_0_INR; lia).
  assert (Hang : forall i : Z, (0 <= i)%Z ->
            IZR i * phi
            = IZR i * (2 * PI * INR r / INR N)
              + 2 * INR (Z.to_nat i * k) * PI).
  { intros i Hi. unfold phi. rewrite Eq, plus_INR, !mult_INR.
    rewrite (INR_IZR_INZ (Z.to_nat i)), Z2Nat.id by lia. field. lra. }
  split.
  - rewrite <- C. apply Correlation.csum_ext. intros i Hi.
    rewrite Hang by lia. apply cos_period.
  - rewrite <- S. apply Correlation.csum_ext. intros i Hi.
    rewrite Hang by lia. apply sin_period.
Qed.

(** With [n] turns in [N] samples, and [N] dividing none of [n], [2 n] and
    [3 n], the burst against the cosine of its frequency adds up to
    [N / 2], and against the sine to nothing. *)
Lemma wave_turns (theta : R) (N n : nat) :
  (0 < N)%nat ->
  (n mod N <> 0)%nat -> ((2 * n) mod N <> 0)%nat ->
  ((3 * n) mod N <> 0)%nat ->
  theta = 2 * PI * INR n / INR N ->
  csum N 0 (fun i => (cos (theta * IZR i) - cos (2 * theta * IZR i))
                     * cos (theta * IZR i)) = INR N / 2
  /\ csum N 0 (fun i => (cos (theta * IZR i) - cos (2 * theta * IZR i))
                        * sin (theta * IZR i)) = 0.
Proof.
  intros HN0 H1 H2 H3 Htheta.
  assert (HN : 0 < INR N) by (apply lt_0_INR; lia).
  destruct (csum_turns N n HN0 H1) as [C1 S1].
  destruct (csum_turns N (2 * n) HN0 H2) as [C2 S2].
  destruct (csum_turns N (3 * n) HN0 H3) as [C3 S3].
  cbv zeta in C1, S1, C2, S2, C3, S3.
  rewrite mult_INR in C2, S2, C3, S3.
  change (INR 2) with 2 in C2, S2.
  replace (INR 3) with 3 in C3, S3 by (cbn; ring).
  split.
  - rewrite (Correlation.csum_ext N 0 _
               (fun i => 1 / 2
                         + 1 / 2 * cos (IZR i * (2 * PI * (2 * INR n) / INR N))
                         + (- (1 / 2))
                           * cos (IZR i * (2 * PI * (3 * INR n) / INR N))
                         + (- (1 / 2))
                           * cos (IZR i * (2 * PI * INR n / INR N)))).
    + rewrite Correlation.csum_combination, C1, C2, C3. field.
    + intros i _.
      replace (2 * theta * IZR i) with (2 * (theta * IZR i)) by ring.
      rewrite Correlation.wave_cos_product. rewrite Htheta.
      replace (IZR i * (2 * PI * (2 * INR n) / INR N))
        with (2 * (2 * PI * INR n / INR N * IZR i)) by (field; lra).
      replace (IZR i * (2 * PI * (3 * INR n) / INR N))
        with (3 * (2 * PI * INR n / INR N * IZR i)) by (field; lra).
      replace (IZR i * (2 * PI * INR n / INR N))
        with (2 * PI * INR n / INR N * IZR i) by (field; lra).
      ring.
  - rewrite (Correlation.csum_ext N 0 _
               (fun i => 0
                         + 1 / 2 * sin (IZR i * (2 * PI * (2 * INR n) / INR N))
                         + (- (1 / 2))
                           * sin (IZR i * (2 * PI * (3 * INR n) / INR N))
                         + 1 / 2
                           * sin (IZR i * (2 * PI * INR n / INR N)))).
    + rewrite Correlation.csum_combination, S1, S2, S3. ring.
    + intros i _.
      replace (2 * theta * IZR i) with (2 * (theta * IZR i)) by ring.
      rewrite Correlation.wave_sin_product. rewrite Htheta.
      replace (IZR i * (2 * PI * (2 * INR n) / INR N))
        with (2 * (2 * PI * INR n / INR N * IZR i)) by (field; lra).
      replace (IZR i * (2 * PI * (3 * INR n) / INR N))
        with (3 * (2 * PI * INR n / INR N * IZR i)) by (field; lra).
      replace (IZR i * (2 * PI * INR n / INR N))
        with (2 * PI * INR n / INR N * IZR i) by (field; lra).
      ring.
Qed.

(** *** Cosine, sine, exponential and square root near a point *)

Lemma sin_abs_le (x : R) : Rabs (sin x) <= Rabs x.
Proof.
  assert (H : forall y, 0 <= y -> Rabs (sin y) <= y).
  { intros y Hy. destruct (Rle_lt_dec 1 y) as [H1|H1].
    - apply Rle_trans with 1; [|exact H1].
      apply Rabs_le. apply SIN_bound.
    - destruct (Req_dec y 0) as [->|Hne].
      + rewrite sin_0, Rabs_R0. lra.
      + assert (Hy0 : 0 < y) by lra.
        pose proof (sin_lt_x y Hy0).
        pose proof PI_12_digits.
        pose proof (sin_gt_0 y Hy0 ltac:(lra)).
        rewrite Rabs_pos_eq; lra. }
  destruct (Rle_lt_dec 0 x) as [Hx|Hx].
  - rewrite (Rabs_pos_eq x) by exact Hx. apply H. exact Hx.
  - rewrite <- (Rabs_Ropp (sin x)), <- sin_neg.
    rewrite <- (Rabs_Ropp x), (Rabs_pos_eq (- x)) by lra.
    apply H. lra.
Qed.

Lemma cos_near (a b : R) : Rabs (cos a - cos b) <= Rabs (a - b).
Proof.
  rewrite form2.
  replace (-2 * sin ((a - b) / 2) * sin ((a + b) / 2))
    with ((2 * sin ((a - b) / 2)) * - sin ((a + b) / 2)) by ring.
  replace (Rabs (a - b)) with (Rabs (a - b) * 1) by ring.
  apply Rabs_mul_le.
  - rewrite Rabs_mult, (Rabs_pos_eq 2) by lra.
    pose proof (sin_abs_le ((a - b) / 2)) as H.
    replace (Rabs ((a - b) / 2)) with (Rabs (a - b) / 2) in H.
    + lra.
    + unfold Rdiv. rewrite Rabs_mult, (Rabs_pos_eq (/ 2)) by lra. reflexivity.
  - rewrite Rabs_Ropp. apply Rabs_le. apply SIN_bound.
Qed.

Lemma sin_near (a b : R) : Rabs (sin a - sin b) <= Rabs (a - b).
Proof.
  rewrite form4.
  replace (2 * cos ((a + b) / 2) * sin ((a - b) / 2))
    with ((2 * sin ((a - b) / 2)) * cos ((a + b) / 2)) by ring.
  replace (Rabs (a - b)) with (Rabs (a - b) * 1) by ring.
  apply Rabs_mul_le.
  - rewrite Rabs_mult, (Rabs_pos_eq 2) by lra.
    pose proof (sin_abs_le ((a - b) / 2)) as H.
    replace (Rabs ((a - b) / 2)) with (Rabs (a - b) / 2) in H.
    + lra.
    + unfold Rdiv. rewrite Rabs_mult, (Rabs_pos_eq (/ 2)) by lra. reflexivity.
  - apply Rabs_le. apply COS_bound.
Qed.

Lemma exp_near_0 (v : R) : Rabs v <= 1 / 2 -> Rabs (exp v - 1) <= 2 * Rabs v.
Proof.
  intros Hv. apply Rabs_bounds in Hv.
  pose proof (exp_ineq1_le v) as Hlo.
  pose proof (exp_ineq1_le (- v)) as Hup.
  pose proof (exp_pos v) as Hp.
  assert (Hinv : exp (- v) * exp v = 1).
  { rewrite <- exp_plus. replace (- v + v) with 0 by ring. apply exp_0. }
  assert (Hle : exp v <= 1 + 2 * Rabs v).
  { assert (H1 : (1 - v) * exp v <= 1) by nra.
    unfold Rabs. destruct (Rcase_abs v); nra. }
  apply Rabs_le. unfold Rabs in *. destruct (Rcase_abs v); lra.
Qed.

Lemma div_bounds (a b lo hi : R) :
  0 < b -> lo * b <= a <= hi * b -> lo <= a / b <= hi.
Proof.
  intros Hb [H1 H2]. split.
  - apply Rmult_le_reg_r with b; [exact Hb|].
    unfold Rdiv. rewrite Rmult_assoc, Rinv_l by lra. lra.
  - apply Rmult_le_reg_r with b; [exact Hb|].
    unfold Rdiv. rewrite Rmult_assoc, Rinv_l by lra. lra.
Qed.

Lemma wave_at_bound (t : R) (j : Z) : Rabs (wave_at t j) <= 24000.
Proof.
  unfold wave_at. apply Rabs_le.
  pose proof (COS_bound (t * IZR j)).
  pose proof (COS_bound (2 * t * IZR j)). lra.
Qed.

Section WindowSums.

Context {D : Type} {ops : DoubleOps D} {lm : Libm D}.

Implicit Types b : toneBurst D.

Lemma signal_window_indices b :
  (0 <= duration b <= interval b)%Z ->
  signal_window b = indices (duration b).
Proof.
  intros Hd. unfold signal_window, indices.
  replace (Z.to_nat (interval b))
    with (Z.to_nat (duration b) + Z.to_nat (interval b - duration b))%nat
    by lia.
  rewrite seq_app, map_app, filter_app.
  rewrite filter_all, filter_none.
  - apply app_nil_r.
  - intros x Hx. apply in_map_seq in Hx. unfold in_signal.
    apply Z.ltb_ge. lia.
  - intros x Hx. apply in_map_seq in Hx. unfold in_signal.
    apply Z.ltb_lt. lia.
Qed.

Lemma fold_add_sample_parts b (v : Z -> Z) (w : list Z) :
  forall s : complex D,
  fst (fold_left (add_sample b v) w s)
  = fold_left
      (fun a j => (a + fst (c_rscale (d_of_long (v j)) (ccoeff b j)))%dbl)
      w (fst s)
  /\ snd (fold_left (add_sample b v) w s)
     = fold_left
         (fun a j => (a + snd (c_rscale (d_of_long (v j)) (ccoeff b j)))%dbl)
         w (snd s).
Proof.
  induction w as [|j w IH]; intros s; cbn [fold_left].
  - split; reflexivity.
  - destruct (IH (add_sample b v s j)) as [H1 H2]. rewrite H1, H2.
    split; reflexivity.
Qed.

(** The response sum of channel 1 when [read] takes the samples [v], the
    same in every pass. *)
Lemma passes_window_sum b (v : Z -> Z) (n : nat) :
  forall (i : Z) (l : read_locals D),
  (0 <= duration b <= interval b)%Z ->
  sum1 (for_from n i
          (fun _ l =>
             for_long (interval b) (fun j l => accumulate b j (v j) (v j) l) l)
          l)
  = window_sum b (indices (duration b)) (fun _ => v) n i (sum1 l).
Proof.
  induction n as [|n IH]; intros i l Hd; cbn [for_from window_sum].
  - reflexivity.
  - rewrite IH by exact Hd. f_equal. unfold for_long.
    destruct (pass_sums b v v (Z.to_nat (interval b)) 0 l) as (H1 & _).
    cbv zeta in H1. change (Z.of_nat 0) with 0%Z in H1. rewrite H1.
    fold (indices (interval b)). fold (signal_window b).
    rewrite signal_window_indices by exact Hd. reflexivity.
Qed.

End WindowSums.

(** The wave against the cosine and the sine of its own angle adds up to
    6000 a sample and to nothing. *)
Lemma wave_at_sums (t : R) (N n : nat) :
  (0 < N)%nat ->
  (n mod N <> 0)%nat -> ((2 * n) mod N <> 0)%nat ->
  ((3 * n) mod N <> 0)%nat ->
  t = 2 * PI * INR n / INR N ->
  csum N 0 (fun j => wave_at t j * cos (t * IZR j)) = 6000 * INR N
  /\ csum N 0 (fun j => wave_at t j * sin (t * IZR j)) = 0.
Proof.
  intros HN H1 H2 H3 Ht.
  destruct (wave_turns t N n HN H1 H2 H3 Ht) as [Wc Ws].
  split.
  - rewrite (Correlation.csum_ext N 0 _
               (fun i => 12000 * ((cos (t * IZR i) - cos (2 * t * IZR i))
                                  * cos (t * IZR i)))).
    + rewrite Correlation.csum_scal, Wc. field.
    + intros i _. unfold wave_at. ring.
  - rewrite (Correlation.csum_ext N 0 _
               (fun i => 12000 * ((cos (t * IZR i) - cos (2 * t * IZR i))
                                  * sin (t * IZR i)))).
    + rewrite Correlation.csum_scal, Ws. ring.
    + intros i _. unfold wave_at. ring.
Qed.

Lemma sqrt_near_1 (X e : R) :
  0 <= e <= 1 / 20 -> Rabs (X - 1) <= e ->
  Rabs (sqrt X - 1) <= 51 / 100 * e.
Proof.
  intros He HX. apply Rabs_bounds in HX. apply Rabs_le. split.
  - assert (H : 1 - 51 / 100 * e <= sqrt X); [|lra].
    rewrite <- (sqrt_square (1 - 51 / 100 * e)) by lra.
    apply sqrt_le_1_alt. nra.
  - assert (H : sqrt X <= 1 + 51 / 100 * e); [|lra].
    rewrite <- (sqrt_square (1 + 51 / 100 * e)) by lra.
    apply sqrt_le_1_alt. nra.
Qed.

Section Burst.

Context {D : Type} {ops : DoubleOps D} {lm : Libm D}.
Variable fin : D -> Prop.
Variable val : D -> R.
Hypothesis dl : double_laws ops fin val.
Hypothesis ll : libm_laws lm fin val.

Variable b : toneBurst D.

Hypothesis Hcalc : calculated b.
Hypothesis Hsr : (1 <= sampleRate b <= LONG_MAX)%Z.
Hypothesis Hn : (1 <= numCycle b <= 44100)%Z.
Hypothesis Hd : (1 <= duration b <= interval b)%Z.
Hypothesis Hi : (interval b <= 44100)%Z.
Hypothesis Hdiv : forall k : Z,
  (1 <= k <= 3)%Z -> ((k * numCycle b) mod duration b <> 0)%Z.

Lemma burst_numbers :
  1 <= IZR (sampleRate b) <= 2147483647
  /\ 1 <= IZR (numCycle b) <= 44100
  /\ 2 <= IZR (duration b) <= 44100.
Proof.
  unfold LONG_MAX in Hsr.
  assert (H2 : (2 <= duration b)%Z).
  { destruct (Z.eq_dec (duration b) 1) as [E|]; [|lia].
    exfalso. apply (Hdiv 1 ltac:(lia)). rewrite E. apply Z.mod_1_r. }
  repeat split; apply IZR_le; lia.
Qed.

Lemma cycle_angle_range :
  1 / 10000 <= cycle_angle b <= 140000.
Proof.
  destruct burst_numbers as (_ & Hn' & HN).
  pose proof PI_12_digits as HPI. unfold cycle_angle.
  apply div_bounds; [lra|]. nra.
Qed.

(** The step of the angle as [calc] computes it. *)
Lemma factor_near :
  near fin val (factor b) (cycle_angle b) (4 / 10000000000000).
Proof.
  destruct Hcalc as (_ & _ & Ha & Hf).
  destruct burst_numbers as (HS & Hn' & HN).
  pose proof PI_12_digits as HPI.
  pose proof u64_pos as Hu. pose proof u64_le as Hu'.
  set (S := IZR (sampleRate b)) in *. set (n := IZR (numCycle b)) in *.
  set (N := IZR (duration b)) in *.
  assert (L1 : near fin val (d_of_long 1) 1 0)
    by (apply (near_of_long fin val dl 1); [lia|lra]).
  assert (L2 : near fin val (d_of_long 2) 2 0)
    by (apply (near_of_long fin val dl 2); [lia|lra]).
  assert (LS : near fin val (d_of_long (sampleRate b)) S 0).
  { apply (near_of_long fin val dl); unfold LONG_MAX in Hsr; [lia|].
    fold S. lra. }
  assert (Ln : near fin val (d_of_long (numCycle b)) n 0).
  { apply (near_of_long fin val dl); [lia|]. fold n. lra. }
  assert (LN : near fin val (d_of_long (duration b)) N 0).
  { apply (near_of_long fin val dl); [lia|]. fold N. lra. }
  assert (X1 : near fin val (d_of_long 1 * d_of_long (sampleRate b))%dbl
                 (1 * S) (1 / 1000000000000000)).
  { apply (near_mul fin val dl _ _ 1 S 0 0); auto; lra. }
  assert (X2 : near fin val
                 (d_of_long 1 * d_of_long (sampleRate b)
                  * d_of_long (numCycle b))%dbl
                 (1 * S * n) (2 / 1000000000000000)).
  { apply (near_mul fin val dl _ _ (1 * S) n (1 / 1000000000000000) 0);
      auto; try lra.
    split; nra. }
  assert (HA : near fin val (actualFreq b) (1 * S * n / N)
                 (3 / 1000000000000000)).
  { rewrite Ha.
    apply (near_div fin val dl _ _ (1 * S * n) N (2 / 1000000000000000) 0);
      auto; try lra; try nra.
    apply div_bounds; [lra|]. nra. }
  assert (HP : near fin val d_pi PI (1 / 3000000000000)).
  { destruct (law_pi _ _ _ dl) as [F H]. split; [exact F|].
    unfold pi_err in H. lra. }
  assert (Y1 : near fin val (d_of_long 2 * d_pi)%dbl (2 * PI)
                 (34 / 100000000000000)).
  { apply (near_mul fin val dl _ _ 2 PI 0 (1 / 3000000000000));
      auto; try lra. }
  assert (Hq : 1 / 44100 <= 1 * S * n / N <= 100000000000000).
  { apply div_bounds; [lra|]. nra. }
  assert (Y2 : near fin val (d_of_long 2 * d_pi * actualFreq b)%dbl
                 (2 * PI * (1 * S * n / N)) (35 / 100000000000000)).
  { apply (near_mul fin val dl _ _ (2 * PI) (1 * S * n / N)
             (34 / 100000000000000) (3 / 1000000000000000));
      auto; try lra; try nra. }
  rewrite Hf.
  replace (cycle_angle b) with (2 * PI * (1 * S * n / N) / S)
    by (unfold cycle_angle; fold n N; field; lra).
  apply (near_div fin val dl _ _ (2 * PI * (1 * S * n / N)) S
           (35 / 100000000000000) 0); auto; try lra; try nra.
  replace (2 * PI * (1 * S * n / N) / S) with (2 * PI * n / N)
    by (field; lra).
  apply div_bounds; [lra|]. nra.
Qed.

Section Samples.

Variable j : Z.
Hypothesis Hj : (0 <= j < duration b)%Z.

Lemma index_number : 0 <= IZR j <= 44100 /\ IZR j + 1 <= IZR (duration b).
Proof.
  split; [split; apply IZR_le; lia|].
  rewrite <- (plus_IZR j 1). apply IZR_le. lia.
Qed.

(** The angle of the sample is less than [numCycle] turns. *)
Lemma angle_range : 0 <= cycle_angle b * IZR j <= 277089.
Proof.
  destruct burst_numbers as (_ & Hn' & HN).
  destruct index_number as [Hjn Hjd].
  pose proof PI_12_digits as HPI. unfold cycle_angle.
  set (n := IZR (numCycle b)) in *. set (N := IZR (duration b)) in *.
  replace (2 * PI * n / N * IZR j) with (2 * PI * n * (IZR j / N))
    by (field; lra).
  assert (Hq : 0 <= IZR j / N <= 1) by (apply div_bounds; lra).
  assert (Hp : 0 <= 2 * PI * n <= 277089) by nra.
  split; [apply Rmult_le_pos; lra|].
  apply Rle_trans with (2 * PI * n * 1); [|lra].
  apply Rmult_le_compat_l; lra.
Qed.

(** The angle of the sample, [factor * j]. *)
Lemma angle_near :
  let x := (factor b * d_of_long j)%dbl in
  fin x
  /\ Rabs (val x - cycle_angle b * IZR j) <= 2 / 10000000
  /\ Rabs (val x) <= 300000.
Proof.
  intros x. unfold x. clear x. destruct factor_near as [F H].
  pose proof cycle_angle_range as Hr. pose proof angle_range as Hp.
  destruct index_number as [Hjn _].
  pose proof u64_pos as Hu. pose proof u64_le as Hu'.
  pose proof eta64_le as Heta. pose proof eta64_pos as Heta0.
  destruct (law_of_long _ _ _ dl j ltac:(lia)) as [Fj Vj].
  set (t := cycle_angle b) in *. set (P := t * IZR j) in *.
  destruct (mul_abs fin val dl (factor b) (d_of_long j)
              t (IZR j) (4 / 10000000000000 * t) 0 t (IZR j)
              (2 / 10000000) F Fj H) as [Fx Hx].
  - rewrite Vj. unfold Rminus. rewrite Rplus_opp_r, Rabs_R0. lra.
  - rewrite Rabs_pos_eq; lra.
  - rewrite Rabs_pos_eq; lra.
  - replace ((t + 4 / 10000000000000 * t) * (IZR j + 0))
      with (P * (1 + 4 / 10000000000000)) by (unfold P; ring).
    lra.
  - replace (4 / 10000000000000 * t * (IZR j + 0) + t * 0
             + (t + 4 / 10000000000000 * t) * (IZR j + 0) * u64)
      with (P * (4 / 10000000000000)
            + P * (1 + 4 / 10000000000000) * u64) by (unfold P; ring).
    assert (H1 : P * (1 + 4 / 10000000000000) * u64
                 <= 277090 * (1 / 4000000000000000)).
    { apply Rmult_le_compat; lra. }
    lra.
  - split; [exact Fx|]. split; [exact Hx|].
    assert (Hb : Rabs P <= 277089) by (rewrite Rabs_pos_eq; lra).
    pose proof (Rabs_near _ _ _ _ Hx Hb). lra.
Qed.

(** The angle of its octave, [2.0 * factor * j]. *)
Lemma octave_near :
  let x := (d_of_long 2 * factor b * d_of_long j)%dbl in
  fin x
  /\ Rabs (val x - 2 * cycle_angle b * IZR j) <= 3 / 10000000
  /\ Rabs (val x) <= 600000.
Proof.
  intros x. unfold x. clear x.
  pose proof cycle_angle_range as Hr. pose proof angle_range as Hp.
  destruct index_number as [Hjn _].
  pose proof u64_pos as Hu. pose proof u64_le as Hu'.
  pose proof eta64_le as Heta. pose proof eta64_pos as Heta0.
  destruct (law_of_long _ _ _ dl j ltac:(lia)) as [Fj Vj].
  assert (L2 : near fin val (d_of_long 2) 2 0)
    by (apply (near_of_long fin val dl 2); [lia|lra]).
  set (t := cycle_angle b) in *. set (P := t * IZR j) in *.
  assert (Y : near fin val (d_of_long 2 * factor b)%dbl (2 * t)
                (5 / 10000000000000)).
  { apply (near_mul fin val dl _ _ 2 t 0 (4 / 10000000000000));
      auto; try lra. apply factor_near. }
  destruct Y as [Fy Hy].
  destruct (mul_abs fin val dl (d_of_long 2 * factor b)%dbl (d_of_long j)
              (2 * t) (IZR j) (5 / 10000000000000 * (2 * t)) 0 (2 * t)
              (IZR j) (3 / 10000000) Fy Fj Hy) as [Fx Hx].
  - rewrite Vj. unfold Rminus. rewrite Rplus_opp_r, Rabs_R0. lra.
  - rewrite Rabs_pos_eq; lra.
  - rewrite Rabs_pos_eq; lra.
  - replace ((2 * t + 5 / 10000000000000 * (2 * t)) * (IZR j + 0))
      with (2 * P * (1 + 5 / 10000000000000)) by (unfold P; ring).
    lra.
  - replace (5 / 10000000000000 * (2 * t) * (IZR j + 0) + 2 * t * 0
             + (2 * t + 5 / 10000000000000 * (2 * t)) * (IZR j + 0) * u64)
      with (2 * P * (5 / 10000000000000)
            + 2 * P * (1 + 5 / 10000000000000) * u64) by (unfold P; ring).
    assert (H1 : 2 * P * (1 + 5 / 10000000000000) * u64
                 <= 554180 * (1 / 4000000000000000)).
    { apply Rmult_le_compat; lra. }
    lra.
  - split; [exact Fx|].
    replace (2 * t * IZR j) with (2 * P) in * by (unfold P; ring).
    split; [exact Hx|].
    assert (Hb : Rabs (2 * P) <= 554178) by (rewrite Rabs_pos_eq; lra).
    pose proof (Rabs_near _ _ _ _ Hx Hb). lra.
Qed.

Lemma cos_angle_near :
  let c := d_cos (factor b * d_of_long j)%dbl in
  fin c
  /\ Rabs (val c - cos (cycle_angle b * IZR j)) <= 21 / 100000000.
Proof.
  intros c. destruct angle_near as (F & H & Hb).
  destruct (law_cos _ _ _ ll _ F ltac:(lra)) as [Fc Hc].
  split; [exact Fc|].
  pose proof (cos_near (val (factor b * d_of_long j)%dbl)
                (cycle_angle b * IZR j)) as Hl.
  replace (val c - cos (cycle_angle b * IZR j))
    with ((val c - cos (val (factor b * d_of_long j)%dbl))
          + (cos (val (factor b * d_of_long j)%dbl)
             - cos (cycle_angle b * IZR j))) by ring.
  eapply Rle_trans; [apply Rabs_triang|]. unfold lm_err in Hc. fold c in Hc.
  lra.
Qed.

Lemma sin_angle_near :
  let s := d_sin (factor b * d_of_long j)%dbl in
  fin s
  /\ Rabs (val s - sin (cycle_angle b * IZR j)) <= 21 / 100000000.
Proof.
  intros s. destruct angle_near as (F & H & Hb).
  destruct (law_sin _ _ _ ll _ F ltac:(lra)) as [Fs Hs].
  split; [exact Fs|].
  pose proof (sin_near (val (factor b * d_of_long j)%dbl)
                (cycle_angle b * IZR j)) as Hl.
  replace (val s - sin (cycle_angle b * IZR j))
    with ((val s - sin (val (factor b * d_of_long j)%dbl))
          + (sin (val (factor b * d_of_long j)%dbl)
             - sin (cycle_angle b * IZR j))) by ring.
  eapply Rle_trans; [apply Rabs_triang|]. unfold lm_err in Hs. fold s in Hs.
  lra.
Qed.

Lemma cos_octave_near :
  let c := d_cos (d_of_long 2 * factor b * d_of_long j)%dbl in
  fin c
  /\ Rabs (val c - cos (2 * cycle_angle b * IZR j)) <= 31 / 100000000.
Proof.
  intros c. destruct octave_near as (F & H & Hb).
  destruct (law_cos _ _ _ ll _ F ltac:(lra)) as [Fc Hc].
  split; [exact Fc|].
  pose proof (cos_near (val (d_of_long 2 * factor b * d_of_long j)%dbl)
                (2 * cycle_angle b * IZR j)) as Hl.
  replace (val c - cos (2 * cycle_angle b * IZR j))
    with ((val c - cos (val (d_of_long 2 * factor b * d_of_long j)%dbl))
          + (cos (val (d_of_long 2 * factor b * d_of_long j)%dbl)
             - cos (2 * cycle_angle b * IZR j))) by ring.
  eapply Rle_trans; [apply Rabs_triang|]. unfold lm_err in Hc. fold c in Hc.
  lra.
Qed.

(** The sample [write] makes: the wave, cut to an integer. *)
Lemma burst_sample_near :
  (-24002 <= burst_sample b j <= 24002)%Z
  /\ Rabs (IZR (burst_sample b j) - wave_at (cycle_angle b) j)
     <= 1007 / 1000.
Proof.
  pose proof u64_pos as Hu. pose proof u64_le as Hu'.
  pose proof eta64_le as Heta. pose proof eta64_pos as Heta0.
  destruct cos_angle_near as [F1 H1]. destruct cos_octave_near as [F2 H2].
  cbv zeta in F1, H1, F2, H2.
  set (c1 := d_cos (factor b * d_of_long j)%dbl) in *.
  set (c2 := d_cos (d_of_long 2 * factor b * d_of_long j)%dbl) in *.
  set (t := cycle_angle b) in *.
  pose proof (COS_bound (t * IZR j)) as B1.
  pose proof (COS_bound (2 * t * IZR j)) as B2.
  destruct (sub_abs fin val dl c1 c2 _ _ _ _ 2 (53 / 100000000) F1 F2 H1 H2)
    as [Fy Hy].
  { apply Rabs_le. lra. }
  { lra. }
  { lra. }
  destruct (law_of_long _ _ _ dl 12000 ltac:(lia)) as [FA VA].
  destruct (mul_abs fin val dl (c1 - c2)%dbl AMPLITUDE
              (cos (t * IZR j) - cos (2 * t * IZR j)) 12000
              (53 / 100000000) 0 2 12000 (7 / 1000) Fy FA Hy)
    as [Fz Hz].
  { unfold AMPLITUDE. rewrite VA. unfold Rminus.
    rewrite Rplus_opp_r, Rabs_R0. lra. }
  { apply Rabs_le. lra. }
  { rewrite Rabs_pos_eq; lra. }
  { lra. }
  { lra. }
  fold (wave_at t j) in Hz.
  pose proof (wave_at_bound t j) as Hw.
  set (z := ((c1 - c2) * AMPLITUDE)%dbl) in *.
  assert (Eb : burst_sample b j = to_short z).
  { unfold burst_sample. destruct (Z.ltb_spec j (duration b)); [|lia].
    reflexivity. }
  destruct (law_trunc _ _ _ dl z Fz) as (k & Hk & Hpos & Hneg).
  apply Rabs_bounds in Hz. apply Rabs_bounds in Hw.
  assert (Hkv : Rabs (IZR k - val z) <= 1).
  { apply Rabs_le. destruct (Rle_lt_dec 0 (val z)) as [H0|H0].
    - specialize (Hpos H0). lra.
    - specialize (Hneg ltac:(lra)). lra. }
  apply Rabs_bounds in Hkv.
  assert (Hkr : (-24002 <= k <= 24002)%Z).
  { split.
    - assert (-24003 < k)%Z; [|lia]. apply lt_IZR. lra.
    - assert (k < 24003)%Z; [|lia]. apply lt_IZR. lra. }
  assert (Es : to_short z = k).
  { unfold to_short, to_long. rewrite Hk.
    assert (E : in_long k = true)
      by (apply in_long_true; unfold LONG_MIN, LONG_MAX; lia).
    rewrite E. apply short_wrap_id. lia. }
  rewrite Eb, Es. split; [exact Hkr|]. apply Rabs_le. lra.
Qed.

(** The coefficient [exp(cfactor * double(j))] of [read]. *)
Lemma ccoeff_near :
  fin (fst (ccoeff b j)) /\ fin (snd (ccoeff b j))
  /\ Rabs (val (fst (ccoeff b j)) - cos (cycle_angle b * IZR j))
     <= 22 / 100000000
  /\ Rabs (val (snd (ccoeff b j)) - sin (cycle_angle b * IZR j))
     <= 22 / 100000000.
Proof.
  pose proof u64_pos as Hu. pose proof u64_le as Hu'.
  pose proof eta64_le as Heta. pose proof eta64_pos as Heta0.
  destruct index_number as [Hjn _].
  destruct cos_angle_near as [Fc Hc]. destruct sin_angle_near as [Fs Hs].
  cbv zeta in Fc, Hc, Fs, Hs.
  destruct (law_of_long _ _ _ dl 0 ltac:(lia)) as [F0 V0].
  destruct (law_of_long _ _ _ dl j ltac:(lia)) as [Fj Vj].
  destruct (mul_abs fin val dl (d_of_long 0) (d_of_long j) 0 (IZR j) 0 0
              0 44100 eta64 F0 Fj) as [Fe He].
  { rewrite V0. unfold Rminus. rewrite Rplus_opp_r, Rabs_R0. lra. }
  { rewrite Vj. unfold Rminus. rewrite Rplus_opp_r, Rabs_R0. lra. }
  { rewrite Rabs_R0. lra. }
  { rewrite Rabs_pos_eq; lra. }
  { lra. }
  { lra. }
  rewrite Rmult_0_l, Rminus_0_r in He.
  set (e := (d_of_long 0 * d_of_long j)%dbl) in *.
  destruct (law_exp _ _ _ ll e Fe ltac:(lra)) as [FE HE].
  pose proof (exp_near_0 (val e) ltac:(lra)) as Hx.
  assert (H1 : Rabs (val (d_exp e) - 1) <= 2 / 1000000000).
  { replace (val (d_exp e) - 1)
      with ((val (d_exp e) - exp (val e)) + (exp (val e) - 1)) by ring.
    eapply Rle_trans; [apply Rabs_triang|]. unfold lm_err in HE. lra. }
  set (t := cycle_angle b) in *.
  pose proof (COS_bound (t * IZR j)) as B1.
  pose proof (SIN_bound (t * IZR j)) as B2.
  assert (Ec : ccoeff b j
               = ((d_exp e * d_cos (factor b * d_of_long j))%dbl,
                  (d_exp e * d_sin (factor b * d_of_long j))%dbl))
    by reflexivity.
  rewrite Ec. cbn [fst snd].
  destruct (mul_abs fin val dl (d_exp e) (d_cos (factor b * d_of_long j)%dbl)
              1 (cos (t * IZR j)) (2 / 1000000000) (21 / 100000000) 1 1
              (22 / 100000000) FE Fc H1 Hc) as [Fre Hre].
  { rewrite Rabs_pos_eq; lra. }
  { apply Rabs_le. lra. }
  { lra. }
  { lra. }
  destruct (mul_abs fin val dl (d_exp e) (d_sin (factor b * d_of_long j)%dbl)
              1 (sin (t * IZR j)) (2 / 1000000000) (21 / 100000000) 1 1
              (22 / 100000000) FE Fs H1 Hs) as [Fim Him].
  { rewrite Rabs_pos_eq; lra. }
  { apply Rabs_le. lra. }
  { lra. }
  { lra. }
  rewrite !Rmult_1_l in *.
  repeat split; assumption.
Qed.

(** What a turn of [read] adds to a sum: the sample by the coefficient. *)
Lemma term_near (v : Z) :
  (-24002 <= v <= 24002)%Z ->
  Rabs (IZR v - wave_at (cycle_angle b) j) <= 1007 / 1000 ->
  let z := c_rscale (d_of_long v) (ccoeff b j) in
  fin (fst z) /\ fin (snd z)
  /\ Rabs (val (fst z)
           - wave_at (cycle_angle b) j * cos (cycle_angle b * IZR j))
     <= 102 / 100
  /\ Rabs (val (snd z)
           - wave_at (cycle_angle b) j * sin (cycle_angle b * IZR j))
     <= 102 / 100.
Proof.
  intros Hv Hw z.
  pose proof u64_pos as Hu. pose proof u64_le as Hu'.
  pose proof eta64_le as Heta. pose proof eta64_pos as Heta0.
  destruct ccoeff_near as (Fc & Fs & Hc & Hs).
  destruct (law_of_long _ _ _ dl v ltac:(lia)) as [Fv Vv].
  set (t := cycle_angle b) in *.
  pose proof (COS_bound (t * IZR j)) as B1.
  pose proof (SIN_bound (t * IZR j)) as B2.
  assert (Hvn : Rabs (IZR v) <= 24002).
  { apply Rabs_le. split; [apply (IZR_le (-24002))|apply IZR_le]; lia. }
  assert (Hv0 : Rabs (val (d_of_long v) - IZR v) <= 0).
  { rewrite Vv. unfold Rminus. rewrite Rplus_opp_r, Rabs_R0. lra. }
  unfold z, c_rscale. cbn [fst snd].
  destruct (mul_abs fin val dl (d_of_long v) (fst (ccoeff b j))
              (IZR v) (cos (t * IZR j)) 0 (22 / 100000000) 24002 1
              (6 / 1000) Fv Fc Hv0 Hc Hvn) as [Fre Hre].
  { apply Rabs_le. lra. }
  { lra. }
  { lra. }
  destruct (mul_abs fin val dl (d_of_long v) (snd (ccoeff b j))
              (IZR v) (sin (t * IZR j)) 0 (22 / 100000000) 24002 1
              (6 / 1000) Fv Fs Hv0 Hs Hvn) as [Fim Him].
  { apply Rabs_le. lra. }
  { lra. }
  { lra. }
  split; [exact Fre|]. split; [exact Fim|].
  assert (Hcut : forall c, -1 <= c <= 1 ->
                   Rabs (IZR v * c - wave_at t j * c) <= 1007 / 1000).
  { intros c Hcb.
    replace (IZR v * c - wave_at t j * c) with ((IZR v - wave_at t j) * c)
      by ring.
    replace (1007 / 1000) with (1007 / 1000 * 1) by ring.
    apply Rabs_mul_le; [exact Hw|]. apply Rabs_le. lra. }
  split.
  - replace (val (d_of_long v * fst (ccoeff b j))%dbl
             - wave_at t j * cos (t * IZR j))
      with ((val (d_of_long v * fst (ccoeff b j))%dbl
             - IZR v * cos (t * IZR j))
            + (IZR v * cos (t * IZR j) - wave_at t j * cos (t * IZR j)))
      by ring.
    eapply Rle_trans; [apply Rabs_triang|].
    pose proof (Hcut _ B1). lra.
  - replace (val (d_of_long v * snd (ccoeff b j))%dbl
             - wave_at t j * sin (t * IZR j))
      with ((val (d_of_long v * snd (ccoeff b j))%dbl
             - IZR v * sin (t * IZR j))
            + (IZR v * sin (t * IZR j) - wave_at t j * sin (t * IZR j)))
      by ring.
    eapply Rle_trans; [apply Rabs_triang|].
    pose proof (Hcut _ B2). lra.
Qed.

End Samples.
Hypothesis Ha : (1 <= numAvg b)%Z.
Hypothesis Hfit : (duration b * numAvg b <= LONG_MAX)%Z.

(** The number of samples the sums take. *)
Lemma samples_number :
  let K := IZR (duration b * numAvg b) in
  1 <= K <= 2147483647
  /\ 4 * u64 * K <= 1
  /\ K * (24000 + 102 / 100) <= 10000000000000000000000000
  /\ sum_err 24000 (102 / 100) (Z.to_nat (duration b * numAvg b))
     <= 105 / 100.
Proof.
  intros K.
  pose proof u64_pos as Hu. pose proof u64_le as Hu'.
  assert (HK : 1 <= K <= 2147483647).
  { unfold K, LONG_MAX in *. split; apply IZR_le; nia. }
  split; [exact HK|]. split; [nra|]. split; [nra|].
  unfold sum_err. rewrite INR_IZR_INZ, Z2Nat.id by nia. fold K.
  assert (H1 : 2 * u64 * K <= 2 * (1 / 4000000000000000) * 2147483647).
  { apply Rmult_le_compat; lra. }
  assert (H2 : 2 * u64 * K * (24000 + 102 / 100)
               <= 2 * (1 / 4000000000000000) * 2147483647
                  * (24000 + 102 / 100)).
  { apply Rmult_le_compat_r; lra. }
  lra.
Qed.

Lemma window_sum_near (n : nat) :
  forall (p : Z) (s : complex D) (Sre Sim : R) (m : nat),
  let N := Z.to_nat (duration b) in
  let M := Z.to_nat (duration b * numAvg b) in
  let c := sum_err 24000 (102 / 100) M in
  let t := cycle_angle b in
  fin (fst s) -> fin (snd s) ->
  Rabs (val (fst s) - Sre) <= INR m * c ->
  Rabs (val (snd s) - Sim) <= INR m * c ->
  Rabs Sre <= INR m * 24000 -> Rabs Sim <= INR m * 24000 ->
  (m + n * N <= M)%nat ->
  let s' := window_sum b (indices (duration b)) (fun _ => burst_sample b)
              n p s in
  fin (fst s') /\ fin (snd s')
  /\ Rabs (val (fst s')
           - (Sre + INR n * csum N 0 (fun j => wave_at t j * cos (t * IZR j))))
     <= INR (m + n * N) * c
  /\ Rabs (val (snd s')
           - (Sim + INR n * csum N 0 (fun j => wave_at t j * sin (t * IZR j))))
     <= INR (m + n * N) * c.
Proof.
  destruct samples_number as (HK & HuK & HbigK & _).
  assert (EM : INR (Z.to_nat (duration b * numAvg b))
               = IZR (duration b * numAvg b))
    by (rewrite INR_IZR_INZ, Z2Nat.id by nia; reflexivity).
  induction n as [|n IH]; intros p s Sre Sim m N M c t F1 F2 H1 H2 B1 B2 Hm;
    cbn [window_sum].
  - cbn [Nat.mul INR]. rewrite Nat.add_0_r, !Rmult_0_l, !Rplus_0_r. auto.
  - destruct (fold_add_sample_parts b (burst_sample b)
                (indices (duration b)) s) as [E1 E2].
    assert (Hterm : forall j : nat, (0 <= j < 0 + N)%nat ->
              let z := c_rscale (d_of_long (burst_sample b (Z.of_nat j)))
                         (ccoeff b (Z.of_nat j)) in
              (fin (fst z)
               /\ Rabs (val (fst z)
                        - wave_at t (Z.of_nat j) * cos (t * IZR (Z.of_nat j)))
                  <= 102 / 100
               /\ Rabs (wave_at t (Z.of_nat j) * cos (t * IZR (Z.of_nat j)))
                  <= 24000)
              /\ (fin (snd z)
                  /\ Rabs (val (snd z)
                           - wave_at t (Z.of_nat j)
                             * sin (t * IZR (Z.of_nat j)))
                     <= 102 / 100
                  /\ Rabs (wave_at t (Z.of_nat j)
                           * sin (t * IZR (Z.of_nat j)))
                     <= 24000)).
    { intros j Hj z.
      assert (Hjr : (0 <= Z.of_nat j < duration b)%Z) by (unfold N in Hj; lia).
      destruct (burst_sample_near (Z.of_nat j) Hjr) as [Hr Hs].
      destruct (term_near (Z.of_nat j) Hjr
                  (burst_sample b (Z.of_nat j)) Hr Hs)
        as (Fa & Fb & Ta & Tb).
      pose proof (wave_at_bound t (Z.of_nat j)) as Hw.
      pose proof (COS_bound (t * IZR (Z.of_nat j))) as Bc.
      pose proof (SIN_bound (t * IZR (Z.of_nat j))) as Bs.
      assert (Hwc : forall y, -1 <= y <= 1 ->
                      Rabs (wave_at t (Z.of_nat j) * y) <= 24000).
      { intros y Hy. replace 24000 with (24000 * 1) by ring.
        apply Rabs_mul_le; [exact Hw|]. apply Rabs_le. lra. }
      repeat split; auto. }
    assert (Hlen : (m + N <= M)%nat) by lia.
    destruct (fold_seq_near fin val dl
                (fun j => fst (c_rscale (d_of_long (burst_sample b j))
                                 (ccoeff b j)))
                (fun j => wave_at t j * cos (t * IZR j))
                24000 (102 / 100) M ltac:(lra)
                ltac:(unfold M; rewrite EM; exact HuK)
                ltac:(unfold M; rewrite EM; exact HbigK)
                N 0%nat (fst s) Sre m) as (G1 & G2 & G3); auto.
    { intros j Hj. apply (Hterm j Hj). }
    destruct (fold_seq_near fin val dl
                (fun j => snd (c_rscale (d_of_long (burst_sample b j))
                                 (ccoeff b j)))
                (fun j => wave_at t j * sin (t * IZR j))
                24000 (102 / 100) M ltac:(lra)
                ltac:(unfold M; rewrite EM; exact HuK)
                ltac:(unfold M; rewrite EM; exact HbigK)
                N 0%nat (snd s) Sim m) as (G4 & G5 & G6); auto.
    { intros j Hj. apply (Hterm j Hj). }
    cbv zeta in G1, G2, G3, G4, G5, G6.
    change (Z.of_nat 0) with 0%Z in *.
    fold (indices (duration b)) in G1, G2, G4, G5. unfold N in G1, G2, G4, G5.
    fold (indices (duration b)) in G1, G2, G4, G5.
    rewrite <- E1 in G1, G2. rewrite <- E2 in G4, G5.
    fold N in G2, G3, G5, G6. fold c in G2, G5.
    destruct (IH (p + 1)%Z
                (fold_left (add_sample b (burst_sample b))
                   (indices (duration b)) s)
                (Sre + csum N 0 (fun j => wave_at t j * cos (t * IZR j)))
                (Sim + csum N 0 (fun j => wave_at t j * sin (t * IZR j)))
                (m + N)%nat) as (R1 & R2 & R3 & R4); auto; try lia.
    fold N M c t in R3, R4.
    replace (m + Datatypes.S n * N)%nat with (m + N + n * N)%nat by lia.
    rewrite S_INR.
    split; [exact R1|]. split; [exact R2|]. split.
    + replace (Sre + (INR n + 1)
                     * csum N 0 (fun j => wave_at t j * cos (t * IZR j)))
        with (Sre + csum N 0 (fun j => wave_at t j * cos (t * IZR j))
              + INR n * csum N 0 (fun j => wave_at t j * cos (t * IZR j)))
        by ring.
      exact R3.
    + replace (Sim + (INR n + 1)
                     * csum N 0 (fun j => wave_at t j * sin (t * IZR j)))
        with (Sim + csum N 0 (fun j => wave_at t j * sin (t * IZR j))
              + INR n * csum N 0 (fun j => wave_at t j * sin (t * IZR j)))
        by ring.
      exact R4.
Qed.

(** The response sum of a burst read back. *)
Lemma roundtrip_sum_near :
  let K := IZR (duration b * numAvg b) in
  let s := sum1 (roundtrip_locals b) in
  fin (fst s) /\ fin (snd s)
  /\ Rabs (val (fst s) - 6000 * K) <= K * (105 / 100)
  /\ Rabs (val (snd s)) <= K * (105 / 100).
Proof.
  intros K s.
  destruct samples_number as (HK & _ & _ & Hc).
  fold K in HK.
  set (N := Z.to_nat (duration b)). set (A := Z.to_nat (numAvg b)).
  set (M := Z.to_nat (duration b * numAvg b)) in *.
  assert (EM : M = (A * N)%nat) by (unfold M, A, N; nia).
  assert (EK : INR M = K).
  { unfold M, K. rewrite INR_IZR_INZ, Z2Nat.id by nia. reflexivity. }
  assert (Es : s = window_sum b (indices (duration b))
                     (fun _ => burst_sample b) A 0 c_zero).
  { unfold s, roundtrip_locals. unfold for_long at 1.
    rewrite passes_window_sum by lia. reflexivity. }
  destruct (law_of_long _ _ _ dl 0 ltac:(lia)) as [F0 V0].
  destruct (window_sum_near A 0%Z c_zero 0 0 0%nat) as (F1 & F2 & H1 & H2);
    cbn [c_zero fst snd INR]; auto.
  - rewrite V0, Rminus_0_r, Rabs_R0. lra.
  - rewrite V0, Rminus_0_r, Rabs_R0. lra.
  - rewrite Rabs_R0. lra.
  - rewrite Rabs_R0. lra.
  - fold A N M. lia.
  - rewrite <- Es in F1, F2, H1, H2. fold N M in H1, H2.
    assert (Hmod : forall k : nat, (1 <= k <= 3)%nat ->
              ((k * Z.to_nat (numCycle b)) mod N <> 0)%nat).
    { intros k Hk E. apply (Hdiv (Z.of_nat k) ltac:(lia)).
      apply (f_equal Z.of_nat) in E.
      rewrite Nat2Z.inj_mod, Nat2Z.inj_mul in E. unfold N in E.
      rewrite !Z2Nat.id in E by lia. exact E. }
    pose proof (Hmod 1%nat ltac:(lia)) as Hm1. rewrite Nat.mul_1_l in Hm1.
    destruct (wave_at_sums (cycle_angle b) N (Z.to_nat (numCycle b)))
      as [Wc Ws].
    + unfold N. lia.
    + exact Hm1.
    + apply (Hmod 2%nat). lia.
    + apply (Hmod 3%nat). lia.
    + unfold cycle_angle, N. rewrite !INR_IZR_INZ, !Z2Nat.id by lia.
      reflexivity.
    + rewrite Wc in H1. rewrite Ws in H2.
      replace (0 + A * N)%nat with M in H1, H2 by lia.
      rewrite EK in H1, H2.
      assert (EAN : INR A * (6000 * INR N) = 6000 * K).
      { rewrite <- EK, EM, mult_INR. ring. }
      rewrite Rplus_0_l, EAN in H1.
      rewrite Rplus_0_l, Rmult_0_r, Rminus_0_r in H2.
      assert (Hle : K * sum_err 24000 (102 / 100) M <= K * (105 / 100))
        by (apply Rmult_le_compat_l; lra).
      split; [exact F1|]. split; [exact F2|]. split; lra.
Qed.

(** [(duration * numAvg * AMPLITUDE / 2.0)] *)
Lemma norm_near :
  near fin val (norm b) (6000 * IZR (duration b * numAvg b))
    (2 / 1000000000000000).
Proof.
  destruct samples_number as (HK & _).
  set (K := IZR (duration b * numAvg b)) in *.
  pose proof u64_pos as Hu. pose proof u64_le as Hu'.
  unfold norm, lmul.
  rewrite long_wrap_id by (unfold LONG_MIN, LONG_MAX in *; nia).
  assert (LK : near fin val (d_of_long (duration b * numAvg b)) K 0).
  { apply (near_of_long fin val dl); [unfold LONG_MAX in *; nia|].
    fold K. lra. }
  assert (LA : near fin val AMPLITUDE 12000 0)
    by (apply (near_of_long fin val dl 12000); [lia|lra]).
  assert (L2 : near fin val (d_of_long 2) 2 0)
    by (apply (near_of_long fin val dl 2); [lia|lra]).
  assert (X : near fin val (d_of_long (duration b * numAvg b) * AMPLITUDE)%dbl
                (K * 12000) (1 / 1000000000000000)).
  { apply (near_mul fin val dl _ _ K 12000 0 0); auto; lra. }
  replace (6000 * K) with (K * 12000 / 2) by field.
  apply (near_div fin val dl _ _ (K * 12000) 2 (1 / 1000000000000000) 0);
    auto; lra.
Qed.

(** The response of a channel, normalized. *)
Lemma response_near :
  let z := c_div (sum1 (roundtrip_locals b)) (norm b) in
  fin (fst z) /\ fin (snd z)
  /\ Rabs (val (fst z) - 1) <= 1 / 5000
  /\ Rabs (val (snd z)) <= 1 / 5000.
Proof.
  intros z.
  destruct samples_number as (HK & _).
  destruct roundtrip_sum_near as (F1 & F2 & H1 & H2).
  cbv zeta in HK, H1, H2.
  set (K := IZR (duration b * numAvg b)) in *.
  pose proof u64_pos as Hu. pose proof u64_le as Hu'.
  pose proof eta64_le as Heta. pose proof eta64_pos as Heta0.
  pose proof norm_near as HN. fold K in HN.
  assert (Hb : 0 < 6000 * K) by lra.
  unfold z, c_div. cbn [fst snd].
  destruct (div_abs fin val dl (fst (sum1 (roundtrip_locals b))) (norm b)
              (6000 * K) (6000 * K) (K * (105 / 100))
              (2 / 1000000000000000) (6000 * K) (1 / 5000) F1 HN H1)
    as [G1 G2].
  - rewrite Rabs_pos_eq; lra.
  - exact Hb.
  - lra.
  - replace ((6000 * K + K * (105 / 100)) / (6000 * K))
      with (1 + 105 / 600000) by (field; lra).
    lra.
  - replace ((K * (105 / 100) + 6000 * K * (2 / 1000000000000000))
             * (10 / 9) / (6000 * K))
      with ((105 / 100 + 6000 * (2 / 1000000000000000)) * (10 / 9) / 6000)
      by (field; lra).
    replace (6000 * K / (6000 * K)) with 1 by (field; lra).
    lra.
  - replace (6000 * K / (6000 * K)) with 1 in G2 by (field; lra).
    rewrite <- (Rminus_0_r (val (snd (sum1 (roundtrip_locals b))))) in H2.
    destruct (div_abs fin val dl (snd (sum1 (roundtrip_locals b))) (norm b)
                0 (6000 * K) (K * (105 / 100))
                (2 / 1000000000000000) 0 (1 / 5000) F2 HN H2)
      as [G3 G4].
    + rewrite Rabs_R0. lra.
    + exact Hb.
    + lra.
    + replace ((0 + K * (105 / 100)) / (6000 * K))
        with (105 / 600000) by (field; lra).
      lra.
    + replace ((K * (105 / 100) + 0 * (2 / 1000000000000000))
               * (10 / 9) / (6000 * K))
        with (105 / 100 * (10 / 9) / 6000) by (field; lra).
      replace (0 / (6000 * K)) with 0 by (field; lra). lra.
    + replace (0 / (6000 * K)) with 0 in G4 by (field; lra).
      rewrite Rminus_0_r in G4. auto.
Qed.

(** Its magnitude. *)
Lemma magnitude_near :
  let m := c_abs (c_div (sum1 (roundtrip_locals b)) (norm b)) in
  fin m /\ Rabs (val m - 1) <= 21 / 100000.
Proof.
  intros m. destruct response_near as (F1 & F2 & H1 & H2).
  cbv zeta in F1, F2, H1, H2.
  set (z := c_div (sum1 (roundtrip_locals b)) (norm b)) in *.
  pose proof u64_pos as Hu. pose proof u64_le as Hu'.
  pose proof eta64_le as Heta. pose proof eta64_pos as Heta0.
  destruct (mul_abs fin val dl (fst z) (fst z) 1 1 (1 / 5000) (1 / 5000) 1 1
              (4001 / 10000000) F1 F1 H1 H1) as [Fa Ha'];
    try (rewrite Rabs_pos_eq; lra); try lra.
  rewrite <- (Rminus_0_r (val (snd z))) in H2.
  destruct (mul_abs fin val dl (snd z) (snd z) 0 0 (1 / 5000) (1 / 5000) 0 0
              (1 / 10000000) F2 F2 H2 H2) as [Fb Hb'];
    try (rewrite Rabs_R0; lra); try lra.
  destruct (add_abs fin val dl (fst z * fst z)%dbl (snd z * snd z)%dbl
              (1 * 1) (0 * 0) (4001 / 10000000) (1 / 10000000) 1
              (4003 / 10000000) Fa Fb Ha' Hb') as [Fs Hs];
    try (rewrite Rabs_pos_eq; lra); try lra.
  replace (1 * 1 + 0 * 0) with 1 in Hs by ring.
  set (X := (fst z * fst z + snd z * snd z)%dbl) in *.
  pose proof (Rabs_bounds _ _ Hs) as HX.
  destruct (law_sqrt _ _ _ ll X Fs ltac:(lra)) as [Fm Hm].
  pose proof (sqrt_near_1 (val X) (4003 / 10000000) ltac:(lra) Hs) as Hq.
  split; [exact Fm|].
  replace (val m - 1)
    with ((val (d_sqrt X) - sqrt (val X)) + (sqrt (val X) - 1))
    by (unfold m, c_abs; fold X; ring).
  eapply Rle_trans; [apply Rabs_triang|]. unfold lm_err in Hm. lra.
Qed.

(** The level of a magnitude near 1, in dB. *)
Lemma level_near (m : D) (d e : R) :
  fin m -> Rabs (val m - 1) <= d -> 0 <= d <= 1 / 4 ->
  40 * d + 3 / 100000000 <= e ->
  fin (dB m) /\ Rabs (val (dB m)) <= e.
Proof.
  intros Fm Hm Hd0 He.
  pose proof u64_pos as Hu. pose proof u64_le as Hu'.
  pose proof eta64_le as Heta. pose proof eta64_pos as Heta0.
  pose proof (Rabs_bounds _ _ Hm) as Hmb.
  destruct (law_log10 _ _ _ ll m Fm ltac:(lra)) as [Fl Hl].
  pose proof (Correlation.ln_near_1 (val m) d ltac:(lra) Hm) as Hln.
  pose proof Correlation.ln_10_ge_1 as H10.
  assert (Hq : Rabs (ln (val m) / ln 10) <= 2 * d).
  { unfold Rdiv. rewrite Rabs_mult.
    assert (Hinv : 0 < / ln 10 <= 1).
    { split; [apply Rinv_0_lt_compat; lra|].
      rewrite <- Rinv_1. apply Rinv_le_contravar; lra. }
    rewrite (Rabs_pos_eq (/ ln 10)) by lra.
    pose proof (Rabs_pos (ln (val m))). nra. }
  destruct (law_of_long _ _ _ dl 20 ltac:(lia)) as [F20 V20].
  assert (H20 : Rabs (val (d_of_long 20) - 20) <= 0).
  { rewrite V20. unfold Rminus. rewrite Rplus_opp_r, Rabs_R0. lra. }
  unfold lm_err in Hl.
  destruct (mul_abs fin val dl (d_of_long 20) (d_log10 m) 20
              (ln (val m) / ln 10) 0 (1 / 1000000000) 20 (2 * d)
              (3 / 100000000) F20 Fl H20 Hl) as [Fd Hd'];
    try (rewrite Rabs_pos_eq; lra); try lra; try nra.
  split; [exact Fd|].
  assert (Hb : Rabs (20 * (ln (val m) / ln 10)) <= 20 * (2 * d)).
  { apply Rabs_mul_le; [rewrite Rabs_pos_eq; lra|exact Hq]. }
  pose proof (Rabs_near _ _ _ _ Hd' Hb). unfold dB. lra.
Qed.

(** The report of the burst read back. *)
Lemma burst_report_near : unit_report val (roundtrip_report b).
Proof.
  destruct (roundtrip_report_channels b) as (E2 & D2 & _ & _ & Ep).
  cbv zeta in E2, D2, Ep.
  destruct magnitude_near as [Fm Hm]. cbv zeta in Fm, Hm.
  destruct response_near as (F1 & F2 & _). cbv zeta in F1, F2.
  pose proof u64_pos as Hu. pose proof u64_le as Hu'.
  pose proof eta64_le as Heta. pose proof eta64_pos as Heta0.
  set (z := c_div (sum1 (roundtrip_locals b)) (norm b)) in *.
  assert (Eabs : abs1 (roundtrip_report b) = c_abs z) by reflexivity.
  assert (EdB : dB1 (roundtrip_report b) = dB (c_abs z)) by reflexivity.
  assert (Eph : phase1 (roundtrip_report b) = c_arg z) by reflexivity.
  assert (Edd : dBdiff (roundtrip_report b)
                = dB (c_abs z / abs2 (roundtrip_report b))%dbl)
    by reflexivity.
  unfold unit_report. rewrite E2, D2, Ep, Edd, E2, Eabs, EdB, Eph.
  assert (H1 : Rabs (val (c_abs z) - 1) <= 1 / 3000) by lra.
  destruct (level_near (c_abs z) (21 / 100000) (1 / 50) Fm Hm) as [_ H2];
    [lra|lra|].
  split; [exact H1|]. split; [exact H1|].
  split; [exact H2|]. split; [exact H2|].
  split.
  - (* the level of the quotient of a magnitude by itself *)
    pose proof (Rabs_bounds _ _ Hm) as Hmb.
    assert (Hself : near fin val (c_abs z) (val (c_abs z)) 0).
    { split; [exact Fm|]. unfold Rminus. rewrite Rplus_opp_r, Rabs_R0. lra. }
    assert (H0 : Rabs (val (c_abs z) - val (c_abs z)) <= 0).
    { unfold Rminus. rewrite Rplus_opp_r, Rabs_R0. lra. }
    destruct (div_abs fin val dl (c_abs z) (c_abs z) (val (c_abs z))
                (val (c_abs z)) 0 0 2 (1 / 1000000000000000) Fm Hself H0)
      as [Fq Hq].
    + rewrite Rabs_pos_eq; lra.
    + lra.
    + lra.
    + assert (Hh : 0 <= (2 + 0) / val (c_abs z) <= 10000000000000000000000000);
        [|apply Hh].
      apply div_bounds; lra.
    + assert (Hh : 0 <= 2 / val (c_abs z) <= 3).
      { apply div_bounds; lra. }
      replace ((0 + 2 * 0) * (10 / 9) / val (c_abs z)) with 0
        by (field; lra).
      assert (2 / val (c_abs z) * u64 <= 3 * u64)
        by (apply Rmult_le_compat_r; lra).
      lra.
    + replace (val (c_abs z) / val (c_abs z)) with 1 in Hq by (field; lra).
      destruct (level_near (c_abs z / c_abs z)%dbl (1 / 1000000000000000)
                  (1 / 1000000) Fq Hq) as [_ H3]; [lra|lra|exact H3].
  - (* the difference of a phase with itself *)
    assert (Fp : fin (c_arg z)) by (apply (law_atan2 _ _ _ ll); assumption).
    destruct (law_sub _ _ _ dl (c_arg z) (c_arg z) Fp Fp) as [_ H].
    { unfold Rminus. rewrite Rplus_opp_r, Rabs_R0.
      pose proof dbl_max_big. lra. }
    unfold Rminus in H at 2 3. rewrite Rplus_opp_r, Rabs_R0, Rmult_0_l in H.
    rewrite Rminus_0_r in H.
    pose proof (Rabs_pos (val (c_arg z - c_arg z)%dbl)) as Hp.
    assert (E : Rabs (val (c_arg z - c_arg z)%dbl) = 0) by lra.
    destruct (Req_dec (val (c_arg z - c_arg z)%dbl) 0) as [E0|N0];
      [exact E0|].
    apply Rabs_no_R0 in N0. contradiction.
Qed.

End Burst.

End Rounding.

Section RoundTripLaws.

Context {D : Type} {ops : DoubleOps D} {lm : Libm D} {limit : LoopLimit}.
Variable fin : D -> Prop.
Variable val : D -> R.
Hypothesis dl : double_laws ops fin val.
Hypothesis ll : libm_laws lm fin val.

Implicit Types b : toneBurst D.

Lemma same_run_trans b b' b'' :
  same_run b b' -> same_run b' b'' -> same_run b b''.
Proof.
  unfold same_run. intros H1 H2.
  repeat match goal with H : _ /\ _ |- _ => destruct H end.
  repeat split; congruence.
Qed.

(** The bursts of a run are as [calc] leaves them, on the setup of the
    run. *)
Lemma bursts_run (k : nat) : forall b1 bs,
  bursts k b1 = Some bs -> calculated b1 ->
  Forall (fun x => calculated x /\ same_run b1 x) bs.
Proof.
  induction k as [|k IH]; intros b1 bs Hb Hc; cbn [bursts] in Hb.
  - injection Hb as <-. constructor.
  - destruct (next b1) as [[[|] b2]|] eqn:Hn; try discriminate.
    destruct (bursts k b2) as [bs'|] eqn:Hbs; [|discriminate].
    injection Hb as <-.
    pose proof (next_calculated _ _ _ Hn Hc) as Hc2.
    pose proof (next_same_run _ _ _ Hn) as Hr2.
    constructor.
    + split; [exact Hc|]. unfold same_run. tauto.
    + eapply Forall_impl; [|apply (IH b2 bs' Hbs Hc2)].
      intros x [Hx1 Hx2]. split; [exact Hx1|].
      eapply same_run_trans; eauto.
Qed.

(** C1, as the code has it: whatever the arithmetic that keeps the laws
    of rounding -- the doubles of the machine do, with any mathematical
    library within [lm_err] of the functions it computes --, when
    [reset()] and the calls of [next()] of a run return, with an
    averaging count of 1 at least and every burst one [read] can tell the
    tone of ([tone_resolved]), [tbg] writes a file, with any delay, on
    which [tba] with the same arguments returns 0 and prints one line for
    every burst, each with both magnitudes within 1/3000 of 1.0, both
    levels within 0.02 dB of 0 dB, the level difference within a millionth
    of a dB of 0 and the phase difference 0. *)
Theorem roundtrip_unit_response (c : cmdline D) b0 b b1 bs (k : nat) :
  toneBurst_new = Some b0 -> parse_args c b0 = Some b ->
  reset b = Some b1 -> bursts k b1 = Some bs ->
  burstCount b1 = Z.of_nat k -> burstCount b1 <= LONG_MAX ->
  (Datatypes.S k <= loop_limit)%nat ->
  1 <= numAvg b ->
  Forall tone_resolved bs ->
  exists (file : ofstream) (cout : list (detail D))
         (lines : list (detail D * report D)),
    tbg_main c = Some (0, file, cout)
    /\ tba_main c file = Some (0, lines)
    /\ map fst lines = cout /\ length lines = k
    /\ Forall (fun line => unit_report val (snd line)) lines.
Proof.
  intros Hnew Hparse Hr Hk Hbc Hmax Hlim Havg Hres.
  destruct (roundtrip_main_delay c b0 b b1 bs k Hnew Hparse Hr Hk Hbc Hmax
              Hlim) as [Hg Ha].
  destruct (parse_args_inv c b0 b Hnew Hparse)
    as (Hint & _ & Hsr & _).
  destruct (reset_inv _ _ Hr) as [_ Hrun].
  pose proof (bursts_run k b1 bs Hk (reset_calculated _ _ Hr)) as Hall.
  eexists. eexists. eexists.
  split; [exact Hg|]. split; [exact Ha|].
  split; [rewrite map_map; reflexivity|].
  split.
  { rewrite length_map. clear - Hk. revert b1 bs Hk.
    induction k as [|k IH]; intros b1 bs Hk; cbn [bursts] in Hk.
    - injection Hk as <-. reflexivity.
    - destruct (next b1) as [[[|] b2]|]; try discriminate.
      destruct (bursts k b2) as [bs'|] eqn:E; [|discriminate].
      injection Hk as <-. cbn [length]. f_equal. eapply IH. exact E. }
  apply Forall_forall. intros line Hline.
  apply in_map_iff in Hline. destruct Hline as (x & <- & Hx).
  cbn [snd].
  rewrite Forall_forall in Hall, Hres.
  destruct (Hall x Hx) as [Hcx Hrx].
  destruct (Hres x Hx) as (Hn & Hd & Hdiv & Hfit).
  pose proof (same_run_trans _ _ _ Hrun Hrx) as Hbx.
  destruct Hbx as (Esr & Ei & _ & _ & _ & _ & Ea).
  apply (Rounding.burst_report_near fin val dl ll x Hcx); auto.
  - rewrite Esr, Hsr. unfold SAMPLE_RATE, LONG_MAX. lia.
  - rewrite Ei. lia.
  - rewrite Ea. exact Havg.
Qed.

End RoundTripLaws.

(** The real numbers keep the laws: nothing is rounded. *)
Lemma ideal_double_laws :
  double_laws Ideal.double_ops (fun _ => True) (fun x => x).
Proof.
  pose proof u64_pos as Hu. pose proof eta64_pos as He.
  assert (H0 : forall x y : R, (Rabs (x - x) <= Rabs y * u64)%R).
  { intros x y. unfold Rminus. rewrite Rplus_opp_r, Rabs_R0.
    apply Rmult_le_pos; [apply Rabs_pos|lra]. }
  assert (H1 : forall x y : R, (Rabs (x - x) <= Rabs y * u64 + eta64)%R).
  { intros x y. pose proof (H0 x y). lra. }
  constructor;
    cbn [d_of_long d_add d_sub d_mul d_div d_ltb d_trunc d_pi
         Ideal.double_ops].
  - intros z _. split; [exact I|reflexivity].
  - intros x y _ _ _. split; [exact I|apply H0].
  - intros x y _ _ _. split; [exact I|apply H0].
  - intros x y _ _ _. split; [exact I|apply H1].
  - intros x y _ _ _ _. split; [exact I|apply H1].
  - intros x y _ _. unfold Ideal.ltb.
    destruct (Rlt_dec x y); split; intros; auto; try discriminate;
      contradiction.
  - intros x _. unfold Ideal.trunc. eexists. split; [reflexivity|].
    destruct (Rle_dec 0 x) as [Hx|Hx].
    + destruct (base_Int_part x) as [Ha Hb]. split; intros; [lra|].
      assert (E : Int_part x = 0).
      { assert (-1 < Int_part x) by (apply lt_IZR; lra).
        assert (Int_part x <= 0) by (apply le_IZR; lra). lia. }
      rewrite E. lra.
    + destruct (base_Int_part (- x)) as [Ha Hb]. rewrite opp_IZR.
      split; intros; lra.
  - split; [exact I|]. unfold Rminus. rewrite Rplus_opp_r, Rabs_R0.
    unfold pi_err. lra.
Qed.

Lemma ideal_libm_laws : libm_laws Ideal.libm (fun _ => True) (fun x => x).
Proof.
  assert (H0 : forall x : R, (Rabs (x - x) <= lm_err)%R).
  { intros x. unfold Rminus. rewrite Rplus_opp_r, Rabs_R0. unfold lm_err.
    lra. }
  constructor;
    cbn [d_cos d_sin d_exp d_sqrt d_log10 d_atan2 Ideal.libm];
    intros; try (split; [exact I|apply H0]); exact I.
Qed.

(** ** The runs of the two programs, in real arithmetic *)

Module RunFacts.

Import Ideal IdealFacts Correlation RoundTripFacts.

Lemma parse_args_some (c : cmdline R) (b0 : toneBurst R) :
  2 <= argc c <= 6 -> exists b, parse_args c b0 = Some b.
Proof.
  intros Hargc. unfold parse_args.
  assert (E : (2 <=? argc c) && (argc c <=? 6) = true)
    by (apply andb_true_iff; rewrite !Z.leb_le; lia).
  rewrite E. eexists. reflexivity.
Qed.

(** X5: without a file name, or with too many arguments, both programs return
    -1: [tbg] writes no file and neither prints a setup or a line. *)
Theorem usage_error (c : cmdline R) (file : list Z) :
  argc c < 2 \/ 6 < argc c ->
  tbg_main (limit := LOOP_LIMIT) c = Some (-1, [], [])
  /\ tba_main (limit := LOOP_LIMIT) c file = Some (-1, [])
  /\ main_setup (limit := LOOP_LIMIT) c = None.
Proof.
  intros Hargc.
  destruct (new_ends machine_limit) as (b0 & Hnew & _).
  assert (Hp : parse_args c b0 = None).
  { unfold parse_args.
    assert (E : (2 <=? argc c) && (argc c <=? 6) = false).
    { apply andb_false_iff. rewrite !Z.leb_gt. lia. }
    rewrite E. reflexivity. }
  unfold tbg_main, tba_main, main_setup. rewrite Hnew, Hp.
  split; [reflexivity|]. split; reflexivity.
Qed.

Lemma usage_error_witness :
  tbg_main (limit := LOOP_LIMIT) cmdline_no_file = Some (-1, [], [])
  /\ tba_main (limit := LOOP_LIMIT) cmdline_no_file [] = Some (-1, []).
Proof.
  destruct (usage_error cmdline_no_file []) as (H1 & H2 & _).
  - left. cbn. lia.
  - split; [exact H1|exact H2].
Defined.

Lemma burst_bytes_length (b : toneBurst R) :
  length (burst_bytes b) = burst_size b.
Proof.
  unfold burst_bytes, burst_size. rewrite write_length. cbn [length]. lia.
Qed.

(** [tbg outfile.wav]: 201 lines, and 22050 sample pairs of silence before
    the bursts. *)
Lemma tbg_returns_witness :
  exists (b : toneBurst R) (data : list Z) (cout : list (detail R)),
    tbg_main (limit := LOOP_LIMIT) cmdline_default
    = Some (0, wave_header (getSize b) ++ repeat 0 (4 * Z.to_nat (delay b))
               ++ data, cout)
    /\ length cout = 201%nat /\ delay b = 22050.
Proof.
  destruct (new_ends machine_limit) as (b0 & Hnew & _).
  destruct (parse_args_returns cmdline_default b0) as [b Hp];
    [cbn; lia|].
  destruct (parse_args_inv _ _ _ Hnew Hp)
    as (_ & Hnb & Hsr & Hm & _ & Hlt5 & _ & Hd & _).
  cbn in Hlt5, Hd.
  destruct (Hlt5 ltac:(lia)) as [_ Hsf].
  destruct (ladder_smallest b Hsr Hm ltac:(lia)) as (b1 & Hr & _ & Hk).
  { rewrite Hsf. cbn. pose proof least_double_le_1. lra. }
  destruct (Hk (Z.to_nat (numBurst b)) ltac:(lia)) as (bk & Hnexts & _).
  destruct (tbg_returns (limit := LOOP_LIMIT) cmdline_default b0 b b1 bk
              Hnew Hp Hr Hnexts)
    as (data & cout & Hrun & _ & Hlen & Hmode).
  { pose proof machine_limit. destruct Hnb as [E|E]; rewrite E; lia. }
  exists b, data, cout. split; [exact Hrun|].
  cbn in Hmode. rewrite Hmode in Hlen. split; [exact Hlen|].
  apply Hd. lia.
Defined.

(** The channels agree on [tbg outfile.wav 0 1 250 polar]. *)
Lemma roundtrip_channels_agree_witness :
  exists (file : ofstream) (cout : list (detail R))
         (lines : list (detail R * report R)),
    tbg_main (limit := LOOP_LIMIT) cmdline_polar_250 = Some (0, file, cout)
    /\ tba_main (limit := LOOP_LIMIT) cmdline_polar_250 file
       = Some (0, lines)
    /\ length lines = 72%nat
    /\ Forall (fun line => abs2 (snd line) = abs1 (snd line)) lines.
Proof.
  destruct (new_ends machine_limit) as (b0 & Hnew & _).
  destruct (parse_args_some cmdline_polar_250 b0 ltac:(cbn; lia)) as [b Hp].
  destruct (parse_args_inv _ b0 b Hnew Hp)
    as (Hint & Hnb & Hsr & Hm & _ & _ & Hge5 & _).
  pose proof (parse_args_numBurst _ _ _ Hnew Hp) as Hnb72. cbn in Hnb72.
  specialize (Hge5 ltac:(cbn; lia)). cbn in Hge5.
  destruct (run_bursts b Hsr Hm ltac:(lia) ltac:(rewrite Hge5; lra))
    as (b1 & bk & Hr & Hnexts & _).
  destruct (reset_inv _ _ Hr) as [Hbc _].
  destruct (nexts_bursts _ _ _ Hnexts) as (bs & Hbs & _).
  rewrite Hnb72 in Hbs, Hbc.
  destruct (roundtrip_channels_agree (limit := LOOP_LIMIT) cmdline_polar_250
              b0 b b1 bs 72 Hnew Hp Hr Hbs)
    as (file & cout & lines & Hg & Ha & _ & Hlen & Hall).
  { rewrite Hbc. reflexivity. } { rewrite Hbc. unfold LONG_MAX. lia. }
  { pose proof machine_limit. lia. }
  exists file, cout, lines.
  split; [exact Hg|]. split; [exact Ha|]. split; [exact Hlen|].
  eapply Forall_impl; [|exact Hall]. intros line H. apply H.
Defined.

(** C1 on [tbg outfile.wav 0 4 440 sweep], in real arithmetic: 201
    lines. *)
Lemma roundtrip_unit_response_witness :
  exists (file : ofstream) (cout : list (detail R))
         (lines : list (detail R * report R)),
    tbg_main (limit := LOOP_LIMIT) cmdline_sweep_440 = Some (0, file, cout)
    /\ tba_main (limit := LOOP_LIMIT) cmdline_sweep_440 file = Some (0, lines)
    /\ length lines = 201%nat
    /\ Forall (fun line => unit_report (fun x : R => x) (snd line)) lines.
Proof.
  destruct (new_ends machine_limit) as (b0 & Hnew & _).
  destruct (parse_args_returns cmdline_sweep_440 b0 ltac:(cbn; lia))
    as [b Hp].
  destruct (parse_args_inv _ b0 b Hnew Hp)
    as (Hint & _ & Hsr & Hm & _ & _ & Hge5 & _ & _ & _ & Hge4).
  pose proof (parse_args_mode _ _ _ Hnew Hp) as Hnb. cbn in Hnb.
  specialize (Hge5 ltac:(cbn; lia)). cbn in Hge5.
  specialize (Hge4 ltac:(cbn; lia)). cbn in Hge4.
  destruct (run_bursts b Hsr Hm ltac:(lia) ltac:(rewrite Hge5; lra))
    as (b1 & bk & Hr & Hnexts & Hall).
  destruct (reset_inv _ _ Hr) as [Hbc Hrun].
  destruct (nexts_bursts _ _ _ Hnexts) as (bs & Hbs & Hlen & Hin).
  rewrite Hnb in Hbs, Hbc, Hlen.
  destruct (roundtrip_unit_response (limit := LOOP_LIMIT)
              (fun _ : R => True) (fun x : R => x)
              ideal_double_laws ideal_libm_laws
              cmdline_sweep_440 b0 b b1 bs 201 Hnew Hp Hr Hbs)
    as (file & cout & lines & Hg & Ha & _ & Hl & Hu).
  - rewrite Hbc. reflexivity.
  - rewrite Hbc. unfold LONG_MAX. lia.
  - pose proof machine_limit. lia.
  - rewrite Hge4. lia.
  - apply Forall_forall. intros x Hx.
    destruct (Hin x Hx) as (i & bi & Hi & Hni & ->).
    destruct (Hall i bi ltac:(lia) Hni) as [Hsm Hnf].
    pose proof (nexts_same_run _ _ _ Hni) as Hrun'.
    pose proof (nexts_calculated _ _ _ Hni (reset_calculated _ _ Hr))
      as Hcalc.
    destruct Hrun as (E1 & E2 & E3 & _ & _ & _ & E7).
    destruct Hrun' as (E1' & E2' & E3' & _ & _ & _ & E7').
    destruct (burst_shape bi Hsm Hcalc ltac:(congruence) ltac:(congruence)
                Hnf) as (Hn1 & Hn3 & Hdur).
    unfold INTERVAL in Hdur.
    assert (Ei : interval bi = interval b) by congruence.
    assert (Ea : numAvg bi = 4) by congruence.
    unfold tone_resolved. rewrite Ei, Ea.
    split; [lia|]. split; [lia|]. split; [|unfold LONG_MAX; lia].
    intros k Hk. rewrite Z.mod_small by nia. nia.
  - exists file, cout, lines.
    split; [exact Hg|]. split; [exact Ha|]. split; [exact Hl|exact Hu].
Defined.

End RunFacts.

(** ** [reset] rewinds *)

Lemma iterate_nat_commute {S : Type} (step : S -> run S) (g : S -> S) :
  (forall s r, step s = Done r -> step (g s) = Done (g r)) ->
  (forall s s', step s = More s' -> step (g s) = More (g s')) ->
  forall (n : nat) (s r : S),
    iterate_nat n step s = Done r -> iterate_nat n step (g s) = Done (g r).
Proof.
  intros Hd Hm n. induction n as [|n IH]; intros s r H; cbn [iterate_nat] in *.
  - discriminate.
  - destruct (step s) as [r'|s'|] eqn:E.
    + injection H as <-. rewrite (Hd _ _ E). reflexivity.
    + rewrite (Hm _ _ E). apply IH. exact H.
    + discriminate.
Qed.

Section Rewind.

Context {D : Type} {ops : DoubleOps D} {lm : Libm D} {limit : LoopLimit}.

Implicit Types b : toneBurst D.

(** [calc] looks at none of the three members it assigns last. *)
Lemma calc_forgets (d : Z) (a f : D) b b' :
  calc b = Some b' ->
  calc (set_factor f (set_actualFreq a (set_duration d b))) = Some b'.
Proof.
  set (g := fun x : toneBurst D =>
              set_factor f (set_actualFreq a (set_duration d x))).
  unfold calc. intros H.
  destruct (while calc_cond calc_body b) as [r|] eqn:Hw; [|discriminate].
  apply while_some_inv in Hw.
  apply (iterate_nat_commute _ g) in Hw.
  - change (set_factor f (set_actualFreq a (set_duration d b))) with (g b).
    rewrite (while_done _ _ _ _ _ Hw (le_n _)).
    injection H as <-. destruct r; reflexivity.
  - intros s r0. unfold while_step.
    replace (calc_cond (g s)) with (calc_cond s) by (destruct s; reflexivity).
    destruct (calc_cond s); [discriminate|]. intros [= <-]. reflexivity.
  - intros s s'. unfold while_step.
    replace (calc_cond (g s)) with (calc_cond s) by (destruct s; reflexivity).
    destruct (calc_cond s); [|discriminate].
    unfold calc_body. intros [= <-]. destruct s; reflexivity.
Qed.

(** On every object a [main] can hold, the number of bursts is the one of
    the mode. *)
Lemma reachable_numBurst b :
  reachable b -> numBurst b = (if sweep b then 201 else 72).
Proof.
  induction 1 as [b Hnew|s b Hb IH|v b Hb IH|v b Hb IH|v b Hb IH
                 |b b' Hb IH Hr|b r b' Hb IH Hn].
  - apply toneBurst_new_counts in Hnew.
    destruct Hnew as (_ & _ & _ & -> & _ & -> & _). reflexivity.
  - destruct b, s; reflexivity.
  - destruct b; exact IH.
  - destruct b; exact IH.
  - destruct b; exact IH.
  - unfold reset in Hr. apply calc_setup in Hr.
    destruct Hr as (_ & _ & _ & -> & _ & _ & _ & _ & -> & _).
    destruct b; cbn in *. destruct sweep0; reflexivity.
  - unfold next in Hn. destruct (0 <? burstCount b).
    + destruct (sweep b) eqn:Hs.
      * destruct (calc _) as [b1|] eqn:Hc; [|discriminate].
        injection Hn as <- <-. apply calc_setup in Hc.
        destruct Hc as (_ & _ & _ & Hnb & _ & _ & _ & _ & Hsw & _).
        destruct b, b1; cbn in *. rewrite Hnb, Hsw, Hs. exact IH.
      * injection Hn as <- <-. destruct b; cbn in *. rewrite Hs. exact IH.
    + injection Hn as <- <-. exact IH.
Qed.

Lemma next_numBurst b (r : bool) b' :
  next b = Some (r, b') -> numBurst b' = numBurst b.
Proof.
  unfold next. intros H. destruct (0 <? burstCount b).
  - destruct (sweep b).
    + destruct (calc _) as [b1|] eqn:Hcalc; [|discriminate].
      injection H as <- <-. apply calc_setup in Hcalc.
      destruct Hcalc as (_ & _ & _ & Hnb & _).
      destruct b, b1; cbn in *. exact Hnb.
    + injection H as <- <-. destruct b; reflexivity.
  - injection H as <- <-. reflexivity.
Qed.

Lemma nexts_numBurst (k : nat) : forall b bk,
  nexts k b = Some bk -> numBurst bk = numBurst b.
Proof.
  induction k as [|k IH]; intros b bk H; cbn [nexts] in H.
  - injection H as <-. reflexivity.
  - destruct (next b) as [[[|] b']|] eqn:Hn; try discriminate.
    rewrite (IH _ _ H). eapply next_numBurst. exact Hn.
Qed.

(** X8: [reset()] after any number of calls of [next()] that returned [true],
    on an object a [main] can hold: the object is the one the first
    [reset()] made, every member of it, so the bursts that follow are the
    same again.  It is what lets [tba] go through the bursts [tbg] went
    through. *)
Theorem reset_rewinds b b1 (k : nat) bk :
  reachable b -> reset b = Some b1 -> nexts k b1 = Some bk ->
  reset bk = Some b1.
Proof.
  intros Hreach Hr Hk.
  pose proof (reachable_numBurst b Hreach) as Hnb.
  destruct (reset_inv _ _ Hr) as [_ Hrun].
  pose proof (nexts_same_run _ _ _ Hk) as Hrun'.
  pose proof (nexts_numBurst _ _ _ Hk) as Hnbk.
  assert (Hnb1 : numBurst b1 = (if sweep b then 201 else 72)).
  { unfold reset in Hr. apply calc_setup in Hr.
    destruct Hr as (_ & _ & _ & -> & _).
    destruct b; cbn. destruct sweep0; reflexivity. }
  assert (E : reset_members bk
              = set_factor (factor bk)
                  (set_actualFreq (actualFreq bk)
                     (set_duration (duration bk) (reset_members b)))).
  { destruct Hrun as (E1 & E2 & E3 & E4 & E5 & E6 & E7).
    destruct Hrun' as (F1 & F2 & F3 & F4 & F5 & F6 & F7).
    rewrite Hnb1 in Hnbk.
    destruct b, b1, bk; cbn in *. subst.
    unfold reset_members; cbn. destruct sweep0; reflexivity. }
  unfold reset. rewrite E. apply calc_forgets. exact Hr.
Qed.

(** X16: [showSetup] comes before [reset()].  In polar mode with a start
    frequency given, the setup on the console has that start frequency
    but the end frequency [init] set, 1000, with 72 steps and the interval
    of 44100; [reset()] then makes the end frequency the start frequency,
    at which all the bursts are. *)
Theorem polar_setup_end_frequency (c : cmdline D) b0 b b1 :
  toneBurst_new = Some b0 -> parse_args c b0 = Some b ->
  argc c = 6 -> argv5_polar c = true -> reset b = Some b1 ->
  exists s : setup D,
    main_setup c = Some s
    /\ row_mode s = false /\ row_startFreq s = argv4 c
    /\ row_endFreq s = d_of_long 1000
    /\ row_numSteps s = 72 /\ row_interval s = 44100
    /\ row_averaging s = argv3 c /\ row_delay s = argv2 c
    /\ stopFreq b1 = argv4 c /\ nominalFreq b1 = argv4 c.
Proof.
  intros Hnew Hp H6 Hpolar Hr.
  pose proof (toneBurst_new_counts _ Hnew) as (_ & Hi & _).
  assert (E : b = set_delay (argv2 c)
                    (set_numAvg (argv3 c)
                       (set_startFreq (argv4 c) (init false b0)))).
  { unfold parse_args in Hp. rewrite H6, Hpolar in Hp.
    change (Some (set_delay (argv2 c)
                    (set_numAvg (argv3 c)
                       (set_startFreq (argv4 c) (init false b0))))
            = Some b) in Hp.
    congruence. }
  unfold main_setup. rewrite Hnew, Hp. eexists. split; [reflexivity|].
  unfold reset in Hr. apply calc_setup in Hr.
  destruct Hr as (_ & _ & _ & _ & _ & Hnf & Hsf & _).
  rewrite Hnf, Hsf, E. clear - Hi.
  destruct b0 as [sr du iv bm nb bc nc nf af sf fi fa sw st de na].
  cbn [interval] in Hi. subst iv.
  split; [reflexivity|]. split; [reflexivity|]. split; [reflexivity|].
  split; [reflexivity|]. split; [reflexivity|]. split; [reflexivity|].
  split; [reflexivity|]. split; reflexivity.
Qed.

End Rewind.

(** ** The signal, in real arithmetic *)

Module SignalFacts.

Import Ideal IdealFacts Correlation RoundTripFacts.

(** [reset] rewinds the sweep from 100 Hz after five bursts. *)
Lemma reset_rewinds_witness :
  exists b0 b1 bk : toneBurst R,
    toneBurst_new (limit := LOOP_LIMIT) = Some b0
    /\ reset (limit := LOOP_LIMIT) b0 = Some b1
    /\ nexts (limit := LOOP_LIMIT) 5 b1 = Some bk
    /\ reset (limit := LOOP_LIMIT) bk = Some b1.
Proof.
  destruct (new_ends machine_limit) as (b0 & Hnew & Hs0 & _).
  destruct (ladder_smallest b0) as (b1 & Hr & _ & Hk).
  - apply Hs0.
  - apply Hs0.
  - destruct Hs0 as (_ & _ & _ & -> & _). cbn. lia.
  - destruct Hs0 as (_ & _ & _ & _ & _ & _ & _ & _ & _ & -> & _).
    cbn. pose proof least_double_le_1. lra.
  - destruct (Hk 5%nat) as (bk & Hnexts & _).
    + destruct Hs0 as (_ & _ & _ & -> & _). cbn. lia.
    + exists b0, b1, bk. split; [exact Hnew|]. split; [exact Hr|].
      split; [exact Hnexts|].
      exact (reset_rewinds b0 b1 5 bk (reach_new b0 Hnew) Hr Hnexts).
Defined.

(** The setup of [tbg outfile.wav 0 1 250 polar]: start 250, end 1000. *)
Lemma polar_setup_end_frequency_witness :
  exists s : setup R,
    main_setup (limit := LOOP_LIMIT) cmdline_polar_250 = Some s
    /\ row_startFreq s = 250%R /\ row_endFreq s = 1000%R.
Proof.
  destruct (new_ends machine_limit) as (b0 & Hnew & _).
  set (b := set_delay 0
              (set_numAvg 1 (set_startFreq 250%R (init false b0)))).
  assert (Hp : parse_args cmdline_polar_250 b0 = Some b) by reflexivity.
  destruct (parse_args_inv cmdline_polar_250 b0 b Hnew Hp)
    as (_ & _ & Hsr & Hm & _ & _ & Hge5 & _).
  specialize (Hge5 ltac:(cbn; lia)). cbn [argv4 cmdline_polar_250] in Hge5.
  destruct (reset_below_10kHz machine_limit b Hsr Hm
              ltac:(rewrite Hge5; lra)) as (b1 & Hr & _).
  destruct (polar_setup_end_frequency (limit := LOOP_LIMIT) cmdline_polar_250
              b0 b b1 Hnew Hp eq_refl eq_refl Hr)
    as (s & Hs & _ & Hst & Hen & _).
  exists s. split; [exact Hs|]. split; [exact Hst|exact Hen].
Defined.

End SignalFacts.

(** ** The bursts on the console *)

Module ConsoleFacts.

Import Ideal IdealFacts Correlation RoundTripFacts.


End ConsoleFacts.

(** ** The header and the file *)

Lemma read_skip_header (h data : list Z) :
  length h = 44%nat ->
  read_skip 8 (read_skip 24 (read_skip 12 (mkIfstream (h ++ data) false)))
  = mkIfstream data false.
Proof.
  intros H.
  do 44 (destruct h as [|? h]; [discriminate|]).
  destruct h; [reflexivity|discriminate].
Qed.

Section HeaderSizes.

Context {D : Type} {ops : DoubleOps D} {lm : Libm D} {limit : LoopLimit}.

(** X14: [tba] reads the header and looks at it no more: on two files that
    differ in their first 44 bytes only it returns the same status and
    prints the same lines.  Nothing in the header, not the identifiers, not
    the sample rate, not the sizes, has a part in the analysis. *)
Theorem tba_ignores_header (c : cmdline D) (h1 h2 data : list Z) :
  length h1 = 44%nat -> length h2 = 44%nat ->
  tba_main c (h1 ++ data) = tba_main c (h2 ++ data).
Proof.
  intros H1 H2. unfold tba_main.
  rewrite (read_skip_header h1 data H1), (read_skip_header h2 data H2).
  reflexivity.
Qed.


End HeaderSizes.

Module HeaderFacts.

Import Ideal IdealFacts.

(** [tba] on the header [tbg] writes and on 44 zero bytes. *)
Lemma tba_ignores_header_witness :
  tba_main (limit := LOOP_LIMIT) cmdline_default (wave_header 17816400 ++ [])
  = tba_main (limit := LOOP_LIMIT) cmdline_default (repeat 0 44 ++ []).
Proof.
  apply (tba_ignores_header (limit := LOOP_LIMIT) cmdline_default
           (wave_header 17816400) (repeat 0 44) []); reflexivity.
Defined.


End HeaderFacts.
